(** * Maze visualiser: grid model, plug-in registries, generators, solvers and
    the playback driver, embedded from the Python sources.

    Conventions of the embedding:
    - a coordinate is a pair [(x, y)] of Python integers, here [Z * Z];
    - [maze.grid] (a numpy array of shape [(h, w)]) is a list of rows, read
      as [grid[y, x]];
    - a Python generator is a step machine whose emissions are collected,
      in order, in a list;
    - [random] is an explicit stream of draws threaded through the code. *)

From Stdlib Require Import ZArith QArith Lia Ascii.
From stdpp Require Import gmap strings list sorting pretty.

Local Open Scope Z_scope.
Set Warnings "-clear-no-such-hyp".

(** ** maze/maze.py *)

Module Maze.

Record t := mk { w : Z; h : Z; grid : list (list Z) }.

(** [Maze(w, h)]: [ValueError] for a non-positive dimension, otherwise a
      zero-filled array of [h] rows and [w] columns. *)
Definition new (w h : Z) : option t :=
    if bool_decide (w ≤ 0 ∨ h ≤ 0) then None
    else Some (mk w h (replicate (Z.to_nat h) (replicate (Z.to_nat w) 0))).

(** [grid[y, x]] for coordinates inside the array. *)
Definition get (g : list (list Z)) (x y : Z) : Z :=
    default 0 (g !! Z.to_nat y ≫= λ row, row !! Z.to_nat x).

(** [grid[y, x] = v] for coordinates inside the array. *)
Definition set (g : list (list Z)) (x y v : Z) : list (list Z) :=
    alter (λ row, <[Z.to_nat x := v]> row) (Z.to_nat y) g.


Definition in_bounds (m : t) (c : Z * Z) : Prop :=
    0 ≤ c.1 < w m ∧ 0 ≤ c.2 < h m.

#[global] Instance in_bounds_dec m c : Decision (in_bounds m c).
Proof. unfold in_bounds. apply _. Defined.

End Maze.

(** ** maze/generator.py and maze/solver.py: the two registries *)

Inductive RegistryError :=
| DuplicateName (key : string)   (* ValueError raised by [register] *)
| UnknownName (key : string).    (* KeyError raised by [get_*] *)

(** Python's [<=] on [str], lexicographic by code point, and [sorted] on a
    list of strings. *)
Definition str_le (a b : string) : Prop := String.leb a b = true.

#[global] Instance str_le_dec a b : Decision (str_le a b).
Proof. unfold str_le. apply _. Defined.

Definition sorted (names : list string) : list string :=
  merge_sort str_le names.

(** A plug-in instance: the [name] attribute and the callable itself. *)
Record Plugin (I : Type) := { name : string; call : I }.
Arguments name {I} _.
Arguments call {I} _.

Module GeneratorRegistry.
Section Gen.
Context {I : Type}.

(** [register(cls)]: the result is the registry after the call together
      with the exception raised, if any. *)
Definition register (inst : Plugin I) (_Registry : gmap string (Plugin I))
    : gmap string (Plugin I) * option RegistryError :=
    let key := name inst in
    if bool_decide (key ∈ dom _Registry)
    then (_Registry, Some (DuplicateName key))
    else (<[key := inst]> _Registry, None).

Definition get_generator (nm : string) (_Registry : gmap string (Plugin I))
    : Plugin I + RegistryError :=
    match _Registry !! nm with
    | Some inst => inl inst
    | None => inr (UnknownName nm)
    end.

(** [list_generators()]: [sorted] over the keys of the dict. *)
Definition list_generators (_Registry : gmap string (Plugin I))
    : list string :=
    sorted (elements (dom _Registry)).
End Gen.
End GeneratorRegistry.

Module SolverRegistry.
Section Sol.
Context {I : Type}.

Definition register (inst : Plugin I) (_Registry : gmap string (Plugin I))
    : gmap string (Plugin I) * option RegistryError :=
    let key := name inst in
    if bool_decide (key ∈ dom _Registry)
    then (_Registry, Some (DuplicateName key))
    else (<[key := inst]> _Registry, None).

Definition get_solver (nm : string) (_Registry : gmap string (Plugin I))
    : Plugin I + RegistryError :=
    match _Registry !! nm with
    | Some inst => inl inst
    | None => inr (UnknownName nm)
    end.

(** [list_solvers()] *)
Definition list_solvers (_Registry : gmap string (Plugin I))
    : list string :=
    sorted (elements (dom _Registry)).
End Sol.
End SolverRegistry.

(** ** The [random] module: draws are read off an explicit stream *)

Inductive Exn := IndexError | KeyError | ValueError.

(** How a run of a Python generator ends: by exhaustion ([Ok]), by an
    exception raised out of a step, or, for the recursion bound of the
    embedding only, [NoFuel]. *)
Inductive Res (A : Type) :=
| Ok (a : A)
| Raise (e : Exn)
| NoFuel.
Arguments Ok {A} _.
Arguments Raise {A} _.
Arguments NoFuel {A}.

(** An edit [(x, y, value)] as the generators yield it. *)
Abbreviation Edit := (Z * Z * Z)%type.

(** A generator body: reads random draws, emits edits, ends in a [Res]. *)
Definition G (A : Type) : Type := list nat → list Edit * list nat * Res A.

Definition gret {A} (a : A) : G A := λ r, ([], r, Ok a).

Definition gbind {A B} (m : G A) (k : A → G B) : G B := λ r,
  match m r with
  | (out, r1, Ok a) =>
      match k a r1 with (out2, r2, res) => (out ++ out2, r2, res) end
  | (out, r1, Raise e) => (out, r1, Raise e)
  | (out, r1, NoFuel) => (out, r1, NoFuel)
  end.

#[global] Instance G_ret : MRet G := @gret.
#[global] Instance G_bind : MBind G := λ A B k m, gbind m k.

(** [yield e] *)
Definition gyield (e : Edit) : G unit := λ r, ([e], r, Ok tt).

Definition gno_fuel {A} : G A := λ r, ([], r, NoFuel).

(** [random.choice(seq)]: [IndexError] on an empty sequence, otherwise the
    element the next draw selects. *)
Definition choice {A} (seq : list A) : G A := λ r,
  match seq with
  | [] => ([], r, Raise IndexError)
  | a :: _ =>
      match r with
      | [] => ([], [], Ok a)
      | n :: r' => ([], r', Ok (nth (n mod length seq)%nat seq a))
      end
  end.

(** [for i in seq: body(i)] *)
Fixpoint gfor {A} (seq : list A) (body : A → G unit) : G unit :=
  match seq with
  | [] => gret tt
  | i :: seq' => body i;; gfor seq' body
  end.

(** [range(a, b)] *)
Definition range (a b : Z) : list Z := seqZ a (b - a).

(** ** algorithms/generators/recursive_division.py *)

Module RecursiveDivision.

Definition _HORIZONTAL := true.
Definition _VERTICAL := false.

Definition _pick_orientation (w h : Z) : G bool :=
  if bool_decide (h < w) then gret _VERTICAL
  else if bool_decide (w < h) then gret _HORIZONTAL
  else choice [_HORIZONTAL; _VERTICAL].

Definition _split_horizontal (_divide : Z → Z → Z → Z → G unit)
    (x y w h : Z) : G unit :=
  wall_y ← choice (filter (λ yy, yy `mod` 2 = 0) (range (y + 1) (y + h - 1)));
  gap_x ← choice (filter (λ xx, xx `mod` 2 = 1) (range x (x + w)));
  gfor (range x (x + w))
       (λ xx, if bool_decide (xx ≠ gap_x) then gyield (xx, wall_y, 0)
              else gret tt);;
  _divide x y w (wall_y - y);;
  _divide x (wall_y + 1) w (y + h - (wall_y + 1)).

Definition _split_vertical (_divide : Z → Z → Z → Z → G unit)
    (x y w h : Z) : G unit :=
  wall_x ← choice (filter (λ xx, xx `mod` 2 = 0) (range (x + 1) (x + w - 1)));
  gap_y ← choice (filter (λ yy, yy `mod` 2 = 1) (range y (y + h)));
  gfor (range y (y + h))
       (λ yy, if bool_decide (yy ≠ gap_y) then gyield (wall_x, yy, 0)
              else gret tt);;
  _divide x y (wall_x - x) h;;
  _divide (wall_x + 1) y (x + w - (wall_x + 1)) h.

(** The recursion of [_divide] through the two split functions is bounded
    by [fuel]; every call shrinks [w] or [h]. *)
Fixpoint _divide (fuel : nat) (x y w h : Z) : G unit :=
  match fuel with
  | O => gno_fuel
  | S fuel' =>
      if bool_decide (w < 3 ∨ h < 3) then gret tt
      else
        horizontal ← _pick_orientation w h;
        if horizontal : bool
        then _split_horizontal (_divide fuel') x y w h
        else _split_vertical (_divide fuel') x y w h
  end.

(** [RecursiveDivision.__call__(width, height)] *)
Definition __call__ (width height : Z) : G unit :=
  gfor (range 0 height)
       (λ y, gfor (range 0 width) (λ x, gyield (x, y, 1)));;
  gfor (range 0 width)
       (λ x, gyield (x, 0, 0);; gyield (x, height - 1, 0));;
  gfor (range 0 height)
       (λ y, gyield (0, y, 0);; gyield (width - 1, y, 0));;
  _divide (Z.to_nat (width + height)) 0 0 width height;;
  gyield (0, if bool_decide (height > 2) then 1 else 0, 1);;
  gyield (width - 1,
          if bool_decide (height > 2) then height - 2 else height - 1, 1).

End RecursiveDivision.

(** The driver's write [maze.grid[y, x] = action] for each edit of a
    drained generator, in emission order. *)
Definition apply_edits (g : list (list Z)) (edits : list Edit)
  : list (list Z) :=
  foldl (λ g e, match e with (x, y, action) => Maze.set g x y action end)
        g edits.

(** The grid a freshly constructed [w] by [h] maze holds once a generator
    run has been drained into it. *)
Definition generated (w h : Z) (run : list Edit * list nat * Res unit)
  : option Maze.t :=
  match Maze.new w h with
  | Some m => Some (Maze.mk w h (apply_edits (Maze.grid m) run.1.1))
  | None => None
  end.

(** ** utils/grid_helpers.py *)

Abbreviation Node := (Z * Z)%type.
Abbreviation Path := (list Node).

Definition _FOUR_DIRS : list (Z * Z) := [(1, 0); (-1, 0); (0, 1); (0, -1)].

Definition neighbours (x y width height : Z) : list Node :=
  foldl (λ result d,
           let nx := x + d.1 in
           let ny := y + d.2 in
           if bool_decide (0 ≤ nx < width ∧ 0 ≤ ny < height)
           then result ++ [(nx, ny)] else result)
        [] _FOUR_DIRS.

(** ** Solvers as step machines

    One [Step] is one turn of the solver's [while] loop.  [drain] collects
    what the consumer of the generator sees: the yielded snapshots, in
    order, and how the generator ended. *)

Inductive Stop :=
| Found            (* [return] right after yielding the path to the goal *)
| Exhausted        (* the [while] loop ran out of work *)
| Raised (e : Exn)
| OutOfFuel.

Inductive Step (S : Type) :=
| Halt (r : Stop)
| Continue (s : S)
| Yield (p : Path) (s : S)
| YieldReturn (p : Path).
Arguments Halt {S} _.
Arguments Continue {S} _.
Arguments Yield {S} _ _.
Arguments YieldReturn {S} _.

Fixpoint drain {S} (step : S → Step S) (fuel : nat) (s : S)
  : list Path * Stop :=
  match fuel with
  | O => ([], OutOfFuel)
  | S fuel' =>
      match step s with
      | Halt r => ([], r)
      | Continue s' => drain step fuel' s'
      | Yield p s' =>
          let out := drain step fuel' s' in (p :: out.1, out.2)
      | YieldReturn p => ([p], Found)
      end
  end.

(** [_reconstruct(parent, node)], the same static method in bfs.py, dfs.py
    and dijkstra.py: follow the parent links up to the [None] of the root,
    then reverse.  [parent[node]] on a missing key is a [KeyError]; [fuel]
    bounds the walk. *)
Fixpoint _reconstruct_walk (fuel : nat) (parent : gmap Node (option Node))
    (node : option Node) : Res Path :=
  match node with
  | None => Ok []
  | Some n =>
      match fuel with
      | O => NoFuel
      | S fuel' =>
          match parent !! n with
          | None => Raise KeyError
          | Some up =>
              match _reconstruct_walk fuel' parent up with
              | Ok path => Ok (n :: path)
              | other => other
              end
          end
      end
  end.

Definition _reconstruct (parent : gmap Node (option Node)) (node : Node)
  : Res Path :=
  match _reconstruct_walk (S (size parent)) parent (Some node) with
  | Ok path => Ok (reverse path)
  | other => other
  end.

(** The loop state of BFS and of DFS: the work list ([queue] in bfs.py,
    [stack] in dfs.py), the parent map and the visited set. *)
Record Work := mkWork {
  work : list Node;
  parent : gmap Node (option Node);
  visited : gset Node
}.

(** A bound on the turns of a solver's loop on maze [m]. *)
Definition solver_fuel (m : Maze.t) : nat :=
  (5 * (Z.to_nat (Maze.w m) * Z.to_nat (Maze.h m) + 1) + 2)%nat.

(** ** algorithms/solvers/bfs.py *)

Module BFS.

(** Body of [for nx, ny in neighbours(...)]; [queue.append] adds at the
    back, [queue.popleft] takes the front. *)
Definition visit (m : Maze.t) (current : Node) (s : Work) (n : Node) : Work :=
  let '(nx, ny) := n in
  if bool_decide (Maze.get (Maze.grid m) nx ny = 0 ∨ (nx, ny) ∈ visited s)
  then s
  else mkWork (work s ++ [(nx, ny)])
              (<[(nx, ny) := Some current]> (parent s))
              ({[(nx, ny)]} ∪ visited s).

Definition step (m : Maze.t) (goal : Node) (s : Work) : Step Work :=
  match work s with
  | [] => Halt Exhausted
  | current :: queue =>
      match _reconstruct (parent s) current with
      | Ok path =>
          if bool_decide (current = goal) then YieldReturn path
          else Yield path
                 (foldl (visit m current)
                        (mkWork queue (parent s) (visited s))
                        (neighbours current.1 current.2 (Maze.w m) (Maze.h m)))
      | Raise e => Halt (Raised e)
      | NoFuel => Halt OutOfFuel
      end
  end.

Definition init (start : Node) : Work :=
  mkWork [start] {[start := None]} {[start]}.

Definition __call__ (m : Maze.t) (start goal : Node) : list Path * Stop :=
  drain (step m goal) (solver_fuel m) (init start).

End BFS.

(** ** algorithms/solvers/dfs.py *)

Module DFS.

(** The Python list [stack] is kept top first: [stack.append] is a cons and
    [stack.pop()] takes the head. *)
Definition visit (m : Maze.t) (current : Node) (s : Work) (n : Node) : Work :=
  let '(nx, ny) := n in
  if bool_decide (Maze.get (Maze.grid m) nx ny = 0 ∨ (nx, ny) ∈ visited s)
  then s
  else mkWork ((nx, ny) :: work s)
              (<[(nx, ny) := Some current]> (parent s))
              ({[(nx, ny)]} ∪ visited s).

Definition step (m : Maze.t) (goal : Node) (s : Work) : Step Work :=
  match work s with
  | [] => Halt Exhausted
  | current :: stack =>
      match _reconstruct (parent s) current with
      | Ok path =>
          if bool_decide (current = goal) then YieldReturn path
          else Yield path
                 (foldl (visit m current)
                        (mkWork stack (parent s) (visited s))
                        (neighbours current.1 current.2 (Maze.w m) (Maze.h m)))
      | Raise e => Halt (Raised e)
      | NoFuel => Halt OutOfFuel
      end
  end.

Definition init (start : Node) : Work :=
  mkWork [start] {[start := None]} {[start]}.

Definition __call__ (m : Maze.t) (start goal : Node) : list Path * Stop :=
  drain (step m goal) (solver_fuel m) (init start).

End DFS.

(** ** heapq on tuples

    A heap of tuples is a bag; [heappop] hands out its least tuple in
    Python's tuple order, which is total on the tuples used here, so the
    popped value and the bag left behind do not depend on the array layout
    of the heap. *)

Definition heappush {A} (pq : list A) (item : A) : list A := pq ++ [item].

Fixpoint heappop {A} (lt : A → A → bool) (pq : list A) : option (A * list A) :=
  match pq with
  | [] => None
  | e :: pq' =>
      match heappop lt pq' with
      | None => Some (e, [])
      | Some (least, rest) =>
          if lt least e then Some (least, e :: rest) else Some (e, pq')
      end
  end.

(** Python's [<] on coordinates, on paths and on the heap entries. *)
Definition node_lt (a b : Node) : bool :=
  bool_decide (a.1 < b.1 ∨ (a.1 = b.1 ∧ a.2 < b.2)).

Fixpoint path_lt (p q : Path) : bool :=
  match p, q with
  | _, [] => false
  | [], _ :: _ => true
  | a :: p', b :: q' =>
      node_lt a b || (bool_decide (a = b) && path_lt p' q')
  end.

(** ** algorithms/solvers/dijkstra.py *)

Module Dijkstra.

Record state := mk {
  dist : gmap Node Z;
  parent : gmap Node (option Node);
  pq : list (Z * Node);
  visited : gset Node
}.

Definition entry_lt (a b : Z * Node) : bool :=
  bool_decide (a.1 < b.1) || (bool_decide (a.1 = b.1) && node_lt a.2 b.2).

Definition relax (m : Maze.t) (cost : Z) (current : Node) (s : state)
    (n : Node) : state :=
  let '(nx, ny) := n in
  if bool_decide (Maze.get (Maze.grid m) nx ny = 0) then s
  else
    let new_cost := cost + 1 in
    let better :=
      match dist s !! (nx, ny) with
      | None => true
      | Some d => bool_decide (new_cost < d)
      end in
    if better
    then mk (<[(nx, ny) := new_cost]> (dist s))
            (<[(nx, ny) := Some current]> (parent s))
            (heappush (pq s) (new_cost, (nx, ny)))
            (visited s)
    else s.

Definition step (m : Maze.t) (goal : Node) (s : state) : Step state :=
  match heappop entry_lt (pq s) with
  | None => Halt Exhausted
  | Some ((cost, current), pq') =>
      if bool_decide (current ∈ visited s)
      then Continue (mk (dist s) (parent s) pq' (visited s))
      else
        let visited' := {[current]} ∪ visited s in
        match _reconstruct (parent s) current with
        | Ok path =>
            if bool_decide (current = goal) then YieldReturn path
            else Yield path
                   (foldl (relax m cost current)
                          (mk (dist s) (parent s) pq' visited')
                          (neighbours current.1 current.2
                                      (Maze.w m) (Maze.h m)))
        | Raise e => Halt (Raised e)
        | NoFuel => Halt OutOfFuel
        end
  end.

Definition init (start : Node) : state :=
  mk {[start := 0]} {[start := None]} [(0, start)] ∅.

Definition __call__ (m : Maze.t) (start goal : Node) : list Path * Stop :=
  drain (step m goal) (solver_fuel m) (init start).

End Dijkstra.

(** ** algorithms/solvers/astar.py *)

Module AStar.

(** A heap entry [(f, g, node, path)]. *)
Definition entry : Type := Z * Z * Node * Path.

Record state := mk { pq : list entry; visited : gset Node }.

Definition entry_lt (a b : entry) : bool :=
  match a, b with
  | (fa, ga, na, pa), (fb, gb, nb, pb) =>
      bool_decide (fa < fb)
      || (bool_decide (fa = fb)
          && (bool_decide (ga < gb)
              || (bool_decide (ga = gb)
                  && (node_lt na nb
                      || (bool_decide (na = nb) && path_lt pa pb)))))
  end.

Definition heuristic (goal : Node) (x y : Z) : Z :=
  Z.abs (x - goal.1) + Z.abs (y - goal.2).

Definition push (m : Maze.t) (goal : Node) (cost : Z) (path : Path)
    (s : state) (n : Node) : state :=
  let '(nx, ny) := n in
  if bool_decide (Maze.get (Maze.grid m) nx ny = 0 ∨ (nx, ny) ∈ visited s)
  then s
  else
    let new_cost := cost + 1 in
    mk (heappush (pq s)
                 (new_cost + heuristic goal nx ny, new_cost, (nx, ny),
                  path ++ [(nx, ny)]))
       (visited s).

Definition step (m : Maze.t) (goal : Node) (s : state) : Step state :=
  match heappop entry_lt (pq s) with
  | None => Halt Exhausted
  | Some ((_, cost, (x, y), path), pq') =>
      if bool_decide ((x, y) ∈ visited s)
      then Continue (mk pq' (visited s))
      else
        let visited' := {[(x, y)]} ∪ visited s in
        if bool_decide ((x, y) = goal) then YieldReturn path
        else Yield path
               (foldl (push m goal cost path) (mk pq' visited')
                      (neighbours x y (Maze.w m) (Maze.h m)))
  end.

Definition init (goal start : Node) : state :=
  mk [(heuristic goal start.1 start.2, 0, start, [start])] ∅.

Definition __call__ (m : Maze.t) (start goal : Node) : list Path * Stop :=
  drain (step m goal) (solver_fuel m) (init goal start).

End AStar.

(** ** Python lists and the state the other generators thread

    [l[i]] on a Python list: an index from [-len(l)] up to [-1] counts from
    the end, an index outside [-len(l) .. len(l) - 1] is an [IndexError]. *)

Definition py_index {A} (l : list A) (i : Z) : option nat :=
  let n := Z.of_nat (length l) in
  if bool_decide (0 ≤ i < n) then Some (Z.to_nat i)
  else if bool_decide (- n ≤ i < 0) then Some (Z.to_nat (n + i))
  else None.

#[global] Instance Res_ret : MRet Res := @Ok.
#[global] Instance Res_bind : MBind Res := λ A B k m,
  match m with
  | Ok a => k a
  | Raise e => Raise e
  | NoFuel => NoFuel
  end.

(** [l[i]] *)
Definition getitem {A} (l : list A) (i : Z) : Res A :=
  match py_index l i ≫= λ k, l !! k with
  | Some a => Ok a
  | None => Raise IndexError
  end.

(** [l[i] = v] *)
Definition setitem {A} (l : list A) (i : Z) (v : A) : Res (list A) :=
  match py_index l i with
  | Some k => Ok (<[k := v]> l)
  | None => Raise IndexError
  end.

(** [l.pop(i)] *)
Definition pop {A} (l : list A) (i : Z) : Res (A * list A) :=
  match py_index l i ≫= λ k, (λ a, (a, delete k l)) <$> l !! k with
  | Some r => Ok r
  | None => Raise IndexError
  end.

(** [visited[y][x]] and [visited[y][x] = True] on a list of rows. *)
Definition is_visited (visited : list (list bool)) (x y : Z) : Res bool :=
  row ← getitem visited y; getitem row x.

Definition mark_visited (visited : list (list bool)) (x y : Z)
  : Res (list (list bool)) :=
  row ← getitem visited y;
  row' ← setitem row x true;
  setitem visited y row'.

(** A computation that reads no draw and emits nothing, inside a
    generator body. *)
Definition glift {A} (m : Res A) : G A := λ r, ([], r, m).

(** [random.randrange(n)]: [ValueError] for an empty range. *)
Definition randrange (n : Z) : G Z := λ r,
  if bool_decide (n ≤ 0) then ([], r, Raise ValueError)
  else
    match r with
    | [] => ([], [], Ok 0)
    | k :: r' => ([], r', Ok (Z.of_nat k `mod` n))
    end.

(** [random.shuffle(x)]: for [i] from [len(x) - 1] down to [1], exchange
    [x[i]] with [x[j]] for a drawn [j] in [0 .. i]. *)
Definition swap {A} (l : list A) (i j : nat) : list A :=
  match l !! i, l !! j with
  | Some a, Some b => <[i := b]> (<[j := a]> l)
  | _, _ => l
  end.

Fixpoint shuffle_from {A} (i : nat) (x : list A) : G (list A) :=
  match i with
  | O => mret x
  | S i' =>
      j ← randrange (Z.of_nat i + 1);
      shuffle_from i' (swap x i (Z.to_nat j))
  end.

Definition shuffle {A} (x : list A) : G (list A) :=
  shuffle_from (length x - 1) x.

(** [for i in seq: ...] with the loop's variables passed along. *)
Fixpoint gfold {A S} (seq : list A) (body : S → A → G S) (s : S) : G S :=
  match seq with
  | [] => mret s
  | i :: seq' => s' ← body s i; gfold seq' body s'
  end.

(** [range(a, b, step)] for a positive [step]. *)
Definition range_step (a b step : Z) : list Z :=
  (λ k, a + k * step) <$> seqZ 0 ((b - a + step - 1) `div` step).

(** ** algorithms/generators/dfs_backtracking.py *)

Module DFSBacktracker.

Definition _TWO_STEP_MOVES : list (Z * Z) := [(2, 0); (-2, 0); (0, 2); (0, -2)].

Definition _ensure_odd (w h : Z) : Z * Z :=
  (if bool_decide (w `mod` 2 = 0) then w - 1 else w,
   if bool_decide (h `mod` 2 = 0) then h - 1 else h).

Definition _unvisited_two_step_neighbours (x y w h : Z)
    (visited : list (list bool)) : Res (list Node) :=
  foldl (λ acc d,
           nbrs ← acc;
           let nx := x + d.1 in
           let ny := y + d.2 in
           if bool_decide (0 ≤ nx < w ∧ 0 ≤ ny < h)
           then
             seen ← is_visited visited nx ny;
             if seen : bool then mret nbrs else mret (nbrs ++ [(nx, ny)])
           else mret nbrs)
        (Ok []) _TWO_STEP_MOVES.

(** The [while stack:] loop; the Python list [stack] is kept top first.
    [fuel] bounds the number of turns. *)
Fixpoint carve (fuel : nat) (w h : Z) (visited : list (list bool))
    (stack : list Node) : G unit :=
  match fuel with
  | O => gno_fuel
  | S fuel' =>
      match stack with
      | [] => mret tt
      | (x, y) :: below =>
          candidates ←
            glift (_unvisited_two_step_neighbours x y w h visited);
          if bool_decide (candidates = [])
          then carve fuel' w h visited below
          else
            n ← choice candidates;
            visited ← glift (mark_visited visited n.1 n.2);
            let wall_x := (x + n.1) `div` 2 in
            let wall_y := (y + n.2) `div` 2 in
            gyield (wall_x, wall_y, 1);;
            gyield (n.1, n.2, 1);;
            carve fuel' w h visited (n :: stack)
      end
  end.

(** [DFSBacktracker.__call__(width, height)] *)
Definition __call__ (width height : Z) : G unit :=
  let '(w, h) := _ensure_odd width height in
  let visited := replicate (Z.to_nat h) (replicate (Z.to_nat w) false) in
  visited ← glift (mark_visited visited 0 0);
  gyield (0, 0, 1);;
  carve (Z.to_nat (2 * w * h) + 1) w h visited [(0, 0)].

End DFSBacktracker.

(** ** algorithms/generators/prims.py *)

Module Prim.

Definition _MOVES : list (Z * Z) := [(2, 0); (-2, 0); (0, 2); (0, -2)].

Definition _force_odd (w h : Z) : Z * Z :=
  (if bool_decide (w `mod` 2 = 0) then w - 1 else w,
   if bool_decide (h `mod` 2 = 0) then h - 1 else h).

(** A frontier entry [(wx, wy, nx, ny)]. *)
Definition Frontier : Type := Z * Z * Z * Z.

(** The closure [add_frontiers(x, y)]; it reads [visited] and appends to
    [frontiers]. *)
Definition add_frontiers (w h : Z) (visited : list (list bool))
    (frontiers : list Frontier) (x y : Z) : Res (list Frontier) :=
  foldl (λ acc d,
           frontiers ← acc;
           let nx := x + d.1 in
           let ny := y + d.2 in
           if bool_decide (0 ≤ nx < w ∧ 0 ≤ ny < h)
           then
             seen ← is_visited visited nx ny;
             if seen : bool then mret frontiers
             else mret (frontiers
                          ++ [(x + d.1 `div` 2, y + d.2 `div` 2, nx, ny)])
           else mret frontiers)
        (Ok frontiers) _MOVES.

(** The [while frontiers:] loop. *)
Fixpoint grow (fuel : nat) (w h : Z) (visited : list (list bool))
    (frontiers : list Frontier) : G unit :=
  match fuel with
  | O => gno_fuel
  | S fuel' =>
      if bool_decide (frontiers = []) then mret tt
      else
        i ← randrange (Z.of_nat (length frontiers));
        popped ← glift (pop frontiers i);
        let '((wx, wy, nx, ny), frontiers) := popped in
        seen ← glift (is_visited visited nx ny);
        if seen : bool then grow fuel' w h visited frontiers
        else
          visited ← glift (mark_visited visited nx ny);
          gyield (wx, wy, 1);;
          gyield (nx, ny, 1);;
          frontiers ← glift (add_frontiers w h visited frontiers nx ny);
          grow fuel' w h visited frontiers
  end.

(** [Prim.__call__(width, height)] *)
Definition __call__ (width height : Z) : G unit :=
  let '(w, h) := _force_odd width height in
  let visited := replicate (Z.to_nat h) (replicate (Z.to_nat w) false) in
  visited ← glift (mark_visited visited 0 0);
  gyield (0, 0, 1);;
  frontiers ← glift (add_frontiers w h visited [] 0 0);
  grow (Z.to_nat (4 * w * h) + 1) w h visited frontiers.

End Prim.

(** ** algorithms/generators/kruskals.py *)

Module _UnionFind.

(** [find(item)], path halving; the result is the root together with the
    [parent] dict as the call leaves it.  [fuel] bounds the walk. *)
Fixpoint find (fuel : nat) (parent : gmap Node Node) (item : Node)
  : Res (Node * gmap Node Node) :=
  match fuel with
  | O => NoFuel
  | S fuel' =>
      match parent !! item with
      | None => Raise KeyError
      | Some p =>
          if bool_decide (p ≠ item)
          then
            match parent !! p with
            | None => Raise KeyError
            | Some grand => find fuel' (<[item := grand]> parent) grand
            end
          else Ok (item, parent)
      end
  end.

(** [union(a, b)] *)
Definition union (parent : gmap Node Node) (a b : Node)
  : Res (bool * gmap Node Node) :=
  ra ← find (S (size parent)) parent a;
  rb ← find (S (size parent)) ra.2 b;
  if bool_decide (ra.1 = rb.1) then mret (false, rb.2)
  else mret (true, <[rb.1 := ra.1]> rb.2).

End _UnionFind.

Module Kruskal.

(** An edge [(a, b, wall)]. *)
Definition Edge : Type := Node * Node * Node.

(** Step 1: the cells with even coordinates, each its own set. *)
Definition cells (w h : Z) : list Node :=
  y ← range_step 0 h 2; x ← range_step 0 w 2; [(x, y)].

(** Step 2: the walls between neighbouring cells. *)
Definition edges (w h : Z) : list Edge :=
  y ← range_step 0 h 2;
  x ← range_step 0 w 2;
  (if bool_decide (x + 2 < w) then [((x, y), (x + 2, y), (x + 1, y))] else [])
  ++ (if bool_decide (y + 2 < h) then [((x, y), (x, y + 2), (x, y + 1))]
      else []).

(** [Kruskal.__call__(width, height)] *)
Definition __call__ (width height : Z) : G unit :=
  let w := width in
  let h := height in
  parent ←
    gfold (cells w h)
          (λ (parent : gmap Node Node) c,
             let parent := <[c := c]> parent in
             gyield (c.1, c.2, 1);; mret parent)
          ∅;
  edges ← shuffle (edges w h);
  gfold edges
        (λ (parent : gmap Node Node) '(a, b, wall),
           merged ← glift (_UnionFind.union parent a b);
           if merged.1 : bool
           then gyield (wall.1, wall.2, 1);;
                gyield (b.1, b.2, 1);;
                mret merged.2
           else mret merged.2)
        parent;;
  mret tt.

End Kruskal.

(** ** gui/app.py: the playback driver *)

Module MazeApp.

Definition _MIN_BATCH : Z := 1.
Definition _MAX_BATCH_GEN : Z := 50.
Definition _MAX_BATCH_SOLVE : Z := 3.
Definition _DELAY_INSTANT : Z := 0.
Definition _DELAY_MAX : Z := 100.

Inductive Kind := gen | solve.

#[global] Instance Kind_eq_dec : EqDecision Kind.
Proof. solve_decision. Defined.

(** A Python iterator: what the successive [next(it)] calls give. *)
Inductive Iter (A : Type) :=
| StopIteration
| Raises (e : Exn)
| Next (item : A) (rest : Iter A).
Arguments StopIteration {A}.
Arguments Raises {A} _.
Arguments Next {A} _ _.

(** The lazy sequence a run advances: edits when generating, path
    snapshots when solving. *)
Inductive Run :=
| GenRun (it : Iter Edit)
| SolveRun (it : Iter Path).

Definition kind_of (r : Run) : Kind :=
  match r with GenRun _ => gen | SolveRun _ => solve end.

(** The closure [job] of [_run_iterator]: the captured epoch, the iterator
    (with what is left of it) and the delay. *)
Record Job := mkJob { epoch : Z; it : Run; delay_ms : Z }.

(** Calls that reach the renderer and the message boxes. *)
Inductive Render :=
| draw_maze
| reset_path
| auto_scale
| draw_cell (x y : Z) (passage : bool)
| draw_path (p : Path)
| draw_markers (s g : Node)
| tag_raise_markers
| showwarning (title msg : string)
| showinfo (title msg : string).

Record App := mkApp {
  maze : option Maze.t;
  start : Node;
  goal : Node;
  _after_id : option nat;
  _run_seq : Z;
  _kind : option Kind;
  _batch_size : Z;
  _batch_cnt : Z;
  timers : gmap nat (Z * Job);  (* Tk's pending [after] callbacks *)
  next_timer : nat;
  screen : list Render
}.

(** Attribute assignments [self.<field> = v]. *)
Definition set_maze (v : option Maze.t) (app : App) : App :=
  mkApp v (start app) (goal app) (_after_id app) (_run_seq app) (_kind app) (_batch_size app) (_batch_cnt app) (timers app) (next_timer app) (screen app).
Definition set_start (v : Node) (app : App) : App :=
  mkApp (maze app) v (goal app) (_after_id app) (_run_seq app) (_kind app) (_batch_size app) (_batch_cnt app) (timers app) (next_timer app) (screen app).
Definition set_goal (v : Node) (app : App) : App :=
  mkApp (maze app) (start app) v (_after_id app) (_run_seq app) (_kind app) (_batch_size app) (_batch_cnt app) (timers app) (next_timer app) (screen app).
Definition set_after_id (v : option nat) (app : App) : App :=
  mkApp (maze app) (start app) (goal app) v (_run_seq app) (_kind app) (_batch_size app) (_batch_cnt app) (timers app) (next_timer app) (screen app).
Definition set_run_seq (v : Z) (app : App) : App :=
  mkApp (maze app) (start app) (goal app) (_after_id app) v (_kind app) (_batch_size app) (_batch_cnt app) (timers app) (next_timer app) (screen app).
Definition set_kind (v : option Kind) (app : App) : App :=
  mkApp (maze app) (start app) (goal app) (_after_id app) (_run_seq app) v (_batch_size app) (_batch_cnt app) (timers app) (next_timer app) (screen app).
Definition set_batch_size (v : Z) (app : App) : App :=
  mkApp (maze app) (start app) (goal app) (_after_id app) (_run_seq app) (_kind app) v (_batch_cnt app) (timers app) (next_timer app) (screen app).
Definition set_batch_cnt (v : Z) (app : App) : App :=
  mkApp (maze app) (start app) (goal app) (_after_id app) (_run_seq app) (_kind app) (_batch_size app) v (timers app) (next_timer app) (screen app).
Definition set_timers (v : gmap nat (Z * Job)) (app : App) : App :=
  mkApp (maze app) (start app) (goal app) (_after_id app) (_run_seq app) (_kind app) (_batch_size app) (_batch_cnt app) v (next_timer app) (screen app).
Definition set_next_timer (v : nat) (app : App) : App :=
  mkApp (maze app) (start app) (goal app) (_after_id app) (_run_seq app) (_kind app) (_batch_size app) (_batch_cnt app) (timers app) v (screen app).
Definition set_screen (v : list Render) (app : App) : App :=
  mkApp (maze app) (start app) (goal app) (_after_id app) (_run_seq app) (_kind app) (_batch_size app) (_batch_cnt app) (timers app) (next_timer app) v.

Definition render (r : Render) (app : App) : App :=
  set_screen (screen app ++ [r]) app.

(** [self.after(ms, job)] *)
Definition after (ms : Z) (j : Job) (app : App) : nat * App :=
  (next_timer app,
   set_next_timer (S (next_timer app))
     (set_timers (<[next_timer app := (ms, j)]> (timers app)) app)).

(** [self.after_cancel(id)]; a [TclError] is swallowed by the caller. *)
Definition after_cancel (id : nat) (app : App) : App :=
  set_timers (delete id (timers app)) app.

Definition _cancel (app : App) : App :=
  let app :=
    match _after_id app with
    | Some id => set_after_id None (after_cancel id app)
    | None => app
    end in
  set_batch_cnt 0 (set_kind None (set_run_seq (_run_seq app + 1) app)).

Section driver.

(** [int(100 * (1 - (speed_pct - 1) / 99) ** 1.5)]: floating point, kept
    abstract. *)
Variable delay_curve : Q → Z.

(** The registries the driver looks names up in; a registered generator
    is called with [(w, h)], a solver with [(maze, start, goal)]. *)
Variable generators : gmap string (Plugin (Z → Z → Iter Edit)).
Variable solvers : gmap string (Plugin (Maze.t → Node → Node → Iter Path)).

Definition _calc_delay_batch (speed_pct : Q) (cell_count : Z) (solving : bool)
  : Z * Z :=
  if Qle_bool 100 speed_pct then (_DELAY_INSTANT, _MAX_BATCH_GEN)
  else
    let delay := delay_curve speed_pct in
    let batch :=
      if solving
      then Z.min _MAX_BATCH_SOLVE (Z.max _MIN_BATCH (cell_count `div` 400))
      else Z.min _MAX_BATCH_GEN (Z.max _MIN_BATCH (cell_count `div` 200)) in
    (Z.max 1 delay, batch).

(** [first_passage(search_from)] of [_pick_endpoints]. *)
Definition first_passage (m : Maze.t) (search_from : Node) : Node :=
  let '(x0, y0) := search_from in
  let scan :=
    y ← range 0 (Maze.h m);
    x ← range 0 (Maze.w m);
    [(if bool_decide (x0 = 0) then x else Maze.w m - 1 - x,
      if bool_decide (y0 = 0) then y else Maze.h m - 1 - y)] in
  default (x0, y0)
    (head (filter (λ c : Node, Maze.get (Maze.grid m) c.1 c.2 ≠ 0) scan)).

Definition _pick_endpoints (app : App) : App :=
  match maze app with
  | Some m =>
      set_goal (first_passage m (Maze.w m - 1, Maze.h m - 1))
        (set_start (first_passage m (0, 0)) app)
  | None => app
  end.

(** How one turn of [job] leaves its [try] block. *)
Inductive BatchEnd :=
| BatchFull (rest : Run)      (* [updates] reached [_batch_size] *)
| BatchStop                   (* [StopIteration] *)
| BatchRaise (e : Exn).       (* any other exception: propagates *)

(** [while updates < self._batch_size: ...], [n] turns left. *)
Fixpoint batch (n : nat) (r : Run) (app : App) : App * BatchEnd :=
  match n with
  | O => (app, BatchFull r)
  | S n' =>
      match r with
      | GenRun StopIteration | SolveRun StopIteration => (app, BatchStop)
      | GenRun (Raises e) | SolveRun (Raises e) => (app, BatchRaise e)
      | GenRun (Next (x, y, action) rest) =>
          let app :=
            set_maze ((λ m, Maze.mk (Maze.w m) (Maze.h m)
                              (Maze.set (Maze.grid m) x y action))
                      <$> maze app) app in
          batch n' (GenRun rest)
                (render (draw_cell x y (bool_decide (action ≠ 0))) app)
      | SolveRun (Next path rest) =>
          batch n' (SolveRun rest) (render (draw_path path) app)
      end
  end.

(** The body of the closure [job]. *)
Definition job (j : Job) (app : App) : App :=
  if bool_decide (epoch j ≠ _run_seq app) then app
  else
    match batch (Z.to_nat (_batch_size app)) (it j) app with
    | (app, BatchFull rest) =>
        let '(id, app) :=
          after (Z.max 1 (delay_ms j)) (mkJob (epoch j) rest (delay_ms j))
                app in
        set_after_id (Some id) app
    | (app, BatchStop) =>
        let app := set_after_id None app in
        let app :=
          match kind_of (it j) with
          | gen =>
              let app := _pick_endpoints app in
              render (draw_markers (start app) (goal app)) app
          | solve => app
          end in
        set_kind None (render tag_raise_markers app)
    | (app, BatchRaise _) => app
    end.

(** Tk runs the pending callback [id]. *)
Definition fire (id : nat) (app : App) : App :=
  match timers app !! id with
  | Some (_, j) => job j (set_timers (delete id (timers app)) app)
  | None => app
  end.

Definition _run_iterator (r : Run) (delay : Z) (app : App) : App :=
  let app := set_kind (Some (kind_of r)) app in
  let '(id, app) := after 1 (mkJob (_run_seq app) r delay) app in
  set_after_id (Some id) app.

(** [generate(rows, cols, gen_name, speed_pct)]; the second component is
    the exception the call ends with, if any. *)
Definition generate (rows cols : Z) (gen_name : string) (speed_pct : Q)
    (app : App) : App * option Exn :=
  let app := _cancel app in
  match Maze.new cols rows with
  | None => (app, Some ValueError)
  | Some m =>
      let app := set_maze (Some m) app in
      let app := render draw_maze (render reset_path (render auto_scale app)) in
      let '(delay, batch) := _calc_delay_batch speed_pct (rows * cols) false in
      let app := set_batch_size batch app in
      match generators !! gen_name with
      | None => (app, Some KeyError)
      | Some g =>
          (_run_iterator (GenRun (call g (Maze.w m) (Maze.h m))) delay app,
           None)
      end
  end.

(** [solve(sol_name, speed_pct)] *)
Definition solve_ (sol_name : string) (speed_pct : Q) (app : App)
  : App * option Exn :=
  match maze app with
  | None => (render (showwarning "No maze" "Generate a maze first") app, None)
  | Some m =>
      if bool_decide (_kind app = Some gen)
      then (render (showinfo "Busy" "Wait until generation finishes") app,
            None)
      else
        let app := _cancel app in
        match solvers !! sol_name with
        | None => (app, Some KeyError)
        | Some sv =>
            let app := _pick_endpoints app in
            let app :=
              render reset_path
                     (render (draw_markers (start app) (goal app)) app) in
            let '(delay, batch) :=
              _calc_delay_batch speed_pct (Maze.w m * Maze.h m) true in
            let app := set_batch_size batch app in
            (_run_iterator
               (SolveRun (call sv m (start app) (goal app))) delay app,
             None)
        end
  end.

(** What can happen to the application, one event at a time. *)
Inductive Event :=
| Generate (rows cols : Z) (gen_name : string) (speed_pct : Q)
| Solve (sol_name : string) (speed_pct : Q)
| Timer (id : nat).

Definition handle (app : App) (ev : Event) : App :=
  match ev with
  | Generate rows cols gen_name speed_pct =>
      (generate rows cols gen_name speed_pct app).1
  | Solve sol_name speed_pct => (solve_ sol_name speed_pct app).1
  | Timer id => fire id app
  end.

End driver.

(** [MazeApp.__init__] *)
Definition init : App :=
  mkApp None (0, 0) (0, 0) None 0 None _MIN_BATCH 0 ∅ O [].

End MazeApp.

(** ** utils/colors.py *)

Module PALETTE.
Definition wall : string := "#222831".
Definition passage : string := "#eeeeee".
Definition path : string := "#00adb5".
Definition frontier : string := "#ffd369".
Definition visited : string := "#393e46".
Definition start : string := "#28a745".
Definition goal : string := "#e53935".
End PALETTE.

(** ** gui/grid_canvas.py

    Tk's canvas, as far as [GridCanvas] relies on it: [create_rectangle]
    and [create_oval] put a new item on top of the display list and return
    its id, a number no item has had before; [delete] removes the items
    that have one of the given ids or tags, ["all"] naming every item;
    [tag_raise] moves the items with the tag to the top, in their order.
    The display list is kept bottom first. *)

Module GridCanvas.

Inductive Shape := Rectangle | Oval.

#[global] Instance Shape_eq_dec : EqDecision Shape.
Proof. solve_decision. Defined.

Record Item := mkItem {
  shape : Shape;
  coords : Z * Z * Z * Z;
  fill : string;
  tags : string
}.

#[global] Instance Item_eq_dec : EqDecision Item.
Proof. solve_decision. Defined.

Record t := mk {
  cell_px : Z;
  maze : option Maze.t;
  _path_objects : gmap Node nat;    (* (x, y) -> canvas id *)
  _visited_objects : gmap Node nat;
  _current_path : list Node;
  display : list (nat * Item);
  next_id : nat
}.

Definition DEFAULT_CELL_PX : Z := 12.

(** [GridCanvas(parent)] *)
Definition init : t := mk DEFAULT_CELL_PX None ∅ ∅ [] [] 1.

(** Attribute assignments. *)
Definition set_cell_px (v : Z) (c : t) : t :=
  mk v (maze c) (_path_objects c) (_visited_objects c) (_current_path c)
     (display c) (next_id c).
Definition set_maze (v : option Maze.t) (c : t) : t :=
  mk (cell_px c) v (_path_objects c) (_visited_objects c) (_current_path c)
     (display c) (next_id c).
Definition set_path_objects (v : gmap Node nat) (c : t) : t :=
  mk (cell_px c) (maze c) v (_visited_objects c) (_current_path c)
     (display c) (next_id c).
Definition set_visited_objects (v : gmap Node nat) (c : t) : t :=
  mk (cell_px c) (maze c) (_path_objects c) v (_current_path c)
     (display c) (next_id c).
Definition set_current_path (v : list Node) (c : t) : t :=
  mk (cell_px c) (maze c) (_path_objects c) (_visited_objects c) v
     (display c) (next_id c).
Definition set_display (v : list (nat * Item)) (c : t) : t :=
  mk (cell_px c) (maze c) (_path_objects c) (_visited_objects c)
     (_current_path c) v (next_id c).

(** [self.create_rectangle(...)], [self.create_oval(...)] *)
Definition create (it : Item) (c : t) : nat * t :=
  (next_id c,
   mk (cell_px c) (maze c) (_path_objects c) (_visited_objects c)
      (_current_path c) (display c ++ [(next_id c, it)]) (S (next_id c))).

Inductive TagOrId := Tag (s : string) | Id (i : nat).

Definition matches (k : TagOrId) (e : nat * Item) : Prop :=
  match k with
  | Tag s => s = "all" ∨ tags e.2 = s
  | Id i => e.1 = i
  end.

#[global] Instance matches_dec k e : Decision (matches k e).
Proof. destruct k; simpl; apply _. Defined.

(** [self.delete(tag_or_id, ...)] *)
Definition delete (ks : list TagOrId) (c : t) : t :=
  set_display (filter (λ e, Forall (λ k, ¬ matches k e) ks) (display c)) c.

(** [self.tag_raise(tag)] *)
Definition tag_raise (tag : string) (c : t) : t :=
  set_display (filter (λ e, ¬ matches (Tag tag) e) (display c)
               ++ filter (λ e, matches (Tag tag) e) (display c)) c.

(** [_draw_rect(x, y, colour, tag=...)] *)
Definition _draw_rect (x y : Z) (colour : string) (tag : string) (c : t)
  : nat * t :=
  let px := cell_px c in
  create (mkItem Rectangle
            ((x + 1) * px, (y + 1) * px, (x + 2) * px, (y + 2) * px)
            colour tag) c.

(** [_draw_oval(x, y, colour, pad=..., tags=...)] *)
Definition _draw_oval (x y : Z) (colour : string) (pad : Z) (tags : string)
    (c : t) : nat * t :=
  let px := cell_px c in
  create (mkItem Oval
            ((x + 1) * px + pad, (y + 1) * px + pad,
             (x + 2) * px - pad, (y + 2) * px - pad)
            colour tags) c.

(** [reset_path()] *)
Definition reset_path (c : t) : t :=
  let c := delete [Tag "path"; Tag "visited"] c in
  set_current_path [] (set_visited_objects ∅ (set_path_objects ∅ c)).

(** [draw_maze(maze)] *)
Definition draw_maze (m : Maze.t) (c : t) : t :=
  let c := set_maze (Some m) c in
  let c := reset_path c in
  let c := delete [Tag "all"] c in
  let px := cell_px c in
  let fw := Maze.w m + 2 in
  let fh := Maze.h m + 2 in
  let c := (create (mkItem Rectangle (0, 0, fw * px, fh * px) "black" "")
                   c).2 in
  foldl (λ c y,
           foldl (λ c x,
                    let colour :=
                      if bool_decide (Maze.get (Maze.grid m) x y ≠ 0)
                      then PALETTE.passage else PALETTE.wall in
                    (_draw_rect x y colour "" c).2)
                 c (range 0 (Maze.w m)))
        c (range 0 (Maze.h m)).

(** [draw_cell(x, y, tag=..., colour=...)]; without a colour the grid is
    read, with numpy's indexing. *)
Definition draw_cell (x y : Z) (tag : string) (colour : option string)
    (c : t) : Res t :=
  colour ←
    match colour with
    | Some colour => Ok colour
    | None =>
        match maze c with
        | Some m =>
            v ← (row ← getitem (Maze.grid m) y; getitem row x);
            Ok (if bool_decide (v ≠ 0) then PALETTE.passage
                else PALETTE.wall)
        | None => Ok PALETTE.wall
        end
    end;
  Ok (_draw_rect x y colour tag c).2.

(** [add_visited_cell(x, y, colour=...)]; [colour or PALETTE.visited]
    replaces [None] and the empty string. *)
Definition add_visited_cell (x y : Z) (colour : option string) (c : t) : t :=
  if bool_decide (is_Some (_visited_objects c !! (x, y))) then c
  else
    let colour :=
      match colour with
      | Some colour =>
          if bool_decide (colour = "") then PALETTE.visited else colour
      | None => PALETTE.visited
      end in
    let '(obj_id, c) := _draw_oval x y colour 1 "visited" c in
    set_visited_objects (<[(x, y) := obj_id]> (_visited_objects c)) c.

(** [draw_markers(start, goal)] *)
Definition draw_markers (start goal : Node) (c : t) : t :=
  let c := delete [Tag "markers"] c in
  let pad := Z.max 2 (cell_px c `div` 4) in
  let c :=
    foldl (λ c '((x, y), colour),
             (_draw_oval x y colour pad "markers" c).2)
          c [(start, PALETTE.start); (goal, PALETTE.goal)] in
  tag_raise "markers" c.

Section iteration.

(** The order in which Python iterates over a set. *)
Variable iter_set : gset Node → list Node.

(** [draw_path(cells)] *)
Definition draw_path (cells : list Node) (c : t) : t :=
  let prev_set : gset Node := list_to_set (_current_path c) in
  let curr_set : gset Node := list_to_set cells in
  let c :=
    foldl (λ c xy, add_visited_cell xy.1 xy.2 None c)
          c (iter_set (curr_set ∖ prev_set)) in
  let c :=
    foldl (λ c xy,
             match _path_objects c !! xy with
             | Some obj_id =>
                 delete [Id obj_id]
                        (set_path_objects (base.delete xy (_path_objects c)) c)
             | None => c
             end)
          c (iter_set (prev_set ∖ curr_set)) in
  let c :=
    foldl (λ c xy,
             let '(obj_id, c) :=
               _draw_oval xy.1 xy.2 PALETTE.path 1 "path" c in
             set_path_objects (<[xy := obj_id]> (_path_objects c)) c)
          c (iter_set (curr_set ∖ prev_set)) in
  let c := set_current_path cells c in
  tag_raise "markers" c.

End iteration.

End GridCanvas.

(** ** gui/app.py: resizing *)

Module Resizing.

(** [_auto_scale()], given what [winfo_width()] and [winfo_height()]
    report; the result is the canvas. *)
Definition _auto_scale (maze : option Maze.t) (start goal : Node)
    (winfo_width winfo_height : Z) (canvas : GridCanvas.t) : GridCanvas.t :=
  match maze with
  | None => canvas
  | Some m =>
      let cw := winfo_width - 20 in
      let ch := winfo_height - 20 in
      if bool_decide (cw ≤ 0 ∨ ch ≤ 0) then canvas
      else
        let optimal :=
          Z.max 4 (Z.min (Z.min (cw `div` (Maze.w m + 2))
                                (ch `div` (Maze.h m + 2))) 40) in
        if bool_decide (Z.abs (GridCanvas.cell_px canvas - optimal) > 1)
        then
          let canvas := GridCanvas.set_cell_px optimal canvas in
          let canvas := GridCanvas.draw_maze m canvas in
          GridCanvas.draw_markers start goal canvas
        else canvas
  end.

(** [_on_resize(event)] *)
Definition _on_resize (widget_is_self : bool) (maze : option Maze.t)
    (start goal : Node) (winfo_width winfo_height : Z)
    (canvas : GridCanvas.t) : GridCanvas.t :=
  if widget_is_self && bool_decide (is_Some maze)
  then _auto_scale maze start goal winfo_width winfo_height canvas
  else canvas.

End Resizing.

(** ** gui/controls.py: the speed label *)

Module Controls.

Definition _SPEED_LABELS : list (Z * string) :=
  [(100, "Speed: Max");
   (90, "Speed: {}% (Very Fast)");
   (70, "Speed: {}% (Fast)");
   (30, "Speed: {}% (Medium)");
   (10, "Speed: {}% (Slow)")].

(** [int(float(value))]: the fraction is cut off, towards zero. *)
Definition int (value : Q) : Z := Z.quot (Qnum value) (Z.pos (Qden value)).

(** [template.format(arg)] for a template with at most one field [{}]. *)
Fixpoint format (template : string) (arg : string) : string :=
  match template with
  | String "{"%char (String "}"%char rest) => arg +:+ rest
  | String a rest => String a (format rest arg)
  | EmptyString => EmptyString
  end.

(** [_update_speed_label(value)]: the text the label gets. *)
Definition _update_speed_label (value : Q) : string :=
  let percent := int value in
  let template :=
    default "Speed: {}% (Very Slow)"
      (head (omap (λ item : Z * string,
                     let '(threshold, t) := item in
                     if bool_decide (percent >= threshold) then Some t
                     else None)
                  _SPEED_LABELS)) in
  format template (pretty percent).

End Controls.

(** * Proofs *)

Module RegistryProofs.

Lemma generator_register_fresh {I} (inst : Plugin I) reg :
    reg !! name inst = None →
    GeneratorRegistry.register inst reg = (<[name inst := inst]> reg, None).
Proof.
    intros Hn. unfold GeneratorRegistry.register.
    rewrite bool_decide_eq_false_2; [done|].
    by rewrite not_elem_of_dom.
Qed.

(** C8. In each of the two registries, [register] with a name that is
      already bound raises the duplicate-name error and returns the very
      registry it was given: the earlier binding is still there and every
      lookup answers as before. *)
Theorem register_duplicate_unchanged {G S : Type}
      (gens : gmap string (Plugin G)) (sols : gmap string (Plugin S))
      (g g0 : Plugin G) (s s0 : Plugin S) :
    gens !! name g = Some g0 →
    sols !! name s = Some s0 →
    GeneratorRegistry.register g gens = (gens, Some (DuplicateName (name g)))
    ∧ SolverRegistry.register s sols = (sols, Some (DuplicateName (name s)))
    ∧ (GeneratorRegistry.register g gens).1 !! name g = Some g0
    ∧ (SolverRegistry.register s sols).1 !! name s = Some s0
    ∧ (∀ k, (GeneratorRegistry.register g gens).1 !! k = gens !! k)
    ∧ (∀ k, (SolverRegistry.register s sols).1 !! k = sols !! k).
Proof.
    intros Hg Hs.
    assert (Eg : GeneratorRegistry.register g gens
                 = (gens, Some (DuplicateName (name g)))).
    { unfold GeneratorRegistry.register.
      rewrite bool_decide_eq_true_2; [done|]. apply elem_of_dom; eauto. }
    assert (Es : SolverRegistry.register s sols
                 = (sols, Some (DuplicateName (name s)))).
    { unfold SolverRegistry.register.
      rewrite bool_decide_eq_true_2; [done|]. apply elem_of_dom; eauto. }
    rewrite Eg, Es. simpl. repeat split; done.
Qed.

Lemma register_duplicate_witness :
  GeneratorRegistry.register (I := nat) {| name := "Kruskal"; call := 2%nat |}
    {[ "Kruskal" := {| name := "Kruskal"; call := 1%nat |} ]}
  = ({[ "Kruskal" := {| name := "Kruskal"; call := 1%nat |} ]},
     Some (DuplicateName "Kruskal"))
  ∧ SolverRegistry.register (I := nat) {| name := "BFS"; call := 2%nat |}
      {[ "BFS" := {| name := "BFS"; call := 1%nat |} ]}
    = ({[ "BFS" := {| name := "BFS"; call := 1%nat |} ]},
       Some (DuplicateName "BFS")).
Proof.
  pose proof (register_duplicate_unchanged (G := nat) (S := nat)
    {[ "Kruskal" := {| name := "Kruskal"; call := 1%nat |} ]}
    {[ "BFS" := {| name := "BFS"; call := 1%nat |} ]}
    {| name := "Kruskal"; call := 2%nat |}
    {| name := "Kruskal"; call := 1%nat |}
    {| name := "BFS"; call := 2%nat |}
    {| name := "BFS"; call := 1%nat |}
    eq_refl eq_refl) as (H1 & H2 & _).
  split; assumption.
Defined.

End RegistryProofs.

(** ** Passages and 4-connectivity *)

(** A cell the grid holds and marks as passage (non-zero). *)
Definition passage_cell (m : Maze.t) (c : Node) : Prop :=
  Maze.in_bounds m c ∧ Maze.get (Maze.grid m) c.1 c.2 ≠ 0.

#[global] Instance passage_cell_dec m c : Decision (passage_cell m c).
Proof. unfold passage_cell. apply _. Defined.

(** Two cells one step apart along an axis. *)
Definition adjacent (a b : Node) : Prop :=
  Z.abs (b.1 - a.1) + Z.abs (b.2 - a.2) = 1.

(** [linked m a c]: passage cell [c] can be reached from passage cell [a]
    by steps between adjacent passage cells. *)
Inductive linked (m : Maze.t) (a : Node) : Node → Prop :=
| linked_here : passage_cell m a → linked m a a
| linked_step b c :
    linked m a b → adjacent b c → passage_cell m c → linked m a c.

(** The passages form exactly one connected component. *)
Definition one_component (m : Maze.t) : Prop :=
  (∃ c, passage_cell m c)
  ∧ ∀ a b, passage_cell m a → passage_cell m b → linked m a b.

Lemma linked_passage m a b : linked m a b → passage_cell m b.
Proof. by destruct 1. Qed.

Lemma isolated_not_linked m a c :
  a ≠ c → (∀ b, adjacent b c → ¬ passage_cell m b) → ¬ linked m a c.
Proof.
  intros Hne Hiso Hl. inversion Hl as [|b c' Hab Hadj Hc]; subst; [done|].
  apply (Hiso b); [done|]. by eapply linked_passage.
Qed.

(** ** Generator bodies: what they emit and how they end *)

Module GenProofs.

(** [gspec P Q m]: whatever the draws, every edit [m] emits satisfies [P],
    and if [m] ends normally its value satisfies [Q]. *)
Definition gspec {A} (P : Edit → Prop) (Q : A → Prop) (m : G A) : Prop :=
  ∀ r, Forall P (m r).1.1 ∧ ∀ a, (m r).2 = Ok a → Q a.

(** [gtotal m]: whatever the draws, [m] ends normally. *)
Definition gtotal {A} (m : G A) : Prop := ∀ r, ∃ a, (m r).2 = Ok a.

Lemma gbind_unfold {A B} (m : G A) (k : A → G B) r :
  (m ≫= k) r =
  match m r with
  | (out, r1, Ok a) =>
      match k a r1 with (out2, r2, res) => (out ++ out2, r2, res) end
  | (out, r1, Raise e) => (out, r1, Raise e)
  | (out, r1, NoFuel) => (out, r1, NoFuel)
  end.
Proof. reflexivity. Qed.

Lemma gspec_ret {A} (P : Edit → Prop) (Q : A → Prop) a :
  Q a → gspec P Q (mret a).
Proof. intros Ha r. split; [constructor|]. by intros a' [= <-]. Qed.

Lemma gspec_bind {A B} P (Q : A → Prop) (R : B → Prop) (m : G A) k :
  gspec P Q m → (∀ a, Q a → gspec P R (k a)) → gspec P R (m ≫= k).
Proof.
  intros Hm Hk r. rewrite gbind_unfold.
  destruct (Hm r) as [Hout Hres].
  destruct (m r) as [[out r1] [a| |]]; simpl in *; try done.
  destruct (Hk a (Hres a eq_refl) r1) as [Hout2 Hres2].
  destruct (k a r1) as [[out2 r2] res2]; simpl in *.
  split; [by apply Forall_app|done].
Qed.

Lemma gspec_weaken {A} (P P' : Edit → Prop) (Q Q' : A → Prop) m :
  gspec P Q m → (∀ e, P e → P' e) → (∀ a, Q a → Q' a) → gspec P' Q' m.
Proof.
  intros Hm HP HQ r. destruct (Hm r) as [H1 H2]. split.
  - eapply Forall_impl; eauto.
  - eauto.
Qed.

Lemma gspec_yield P e : P e → gspec P (λ _, True) (gyield e).
Proof. intros He r. split; [by repeat constructor|done]. Qed.

Lemma gspec_choice {A} P (seq : list A) : gspec P (λ a, a ∈ seq) (choice seq).
Proof.
  intros r. unfold choice. destruct seq as [|a seq]; [by split|].
  destruct r as [|n r].
  - split; [constructor|]. intros ? [= <-]. left.
  - assert (Hin : nth (n mod length (a :: seq)) (a :: seq) a ∈ a :: seq).
    { apply list_elem_of_In, nth_In. apply Nat.mod_upper_bound. done. }
    revert Hin. generalize (nth (n mod length (a :: seq)) (a :: seq) a).
    intros x Hx. split; [constructor|]. by intros ? [= <-].
Qed.

Lemma gspec_for {A} P (seq : list A) body :
  (∀ i, i ∈ seq → gspec P (λ _, True) (body i)) →
  gspec P (λ _, True) (gfor seq body).
Proof.
  induction seq as [|i seq IH]; intros Hb; simpl.
  - by apply gspec_ret.
  - eapply gspec_bind; [apply Hb; left|]. intros _ _. apply IH.
    intros j Hj. apply Hb. by right.
Qed.

Lemma gspec_True {A} (m : G A) : gspec (λ _, True) (λ _, True) m.
Proof. intros r. split; [by apply Forall_forall|done]. Qed.

Lemma gtotal_ret {A} (a : A) : gtotal (mret a).
Proof. intros r. by exists a. Qed.

Lemma gtotal_yield e : gtotal (gyield e).
Proof. intros r. by exists (). Qed.

Lemma gtotal_bind {A B} P (Q : A → Prop) (m : G A) (k : A → G B) :
  gtotal m → gspec P Q m → (∀ a, Q a → gtotal (k a)) → gtotal (m ≫= k).
Proof.
  intros Hm Hs Hk r. rewrite gbind_unfold.
  destruct (Hm r) as [a Ha]. destruct (Hs r) as [_ HQ].
  destruct (m r) as [[out r1] res]; simpl in *. subst res.
  destruct (Hk a (HQ a eq_refl) r1) as [b Hb].
  destruct (k a r1) as [[out2 r2] res2]; simpl in *. eauto.
Qed.

Lemma gtotal_choice {A} (seq : list A) : seq ≠ [] → gtotal (choice seq).
Proof.
  intros Hne r. unfold choice. destruct seq as [|a seq]; [done|].
  destruct r; simpl; eauto.
Qed.

Lemma gtotal_for {A} (seq : list A) body :
  (∀ i, i ∈ seq → gtotal (body i)) → gtotal (gfor seq body).
Proof.
  induction seq as [|i seq IH]; intros Hb; simpl.
  - apply gtotal_ret.
  - eapply (gtotal_bind (λ _, True) (λ _, True)).
    + apply Hb. left.
    + intros r. split; [|done]. apply Forall_forall. done.
    + intros _ _. apply IH. intros j Hj. apply Hb. by right.
Qed.

Lemma choice_cases {A} (seq : list A) r :
  seq ≠ [] → ∃ a r', a ∈ seq ∧ choice seq r = ([], r', Ok a).
Proof.
  intros Hne. destruct (gtotal_choice seq Hne r) as [a Ha].
  destruct (gspec_choice (λ _, True) seq r) as [_ Hin].
  exists a, (choice seq r).1.2. split; [by apply Hin|].
  destruct (choice seq r) as [[out r'] res] eqn:E. simpl in *. subst res.
  unfold choice in E. destruct seq; [done|]. destruct r; by simplify_eq.
Qed.

(** A failed [choice] is an [IndexError] and emits nothing. *)
Lemma choice_empty {A} r : choice (@nil A) r = ([], r, Raise IndexError).
Proof. reflexivity. Qed.

(** Case analysis on membership in an explicit list. *)
Ltac list_cases H :=
  repeat (rewrite elem_of_cons in H; destruct H as [->|H]);
  try (rewrite elem_of_nil in H; destruct H).

Lemma elem_of_range a b x : x ∈ range a b ↔ a ≤ x < b.
Proof. unfold range. rewrite elem_of_seqZ. lia. Qed.

End GenProofs.

(** ** Recursive division *)

Module RecursiveDivisionProofs.
Import RecursiveDivision GenProofs.

(** An edit that builds a wall inside the rectangle [(x, y, w, h)]. *)
Definition wall_in (x y w h : Z) (e : Edit) : Prop :=
  e.2 = 0 ∧ x ≤ e.1.1 < x + w ∧ y ≤ e.1.2 < y + h.

Lemma wall_in_mono x y w h x' y' w' h' e :
  wall_in x' y' w' h' e →
  x ≤ x' → x' + w' ≤ x + w → y ≤ y' → y' + h' ≤ y + h →
  wall_in x y w h e.
Proof. unfold wall_in. lia. Qed.

(** [_divide] only ever builds walls, and only inside its rectangle. *)
Lemma divide_builds_walls fuel x y w h :
  gspec (wall_in x y w h) (λ _, True) (_divide fuel x y w h).
Proof.
  revert x y w h. induction fuel as [|fuel IH]; intros x y w h; simpl.
  - intros r. by split.
  - case_bool_decide; [by apply gspec_ret|].
    eapply gspec_bind with (Q := λ _, True).
    { unfold _pick_orientation. repeat case_bool_decide;
        try (by apply gspec_ret).
      eapply gspec_weaken; [apply gspec_choice|done..]. }
    intros [] _.
    + unfold _split_horizontal.
      eapply gspec_bind; [apply gspec_choice|]. intros wall_y Hwy.
      apply list_elem_of_filter in Hwy as [_ Hwy%elem_of_range].
      eapply gspec_bind; [apply gspec_choice|]. intros gap_x _.
      eapply gspec_bind with (Q := λ _, True).
      { apply gspec_for. intros xx Hxx%elem_of_range.
        case_bool_decide; [|by apply gspec_ret].
        apply gspec_yield. unfold wall_in. simpl. lia. }
      intros _ _. eapply gspec_bind with (Q := λ _, True).
      { eapply gspec_weaken; [apply IH| |done].
        intros e He. eapply wall_in_mono; [done|lia..]. }
      intros _ _. eapply gspec_weaken; [apply IH| |done].
      intros e He. eapply wall_in_mono; [done|lia..].
    + unfold _split_vertical.
      eapply gspec_bind; [apply gspec_choice|]. intros wall_x Hwx.
      apply list_elem_of_filter in Hwx as [_ Hwx%elem_of_range].
      eapply gspec_bind; [apply gspec_choice|]. intros gap_y _.
      eapply gspec_bind with (Q := λ _, True).
      { apply gspec_for. intros yy Hyy%elem_of_range.
        case_bool_decide; [|by apply gspec_ret].
        apply gspec_yield. unfold wall_in. simpl. lia. }
      intros _ _. eapply gspec_bind with (Q := λ _, True).
      { eapply gspec_weaken; [apply IH| |done].
        intros e He. eapply wall_in_mono; [done|lia..]. }
      intros _ _. eapply gspec_weaken; [apply IH| |done].
      intros e He. eapply wall_in_mono; [done|lia..].
Qed.

(** The recursion bound handed to [_divide] is never reached: every
    recursive call is on a rectangle with a smaller side. *)
Definition gfueled {A} (m : G A) : Prop := ∀ r, (m r).2 ≠ NoFuel.

Lemma gfueled_bind {A B} P (Q : A → Prop) (m : G A) (k : A → G B) :
  gfueled m → gspec P Q m → (∀ a, Q a → gfueled (k a)) → gfueled (m ≫= k).
Proof.
  intros Hm Hs Hk r. rewrite gbind_unfold.
  specialize (Hm r). destruct (Hs r) as [_ HQ].
  destruct (m r) as [[out r1] [a| |]]; simpl in *; try done.
  specialize (Hk a (HQ a eq_refl) r1).
  by destruct (k a r1) as [[out2 r2] res2].
Qed.

Lemma gfueled_choice {A} (seq : list A) : gfueled (choice seq).
Proof. intros r. unfold choice. destruct seq; [done|]. by destruct r. Qed.

Lemma gfueled_for_wall {A} (seq : list A) (keep : A → Prop)
    `{∀ i, Decision (keep i)} (e : A → Edit) :
  gfueled (gfor seq (λ i, if bool_decide (keep i) then gyield (e i)
                          else mret ())).
Proof.
  induction seq as [|i seq IH]; simpl; [done|].
  eapply (gfueled_bind (λ _, True) (λ _, True)); [|apply gspec_True|done].
  by case_bool_decide.
Qed.

Lemma divide_fueled fuel x y w h :
  1 ≤ w → 1 ≤ h → (Z.to_nat (w + h) ≤ fuel)%nat →
  gfueled (_divide fuel x y w h).
Proof.
  revert x y w h.
  induction fuel as [|fuel IH]; intros x y w h Hw Hh Hf; simpl; [lia|].
  case_bool_decide as Hsmall; [done|].
  eapply (gfueled_bind (λ _, True) (λ _, True)); [|apply gspec_True|].
  { unfold _pick_orientation. repeat case_bool_decide; try done.
    apply gfueled_choice. }
  intros [] _.
  - unfold _split_horizontal.
    eapply gfueled_bind with (P := λ _, True);
      [apply gfueled_choice|apply gspec_choice|].
    intros wall_y [_ Hwy%elem_of_range]%list_elem_of_filter.
    eapply gfueled_bind with (P := λ _, True);
      [apply gfueled_choice|apply gspec_choice|].
    intros gap_x _.
    eapply (gfueled_bind (λ _, True) (λ _, True));
      [apply gfueled_for_wall|apply gspec_True|].
    intros _ _.
    eapply (gfueled_bind (λ _, True) (λ _, True));
      [|apply gspec_True|intros _ _]; (apply IH; lia).
  - unfold _split_vertical.
    eapply gfueled_bind with (P := λ _, True);
      [apply gfueled_choice|apply gspec_choice|].
    intros wall_x [_ Hwx%elem_of_range]%list_elem_of_filter.
    eapply gfueled_bind with (P := λ _, True);
      [apply gfueled_choice|apply gspec_choice|].
    intros gap_y _.
    eapply (gfueled_bind (λ _, True) (λ _, True));
      [apply gfueled_for_wall|apply gspec_True|].
    intros _ _.
    eapply (gfueled_bind (λ _, True) (λ _, True));
      [|apply gspec_True|intros _ _]; (apply IH; lia).
Qed.

Lemma gfueled_then {A B} (m : G A) (k : G B) :
  gfueled m → gfueled k → gfueled (m;; k).
Proof.
  intros Hm Hk.
  by eapply (gfueled_bind (λ _, True) (λ _, True)); [|apply gspec_True|].
Qed.

Lemma gfueled_for {A} (seq : list A) (body : A → G unit) :
  (∀ i, gfueled (body i)) → gfueled (gfor seq body).
Proof.
  intros Hb. induction seq as [|i seq IH]; simpl; [done|].
  by apply gfueled_then.
Qed.

Lemma call_fueled width height :
  1 ≤ width → 1 ≤ height → gfueled (__call__ width height).
Proof.
  intros Hw Hh. unfold __call__.
  repeat apply gfueled_then; try done.
  - apply gfueled_for; intros y. by apply gfueled_for.
  - apply gfueled_for; intros x. by apply gfueled_then.
  - apply gfueled_for; intros y. by apply gfueled_then.
  - by apply divide_fueled.
Qed.

(** *** Draining edits into a grid *)

(** The value of the last edit made to cell [c], if any. *)
Fixpoint written (edits : list Edit) (c : Node) : option Z :=
  match edits with
  | [] => None
  | e :: edits' =>
      match written edits' c with
      | Some v => Some v
      | None => if bool_decide (e.1 = c) then Some e.2 else None
      end
  end.

Definition shaped_grid (w h : Z) (g : list (list Z)) : Prop :=
  length g = Z.to_nat h ∧ Forall (λ row, length row = Z.to_nat w) g.

Definition inside (w h : Z) (c : Node) : Prop :=
  0 ≤ c.1 < w ∧ 0 ≤ c.2 < h.

Lemma written_app es1 es2 c :
  written (es1 ++ es2) c =
  match written es2 c with Some v => Some v | None => written es1 c end.
Proof.
  induction es1 as [|e es1 IH]; simpl.
  - by destruct (written es2 c).
  - rewrite IH. by destruct (written es2 c).
Qed.

Lemma shaped_grid_set w h g x y v :
  shaped_grid w h g → shaped_grid w h (Maze.set g x y v).
Proof.
  intros [Hl Hr]. split; unfold Maze.set.
  - by rewrite length_alter.
  - apply Forall_forall. intros row Hrow.
    apply list_elem_of_lookup in Hrow as [i Hi].
    rewrite Forall_forall in Hr.
    destruct (decide (i = Z.to_nat y)) as [->|Hne].
    + rewrite list_lookup_alter_eq in Hi.
      destruct (g !! Z.to_nat y) as [row0|] eqn:Hg; simplify_eq/=.
      rewrite length_insert. apply Hr. eapply list_elem_of_lookup_2; eauto.
    + rewrite list_lookup_alter_ne in Hi by done.
      apply Hr. eapply list_elem_of_lookup_2; eauto.
Qed.

Lemma get_set w h g x y v c :
  shaped_grid w h g → inside w h (x, y) → inside w h c →
  Maze.get (Maze.set g x y v) c.1 c.2 =
  if bool_decide ((x, y) = c) then v else Maze.get g c.1 c.2.
Proof.
  intros [Hl Hr] [Hx Hy] [Hcx Hcy]. destruct c as [cx cy]. simpl in *.
  unfold Maze.get, Maze.set.
  destruct (decide (y = cy)) as [->|Hny].
  - rewrite list_lookup_alter_eq.
    destruct (g !! Z.to_nat cy) as [row|] eqn:Hg; simpl.
    2:{ apply lookup_ge_None in Hg. lia. }
    assert (length row = Z.to_nat w) as Hrow.
    { rewrite Forall_forall in Hr. apply Hr.
      eapply list_elem_of_lookup_2; eauto. }
    destruct (decide (x = cx)) as [->|Hnx].
    + rewrite bool_decide_eq_true_2 by done.
      rewrite list_lookup_insert_eq by lia. done.
    + rewrite bool_decide_eq_false_2 by congruence.
      rewrite list_lookup_insert_ne by lia. done.
  - rewrite bool_decide_eq_false_2 by congruence.
    rewrite list_lookup_alter_ne by lia. done.
Qed.

Lemma apply_edits_get w h es g c :
  shaped_grid w h g → Forall (λ e, inside w h e.1) es → inside w h c →
  Maze.get (apply_edits g es) c.1 c.2
  = default (Maze.get g c.1 c.2) (written es c).
Proof.
  intros Hg Hes Hc. revert g Hg.
  induction Hes as [|[[x y] a] es He Hes IH]; intros g Hg; simpl; [done|].
  unfold apply_edits in *. simpl. rewrite IH by by apply shaped_grid_set.
  destruct (written es c); simpl; [done|].
  rewrite (get_set w h) by done.
  by case_bool_decide.
Qed.

Lemma written_walls es c :
  Forall (λ e : Edit, e.2 = 0) es → written es c = None ∨ written es c = Some 0.
Proof.
  induction 1 as [|e es He Hes IH]; simpl; [by left|].
  destruct IH as [->| ->]; [|by right].
  case_bool_decide; [right; by rewrite He|by left].
Qed.

Lemma written_walls_hit es c :
  Forall (λ e : Edit, e.2 = 0) es → c ∈ es.*1 → written es c = Some 0.
Proof.
  induction 1 as [|e es He Hes IH]; simpl; [by intros ?%elem_of_nil|].
  intros Hc. destruct (written_walls es c Hes) as [Hw|Hw]; rewrite Hw; [|done].
  apply elem_of_cons in Hc as [->|Hc].
  - rewrite bool_decide_eq_true_2 by done. by rewrite He.
  - rewrite IH in Hw by done. done.
Qed.

(** *** The shape of a run *)

(** A loop whose body only yields emits the same edits whatever the
    draws, and leaves the draws alone. *)
Lemma gfor_pure {A} (seq : list A) (body : A → G unit) (f : A → list Edit) :
  (∀ i r, body i r = (f i, r, Ok ())) →
  ∀ r, gfor seq body r = (seq ≫= f, r, Ok ()).
Proof.
  intros Hb. induction seq as [|i seq IH]; intros r; simpl; [done|].
  rewrite gbind_unfold, Hb, IH. done.
Qed.

Definition open_space (width height : Z) : list Edit :=
  y ← range 0 height; x ← range 0 width; [(x, y, 1)].

Definition outer_border (width height : Z) : list Edit :=
  (x ← range 0 width; [(x, 0, 0); (x, height - 1, 0)])
  ++ (y ← range 0 height; [(0, y, 0); (width - 1, y, 0)]).

Definition entrance_exit (width height : Z) : list Edit :=
  [(0, if bool_decide (height > 2) then 1 else 0, 1);
   (width - 1, if bool_decide (height > 2) then height - 2 else height - 1, 1)].

(** [__call__] emits the open space, the border, what [_divide] emits and,
    when [_divide] has not raised, the entrance and the exit. *)
Lemma call_shape width height r :
  __call__ width height r =
  match _divide (Z.to_nat (width + height)) 0 0 width height r with
  | (walls, r', Ok _) =>
      (open_space width height ++ outer_border width height ++ walls
       ++ entrance_exit width height, r', Ok ())
  | (walls, r', Raise e) =>
      (open_space width height ++ outer_border width height ++ walls,
       r', Raise e)
  | (walls, r', NoFuel) =>
      (open_space width height ++ outer_border width height ++ walls,
       r', NoFuel)
  end.
Proof.
  unfold __call__. rewrite gbind_unfold.
  rewrite (gfor_pure _ _ (λ y, x ← range 0 width; [(x, y, 1)])).
  2:{ intros y r0. by rewrite (gfor_pure _ _ (λ x, [(x, y, 1)])). }
  rewrite gbind_unfold.
  rewrite (gfor_pure _ _ (λ x, [(x, 0, 0); (x, height - 1, 0)])) by done.
  rewrite gbind_unfold.
  rewrite (gfor_pure _ _ (λ y, [(0, y, 0); (width - 1, y, 0)])) by done.
  rewrite gbind_unfold.
  destruct (_divide _ 0 0 width height r) as [[walls r'] [[]| |]];
    unfold open_space, outer_border, entrance_exit; simpl;
    by rewrite <- ?app_assoc.
Qed.

(** *** Seven by seven *)

Definition walls_of (o s : Z) : list Z :=
  filter (λ v, v `mod` 2 = 0) (range (o + 1) (o + s - 1)).

Definition gaps_of (o s : Z) : list Z :=
  filter (λ v, v `mod` 2 = 1) (range o (o + s)).

(** The (offset, size) pairs a side of a rectangle can have while a 7 by 7
    grid is subdivided. *)
Definition spans7 : list (Z * Z) :=
  [(0, 7); (0, 2); (3, 4); (0, 4); (5, 2); (3, 1)].

Definition span_splits (sp : Z * Z) : Prop :=
  0 < sp.2
  ∧ (3 ≤ sp.2 →
     walls_of sp.1 sp.2 ≠ [] ∧ gaps_of sp.1 sp.2 ≠ []
     ∧ Forall (λ wl, sp.1 < wl < sp.1 + sp.2 - 1
                     ∧ (sp.1, wl - sp.1) ∈ spans7
                     ∧ (wl + 1, sp.1 + sp.2 - (wl + 1)) ∈ spans7)
              (walls_of sp.1 sp.2)).

Lemma spans7_closed : Forall span_splits spans7.
Proof. unfold span_splits. compute_done. Qed.

Lemma span7_splits o s : (o, s) ∈ spans7 → span_splits (o, s).
Proof. intros H. by apply (proj1 (Forall_forall _ _) spans7_closed). Qed.

Lemma pick_orientation_total w h : gtotal (_pick_orientation w h).
Proof.
  unfold _pick_orientation. repeat case_bool_decide;
    try apply gtotal_ret. by apply gtotal_choice.
Qed.

Lemma for_wall_total {A} (seq : list A) (keep : A → Prop)
    `{∀ i, Decision (keep i)} (e : A → Edit) :
  gtotal (gfor seq (λ i, if bool_decide (keep i) then gyield (e i)
                         else mret ())).
Proof.
  apply gtotal_for. intros i _. case_bool_decide;
    [apply gtotal_yield|apply gtotal_ret].
Qed.

Lemma divide_total_7 fuel x y w h :
  (x, w) ∈ spans7 → (y, h) ∈ spans7 → (Z.to_nat (w + h) ≤ fuel)%nat →
  gtotal (_divide fuel x y w h).
Proof.
  revert x y w h. induction fuel as [|fuel IH]; intros x y w h Hx Hy Hf.
  { destruct (span7_splits _ _ Hx) as [? _].
    destruct (span7_splits _ _ Hy) as [? _]. simpl in *. lia. }
  simpl. case_bool_decide as Hsmall; [apply gtotal_ret|].
  destruct (span7_splits _ _ Hx) as [Hw0 Hxs].
  destruct (span7_splits _ _ Hy) as [Hh0 Hys]. simpl in *.
  destruct Hxs as (Hxw & Hxg & Hxc); [lia|].
  destruct Hys as (Hyw & Hyg & Hyc); [lia|].
  rewrite Forall_forall in Hxc. rewrite Forall_forall in Hyc.
  eapply (gtotal_bind (λ _, True) (λ _, True));
    [apply pick_orientation_total|apply gspec_True|].
  intros [] _.
  - unfold _split_horizontal.
    eapply gtotal_bind with (P := λ _, True);
      [by apply gtotal_choice|apply gspec_choice|].
    intros wall_y Hwy. destruct (Hyc _ Hwy) as (Hr & H1 & H2).
    eapply gtotal_bind with (P := λ _, True);
      [by apply gtotal_choice|apply gspec_choice|].
    intros gap_x _.
    eapply (gtotal_bind (λ _, True) (λ _, True));
      [apply for_wall_total|apply gspec_True|].
    intros _ _.
    eapply (gtotal_bind (λ _, True) (λ _, True));
      [|apply gspec_True|intros _ _]; (apply IH; [done..|lia]).
  - unfold _split_vertical.
    eapply gtotal_bind with (P := λ _, True);
      [by apply gtotal_choice|apply gspec_choice|].
    intros wall_x Hwx. destruct (Hxc _ Hwx) as (Hr & H1 & H2).
    eapply gtotal_bind with (P := λ _, True);
      [by apply gtotal_choice|apply gspec_choice|].
    intros gap_y _.
    eapply (gtotal_bind (λ _, True) (λ _, True));
      [apply for_wall_total|apply gspec_True|].
    intros _ _.
    eapply (gtotal_bind (λ _, True) (λ _, True));
      [|apply gspec_True|intros _ _]; (apply IH; [done..|lia]).
Qed.

(** A cell of the outer border of a [w] by [h] grid. *)
Definition on_border (w h : Z) (c : Node) : Prop :=
  inside w h c ∧ (c.1 = 0 ∨ c.1 = w - 1 ∨ c.2 = 0 ∨ c.2 = h - 1).

Lemma outer_border_hit w h c :
  on_border w h c → c ∈ (outer_border w h).*1.
Proof.
  destruct c as [cx cy]. intros [[Hx Hy] Hb]. simpl in *.
  unfold outer_border. rewrite fmap_app, elem_of_app.
  destruct Hb as [->|[->|[->| ->]]].
  - right. apply list_elem_of_fmap. exists (0, cy, 0). split; [done|].
    apply list_elem_of_bind. exists cy. split; [left|by apply elem_of_range].
  - right. apply list_elem_of_fmap. exists (w - 1, cy, 0). split; [done|].
    apply list_elem_of_bind. exists cy.
    split; [right; left|by apply elem_of_range].
  - left. apply list_elem_of_fmap. exists (cx, 0, 0). split; [done|].
    apply list_elem_of_bind. exists cx. split; [left|by apply elem_of_range].
  - left. apply list_elem_of_fmap. exists (cx, h - 1, 0). split; [done|].
    apply list_elem_of_bind. exists cx.
    split; [right; left|by apply elem_of_range].
Qed.

Lemma outer_border_walls w h : Forall (λ e : Edit, e.2 = 0) (outer_border w h).
Proof.
  unfold outer_border. apply Forall_app. split; apply Forall_forall;
    intros e (i & He & _)%list_elem_of_bind;
    repeat (apply elem_of_cons in He as [->|He]; [done|]);
    by apply elem_of_nil in He.
Qed.

(** C9. Whatever the random choices, Recursive Division on a 7 by 7 grid
    runs to exhaustion, and in the grid its edits leave behind a border cell
    is a passage exactly when it is (0,1) or (6,5): the rest of the border
    is wall. *)
Theorem recursive_division_7x7_border (rng : list nat) :
  (__call__ 7 7 rng).2 = Ok ()
  ∧ ∃ m, generated 7 7 (__call__ 7 7 rng) = Some m
         ∧ ∀ c, on_border 7 7 c →
                (Maze.get (Maze.grid m) c.1 c.2 ≠ 0 ↔ c = (0, 1) ∨ c = (6, 5)).
Proof.
  rewrite call_shape.
  destruct (divide_total_7 (Z.to_nat (7 + 7)) 0 0 7 7) with (r := rng)
    as [[] Hok]; [compute_done..|].
  destruct (divide_builds_walls (Z.to_nat (7 + 7)) 0 0 7 7 rng) as [Hwalls _].
  destruct (_divide _ 0 0 7 7 rng) as [[walls r'] res]. simpl in Hok, Hwalls.
  subst res. split; [done|].
  exists (Maze.mk 7 7 (apply_edits (replicate 7 (replicate 7 0))
            (open_space 7 7 ++ outer_border 7 7 ++ walls
             ++ entrance_exit 7 7))).
  split; [reflexivity|]. intros c Hc. cbn [Maze.grid].
  pose proof Hc as [Hin Hside].
  rewrite (apply_edits_get 7 7); [|by split; [|repeat constructor]| |done].
  2:{ rewrite !Forall_app. repeat split; [compute_done..| |compute_done].
      eapply Forall_impl; [exact Hwalls|].
      intros [[ex ey] a] (_ & ? & ?). split; simpl in *; lia. }
  rewrite !app_assoc, written_app, <- app_assoc.
  assert (Hz : written (outer_border 7 7 ++ walls) c = Some 0).
  { apply written_walls_hit.
    - apply Forall_app. split; [apply outer_border_walls|].
      eapply Forall_impl; [exact Hwalls|]. by intros e [? _].
    - rewrite fmap_app, elem_of_app. left. by apply outer_border_hit. }
  rewrite written_app, Hz.
  destruct c as [cx cy]. unfold entrance_exit. simpl.
  case_bool_decide as H1.
  { injection H1 as <- <-. simpl. split; [by right|done]. }
  case_bool_decide as H2.
  { injection H2 as <- <-. simpl. split; [by left|done]. }
  simpl. split; [done|].
  intros [[= -> ->]|[= -> ->]]; [by destruct H2|by destruct H1].
Qed.

(** *** Three by three: no wall line to choose *)

(** C3. On a 3 by 3 grid Recursive Division raises [IndexError] whatever
    the random choices: after the open space and the border have been
    emitted, [_divide(0, 0, 3, 3)] asks [random.choice] for an even wall
    line strictly inside the rectangle, and there is none. *)
Theorem recursive_division_3x3_raises (rng : list nat) :
  ∃ rng', __call__ 3 3 rng
          = (open_space 3 3 ++ outer_border 3 3, rng', Raise IndexError).
Proof.
  rewrite call_shape.
  assert (_divide (Z.to_nat (3 + 3)) 0 0 3 3 rng
          = (choice [_HORIZONTAL; _VERTICAL] ≫= λ horizontal : bool,
               if horizontal
               then _split_horizontal (_divide 5) 0 0 3 3
               else _split_vertical (_divide 5) 0 0 3 3) rng) as ->
    by reflexivity.
  rewrite gbind_unfold.
  destruct (choice_cases [_HORIZONTAL; _VERTICAL] rng) as (b & r1 & _ & ->);
    [done|].
  exists r1. by destruct b.
Qed.

(** *** Four by four: the exit is cut off *)

Definition walls_4x4 : list (list Edit) :=
  [ [(0, 2, 0); (2, 2, 0); (3, 2, 0)];
    [(0, 2, 0); (1, 2, 0); (2, 2, 0)];
    [(2, 0, 0); (2, 2, 0); (2, 3, 0)];
    [(2, 0, 0); (2, 1, 0); (2, 2, 0)] ].

Lemma divide_4x4 r :
  ∃ walls r', _divide (Z.to_nat (4 + 4)) 0 0 4 4 r = (walls, r', Ok ())
              ∧ walls ∈ walls_4x4.
Proof.
  assert (_divide (Z.to_nat (4 + 4)) 0 0 4 4 r
          = (choice [_HORIZONTAL; _VERTICAL] ≫= λ horizontal : bool,
               if horizontal
               then _split_horizontal (_divide 7) 0 0 4 4
               else _split_vertical (_divide 7) 0 0 4 4) r) as ->
    by reflexivity.
  rewrite gbind_unfold.
  destruct (choice_cases [_HORIZONTAL; _VERTICAL] r) as (b & r1 & _ & ->);
    [done|].
  destruct b.
  - unfold _split_horizontal. rewrite gbind_unfold.
    destruct (choice_cases
                (filter (λ yy, yy `mod` 2 = 0) (range (0 + 1) (0 + 4 - 1))) r1)
      as (wall_y & r2 & Hw & ->); [compute_done|].
    rewrite gbind_unfold.
    destruct (choice_cases
                (filter (λ xx, xx `mod` 2 = 1) (range 0 (0 + 4))) r2)
      as (gap_x & r3 & Hg & ->); [compute_done|].
    change (wall_y ∈ [2]) in Hw. change (gap_x ∈ [1; 3]) in Hg.
    list_cases Hw; list_cases Hg;
      (eexists _, r3; split; [reflexivity|]; unfold walls_4x4; set_solver).
  - unfold _split_vertical. rewrite gbind_unfold.
    destruct (choice_cases
                (filter (λ xx, xx `mod` 2 = 0) (range (0 + 1) (0 + 4 - 1))) r1)
      as (wall_x & r2 & Hw & ->); [compute_done|].
    rewrite gbind_unfold.
    destruct (choice_cases
                (filter (λ yy, yy `mod` 2 = 1) (range 0 (0 + 4))) r2)
      as (gap_y & r3 & Hg & ->); [compute_done|].
    change (wall_x ∈ [2]) in Hw. change (gap_y ∈ [1; 3]) in Hg.
    list_cases Hw; list_cases Hg;
      (eexists _, r3; split; [reflexivity|]; unfold walls_4x4; set_solver).
Qed.

Lemma adjacent_cases (b c : Node) :
  adjacent b c →
  b = (c.1 - 1, c.2) ∨ b = (c.1 + 1, c.2)
  ∨ b = (c.1, c.2 - 1) ∨ b = (c.1, c.2 + 1).
Proof.
  destruct b as [bx by_], c as [cx cy]. unfold adjacent. simpl. intros H.
  assert (bx = cx - 1 ∧ by_ = cy ∨ bx = cx + 1 ∧ by_ = cy
          ∨ bx = cx ∧ by_ = cy - 1 ∨ bx = cx ∧ by_ = cy + 1) by lia.
  destruct H0 as [[-> ->]|[[-> ->]|[[-> ->]|[-> ->]]]]; auto.
Qed.

(** C2 fails for Recursive Division.  On a 4 by 4 grid, whatever the random
    choices, the run ends normally and leaves passages at (1,1) and at the
    exit (3,2), but every neighbour of (3,2) is a wall or outside the grid:
    the passages do not form one connected component. *)
Theorem recursive_division_4x4_disconnected (rng : list nat) :
  (__call__ 4 4 rng).2 = Ok ()
  ∧ ∃ m, generated 4 4 (__call__ 4 4 rng) = Some m
         ∧ passage_cell m (1, 1) ∧ passage_cell m (3, 2)
         ∧ ¬ linked m (1, 1) (3, 2)
         ∧ ¬ one_component m.
Proof.
  rewrite call_shape.
  destruct (divide_4x4 rng) as (walls & r' & -> & Hw).
  split; [done|].
  assert (∀ m, passage_cell m (1, 1) → passage_cell m (3, 2) →
               (∀ b, b ∈ [(2, 2); (4, 2); (3, 1); (3, 3)] →
                     ¬ passage_cell m b) →
               passage_cell m (1, 1) ∧ passage_cell m (3, 2)
               ∧ ¬ linked m (1, 1) (3, 2) ∧ ¬ one_component m) as Hgen.
  { intros m H1 H2 Hiso.
    assert (¬ linked m (1, 1) (3, 2)) as Hnl.
    { apply isolated_not_linked; [done|]. intros b Hb.
      apply Hiso. apply adjacent_cases in Hb.
      destruct Hb as [->|[->|[->| ->]]];
        [left|right; left|do 2 right; left|do 3 right; left]. }
    repeat split; try done; try apply H1; try apply H2.
    intros [_ Hone]. by apply Hnl, Hone. }
  unfold walls_4x4 in Hw.
  list_cases Hw;
    (eexists; split; [vm_compute; reflexivity|]);
    (apply Hgen; [compute_done|compute_done|]);
    intros b Hb; list_cases Hb; compute_done.
Qed.

(** The degenerate 2 by 2 grid: every cell is border, and the entrance
    (0,0) and the exit (1,1) are the only passages. *)
Lemma recursive_division_2x2 (rng : list nat) :
  generated 2 2 (__call__ 2 2 rng) = Some (Maze.mk 2 2 [[1; 0]; [0; 1]]).
Proof. reflexivity. Qed.

End RecursiveDivisionProofs.

(** ** The playback driver *)

Module DriverProofs.
Import MazeApp.


Section driver.
Variable delay_curve : Q → Z.
Variable generators : gmap string (Plugin (Z → Z → Iter Edit)).
Variable solvers : gmap string (Plugin (Maze.t → Node → Node → Iter Path)).

Abbreviation handle := (handle delay_curve generators solvers).
Abbreviation generate := (generate delay_curve generators).
Abbreviation solve_ := (solve_ delay_curve solvers).

(** Below full speed the solving branch of [_calc_delay_batch] keeps the
    batch within [_MIN_BATCH] and [_MAX_BATCH_SOLVE]. *)
Lemma solving_batch_below_full_speed (speed_pct : Q) (cell_count : Z) :
  Qle_bool 100 speed_pct = false →
  _MIN_BATCH ≤ (_calc_delay_batch delay_curve speed_pct cell_count true).2
             ≤ _MAX_BATCH_SOLVE.
Proof.
  intros Hs. unfold _calc_delay_batch. rewrite Hs. simpl.
  unfold _MAX_BATCH_SOLVE, _MIN_BATCH. lia.
Qed.

(** C7. At full speed the early return of [_calc_delay_batch] hands a
    solving run the generation cap, 50, which is above the solving cap, 3;
    the delay it returns is 0. *)
Theorem solving_batch_at_full_speed (cell_count : Z) :
  _calc_delay_batch delay_curve 100 cell_count true
  = (_DELAY_INSTANT, _MAX_BATCH_GEN)
  ∧ _MAX_BATCH_SOLVE < (_calc_delay_batch delay_curve 100 cell_count true).2.
Proof. split; [reflexivity | simpl; reflexivity]. Qed.

(** *** Epochs *)

Lemma job_stale (j : Job) (app : App) :
  epoch j ≠ _run_seq app → job j app = app.
Proof. intros H. unfold job. by rewrite bool_decide_eq_true_2. Qed.

Lemma pick_endpoints_run_seq app :
  _run_seq (_pick_endpoints app) = _run_seq app.
Proof. unfold _pick_endpoints. by destruct (maze app). Qed.

Lemma cancel_run_seq app : _run_seq (_cancel app) = _run_seq app + 1.
Proof. unfold _cancel. by destruct (_after_id app). Qed.

Lemma cancel_after_id app : _after_id (_cancel app) = None.
Proof. unfold _cancel. by destruct (_after_id app) eqn:H. Qed.

Lemma pick_endpoints_after_id app :
  _after_id (_pick_endpoints app) = _after_id app.
Proof. unfold _pick_endpoints. by destruct (maze app). Qed.

Lemma pick_endpoints_maze app : maze (_pick_endpoints app) = maze app.
Proof. unfold _pick_endpoints. destruct (maze app) eqn:E; simpl; congruence. Qed.

Lemma cancel_maze app : maze (_cancel app) = maze app.
Proof. unfold _cancel. by destruct (_after_id app). Qed.

Lemma cancel_kind app : _kind (_cancel app) = None.
Proof. unfold _cancel. by destruct (_after_id app). Qed.

Lemma pick_endpoints_timers app : timers (_pick_endpoints app) = timers app.
Proof. unfold _pick_endpoints. by destruct (maze app). Qed.

Lemma cancel_timers app id e :
  timers (_cancel app) !! id = Some e → timers app !! id = Some e.
Proof.
  unfold _cancel. destruct (_after_id app) as [id'|]; simpl; [|done].
  by intros [_ ?]%lookup_delete_Some.
Qed.

#[local] Opaque _cancel _pick_endpoints _calc_delay_batch.

Lemma batch_run_seq n r app :
  _run_seq (batch n r app).1 = _run_seq app.
Proof.
  revert r app. induction n as [|n IH]; intros r app; simpl; [done|].
  destruct r as [[| |[[x y] a] rest]|[| |p rest]]; simpl; try done;
    by rewrite IH.
Qed.

Lemma job_run_seq j app : _run_seq (job j app) = _run_seq app.
Proof.
  unfold job. case_bool_decide; [done|].
  destruct (batch _ _ _) as [app' e] eqn:Hb.
  assert (Hs : _run_seq app' = _run_seq app).
  { change app' with (app', e).1. rewrite <- Hb. apply batch_run_seq. }
  destruct e; simpl; try done.
  destruct (kind_of (it j)); simpl; try done.
  by rewrite pick_endpoints_run_seq.
Qed.


Lemma generate_run_seq rows cols gen_name speed_pct app :
  _run_seq (generate rows cols gen_name speed_pct app).1 = _run_seq app + 1.
Proof.
  unfold MazeApp.generate. destruct (Maze.new cols rows); simpl;
    [|apply cancel_run_seq].
  destruct (_calc_delay_batch _ _ _ _) as [d b].
  destruct (generators !! gen_name); simpl; apply cancel_run_seq.
Qed.

Lemma solve_run_seq sol_name speed_pct app :
  _run_seq app ≤ _run_seq (solve_ sol_name speed_pct app).1.
Proof.
  unfold MazeApp.solve_. destruct (maze app) eqn:Hm; simpl; [|lia].
  case_bool_decide; simpl; [lia|].
  destruct (solvers !! sol_name); simpl; [|rewrite cancel_run_seq; lia].
  destruct (_calc_delay_batch _ _ _ _) as [d b]. simpl.
  rewrite pick_endpoints_run_seq, cancel_run_seq. lia.
Qed.

Lemma handle_run_seq app ev : _run_seq app ≤ _run_seq (handle app ev).
Proof.
  destruct ev as [rows cols g sp|sn sp|id]; simpl.
  - rewrite generate_run_seq. lia.
  - apply solve_run_seq.
  - unfold fire. destruct (timers app !! id) as [[ms j]|]; [|lia].
    rewrite job_run_seq. simpl. lia.
Qed.

Lemma events_run_seq evs app : _run_seq app ≤ _run_seq (foldl handle app evs).
Proof.
  revert app. induction evs as [|ev evs IH]; intros app; simpl; [lia|].
  etrans; [apply (handle_run_seq app ev)|apply IH].
Qed.

(** Every continuation waiting in the timer pool carries an epoch that is
    at most the current one. *)
Definition pending_bounded (app : App) : Prop :=
  ∀ id ms j, timers app !! id = Some (ms, j) → epoch j ≤ _run_seq app.

Lemma batch_timers n r app : timers (batch n r app).1 = timers app.
Proof.
  revert r app. induction n as [|n IH]; intros r app; simpl; [done|].
  destruct r as [[| |[[x y] a] rest]|[| |p rest]]; simpl; try done;
    by rewrite IH.
Qed.

Lemma job_pending_bounded j app :
  pending_bounded app → pending_bounded (job j app).
Proof.
  intros Hb. unfold job. case_bool_decide as Hstale; [done|].
  assert (epoch j = _run_seq app) as Hj.
  { destruct (decide (epoch j = _run_seq app)); [done|]. by destruct Hstale. }
  destruct (batch _ _ _) as [app' e] eqn:Hbatch.
  assert (_run_seq app' = _run_seq app) as Hs.
  { change app' with (app', e).1. rewrite <- Hbatch. apply batch_run_seq. }
  assert (timers app' = timers app) as Ht.
  { change app' with (app', e).1. rewrite <- Hbatch. apply batch_timers. }
  assert (pending_bounded app') as Hb'.
  { intros id ms j'. rewrite Ht, Hs. apply Hb. }
  destruct e; simpl; [| |done].
  - intros id ms j'. simpl.
    intros [[<- [= <- <-]]|[_ Hin]]%lookup_insert_Some; simpl; [lia|].
    by apply (Hb' id ms j').
  - destruct (kind_of (it j)); simpl; intros id ms j'; simpl;
      rewrite ?pick_endpoints_timers, ?pick_endpoints_run_seq; apply Hb'.
Qed.

Lemma cancel_pending_bounded app :
  pending_bounded app → pending_bounded (_cancel app).
Proof.
  intros Hb id ms j Hin%cancel_timers. rewrite cancel_run_seq.
  specialize (Hb id ms j Hin). lia.
Qed.

Lemma handle_pending_bounded app ev :
  pending_bounded app → pending_bounded (handle app ev).
Proof.
  intros Hb. destruct ev as [rows cols g sp|sn sp|tid]; simpl.
  - pose proof (cancel_pending_bounded app Hb) as Hc.
    unfold MazeApp.generate. destruct (Maze.new cols rows); simpl; [|done].
    destruct (_calc_delay_batch _ _ _ _) as [d b].
    destruct (generators !! g); simpl; [|done].
    intros id ms j. simpl.
    intros [[<- [= <- <-]]|[_ Hin]]%lookup_insert_Some; simpl; [lia|].
    by apply (Hc id ms j).
  - pose proof (cancel_pending_bounded app Hb) as Hc.
    unfold MazeApp.solve_. destruct (maze app); simpl; [|done].
    case_bool_decide; simpl; [done|].
    destruct (solvers !! sn); simpl; [|done].
    destruct (_calc_delay_batch _ _ _ _) as [d b]. simpl.
    intros id ms j. simpl. rewrite pick_endpoints_timers.
    intros [[<- [= <- <-]]|[_ Hin]]%lookup_insert_Some; simpl;
      rewrite pick_endpoints_run_seq; [lia|].
    by apply (Hc id ms j).
  - unfold fire. destruct (timers app !! tid) as [[ms j]|] eqn:Ht; [|done].
    apply job_pending_bounded. intros id ms' j'. simpl.
    intros [_ Hin]%lookup_delete_Some. by apply (Hb id ms' j').
Qed.

(** In every session, from start-up on, the pending continuations are
    bounded by the current epoch. *)
Lemma session_pending_bounded evs :
  pending_bounded (foldl handle init evs).
Proof.
  assert (∀ app, pending_bounded app → pending_bounded (foldl handle app evs))
    as Hgen.
  { induction evs as [|ev evs IH]; intros app Hb; simpl; [done|].
    apply IH. by apply handle_pending_bounded. }
  apply Hgen. intros id ms j Hin. unfold init in Hin. simpl in Hin.
  by rewrite lookup_empty in Hin.
Qed.

(** An event that begins a run: any [generate], and a [solve] that the
    guards of [solve] let through. *)
Definition starts_run (app : App) (ev : Event) : Prop :=
  match ev with
  | Generate _ _ _ _ => True
  | Solve _ _ => maze app ≠ None ∧ _kind app ≠ Some gen
  | Timer _ => False
  end.

Lemma solve_accepted_run_seq sol_name speed_pct app :
  maze app ≠ None → _kind app ≠ Some gen →
  _run_seq (solve_ sol_name speed_pct app).1 = _run_seq app + 1.
Proof.
  intros Hm Hk. unfold MazeApp.solve_.
  destruct (maze app) eqn:Hm'; [|done]. simpl.
  rewrite bool_decide_eq_false_2 by done.
  destruct (solvers !! sol_name); simpl; [|apply cancel_run_seq].
  destruct (_calc_delay_batch _ _ _ _) as [d b]. simpl.
  by rewrite pick_endpoints_run_seq, cancel_run_seq.
Qed.


(** The continuation a starting run schedules carries the epoch the run
    has just been given. *)
Lemma start_schedules_current_epoch app ev id ms j :
  starts_run app ev →
  _after_id (handle app ev) = Some id →
  timers (handle app ev) !! id = Some (ms, j) →
  epoch j = _run_seq (handle app ev).
Proof.
  destruct ev as [rows cols g sp|sn sp|tid]; simpl; [| |done].
  - intros _. unfold MazeApp.generate.
    destruct (Maze.new cols rows); simpl;
      [|by rewrite cancel_after_id].
    destruct (_calc_delay_batch _ _ _ _) as [d b].
    destruct (generators !! g); simpl; [|by rewrite cancel_after_id].
    intros [= <-]. rewrite lookup_insert_eq. by intros [= <- <-].
  - intros [Hm Hk]. unfold MazeApp.solve_.
    destruct (maze app) eqn:Hm'; [|done]. simpl.
    rewrite bool_decide_eq_false_2 by done.
    destruct (solvers !! sn); simpl; [|by rewrite cancel_after_id].
    destruct (_calc_delay_batch _ _ _ _) as [d b]. simpl.
    intros [= <-]. rewrite lookup_insert_eq. by intros [= <- <-].
Qed.

(** C5. A run begins by taking a fresh epoch: the call that starts run B
    leaves [_run_seq] one higher, and the first continuation it schedules
    carries that new value.  From then on, whatever else happens, a
    continuation [jA] captured by an earlier run finds its epoch different
    from the current one when it resumes and returns the application
    untouched: no grid write, no render call, nothing rescheduled. *)
Theorem stale_continuation_does_no_work
    (app : App) (B : Event) (later : list Event) (jA : Job) :
  starts_run app B →
  epoch jA ≤ _run_seq app →
  _run_seq (handle app B) = _run_seq app + 1
  ∧ (∀ id ms j,
       _after_id (handle app B) = Some id →
       timers (handle app B) !! id = Some (ms, j) →
       epoch j = _run_seq (handle app B))
  ∧ epoch jA ≠ _run_seq (foldl handle (handle app B) later)
  ∧ job jA (foldl handle (handle app B) later)
    = foldl handle (handle app B) later
  ∧ (∀ id ms,
       timers (foldl handle (handle app B) later) !! id = Some (ms, jA) →
       maze (fire id (foldl handle (handle app B) later))
       = maze (foldl handle (handle app B) later)
       ∧ screen (fire id (foldl handle (handle app B) later))
         = screen (foldl handle (handle app B) later)).
Proof.
  intros HB HA.
  assert (Hinc : _run_seq (handle app B) = _run_seq app + 1).
  { destruct B as [rows cols g sp|sn sp|id]; simpl in *.
    - apply generate_run_seq.
    - destruct HB. by apply solve_accepted_run_seq.
    - done. }
  assert (Hne : epoch jA ≠ _run_seq (foldl handle (handle app B) later)).
  { pose proof (events_run_seq later (handle app B)). lia. }
  split; [done|]. split.
  { intros id ms j. by apply start_schedules_current_epoch. }
  split; [done|]. split; [by apply job_stale|].
  intros id ms Hid. unfold fire. rewrite Hid.
  rewrite job_stale by done. done.
Qed.

(** C6, as the code has it.  A [solve] that arrives while a generation run
    is active is turned away: apart from the dialog it shows, the
    application is left as it was.  A [generate] that arrives while a
    solving run is active is not turned away: it takes a new epoch, so the
    solving run is cancelled, and the active kind is no longer [solve]; with
    valid dimensions it installs a fresh grid. *)
Theorem busy_policy (app_g app_s : App)
    (sol_name gen_name : string) (speed_pct : Q) (rows cols : Z) :
  _kind app_g = Some gen →
  _kind app_s = Some solve →
  ((solve_ sol_name speed_pct app_g).2 = None
   ∧ (∃ dialog, (solve_ sol_name speed_pct app_g).1 = render dialog app_g)
   ∧ maze (solve_ sol_name speed_pct app_g).1 = maze app_g
   ∧ _run_seq (solve_ sol_name speed_pct app_g).1 = _run_seq app_g
   ∧ _kind (solve_ sol_name speed_pct app_g).1 = _kind app_g
   ∧ _after_id (solve_ sol_name speed_pct app_g).1 = _after_id app_g
   ∧ timers (solve_ sol_name speed_pct app_g).1 = timers app_g)
  ∧ (_run_seq (generate rows cols gen_name speed_pct app_s).1
     = _run_seq app_s + 1
     ∧ _kind (generate rows cols gen_name speed_pct app_s).1 ≠ Some solve
     ∧ (∀ m, Maze.new cols rows = Some m →
             maze (generate rows cols gen_name speed_pct app_s).1 = Some m)).
Proof.
  intros Hg Hs. split.
  - unfold MazeApp.solve_. destruct (maze app_g) eqn:Hm.
    + rewrite bool_decide_eq_true_2 by done. simpl. eauto 10.
    + simpl. eauto 10.
  - split; [apply generate_run_seq|]. unfold MazeApp.generate.
    destruct (Maze.new cols rows) as [m|] eqn:Hn; simpl.
    + destruct (_calc_delay_batch _ _ _ _) as [d b].
      destruct (generators !! gen_name); simpl.
      * split; [done|]. by intros m' [= <-].
      * rewrite cancel_kind. split; [done|]. by intros m' [= <-].
    + rewrite cancel_kind. done.
Qed.

End driver.

(** *** A concrete session *)

Definition iter_of_list {A} (items : list A) : Iter A :=
  foldr Next StopIteration items.

Definition demo_generators : gmap string (Plugin (Z → Z → Iter Edit)) :=
  {[ "Recursive Division" :=
       {| name := "Recursive Division";
          call := λ w h, iter_of_list (RecursiveDivision.__call__ w h []).1.1 |} ]}.

Definition demo_solvers
  : gmap string (Plugin (Maze.t → Node → Node → Iter Path)) :=
  {[ "BFS" := {| name := "BFS";
                 call := λ m s g, iter_of_list (BFS.__call__ m s g).1 |} ]}.

Definition demo_handle : App → Event → App :=
  MazeApp.handle (λ _, 10) demo_generators demo_solvers.

(** A 2 by 2 maze has been generated and drained; a BFS run is active. *)
Definition demo_solving : App :=
  foldl demo_handle init
        [Generate 2 2 "Recursive Division" 50; Timer 0; Timer 1; Timer 2;
         Timer 3; Timer 4; Timer 5; Timer 6; Timer 7; Timer 8; Timer 9;
         Timer 10; Timer 11; Timer 12; Timer 13; Timer 14;
         Solve "BFS" 50].

(** Generation of a 2 by 2 maze is under way. *)
Definition demo_generating : App :=
  foldl demo_handle init [Generate 2 2 "Recursive Division" 50; Timer 0].

Lemma stale_continuation_witness :
  starts_run demo_generating (Generate 2 2 "Recursive Division" 50)
  ∧ epoch (mkJob 1 (GenRun (Next (1, 1, 1) StopIteration)) 10)
    ≤ _run_seq demo_generating
  ∧ job (mkJob 1 (GenRun (Next (1, 1, 1) StopIteration)) 10)
        (foldl demo_handle
               (demo_handle demo_generating
                            (Generate 2 2 "Recursive Division" 50))
               [Timer 2; Timer 3])
    = foldl demo_handle
            (demo_handle demo_generating
                         (Generate 2 2 "Recursive Division" 50))
            [Timer 2; Timer 3].
Proof.
  split; [exact I|]. split; [vm_compute; discriminate|].
  refine (proj1 (proj2 (proj2 (proj2
    (stale_continuation_does_no_work (λ _, 10) demo_generators demo_solvers
       demo_generating (Generate 2 2 "Recursive Division" 50)
       [Timer 2; Timer 3]
       (mkJob 1 (GenRun (Next (1, 1, 1) StopIteration)) 10) I _))))).
  vm_compute; discriminate.
Defined.

(** C6 as stated fails: with a BFS run in flight (its continuation is
    timer 15), [generate] is not rejected.  It ends without an exception,
    takes epoch 3, drops the pending continuation of the solving run,
    replaces the grid and makes the run kind [gen]. *)
Lemma generate_during_solve_not_rejected :
  _kind demo_solving = Some solve
  ∧ _run_seq demo_solving = 2
  ∧ is_Some (timers demo_solving !! 15%nat)
  ∧ (generate (λ _, 10) demo_generators 2 2 "Recursive Division" 50
              demo_solving).2 = None
  ∧ _run_seq (generate (λ _, 10) demo_generators 2 2 "Recursive Division" 50
                       demo_solving).1 = 3
  ∧ _kind (generate (λ _, 10) demo_generators 2 2 "Recursive Division" 50
                    demo_solving).1 = Some gen
  ∧ timers (generate (λ _, 10) demo_generators 2 2 "Recursive Division" 50
                     demo_solving).1 !! 15%nat = None
  ∧ maze demo_solving = Some (Maze.mk 2 2 [[1; 0]; [0; 1]])
  ∧ maze (generate (λ _, 10) demo_generators 2 2 "Recursive Division" 50
                   demo_solving).1 = Some (Maze.mk 2 2 [[0; 0]; [0; 0]]).
Proof.
  repeat split; try (vm_compute; reflexivity).
  vm_compute. eauto.
Qed.

Lemma busy_policy_witness :
  _kind demo_generating = Some gen
  ∧ _kind demo_solving = Some solve
  ∧ (solve_ (λ _, 10) demo_solvers "BFS" 50 demo_generating).2 = None
  ∧ _run_seq (solve_ (λ _, 10) demo_solvers "BFS" 50 demo_generating).1
    = _run_seq demo_generating
  ∧ _run_seq (generate (λ _, 10) demo_generators 2 2 "Recursive Division" 50
                       demo_solving).1
    = _run_seq demo_solving + 1.
Proof.
  assert (Hg : _kind demo_generating = Some gen) by (vm_compute; reflexivity).
  assert (Hs : _kind demo_solving = Some solve) by (vm_compute; reflexivity).
  pose proof (busy_policy (λ _, 10) demo_generators demo_solvers
                demo_generating demo_solving "BFS" "Recursive Division"
                50 2 2 Hg Hs) as [(H1 & _ & _ & H2 & _) (H3 & _)].
  repeat split; assumption.
Defined.

End DriverProofs.

(** ** Solvers *)

Module SolverProofs.

(** *** Routes *)

Section routes.
Variable m : Maze.t.
Variable start : Node.

(** [route p v]: [p] leads from [start] to [v] by steps between adjacent
    cells, and every cell after [start] is a passage of the grid.  The cell
    [start] itself is not looked at, as in the solvers. *)
Inductive route : Path → Node → Prop :=
| route_start : route [start] start
| route_step p u v :
    route p u → adjacent u v → passage_cell m v → route (p ++ [v]) v.

Definition reachable (goal : Node) : Prop := ∃ p, route p goal.

(** A route to [v] with as few cells, hence as few steps, as any. *)
Definition shortest (p : Path) (v : Node) : Prop :=
  route p v ∧ ∀ q, route q v → (length p ≤ length q)%nat.

Lemma route_last p v : route p v → last p = Some v.
Proof. destruct 1; [done|apply last_snoc]. Qed.

Lemma route_head p v : route p v → head p = Some start.
Proof.
  induction 1 as [|p u v Hp IH]; [done|].
  destruct p; [done|]. done.
Qed.

Lemma route_end p v : route p v → v = start ∨ passage_cell m v.
Proof. destruct 1; auto. Qed.

Lemma route_cells p v x : route p v → x ∈ p → x = start ∨ passage_cell m x.
Proof.
  induction 1 as [|p u v Hp IH]; intros Hx.
  - apply list_elem_of_singleton in Hx. auto.
  - apply elem_of_app in Hx as [Hx|Hx]; [auto|].
    apply list_elem_of_singleton in Hx as ->. auto.
Qed.

Lemma route_nonempty p v : route p v → (1 ≤ length p)%nat.
Proof. destruct 1; [simpl; lia|rewrite length_app; simpl; lia]. Qed.

(** A route that ends outside a set holding [start] has a first step out
    of the set. *)
Lemma route_exit (X : gset Node) q v :
  route q v → start ∈ X → v ∉ X →
  ∃ q1 x y k,
    route q1 x ∧ x ∈ X ∧ (y ∉ X) ∧ adjacent x y ∧ passage_cell m y
    ∧ length q = (length q1 + 1 + k)%nat
    ∧ ∀ goal : Node,
        Z.abs (y.1 - goal.1) + Z.abs (y.2 - goal.2)
        ≤ Z.of_nat k + (Z.abs (v.1 - goal.1) + Z.abs (v.2 - goal.2)).
Proof.
  induction 1 as [|p u v Hp IH Hadj Hv]; intros Hs Hnv; [done|].
  destruct (decide (u ∈ X)) as [Hu|Hu].
  - exists p, u, v, 0%nat. split_and!; try done;
      [rewrite length_app; simpl; lia|intros goal; lia..].
  - destruct (IH Hs Hu) as (q1 & x & y & k & H1 & H2 & H3 & H4 & H5 & H6 & H7).
    exists q1, x, y, (S k). split_and!; try done.
    + rewrite length_app. simpl. lia.
    + intros goal. specialize (H7 goal). unfold adjacent in Hadj.
      destruct u as [ux uy], v as [vx vy], goal as [gx gy]. simpl in *. lia.
Qed.

End routes.

(** *** [neighbours] *)

Lemma elem_of_neighbours x y width height n :
  n ∈ neighbours x y width height
  ↔ adjacent (x, y) n ∧ 0 ≤ n.1 < width ∧ 0 ≤ n.2 < height.
Proof.
  destruct n as [nx ny]. unfold neighbours, _FOUR_DIRS, adjacent. simpl.
  repeat case_bool_decide; rewrite ?elem_of_app, ?elem_of_cons, ?elem_of_nil;
    split; intros H';
    repeat match goal with
           | H : _ ∨ _ |- _ => destruct H
           | H : (_, _) = (_, _) |- _ => injection H as -> ->
           | H : False |- _ => destruct H
           end; try lia;
    assert (nx = x + 1 ∧ ny = y + 0 ∨ nx = x + -1 ∧ ny = y + 0
            ∨ nx = x + 0 ∧ ny = y + 1 ∨ nx = x + 0 ∧ ny = y + -1) as Hc by lia;
    destruct Hc as [[-> ->]|[[-> ->]|[[-> ->]|[-> ->]]]];
    try lia; auto 10.
Qed.

Lemma NoDup_neighbours x y width height :
  NoDup (neighbours x y width height).
Proof.
  unfold neighbours, _FOUR_DIRS. simpl.
  repeat case_bool_decide; simpl;
    repeat (apply NoDup_cons; split;
            [rewrite ?elem_of_cons, elem_of_nil; intros H';
             repeat match goal with
                    | H : _ ∨ _ |- _ => destruct H
                    | H : (_, _) = (_, _) |- _ => injection H; lia
                    | H : False |- _ => destruct H
                    end|]);
    apply NoDup_nil_2.
Qed.

Lemma length_neighbours x y width height :
  (length (neighbours x y width height) ≤ 4)%nat.
Proof.
  unfold neighbours, _FOUR_DIRS. simpl.
  repeat case_bool_decide; simpl; lia.
Qed.

(** *** Draining a step machine *)

Section drain.
Context {S : Type}.
Variable step : S → Step S.
Variable Inv : S → Prop.
Variable measure : S → nat.
Variable Good : Path → Prop.      (* holds of every snapshot *)
Variable Answer : Path → Prop.    (* holds of the snapshot yielded last *)
Variable Other : Path → Prop.     (* holds of every other snapshot *)
Variable Dead : Prop.             (* holds when the loop runs dry *)

Definition step_spec (s : S) : Prop :=
  match step s with
  | Halt r => r = Exhausted ∧ Dead
  | Continue s' => Inv s' ∧ (measure s' < measure s)%nat
  | Yield p s' => Good p ∧ Other p ∧ Inv s' ∧ (measure s' < measure s)%nat
  | YieldReturn p => Good p ∧ Answer p
  end.

Hypothesis step_ok : ∀ s, Inv s → step_spec s.

(** With fuel above the measure the loop comes to its own end: either it
    runs dry, or it returns right after a last snapshot. *)
Lemma drain_spec fuel s :
  Inv s → (measure s < fuel)%nat →
  Forall Good (drain step fuel s).1
  ∧ (((drain step fuel s).2 = Exhausted ∧ Dead
      ∧ Forall Other (drain step fuel s).1)
     ∨ ((drain step fuel s).2 = Found
        ∧ ∃ before p, (drain step fuel s).1 = before ++ [p]
                      ∧ Answer p ∧ Forall Other before)).
Proof.
  revert s. induction fuel as [|fuel IH]; intros s Hinv Hm; [lia|].
  simpl. pose proof (step_ok s Hinv) as Hs. unfold step_spec in Hs.
  destruct (step s) as [r|s'|p s'|p].
  - destruct Hs as [-> Hd]. simpl. split; [constructor|]. left. auto.
  - destruct Hs as [Hinv' Hlt]. apply IH; [done|lia].
  - destruct Hs as (Hg & Ho & Hinv' & Hlt).
    destruct (IH s' Hinv' ltac:(lia)) as [Hall Hend]. simpl.
    split; [by constructor|].
    destruct Hend as [(-> & Hd & Hoth)|(-> & before & q & Heq & Ha & Hoth)].
    + left. repeat split; try done. by constructor.
    + right. split; [done|]. exists (p :: before), q. rewrite Heq.
      repeat split; try done. by constructor.
  - destruct Hs as [Hg Ha]. simpl. split; [by repeat constructor|].
    right. split; [done|]. exists [], p. by repeat split.
Qed.

End drain.

(** *** [heappop] hands out a least entry *)

Section heap.
Context {A : Type}.
Variable lt : A → A → bool.
Variable key : A → Z.
Hypothesis lt_key : ∀ a b, lt a b = true → key a ≤ key b.
Hypothesis nlt_key : ∀ a b, lt a b = false → key b ≤ key a.

Lemma heappop_None pq : heappop lt pq = None → pq = [].
Proof.
  destruct pq as [|a pq]; [done|]. simpl.
  destruct (heappop lt pq) as [[least rest']|]; [|done].
  by destruct (lt least a).
Qed.

Lemma heappop_spec pq e rest :
  heappop lt pq = Some (e, rest) →
  pq ≡ₚ e :: rest ∧ ∀ x, x ∈ rest → key e ≤ key x.
Proof.
  revert e rest. induction pq as [|a pq IH]; intros e rest; simpl; [done|].
  destruct (heappop lt pq) as [[least rest']|] eqn:Hpop.
  - destruct (IH _ _ eq_refl) as [Hperm Hmin].
    destruct (lt least a) eqn:Hlt; intros [= <- <-].
    + split.
      * rewrite Hperm. apply Permutation_swap.
      * intros x [->|Hx]%elem_of_cons; [by apply lt_key|by apply Hmin].
    + split; [done|]. intros x Hx. rewrite Hperm in Hx.
      apply nlt_key in Hlt.
      apply elem_of_cons in Hx as [->|Hx]; [done|].
      specialize (Hmin x Hx). lia.
  - intros [= <- <-]. apply heappop_None in Hpop as ->.
    split; [done|]. by intros x ?%elem_of_nil.
Qed.

End heap.

(** With a strict total order the entry handed out is the least one: no
    entry left in the heap is below it. *)
Section heap_order.
Context {A : Type}.
Variable lt : A → A → bool.
Hypothesis lt_irrefl : ∀ a, lt a a = false.
Hypothesis lt_trans : ∀ a b c, lt a b = true → lt b c = true → lt a c = true.
Hypothesis lt_total : ∀ a b, lt a b = false → lt b a = false → a = b.

Lemma heappop_least pq e rest :
  heappop lt pq = Some (e, rest) →
  pq ≡ₚ e :: rest ∧ ∀ x, x ∈ rest → lt x e = false.
Proof.
  revert e rest. induction pq as [|a pq IH]; intros e rest; simpl; [done|].
  destruct (heappop lt pq) as [[least rest']|] eqn:Hpop.
  - destruct (IH _ _ eq_refl) as [Hperm Hmin].
    destruct (lt least a) eqn:Hlt; intros [= <- <-].
    + split; [rewrite Hperm; apply Permutation_swap|].
      intros x [->|Hx]%elem_of_cons; [|by apply Hmin].
      destruct (lt a least) eqn:Hal; [|done].
      pose proof (lt_trans _ _ _ Hlt Hal) as Hc.
      by rewrite lt_irrefl in Hc.
    + split; [done|]. intros x Hx. rewrite Hperm in Hx.
      apply elem_of_cons in Hx as [->|Hx]; [done|].
      destruct (lt x a) eqn:Hxe; [|done].
      destruct (lt a least) eqn:Hel.
      * pose proof (lt_trans _ _ _ Hxe Hel) as Hc.
        by rewrite (Hmin x Hx) in Hc.
      * pose proof (lt_total _ _ Hlt Hel) as Heq. subst least.
        by rewrite (Hmin x Hx) in Hxe.
  - intros [= <- <-]. apply heappop_None in Hpop as ->.
    split; [done|]. by intros x ?%elem_of_nil.
Qed.

End heap_order.

(** Python's order on coordinates, paths and heap entries is a strict
    total order. *)
Lemma node_lt_true (a b : Node) :
  node_lt a b = true ↔ a.1 < b.1 ∨ (a.1 = b.1 ∧ a.2 < b.2).
Proof. unfold node_lt. apply bool_decide_eq_true. Qed.

Lemma node_lt_false (a b : Node) :
  node_lt a b = false ↔ ¬ (a.1 < b.1 ∨ (a.1 = b.1 ∧ a.2 < b.2)).
Proof. unfold node_lt. apply bool_decide_eq_false. Qed.

Lemma node_lt_irrefl a : node_lt a a = false.
Proof. apply node_lt_false. lia. Qed.

Lemma node_lt_trans a b c :
  node_lt a b = true → node_lt b c = true → node_lt a c = true.
Proof. rewrite !node_lt_true. lia. Qed.

Lemma node_lt_total a b : node_lt a b = false → node_lt b a = false → a = b.
Proof.
  rewrite !node_lt_false. destruct a, b. simpl. intros ??. f_equal; lia.
Qed.

Lemma path_lt_cons a p b q :
  path_lt (a :: p) (b :: q) = true
  ↔ node_lt a b = true ∨ (a = b ∧ path_lt p q = true).
Proof.
  simpl. rewrite orb_true_iff, andb_true_iff, bool_decide_eq_true. done.
Qed.

Lemma path_lt_irrefl p : path_lt p p = false.
Proof.
  induction p as [|a p IH]; [done|]. apply not_true_is_false.
  rewrite path_lt_cons, node_lt_irrefl, IH. naive_solver.
Qed.

Lemma path_lt_trans p q r :
  path_lt p q = true → path_lt q r = true → path_lt p r = true.
Proof.
  revert q r. induction p as [|a p IH]; intros [|b q] [|c r]; try done.
  rewrite !path_lt_cons.
  intros [Hab|[-> Hpq]] [Hbc|[-> Hqr]]; eauto using node_lt_trans.
Qed.

Lemma path_lt_total p q : path_lt p q = false → path_lt q p = false → p = q.
Proof.
  revert q. induction p as [|a p IH]; intros [|b q]; try done.
  intros H1%not_true_iff_false H2%not_true_iff_false.
  rewrite path_lt_cons in H1, H2.
  assert (a = b) as ->.
  { apply node_lt_total; apply not_true_is_false; tauto. }
  f_equal. apply IH; apply not_true_is_false; naive_solver.
Qed.

Lemma dijkstra_entry_lt_true (a b : Z * Node) :
  Dijkstra.entry_lt a b = true
  ↔ a.1 < b.1 ∨ (a.1 = b.1 ∧ node_lt a.2 b.2 = true).
Proof.
  unfold Dijkstra.entry_lt.
  rewrite orb_true_iff, andb_true_iff, !bool_decide_eq_true. done.
Qed.

Lemma dijkstra_heappop_least pq e rest :
  heappop Dijkstra.entry_lt pq = Some (e, rest) →
  pq ≡ₚ e :: rest ∧ ∀ x, x ∈ rest → Dijkstra.entry_lt x e = false.
Proof.
  apply heappop_least.
  - intros a. apply not_true_is_false.
    rewrite dijkstra_entry_lt_true, node_lt_irrefl. naive_solver lia.
  - intros a b c. rewrite !dijkstra_entry_lt_true.
    intros [?|[? ?]] [?|[? ?]]; [left; lia..|].
    right. split; [lia|]. by eapply node_lt_trans.
  - intros [ca na] [cb nb] H1%not_true_iff_false H2%not_true_iff_false.
    rewrite dijkstra_entry_lt_true in H1, H2. simpl in *.
    assert (ca = cb) as -> by lia.
    f_equal. apply node_lt_total; apply not_true_is_false; tauto.
Qed.

Lemma astar_entry_lt_true (a b : AStar.entry) :
  AStar.entry_lt a b = true
  ↔ a.1.1.1 < b.1.1.1
    ∨ (a.1.1.1 = b.1.1.1
       ∧ (a.1.1.2 < b.1.1.2
          ∨ (a.1.1.2 = b.1.1.2
             ∧ (node_lt a.1.2 b.1.2 = true
                ∨ (a.1.2 = b.1.2 ∧ path_lt a.2 b.2 = true))))).
Proof.
  destruct a as [[[fa ga] na] pa], b as [[[fb gb] nb] pb].
  unfold AStar.entry_lt. simpl.
  rewrite !orb_true_iff, !andb_true_iff, !orb_true_iff, !andb_true_iff,
    !bool_decide_eq_true, !orb_true_iff, !andb_true_iff, !bool_decide_eq_true.
  done.
Qed.

Lemma astar_heappop_least pq e rest :
  heappop AStar.entry_lt pq = Some (e, rest) →
  pq ≡ₚ e :: rest ∧ ∀ x, x ∈ rest → AStar.entry_lt x e = false.
Proof.
  apply heappop_least.
  - intros a. apply not_true_is_false.
    rewrite astar_entry_lt_true, node_lt_irrefl, path_lt_irrefl.
    naive_solver lia.
  - intros a b c. rewrite !astar_entry_lt_true.
    intros [?|[? [?|[? [?|[? ?]]]]]] [?|[? [?|[? [?|[? ?]]]]]];
      try (left; lia); right; (split; [lia|]);
      try (left; lia); right; (split; [lia|]).
    + left. by eapply node_lt_trans.
    + left. congruence.
    + left. congruence.
    + right. split; [congruence|]. by eapply path_lt_trans.
  - intros [[[fa ga] na] pa] [[[fb gb] nb] pb]
      H1%not_true_iff_false H2%not_true_iff_false.
    rewrite astar_entry_lt_true in H1, H2. simpl in *.
    assert (fa = fb) as -> by lia.
    assert (ga = gb) as -> by lia.
    assert (na = nb) as ->.
    { apply node_lt_total; apply not_true_is_false; intros ?; tauto. }
    f_equal. apply path_lt_total; apply not_true_is_false; intros ?; tauto.
Qed.

(** *** Parent links and [_reconstruct] *)

(** [parent_path parent v p]: following the parent links from [v] up to
    the root gives, read from the root down, the path [p]. *)
Inductive parent_path (parent : gmap Node (option Node))
  : Node → Path → Prop :=
| parent_path_root v : parent !! v = Some None → parent_path parent v [v]
| parent_path_child v u p :
    parent !! v = Some (Some u) → parent_path parent u p →
    parent_path parent v (p ++ [v]).

Lemma parent_path_keys parent v p x :
  parent_path parent v p → x ∈ p → is_Some (parent !! x).
Proof.
  induction 1 as [v Hv|v u p Hv Hp IH]; intros Hx.
  - apply list_elem_of_singleton in Hx as ->. eauto.
  - apply elem_of_app in Hx as [Hx|Hx]; [auto|].
    apply list_elem_of_singleton in Hx as ->. eauto.
Qed.

Lemma parent_path_walk parent v p fuel :
  parent_path parent v p → (length p ≤ fuel)%nat →
  _reconstruct_walk fuel parent (Some v) = Ok (reverse p).
Proof.
  intros Hp. revert fuel.
  induction Hp as [v Hv|v u p Hv Hp IH]; intros fuel Hf.
  - destruct fuel as [|fuel]; [simpl in Hf; lia|]. simpl. rewrite Hv.
    by destruct fuel.
  - rewrite length_app in Hf. simpl in Hf.
    destruct fuel as [|fuel]; [lia|]. simpl. rewrite Hv.
    rewrite IH by lia. by rewrite reverse_snoc.
Qed.

Lemma reconstruct_parent_path parent v p :
  parent_path parent v p → NoDup p → _reconstruct parent v = Ok p.
Proof.
  intros Hp Hnd. unfold _reconstruct.
  rewrite (parent_path_walk parent v p); [by rewrite reverse_involutive|done|].
  assert (length p ≤ size (dom parent))%nat as Hle.
  { rewrite <- (size_list_to_set (C := gset Node) p) by done.
    apply subseteq_size. intros x Hx%elem_of_list_to_set.
    apply elem_of_dom. by eapply parent_path_keys. }
  rewrite size_dom in Hle. lia.
Qed.

Lemma parent_path_insert parent v p n up :
  parent_path parent v p → parent !! n = None →
  parent_path (<[n := up]> parent) v p.
Proof.
  intros Hp Hn. induction Hp as [v Hv|v u p Hv Hp IH].
  - apply parent_path_root. rewrite lookup_insert_ne; [done|congruence].
  - apply parent_path_child with u; [|done].
    rewrite lookup_insert_ne; [done|congruence].
Qed.

(** *** Cells not yet seen: the termination measure *)

Definition cells (m : Maze.t) : list Node :=
  x ← range 0 (Maze.w m); y ← range 0 (Maze.h m); [(x, y)].

Lemma elem_of_cells m c : c ∈ cells m ↔ Maze.in_bounds m c.
Proof.
  destruct c as [cx cy]. unfold cells, Maze.in_bounds. simpl. split.
  - intros (x & (y & Hc & Hy%GenProofs.elem_of_range)%list_elem_of_bind
              & Hx%GenProofs.elem_of_range)%list_elem_of_bind.
    apply list_elem_of_singleton in Hc as [= -> ->]. lia.
  - intros [Hx Hy]. apply list_elem_of_bind. exists cx.
    split; [|by apply GenProofs.elem_of_range].
    apply list_elem_of_bind. exists cy.
    split; [left|by apply GenProofs.elem_of_range].
Qed.

Lemma length_cells m :
  length (cells m) = (Z.to_nat (Maze.w m) * Z.to_nat (Maze.h m))%nat.
Proof.
  unfold cells, range. rewrite !Z.sub_0_r.
  rewrite <- (length_seqZ 0 (Maze.w m)), <- (length_seqZ 0 (Maze.h m)).
  generalize (seqZ 0 (Maze.h m)) as ys. generalize (seqZ 0 (Maze.w m)) as xs.
  induction xs as [|x xs IH]; intros ys; [done|].
  rewrite bind_cons, length_app, IH. simpl. f_equal.
  clear IH. induction ys as [|y ys IHy]; [done|].
  rewrite bind_cons. simpl. by rewrite IHy.
Qed.

(** The cells of [l] outside the set [X]. *)
Definition unseen (X : gset Node) (l : list Node) : nat :=
  length (filter (λ c, c ∉ X) l).

Lemma unseen_le X l : (unseen X l ≤ length l)%nat.
Proof. apply length_filter. Qed.

Lemma unseen_insert X l n :
  n ∈ l → n ∉ X → (unseen ({[n]} ∪ X) l < unseen X l)%nat.
Proof.
  intros Hl Hn. unfold unseen.
  rewrite (list_filter_iff (λ c, c ∉ {[n]} ∪ X) (λ c, c ≠ n ∧ c ∉ X)).
  2:{ intros c. rewrite not_elem_of_union, elem_of_singleton. tauto. }
  rewrite <- list_filter_filter.
  apply length_filter_lt with n.
  - by apply list_elem_of_filter.
  - by intros [].
Qed.

Lemma unseen_empty l : unseen ∅ l = length l.
Proof.
  unfold unseen. induction l as [|x l IH]; [done|].
  rewrite filter_cons_True by set_solver. simpl. by rewrite IH.
Qed.

(** *** Work-list search: what BFS and DFS share *)

Section worklist.
Variable m : Maze.t.
Variables start goal : Node.

(** How a newly seen cell joins the work list: at the back for the queue
    of BFS, on top for the stack of DFS. *)
Variable push : list Node → Node → list Node.
Hypothesis push_elem : ∀ q n x, x ∈ push q n ↔ x = n ∨ x ∈ q.
Hypothesis push_NoDup : ∀ q n, n ∉ q → NoDup q → NoDup (push q n).
Hypothesis push_length : ∀ q n, length (push q n) = S (length q).

Definition pushed (current : Node) (s : Work) (n : Node) : Work :=
  mkWork (push (work s) n) (<[n := Some current]> (parent s))
         ({[n]} ∪ visited s).

Definition wvisit (current : Node) (s : Work) (n : Node) : Work :=
  if bool_decide (Maze.get (Maze.grid m) n.1 n.2 = 0 ∨ n ∈ visited s)
  then s else pushed current s n.

Lemma wvisit_skip u s n :
  Maze.get (Maze.grid m) n.1 n.2 = 0 ∨ n ∈ visited s → wvisit u s n = s.
Proof. intros H. unfold wvisit. by rewrite bool_decide_eq_true_2. Qed.

Lemma wvisit_push u s n :
  ¬ (Maze.get (Maze.grid m) n.1 n.2 = 0 ∨ n ∈ visited s) →
  wvisit u s n = pushed u s n.
Proof. intros H. unfold wvisit. by rewrite bool_decide_eq_false_2. Qed.

Definition popped (s : Work) (rest : list Node) : Work :=
  mkWork rest (parent s) (visited s).

Definition wstep (s : Work) : Step Work :=
  match work s with
  | [] => Halt Exhausted
  | current :: rest =>
      match _reconstruct (parent s) current with
      | Ok path =>
          if bool_decide (current = goal) then YieldReturn path
          else Yield path
                 (foldl (wvisit current) (popped s rest)
                        (neighbours current.1 current.2 (Maze.w m) (Maze.h m)))
      | Raise e => Halt (Raised e)
      | NoFuel => Halt OutOfFuel
      end
  end.

(** The path recorded for a newly seen cell [n], reached from [u]. *)
Definition extend (paths : Node → Path) (u n : Node) : Node → Path :=
  λ x, if decide (x = n) then paths u ++ [n] else paths x.

(** The invariant.  [paths v] is the path the parent links spell out for a
    visited cell [v]; [cur] is the cell being expanded, if any, with its
    neighbours still to be looked at. *)
Record wl_inv (paths : Node → Path) (cur : option (Node * list Node))
    (s : Work) : Prop := {
  wl_dom : ∀ v, v ∈ visited s ↔ is_Some (parent s !! v);
  wl_start : start ∈ visited s;
  wl_links : ∀ v, v ∈ visited s → parent_path (parent s) v (paths v);
  wl_route : ∀ v, v ∈ visited s → route m start (paths v) v;
  wl_nodup : ∀ v, v ∈ visited s → NoDup (paths v);
  wl_seen : ∀ v x, v ∈ visited s → x ∈ paths v → x ∈ visited s;
  wl_work_nodup : NoDup (work s);
  wl_work_seen : ∀ v, v ∈ work s → v ∈ visited s;
  wl_closed : ∀ u, u ∈ visited s → u ∉ work s →
      u ≠ goal
      ∧ ∀ v, adjacent u v → passage_cell m v →
             v ∈ visited s ∨ ∃ rem, cur = Some (u, rem) ∧ v ∈ rem
}.

Definition wl_measure (s : Work) : nat :=
  (length (work s) + unseen (visited s) (cells m))%nat.

Lemma wl_inv_init :
  wl_inv (λ _, [start]) None (mkWork [start] {[start := None]} {[start]}).
Proof.
  split; simpl.
  - intros v. rewrite elem_of_singleton. split.
    + intros ->. rewrite lookup_singleton_eq. eauto.
    + intros [x Hx]. apply lookup_singleton_Some in Hx as [-> _]. done.
  - by apply elem_of_singleton.
  - intros v ->%elem_of_singleton. apply parent_path_root.
    apply lookup_singleton_eq.
  - intros v ->%elem_of_singleton. constructor.
  - intros v _. apply NoDup_singleton.
  - intros v x _ ->%list_elem_of_singleton. by apply elem_of_singleton.
  - apply NoDup_singleton.
  - intros v ->%list_elem_of_singleton. by apply elem_of_singleton.
  - intros u ->%elem_of_singleton Hu. destruct Hu. left.
Qed.

Lemma wl_inv_skip paths u n rem s :
  wl_inv paths (Some (u, n :: rem)) s →
  Maze.get (Maze.grid m) n.1 n.2 = 0 ∨ n ∈ visited s →
  wl_inv paths (Some (u, rem)) s.
Proof.
  intros [] Hskip. split; try done.
  intros u' Hu' Hw. destruct (wl_closed0 u' Hu' Hw) as [Hg Hcl].
  split; [done|]. intros v Hadj Hv.
  destruct (Hcl v Hadj Hv) as [?|(rem' & [= <- <-] & Hin)]; [by left|].
  apply elem_of_cons in Hin as [->|Hin]; [|right; eauto].
  left. destruct Hskip as [Hwall|?]; [|done]. by destruct Hv.
Qed.

Lemma wl_inv_push paths u n rem s :
  wl_inv paths (Some (u, n :: rem)) s →
  u ∈ visited s → adjacent u n → passage_cell m n → n ∉ visited s →
  wl_inv (extend paths u n) (Some (u, rem)) (pushed u s n).
Proof.
  intros [] Hu Hadj Hn Hfresh.
  assert (parent s !! n = None) as Hnone.
  { apply eq_None_not_Some. by rewrite <- wl_dom0. }
  assert (∀ v, v ∈ visited s → extend paths u n v = paths v) as Hold.
  { intros v Hv. unfold extend. case_decide; [by subst|done]. }
  assert (extend paths u n n = paths u ++ [n]) as Hnew.
  { unfold extend. by rewrite decide_True. }
  split; simpl.
  - intros v. rewrite elem_of_union, elem_of_singleton, wl_dom0.
    rewrite lookup_insert_is_Some. destruct (decide (n = v)); naive_solver.
  - apply elem_of_union. by right.
  - intros v [->%elem_of_singleton|Hv]%elem_of_union.
    + rewrite Hnew. apply parent_path_child with u.
      * apply lookup_insert_eq.
      * apply parent_path_insert; auto.
    + rewrite Hold by done. apply parent_path_insert; auto.
  - intros v [->%elem_of_singleton|Hv]%elem_of_union.
    + rewrite Hnew. eapply route_step; eauto.
    + rewrite Hold by done. auto.
  - intros v [->%elem_of_singleton|Hv]%elem_of_union.
    + rewrite Hnew. apply NoDup_app. split_and!; [auto| |apply NoDup_singleton].
      intros x Hx ->%list_elem_of_singleton. apply Hfresh. eauto.
    + rewrite Hold by done. auto.
  - intros v x [->%elem_of_singleton|Hv]%elem_of_union.
    + rewrite Hnew. rewrite elem_of_app, list_elem_of_singleton.
      intros [Hx| ->]; apply elem_of_union; [right; eauto|left].
      by apply elem_of_singleton.
    + rewrite Hold by done. intros Hx. apply elem_of_union. right. eauto.
  - apply push_NoDup; [|done]. intros Hin. apply Hfresh. auto.
  - intros v [->|Hv]%push_elem; apply elem_of_union;
      [left; by apply elem_of_singleton|right; auto].
  - intros u' Hu' Hw. rewrite push_elem in Hw.
    apply elem_of_union in Hu' as [->%elem_of_singleton|Hu']; [tauto|].
    destruct (wl_closed0 u' Hu') as [Hg Hcl]; [tauto|].
    split; [done|]. intros v Hadj' Hv.
    destruct (Hcl v Hadj' Hv) as [?|(rem' & [= <- <-] & Hin)].
    + left. apply elem_of_union. by right.
    + apply elem_of_cons in Hin as [->|Hin]; [|right; eauto].
      left. apply elem_of_union. left. by apply elem_of_singleton.
Qed.

Lemma wl_measure_push u s (n : Node) :
  Maze.in_bounds m n → n ∉ visited s →
  (wl_measure (pushed u s n) ≤ wl_measure s)%nat.
Proof.
  intros Hn Hfresh. unfold wl_measure. simpl. rewrite push_length.
  assert (unseen ({[n]} ∪ visited s) (cells m) < unseen (visited s) (cells m))%nat
    as Hlt by (apply unseen_insert; [by apply elem_of_cells|done]).
  lia.
Qed.

(** The extra facts a particular search keeps: [E] between turns of the
    loop, [Ecur u] while [u] is being expanded, [Ans] of the answer. *)
Variable E : (Node → Path) → Work → Prop.
Variable Ecur : Node → (Node → Path) → Work → Prop.
Variable Ans : Path → Prop.

Hypothesis E_pop : ∀ paths s u rest,
  wl_inv paths None s → E paths s → work s = u :: rest → u ≠ goal →
  Ecur u paths (popped s rest).
Hypothesis E_push : ∀ paths s u n rem,
  wl_inv paths (Some (u, n :: rem)) s → Ecur u paths s →
  u ∈ visited s → adjacent u n → passage_cell m n → n ∉ visited s →
  Ecur u (extend paths u n) (pushed u s n).
Hypothesis E_done : ∀ paths s u, Ecur u paths s → E paths s.
Hypothesis E_answer : ∀ paths s rest,
  wl_inv paths None s → E paths s → work s = goal :: rest →
  Ans (paths goal).

Lemma wl_fold u rem : ∀ paths s,
  (∀ n, n ∈ rem → adjacent u n ∧ Maze.in_bounds m n) →
  u ∈ visited s →
  wl_inv paths (Some (u, rem)) s → Ecur u paths s →
  ∃ paths',
    wl_inv paths' (Some (u, [])) (foldl (wvisit u) s rem)
    ∧ Ecur u paths' (foldl (wvisit u) s rem)
    ∧ (wl_measure (foldl (wvisit u) s rem) ≤ wl_measure s)%nat.
Proof.
  induction rem as [|n rem IH]; intros paths s Hrem Hu Hinv He; simpl.
  { exists paths. auto. }
  destruct (Hrem n) as [Hadj Hin]; [left|].
  assert (∀ n', n' ∈ rem → adjacent u n' ∧ Maze.in_bounds m n') as Hrem'.
  { intros n' Hn'. apply Hrem. by right. }
  destruct (decide (Maze.get (Maze.grid m) n.1 n.2 = 0 ∨ n ∈ visited s))
    as [Hskip|Hskip].
  - rewrite wvisit_skip by done. apply (IH paths); auto.
    by eapply wl_inv_skip.
  - rewrite wvisit_push by done.
    assert (passage_cell m n ∧ n ∉ visited s) as [Hn Hfresh].
    { split; [split; [done|]|]; tauto. }
    destruct (IH (extend paths u n) (pushed u s n)) as (paths' & H1 & H2 & H3);
      auto.
    + simpl. apply elem_of_union. by right.
    + by apply wl_inv_push.
    + eapply E_push; eauto.
    + exists paths'. split_and!; auto.
      etrans; [exact H3|]. by apply wl_measure_push.
Qed.

Definition wl_Inv (s : Work) : Prop := ∃ paths, wl_inv paths None s ∧ E paths s.

(** Every snapshot is a route from [start] without repeated cells. *)
Definition snapshot_ok (p : Path) : Prop :=
  (∃ v, route m start p v) ∧ NoDup p.

Lemma wl_step_ok s :
  wl_Inv s →
  step_spec wstep wl_Inv wl_measure snapshot_ok
            (λ p, route m start p goal ∧ Ans p)
            (λ p, last p ≠ Some goal)
            (¬ reachable m start goal) s.
Proof.
  intros (paths & Hinv & He). unfold step_spec, wstep.
  destruct (work s) as [|u rest] eqn:Hwork.
  - split; [done|]. intros [q Hq].
    assert (goal ∈ visited s) as Hg.
    { destruct (decide (goal ∈ visited s)) as [|Hng]; [done|].
      destruct (route_exit m start (visited s) q goal Hq (wl_start _ _ _ Hinv) Hng)
        as (q1 & x & y & k & _ & Hx & Hy & Hadj & Hpy & _).
      destruct (wl_closed _ _ _ Hinv x Hx) as [_ Hcl].
      { rewrite Hwork. apply not_elem_of_nil. }
      destruct (Hcl y Hadj Hpy) as [?|(rem & ? & _)]; done. }
    destruct (wl_closed _ _ _ Hinv goal Hg) as [Hne _]; [|done].
    rewrite Hwork. apply not_elem_of_nil.
  - assert (u ∈ visited s) as Hu.
    { apply (wl_work_seen _ _ _ Hinv). rewrite Hwork. left. }
    rewrite (reconstruct_parent_path _ _ (paths u));
      [|by apply (wl_links _ _ _ Hinv)|by apply (wl_nodup _ _ _ Hinv)].
    assert (snapshot_ok (paths u)) as Hok.
    { split; [exists u; by apply (wl_route _ _ _ Hinv)|
              by apply (wl_nodup _ _ _ Hinv)]. }
    case_bool_decide as Hgoal.
    + subst u. split; [done|]. split; [by apply (wl_route _ _ _ Hinv)|].
      eapply E_answer; eauto.
    + split; [done|]. split.
      { rewrite (route_last m start (paths u) u); [congruence|].
        by apply (wl_route _ _ _ Hinv). }
      pose proof (wl_work_nodup _ _ _ Hinv) as Hnd. rewrite Hwork in Hnd.
      apply NoDup_cons in Hnd as [Hurest Hndrest].
      assert (wl_inv paths (Some (u, neighbours u.1 u.2 (Maze.w m) (Maze.h m)))
                (popped s rest)) as Hinv0.
      { destruct Hinv. split; simpl; try done.
        - intros v Hv. apply wl_work_seen0. rewrite Hwork. by right.
        - intros u' Hu' Hw. destruct (decide (u' = u)) as [->|Hne].
          + split; [done|]. intros v Hadj Hv. right. eexists. split; [done|].
            apply elem_of_neighbours. destruct u. split; [done|]. apply Hv.
          + destruct (wl_closed0 u' Hu') as [Hg Hcl].
            { rewrite Hwork. intros [->|?]%elem_of_cons; done. }
            split; [done|]. intros v Hadj Hv.
            destruct (Hcl v Hadj Hv) as [?|(rem & ? & _)]; [by left|done]. }
      destruct (wl_fold u (neighbours u.1 u.2 (Maze.w m) (Maze.h m))
                        paths (popped s rest))
        as (paths' & H1 & H2 & H3); auto.
      { intros n [Hadj Hb]%elem_of_neighbours. destruct u. split; [done|].
        destruct n. apply Hb. }
      split.
      * exists paths'. split; [|by eapply E_done].
        destruct H1. split; try done.
        intros u' Hu' Hw. destruct (wl_closed0 u' Hu' Hw) as [Hg Hcl].
        split; [done|]. intros v Hadj Hv.
        destruct (Hcl v Hadj Hv) as [?|(rem & [= _ <-] & Hin)]; [by left|].
        by apply elem_of_nil in Hin.
      * unfold wl_measure in *. simpl in *. rewrite Hwork. simpl. lia.
Qed.

End worklist.

(** *** The solvers as instances *)

Lemma foldl_ext_eq {A B} (f g : A → B → A) a l :
  (∀ a b, f a b = g a b) → foldl f a l = foldl g a l.
Proof.
  intros Hfg. revert a. induction l as [|b l IH]; intros a; simpl; [done|].
  by rewrite Hfg, IH.
Qed.

Lemma drain_ext {S} (step1 step2 : S → Step S) fuel s :
  (∀ s, step1 s = step2 s) → drain step1 fuel s = drain step2 fuel s.
Proof.
  intros Hs. revert s. induction fuel as [|fuel IH]; intros s; simpl; [done|].
  rewrite Hs. destruct (step2 s); try done; by rewrite IH.
Qed.

(** What a solver's run looks like from outside: every snapshot is a
    route from [start] without repeats; and either the goal cannot be
    reached, the run ends by exhaustion and no snapshot ends at the goal,
    or the run returns after a last snapshot, a route to the goal with
    property [Ans], and no earlier snapshot ends at the goal. *)
Definition solver_spec (m : Maze.t) (start goal : Node) (Ans : Path → Prop)
    (run : list Path * Stop) : Prop :=
  Forall (snapshot_ok m start) run.1
  ∧ ((run.2 = Exhausted ∧ ¬ reachable m start goal
      ∧ Forall (λ p, last p ≠ Some goal) run.1)
     ∨ (run.2 = Found
        ∧ ∃ before p, run.1 = before ++ [p]
                      ∧ (route m start p goal ∧ Ans p)
                      ∧ Forall (λ p, last p ≠ Some goal) before)).

Lemma solver_fuel_enough (m : Maze.t) (X : gset Node) :
  (1 + unseen X (cells m) < solver_fuel m)%nat.
Proof.
  pose proof (unseen_le X (cells m)) as Hle. rewrite length_cells in Hle.
  unfold solver_fuel. lia.
Qed.

Section dfs.
Variable m : Maze.t.
Variables start goal : Node.

Definition dfs_push (q : list Node) (n : Node) : list Node := n :: q.

Lemma dfs_step_eq s : DFS.step m goal s = wstep m goal dfs_push s.
Proof.
  unfold DFS.step, wstep. destruct (work s) as [|u rest]; [done|].
  destruct (_reconstruct _ _); try done. case_bool_decide; [done|].
  f_equal. apply foldl_ext_eq. by intros w [nx ny].
Qed.

Lemma dfs_spec : solver_spec m start goal (λ _, True) (DFS.__call__ m start goal).
Proof.
  unfold DFS.__call__. rewrite (drain_ext _ _ _ _ dfs_step_eq).
  unfold solver_spec.
  apply (drain_spec (wstep m goal dfs_push)
           (wl_Inv m start goal (λ _ _, True))
           (wl_measure m)).
  - intros s Hs.
    apply (wl_step_ok m start goal dfs_push) with (Ecur := λ _ _ _, True);
      try done.
    + intros q n x. apply elem_of_cons.
    + intros q n ? ?. by apply NoDup_cons.
  - exists (λ _, [start]). split; [|done]. apply wl_inv_init.
  - unfold wl_measure, DFS.init. simpl. apply solver_fuel_enough.
Qed.

End dfs.

Section bfs.
Variable m : Maze.t.
Variables start goal : Node.

Definition bfs_push (q : list Node) (n : Node) : list Node := q ++ [n].

Lemma bfs_step_eq s : BFS.step m goal s = wstep m goal bfs_push s.
Proof.
  unfold BFS.step, wstep. destruct (work s) as [|u rest]; [done|].
  destruct (_reconstruct _ _); try done. case_bool_decide; [done|].
  f_equal. apply foldl_ext_eq. by intros w [nx ny].
Qed.

(** Two cells in queue order: the later one is at the same depth or one
    deeper. *)
Definition level_le (paths : Node → Path) (x y : Node) : Prop :=
  (length (paths x) ≤ length (paths y) ≤ length (paths x) + 1)%nat.

(** The recorded paths are shortest, and the queue is in depth order. *)
Definition bfs_E (paths : Node → Path) (s : Work) : Prop :=
  (∀ v q, v ∈ visited s → route m start q v →
          (length (paths v) ≤ length q)%nat)
  ∧ StronglySorted (level_le paths) (work s).

Definition bfs_Ecur (u : Node) (paths : Node → Path) (s : Work) : Prop :=
  bfs_E paths s ∧ ∀ x, x ∈ work s → level_le paths u x.

Lemma StronglySorted_agree (paths paths' : Node → Path) l :
  (∀ x, x ∈ l → paths' x = paths x) →
  StronglySorted (level_le paths) l → StronglySorted (level_le paths') l.
Proof.
  intros Hag Hs. induction Hs as [|a l Hs IH Ha]; [constructor|].
  constructor.
  - apply IH. intros x Hx. apply Hag. by right.
  - rewrite Forall_forall in *. intros x Hx. unfold level_le.
    rewrite !Hag by (by constructor). by apply Ha.
Qed.

Lemma bfs_push_ok paths s u n rem :
  wl_inv m start goal paths (Some (u, n :: rem)) s → bfs_Ecur u paths s →
  u ∈ visited s → adjacent u n → passage_cell m n → n ∉ visited s →
  bfs_Ecur u (extend paths u n) (pushed bfs_push u s n).
Proof.
  intros Hinv [[Hshort Hsort] Hlev] Hu Hadj Hn Hfresh.
  assert (∀ v, v ∈ visited s → extend paths u n v = paths v) as Hold.
  { intros v Hv. unfold extend. case_decide; [by subst|done]. }
  assert (extend paths u n n = paths u ++ [n]) as Hnew.
  { unfold extend. by rewrite decide_True. }
  assert (∀ x, x ∈ work s → extend paths u n x = paths x) as Holdw.
  { intros x Hx. apply Hold. by eapply wl_work_seen. }
  split; [split|]; simpl.
  - intros v q [->%elem_of_singleton|Hv]%elem_of_union Hq.
    + rewrite Hnew, length_app. simpl.
      destruct (route_exit m start (visited s) q n Hq
                  (wl_start _ _ _ _ _ _ Hinv) Hfresh)
        as (q1 & x & y & k & Hq1 & Hx & Hy & Hxy & Hpy & Hlen & _).
      assert (length (paths u) ≤ length (paths x))%nat as Hux.
      { destruct (decide (x ∈ work s)) as [Hw|Hw]; [by apply Hlev|].
        destruct (wl_closed _ _ _ _ _ _ Hinv x Hx Hw) as [_ Hcl].
        destruct (Hcl y Hxy Hpy) as [?|(rem' & [= <- _] & _)]; done. }
      specialize (Hshort x q1 Hx Hq1). lia.
    + rewrite Hold by done. by apply Hshort.
  - unfold bfs_push. apply StronglySorted_app_2.
    + intros x1 x2 Hx1 ->%list_elem_of_singleton. unfold level_le.
      rewrite Hnew, (Holdw x1), length_app by done. simpl.
      specialize (Hlev x1 Hx1). unfold level_le in Hlev. lia.
    + by apply (StronglySorted_agree paths).
    + repeat constructor.
  - intros x [Hx| ->%list_elem_of_singleton]%elem_of_app; unfold level_le.
    + rewrite (Holdw x), (Hold u) by done. by apply Hlev.
    + rewrite Hnew, (Hold u), length_app by done. simpl. lia.
Qed.

Lemma bfs_spec :
  solver_spec m start goal
    (λ p, ∀ q, route m start q goal → (length p ≤ length q)%nat)
    (BFS.__call__ m start goal).
Proof.
  unfold BFS.__call__. rewrite (drain_ext _ _ _ _ bfs_step_eq).
  unfold solver_spec.
  apply (drain_spec (wstep m goal bfs_push)
           (wl_Inv m start goal bfs_E) (wl_measure m)).
  - intros s Hs.
    apply (wl_step_ok m start goal bfs_push) with (Ecur := bfs_Ecur);
      try done.
    + intros q n x. unfold bfs_push.
      rewrite elem_of_app, list_elem_of_singleton. tauto.
    + intros q n Hn Hq. unfold bfs_push. apply NoDup_app.
      split_and!; [done| |apply NoDup_singleton].
      by intros x Hx ->%list_elem_of_singleton.
    + intros q n. unfold bfs_push. rewrite length_app. simpl. lia.
    + intros paths s' u rest Hinv [Hshort Hsort] Hw _.
      rewrite Hw in Hsort. apply StronglySorted_cons in Hsort as [Hu Hrest].
      split; [by split|]. simpl. by rewrite Forall_forall in Hu.
    + apply bfs_push_ok.
    + by intros paths s' u [].
    + intros paths s' rest Hinv [Hshort _] Hw q Hq. apply Hshort; [|done].
      apply (wl_work_seen _ _ _ _ _ _ Hinv). rewrite Hw. left.
  - exists (λ _, [start]). split; [apply wl_inv_init|]. split; simpl.
    + intros v q _ Hq. by eapply route_nonempty.
    + repeat constructor.
  - unfold wl_measure, BFS.init. simpl. apply solver_fuel_enough.
Qed.

End bfs.

(** *** Dijkstra *)

Section dijkstra.
Variable m : Maze.t.
Variables start goal : Node.

Definition relaxed (cost : Z) (u : Node) (s : Dijkstra.state) (n : Node)
  : Dijkstra.state :=
  Dijkstra.mk (<[n := cost + 1]> (Dijkstra.dist s))
              (<[n := Some u]> (Dijkstra.parent s))
              (heappush (Dijkstra.pq s) (cost + 1, n))
              (Dijkstra.visited s).

Lemma relax_cases cost u s n :
  Dijkstra.relax m cost u s n =
  if bool_decide (Maze.get (Maze.grid m) n.1 n.2 = 0) then s
  else match Dijkstra.dist s !! n with
       | None => relaxed cost u s n
       | Some d => if bool_decide (cost + 1 < d) then relaxed cost u s n
                   else s
       end.
Proof.
  destruct n as [nx ny]. unfold Dijkstra.relax. simpl.
  case_bool_decide; [done|].
  destruct (Dijkstra.dist s !! (nx, ny)); [|reflexivity].
  case_bool_decide; reflexivity.
Qed.

(** The invariant.  [paths v] is the path the parent links spell out for a
    discovered cell [v]; [L] is the cost popped last; [cur] is the cell
    being expanded, if any, with its neighbours still to be relaxed. *)
Record dj_inv (paths : Node → Path) (L : Z)
    (cur : option (Node * list Node)) (s : Dijkstra.state) : Prop := {
  dj_dom : ∀ v, is_Some (Dijkstra.dist s !! v)
                ↔ is_Some (Dijkstra.parent s !! v);
  dj_start : is_Some (Dijkstra.dist s !! start);
  dj_vis : ∀ v, v ∈ Dijkstra.visited s → is_Some (Dijkstra.dist s !! v);
  dj_links : ∀ v, is_Some (Dijkstra.dist s !! v) →
                  parent_path (Dijkstra.parent s) v (paths v);
  dj_route : ∀ v, is_Some (Dijkstra.dist s !! v) →
                  route m start (paths v) v;
  dj_nodup : ∀ v, is_Some (Dijkstra.dist s !! v) → NoDup (paths v);
  dj_seen : ∀ v x, is_Some (Dijkstra.dist s !! v) → x ∈ paths v →
                   is_Some (Dijkstra.dist s !! x);
  dj_dist : ∀ v d, Dijkstra.dist s !! v = Some d →
                   d = Z.of_nat (length (paths v)) - 1;
  dj_short : ∀ v q, is_Some (Dijkstra.dist s !! v) → route m start q v →
                    (length (paths v) ≤ length q)%nat;
  dj_pq : ∀ c v, (c, v) ∈ Dijkstra.pq s → Dijkstra.dist s !! v = Some c;
  dj_front : ∀ v d, Dijkstra.dist s !! v = Some d →
                    v ∉ Dijkstra.visited s → (d, v) ∈ Dijkstra.pq s;
  dj_level : ∀ c v, (c, v) ∈ Dijkstra.pq s → L ≤ c ≤ L + 1;
  dj_done : ∀ v d, v ∈ Dijkstra.visited s →
                   Dijkstra.dist s !! v = Some d → d ≤ L;
  dj_closed : ∀ u, u ∈ Dijkstra.visited s →
      u ≠ goal
      ∧ ∀ v, adjacent u v → passage_cell m v →
             is_Some (Dijkstra.dist s !! v)
             ∨ ∃ rem, cur = Some (u, rem) ∧ v ∈ rem;
  dj_cur : ∀ u rem, cur = Some (u, rem) →
                    Dijkstra.dist s !! u = Some L ∧ u ∈ Dijkstra.visited s
}.

Definition dj_measure (s : Dijkstra.state) : nat :=
  (length (Dijkstra.pq s) + unseen (dom (Dijkstra.dist s)) (cells m))%nat.

Lemma dj_inv_skip paths L u n rem s :
  dj_inv paths L (Some (u, n :: rem)) s →
  Maze.get (Maze.grid m) n.1 n.2 = 0 ∨ is_Some (Dijkstra.dist s !! n) →
  dj_inv paths L (Some (u, rem)) s.
Proof.
  intros [] Hskip. split; try done.
  - intros u' Hu'. destruct (dj_closed0 u' Hu') as [Hg Hcl].
    split; [done|]. intros v Hadj Hv.
    destruct (Hcl v Hadj Hv) as [?|(rem' & [= <- <-] & Hin)]; [by left|].
    apply elem_of_cons in Hin as [->|Hin]; [|right; eauto].
    left. destruct Hskip as [Hwall|?]; [|done]. by destruct Hv.
  - intros u' rem' [= <- <-]. by eapply dj_cur0.
Qed.

(** With unit costs a discovered cell is never improved. *)
Lemma dj_no_improve paths L cur s n d :
  dj_inv paths L cur s → Dijkstra.dist s !! n = Some d → ¬ (L + 1 < d).
Proof.
  intros [] Hd. destruct (decide (n ∈ Dijkstra.visited s)) as [Hv|Hv].
  - specialize (dj_done0 n d Hv Hd). lia.
  - specialize (dj_level0 d n (dj_front0 n d Hd Hv)). lia.
Qed.

Lemma dj_inv_relax paths L u n rem s :
  dj_inv paths L (Some (u, n :: rem)) s →
  adjacent u n → passage_cell m n → Dijkstra.dist s !! n = None →
  dj_inv (extend paths u n) L (Some (u, rem)) (relaxed L u s n).
Proof.
  intros Hinv Hadj Hn Hnone. pose proof Hinv as [].
  destruct (dj_cur0 u (n :: rem) eq_refl) as [HuL Huv].
  assert (is_Some (Dijkstra.dist s !! u)) as Hu by eauto.
  assert (∀ v, is_Some (Dijkstra.dist s !! v) → v ≠ n) as Hne.
  { intros v [d Hd] ->. congruence. }
  assert (∀ v, is_Some (Dijkstra.dist s !! v) → extend paths u n v = paths v)
    as Hold.
  { intros v Hv. unfold extend. rewrite decide_False; [done|by apply Hne]. }
  assert (extend paths u n n = paths u ++ [n]) as Hnew.
  { unfold extend. by rewrite decide_True. }
  assert (Dijkstra.parent s !! n = None) as Hpnone.
  { apply eq_None_not_Some. rewrite <- dj_dom0. by rewrite Hnone; intros []. }
  assert (L = Z.of_nat (length (paths u)) - 1) as HL by by apply dj_dist0.
  assert (∀ v, is_Some (<[n := L + 1]> (Dijkstra.dist s) !! v)
               ↔ v = n ∨ is_Some (Dijkstra.dist s !! v)) as Hdom.
  { intros v. rewrite lookup_insert_is_Some.
    destruct (decide (n = v)); naive_solver. }
  split; simpl.
  - intros v. rewrite !lookup_insert_is_Some, dj_dom0. done.
  - apply Hdom. by right.
  - intros v Hv. apply Hdom. right. auto.
  - intros v [->|Hv]%Hdom.
    + rewrite Hnew. apply parent_path_child with u; [apply lookup_insert_eq|].
      apply parent_path_insert; auto.
    + rewrite Hold by done. apply parent_path_insert; auto.
  - intros v [->|Hv]%Hdom.
    + rewrite Hnew. eapply route_step; eauto.
    + rewrite Hold by done. auto.
  - intros v [->|Hv]%Hdom.
    + rewrite Hnew. apply NoDup_app. split_and!; [auto| |apply NoDup_singleton].
      intros x Hx ->%list_elem_of_singleton.
      apply (Hne n); [|done]. eauto.
    + rewrite Hold by done. auto.
  - intros v x [->|Hv]%Hdom.
    + rewrite Hnew, elem_of_app, list_elem_of_singleton.
      intros [Hx| ->]; apply Hdom; [right; eauto|by left].
    + rewrite Hold by done. intros Hx. apply Hdom. right. eauto.
  - intros v d [[<- <-]|[Hnv Hd]]%lookup_insert_Some.
    + rewrite Hnew, length_app. simpl. lia.
    + rewrite Hold by eauto. auto.
  - intros v q [->|Hv]%Hdom Hq.
    + rewrite Hnew, length_app. simpl.
      assert (n ∉ dom (Dijkstra.dist s)) as Hfresh by by apply not_elem_of_dom.
      assert (start ∈ dom (Dijkstra.dist s)) as Hstart by by apply elem_of_dom.
      destruct (route_exit m start _ q n Hq Hstart Hfresh)
        as (q1 & x & y & k & Hq1 & Hx%elem_of_dom & Hy & Hxy & Hpy & Hlen & _).
      assert (length (paths u) ≤ length (paths x))%nat as Hux.
      { destruct (decide (x ∈ Dijkstra.visited s)) as [Hxv|Hxv].
        - destruct (dj_closed0 x Hxv) as [_ Hcl].
          destruct (Hcl y Hxy Hpy) as [Hy'|(rem' & [= <- _] & _)]; [|done].
          by apply elem_of_dom in Hy'.
        - destruct Hx as [dx Hdx].
          pose proof (dj_level0 dx x (dj_front0 x dx Hdx Hxv)) as Hlv.
          apply dj_dist0 in Hdx. lia. }
      specialize (dj_short0 x q1 Hx Hq1). lia.
    + rewrite Hold by done. by apply dj_short0.
  - intros c v. unfold heappush. rewrite elem_of_app, list_elem_of_singleton.
    intros [Hin|[= -> ->]]; [|apply lookup_insert_eq].
    rewrite lookup_insert_ne; [by apply dj_pq0|].
    intros <-. apply dj_pq0 in Hin. congruence.
  - intros v d [[<- <-]|[Hnv Hd]]%lookup_insert_Some Hvis;
      unfold heappush; apply elem_of_app; [right; by left|left; auto].
  - intros c v. unfold heappush. rewrite elem_of_app, list_elem_of_singleton.
    intros [Hin|[= -> ->]]; [eauto|]. 
    specialize (dj_level0 L u). lia.
  - intros v d Hv [[<- <-]|[Hnv Hd]]%lookup_insert_Some; [|eauto].
    apply dj_vis0 in Hv. destruct Hv. congruence.
  - intros u' Hu'. destruct (dj_closed0 u' Hu') as [Hg Hcl].
    split; [done|]. intros v Hadj' Hv.
    destruct (Hcl v Hadj' Hv) as [?|(rem' & [= <- <-] & Hin)].
    + left. apply Hdom. by right.
    + apply elem_of_cons in Hin as [->|Hin]; [|right; eauto].
      left. apply Hdom. by left.
  - intros u' rem' [= <- <-]. split; [|done].
    rewrite lookup_insert_ne; [done|]. intros <-. congruence.
Qed.

Lemma dj_measure_relax L u s (n : Node) :
  Maze.in_bounds m n → Dijkstra.dist s !! n = None →
  (dj_measure (relaxed L u s n) ≤ dj_measure s)%nat.
Proof.
  intros Hn Hnone. unfold dj_measure, relaxed, heappush. simpl.
  rewrite length_app, dom_insert_L. simpl.
  assert (unseen ({[n]} ∪ dom (Dijkstra.dist s)) (cells m)
          < unseen (dom (Dijkstra.dist s)) (cells m))%nat as Hlt.
  { apply unseen_insert; [by apply elem_of_cells|by apply not_elem_of_dom]. }
  lia.
Qed.

Lemma dj_fold L u rem : ∀ paths s,
  (∀ n, n ∈ rem → adjacent u n ∧ Maze.in_bounds m n) →
  dj_inv paths L (Some (u, rem)) s →
  ∃ paths',
    dj_inv paths' L (Some (u, [])) (foldl (Dijkstra.relax m L u) s rem)
    ∧ (dj_measure (foldl (Dijkstra.relax m L u) s rem) ≤ dj_measure s)%nat.
Proof.
  induction rem as [|n rem IH]; intros paths s Hrem Hinv; simpl.
  { exists paths. auto. }
  destruct (Hrem n) as [Hadj Hin]; [left|].
  assert (∀ n', n' ∈ rem → adjacent u n' ∧ Maze.in_bounds m n') as Hrem'.
  { intros n' Hn'. apply Hrem. by right. }
  rewrite relax_cases. case_bool_decide as Hwall.
  { apply (IH paths); [done|]. eapply dj_inv_skip; eauto. }
  destruct (Dijkstra.dist s !! n) as [d|] eqn:Hd.
  - rewrite bool_decide_eq_false_2 by by eapply dj_no_improve.
    apply (IH paths); [done|]. eapply dj_inv_skip; eauto.
  - destruct (IH (extend paths u n) (relaxed L u s n)) as (paths' & H1 & H2);
      [done| |].
    + apply dj_inv_relax; auto. by split.
    + exists paths'. split; [done|]. etrans; [exact H2|].
      by apply dj_measure_relax.
Qed.

Definition dj_Inv (s : Dijkstra.state) : Prop :=
  ∃ paths L, dj_inv paths L None s.

Lemma dj_entry_lt_key (a b : Z * Node) :
  Dijkstra.entry_lt a b = true → a.1 ≤ b.1.
Proof.
  unfold Dijkstra.entry_lt. intros H.
  apply orb_true_iff in H as [H|H].
  - apply bool_decide_eq_true in H. lia.
  - apply andb_true_iff in H as [H _]. apply bool_decide_eq_true in H. lia.
Qed.

Lemma dj_entry_nlt_key (a b : Z * Node) :
  Dijkstra.entry_lt a b = false → b.1 ≤ a.1.
Proof.
  unfold Dijkstra.entry_lt. intros H.
  apply orb_false_iff in H as [H _].
  apply bool_decide_eq_false in H. lia.
Qed.

Lemma dj_step_ok s :
  dj_Inv s →
  step_spec (Dijkstra.step m goal) dj_Inv dj_measure (snapshot_ok m start)
            (λ p, route m start p goal
                  ∧ ∀ q, route m start q goal → (length p ≤ length q)%nat)
            (λ p, last p ≠ Some goal)
            (¬ reachable m start goal) s.
Proof.
  intros (paths & L & Hinv). unfold step_spec, Dijkstra.step.
  destruct (heappop Dijkstra.entry_lt (Dijkstra.pq s))
    as [[[c u] rest]|] eqn:Hpop.
  2:{ apply heappop_None in Hpop. split; [done|]. intros [q Hq].
      destruct Hinv.
      assert (∀ v, is_Some (Dijkstra.dist s !! v) → v ∈ Dijkstra.visited s)
        as Hall.
      { intros v [d Hd]. destruct (decide (v ∈ Dijkstra.visited s)); [done|].
        specialize (dj_front0 v d Hd). rewrite Hpop in dj_front0.
        by apply not_elem_of_nil in dj_front0. }
      assert (is_Some (Dijkstra.dist s !! goal)) as Hg.
      { destruct (decide (goal ∈ dom (Dijkstra.dist s))) as [Hg|Hng];
          [by apply elem_of_dom|].
        assert (start ∈ dom (Dijkstra.dist s)) as Hstart by by apply elem_of_dom.
        destruct (route_exit m start _ q goal Hq Hstart Hng)
          as (q1 & x & y & k & _ & Hx%elem_of_dom & Hy & Hadj & Hpy & _).
        destruct (dj_closed0 x (Hall x Hx)) as [_ Hcl].
        destruct (Hcl y Hadj Hpy) as [Hy'|(rem & ? & _)]; [|done].
        by apply elem_of_dom in Hy'. }
      by destruct (dj_closed0 goal (Hall goal Hg)). }
  destruct (heappop_spec Dijkstra.entry_lt fst dj_entry_lt_key
              dj_entry_nlt_key _ _ _ Hpop) as [Hperm Hmin].
  assert (∀ e, e ∈ Dijkstra.pq s ↔ e = (c, u) ∨ e ∈ rest) as Hpq.
  { intros e. rewrite Hperm. apply elem_of_cons. }
  assert (length (Dijkstra.pq s) = S (length rest)) as Hlen.
  { by rewrite Hperm. }
  pose proof Hinv as [].
  assert (Dijkstra.dist s !! u = Some c) as Hdu.
  { apply dj_pq0. apply Hpq. by left. }
  case_bool_decide as Hvis.
  - split.
    + exists paths, L. split; simpl; try done.
      * intros c' v Hin. apply dj_pq0, Hpq. by right.
      * intros v d Hd Hv. destruct (proj1 (Hpq (d, v))) as [[= -> ->]|?];
          [by apply dj_front0|done|done].
      * intros c' v Hin. apply (dj_level0 c' v), Hpq. by right.
    + unfold dj_measure. simpl. lia.
  - assert (L ≤ c ≤ L + 1) as HLc by (apply (dj_level0 c u), Hpq; by left).
    rewrite (reconstruct_parent_path _ _ (paths u)) by eauto.
    assert (snapshot_ok m start (paths u)) as Hok.
    { split; [exists u|]; eauto. }
    case_bool_decide as Hgoal.
    { subst u. split; [done|]. split; [eauto|]. intros q Hq. eauto. }
    split; [done|]. split.
    { rewrite (route_last m start (paths u) u); [congruence|eauto]. }
    assert (dj_inv paths c
              (Some (u, neighbours u.1 u.2 (Maze.w m) (Maze.h m)))
              (Dijkstra.mk (Dijkstra.dist s) (Dijkstra.parent s) rest
                           ({[u]} ∪ Dijkstra.visited s))) as Hinv0.
    { split; simpl; try done.
      - intros v [->%elem_of_singleton|Hv]%elem_of_union; eauto.
      - intros c' v Hin. apply dj_pq0, Hpq. by right.
      - intros v d Hd Hv. apply not_elem_of_union in Hv as [Hvu Hv].
        destruct (proj1 (Hpq (d, v))) as [[= -> ->]|?];
          [by apply dj_front0| |done].
        by apply not_elem_of_singleton in Hvu.
      - intros c' v Hin. specialize (Hmin _ Hin). simpl in Hmin.
        assert (L ≤ c' ≤ L + 1) by (apply (dj_level0 c' v), Hpq; by right).
        lia.
      - intros v d [->%elem_of_singleton|Hv]%elem_of_union Hd.
        + assert (d = c) by congruence. lia.
        + specialize (dj_done0 v d Hv Hd). lia.
      - intros u' [->%elem_of_singleton|Hu']%elem_of_union.
        + split; [done|]. intros v Hadj Hv. right. eexists. split; [done|].
          apply elem_of_neighbours. destruct u. split; [done|]. apply Hv.
        + destruct (dj_closed0 u' Hu') as [Hg Hcl]. split; [done|].
          intros v Hadj Hv.
          destruct (Hcl v Hadj Hv) as [?|(rem & ? & _)]; [by left|done].
      - intros u' rem [= <- <-]. split; [done|].
        apply elem_of_union. left. by apply elem_of_singleton. }
    assert (∀ n, n ∈ neighbours u.1 u.2 (Maze.w m) (Maze.h m) →
                 adjacent u n ∧ Maze.in_bounds m n) as Hnb.
    { intros n [Hadj Hb]%elem_of_neighbours. destruct u. split; [done|].
      destruct n. apply Hb. }
    destruct (dj_fold c u _ paths _ Hnb Hinv0) as (paths' & H1 & H2).
    split.
    + exists paths', c. destruct H1. split; try done.
      intros u' Hu'. destruct (dj_closed1 u' Hu') as [Hg Hcl].
      split; [done|]. intros v Hadj Hv.
      destruct (Hcl v Hadj Hv) as [?|(rem & [= _ <-] & Hin)]; [by left|].
      by apply elem_of_nil in Hin.
    + unfold dj_measure in *. simpl in *. lia.
Qed.

Lemma dj_inv_init : dj_inv (λ _, [start]) 0 None (Dijkstra.init start).
Proof.
  unfold Dijkstra.init. split; simpl.
  - intros v. by rewrite !lookup_singleton_is_Some.
  - rewrite lookup_singleton_eq. eauto.
  - by intros v ?%not_elem_of_empty.
  - intros v [d [-> _]%lookup_singleton_Some]. apply parent_path_root.
    apply lookup_singleton_eq.
  - intros v [d [-> _]%lookup_singleton_Some]. constructor.
  - intros v _. apply NoDup_singleton.
  - intros v x _ ->%list_elem_of_singleton. rewrite lookup_singleton_eq. eauto.
  - intros v d [-> <-]%lookup_singleton_Some. done.
  - intros v q _ Hq. by eapply route_nonempty.
  - intros c v [= -> ->]%list_elem_of_singleton. apply lookup_singleton_eq.
  - intros v d [-> <-]%lookup_singleton_Some _. left.
  - intros c v [= -> ->]%list_elem_of_singleton. lia.
  - by intros v d ?%not_elem_of_empty.
  - by intros u ?%not_elem_of_empty.
  - done.
Qed.

Lemma dijkstra_spec :
  solver_spec m start goal
    (λ p, ∀ q, route m start q goal → (length p ≤ length q)%nat)
    (Dijkstra.__call__ m start goal).
Proof.
  unfold Dijkstra.__call__, solver_spec.
  apply (drain_spec (Dijkstra.step m goal) dj_Inv dj_measure).
  - apply dj_step_ok.
  - exists (λ _, [start]), 0. apply dj_inv_init.
  - unfold dj_measure, Dijkstra.init. simpl. apply solver_fuel_enough.
Qed.

End dijkstra.

(** *** A-star *)

Section astar.
Variable m : Maze.t.
Variables start goal : Node.

(** The Manhattan distance to the goal. *)
Definition h (v : Node) : Z := AStar.heuristic goal v.1 v.2.

Definition queued (cost : Z) (path : Path) (s : AStar.state) (n : Node)
  : AStar.state :=
  AStar.mk (heappush (AStar.pq s)
                     (cost + 1 + h n, cost + 1, n, path ++ [n]))
           (AStar.visited s).

Lemma push_cases cost path s n :
  AStar.push m goal cost path s n =
  if bool_decide (Maze.get (Maze.grid m) n.1 n.2 = 0 ∨ n ∈ AStar.visited s)
  then s else queued cost path s n.
Proof. by destruct n as [nx ny]. Qed.

(** The path closed for [u] when the entry [(f, g, u, p)] is popped. *)
Definition close (paths : Node → Path) (u : Node) (p : Path) : Node → Path :=
  λ x, if decide (x = u) then p else paths x.

(** The invariant.  [paths u] is the path with which a visited cell [u]
    was popped; [cur] is the cell being expanded, if any, with its
    neighbours still to be looked at. *)
Record as_inv (paths : Node → Path) (cur : option (Node * list Node))
    (s : AStar.state) : Prop := {
  as_entry : ∀ f g v p, (f, g, v, p) ∈ AStar.pq s →
      route m start p v ∧ NoDup p
      ∧ g = Z.of_nat (length p) - 1 ∧ f = g + h v
      ∧ ∀ x, x ∈ p → x = v ∨ x ∈ AStar.visited s;
  as_start : start ∈ AStar.visited s
             ∨ AStar.pq s = [(h start, 0, start, [start])];
  as_path : ∀ u, u ∈ AStar.visited s →
      route m start (paths u) u ∧ NoDup (paths u)
      ∧ (∀ x, x ∈ paths u → x ∈ AStar.visited s)
      ∧ ∀ q, route m start q u → (length (paths u) ≤ length q)%nat;
  as_closed : ∀ u, u ∈ AStar.visited s →
      u ≠ goal
      ∧ ∀ v, adjacent u v → passage_cell m v →
             v ∈ AStar.visited s
             ∨ (∃ f g p, (f, g, v, p) ∈ AStar.pq s
                         ∧ (length p ≤ length (paths u) + 1)%nat)
             ∨ ∃ rem, cur = Some (u, rem) ∧ v ∈ rem;
  as_cur : ∀ u rem, cur = Some (u, rem) →
                    u ∈ AStar.visited s ∧ start ∈ AStar.visited s
}.

Definition as_measure (s : AStar.state) : nat :=
  (length (AStar.pq s) + 5 * unseen (AStar.visited s) (start :: cells m))%nat.

Lemma as_inv_skip paths u n rem s :
  as_inv paths (Some (u, n :: rem)) s →
  Maze.get (Maze.grid m) n.1 n.2 = 0 ∨ n ∈ AStar.visited s →
  as_inv paths (Some (u, rem)) s.
Proof.
  intros [] Hskip. split; try done.
  - intros u' Hu'. destruct (as_closed0 u' Hu') as [Hg Hcl].
    split; [done|]. intros v Hadj Hv.
    destruct (Hcl v Hadj Hv) as [?|[?|(rem' & [= <- <-] & Hin)]];
      [by left|by right; left|].
    apply elem_of_cons in Hin as [->|Hin]; [|right; right; eauto].
    left. destruct Hskip as [Hwall|?]; [|done]. by destruct Hv.
  - intros u' rem' [= <- <-]. by eapply as_cur0.
Qed.

Lemma as_inv_push paths u n rem s :
  as_inv paths (Some (u, n :: rem)) s →
  adjacent u n → passage_cell m n → n ∉ AStar.visited s →
  as_inv paths (Some (u, rem))
         (queued (Z.of_nat (length (paths u)) - 1) (paths u) s n).
Proof.
  intros [] Hadj Hn Hfresh.
  destruct (as_cur0 u (n :: rem) eq_refl) as [Hu Hstart].
  destruct (as_path0 u Hu) as (Hroute & Hnd & Hseen & _).
  split; simpl; unfold heappush.
  - intros f g v p. rewrite elem_of_app, list_elem_of_singleton.
    intros [Hin|[= -> -> -> ->]]; [eauto|].
    split_and!.
    + eapply route_step; eauto.
    + apply NoDup_app. split_and!; [done| |apply NoDup_singleton].
      intros x Hx ->%list_elem_of_singleton. apply Hfresh. auto.
    + rewrite length_app. simpl. lia.
    + done.
    + intros x [Hx| ->%list_elem_of_singleton]%elem_of_app; auto.
  - by left.
  - done.
  - intros u' Hu'. destruct (as_closed0 u' Hu') as [Hg Hcl].
    split; [done|]. intros v Hadj' Hv.
    destruct (Hcl v Hadj' Hv) as [?|[(f & g & p & Hin & Hle)|
                                      (rem' & [= <- <-] & Hin)]].
    + by left.
    + right. left. exists f, g, p. split; [|done]. apply elem_of_app. by left.
    + apply elem_of_cons in Hin as [->|Hin]; [|right; right; eauto].
      right. left. eexists _, _, _. split.
      * apply elem_of_app. right. by left.
      * rewrite length_app. simpl. lia.
  - intros u' rem' [= <- <-]. done.
Qed.

Lemma as_fold u rem : ∀ paths s,
  (∀ n, n ∈ rem → adjacent u n ∧ Maze.in_bounds m n) →
  as_inv paths (Some (u, rem)) s →
  as_inv paths (Some (u, []))
         (foldl (AStar.push m goal (Z.of_nat (length (paths u)) - 1) (paths u))
                s rem)
  ∧ AStar.visited
      (foldl (AStar.push m goal (Z.of_nat (length (paths u)) - 1) (paths u))
             s rem) = AStar.visited s
  ∧ (length (AStar.pq
       (foldl (AStar.push m goal (Z.of_nat (length (paths u)) - 1) (paths u))
              s rem))
     ≤ length (AStar.pq s) + length rem)%nat.
Proof.
  induction rem as [|n rem IH]; intros paths s Hrem Hinv; simpl.
  { split_and!; [done..|lia]. }
  destruct (Hrem n) as [Hadj Hin]; [left|].
  assert (∀ n', n' ∈ rem → adjacent u n' ∧ Maze.in_bounds m n') as Hrem'.
  { intros n' Hn'. apply Hrem. by right. }
  rewrite push_cases. case_bool_decide as Hskip.
  - destruct (IH paths s) as (H1 & H2 & H3); [done|by eapply as_inv_skip|].
    split_and!; [done..|lia].
  - assert (Maze.get (Maze.grid m) n.1 n.2 ≠ 0 ∧ n ∉ AStar.visited s)
      as [Hget Hfresh] by tauto.
    destruct (IH paths (queued (Z.of_nat (length (paths u)) - 1)
                               (paths u) s n))
      as (H1 & H2 & H3); [done|by apply as_inv_push|].
    split_and!; [done..|].
    etrans; [exact H3|]. unfold queued, heappush. simpl.
    rewrite length_app. simpl. lia.
Qed.

Definition as_Inv (s : AStar.state) : Prop := ∃ paths, as_inv paths None s.

Definition as_key (e : AStar.entry) : Z := e.1.1.1.

Lemma as_entry_lt_key (a b : AStar.entry) :
  AStar.entry_lt a b = true → as_key a ≤ as_key b.
Proof.
  destruct a as [[[fa ga] na] pa], b as [[[fb gb] nb] pb].
  unfold AStar.entry_lt, as_key. simpl. intros H.
  apply orb_true_iff in H as [H|H].
  - apply bool_decide_eq_true in H. lia.
  - apply andb_true_iff in H as [H _]. apply bool_decide_eq_true in H. lia.
Qed.

Lemma as_entry_nlt_key (a b : AStar.entry) :
  AStar.entry_lt a b = false → as_key b ≤ as_key a.
Proof.
  destruct a as [[[fa ga] na] pa], b as [[[fb gb] nb] pb].
  unfold AStar.entry_lt, as_key. simpl. intros H.
  apply orb_false_iff in H as [H _].
  apply bool_decide_eq_false in H. lia.
Qed.

(** The entry popped for a cell not yet visited carries a shortest route:
    the Manhattan heuristic never drops by more than one along a step. *)
Lemma as_pop_shortest paths s f g u p rest :
  as_inv paths None s →
  AStar.pq s ≡ₚ (f, g, u, p) :: rest →
  (∀ e, e ∈ rest → f ≤ as_key e) →
  u ∉ AStar.visited s →
  ∀ q, route m start q u → (length p ≤ length q)%nat.
Proof.
  intros Hinv Hperm Hmin Hu q Hq. pose proof Hinv as [].
  assert ((f, g, u, p) ∈ AStar.pq s) as Hin by (rewrite Hperm; left).
  destruct (as_entry0 _ _ _ _ Hin) as (Hp & _ & Hg & Hf & _).
  destruct as_start0 as [Hstart|Hinit].
  - destruct (route_exit m start _ q u Hq Hstart Hu)
      as (q1 & x & y & k & Hq1 & Hx & Hy & Hxy & Hpy & Hlen & Hh).
    destruct (as_path0 x Hx) as (_ & _ & _ & Hshort).
    specialize (Hshort q1 Hq1). specialize (Hh goal).
    destruct (as_closed0 x Hx) as [_ Hcl].
    destruct (Hcl y Hxy Hpy) as [?|[(f' & g' & p' & Hin' & Hle)|(? & ? & _)]];
      [done| |done].
    destruct (as_entry0 _ _ _ _ Hin') as (_ & _ & Hg' & Hf' & _).
    assert (f ≤ f') as Hff.
    { rewrite Hperm in Hin'. apply elem_of_cons in Hin' as [[= -> _ _ _]|Hin'];
        [lia|]. apply (Hmin _ Hin'). }
    unfold h, AStar.heuristic in *. lia.
  - rewrite Hinit in Hin. apply list_elem_of_singleton in Hin as [= _ _ _ ->].
    apply route_nonempty in Hq. simpl. lia.
Qed.

Lemma as_step_ok s :
  as_Inv s →
  step_spec (AStar.step m goal) as_Inv as_measure (snapshot_ok m start)
            (λ p, route m start p goal
                  ∧ ∀ q, route m start q goal → (length p ≤ length q)%nat)
            (λ p, last p ≠ Some goal)
            (¬ reachable m start goal) s.
Proof.
  intros (paths & Hinv). unfold step_spec, AStar.step.
  destruct (heappop AStar.entry_lt (AStar.pq s))
    as [[[[[f g] [x y]] p] rest]|] eqn:Hpop.
  2:{ apply heappop_None in Hpop. split; [done|]. intros [q Hq].
      destruct Hinv.
      assert (start ∈ AStar.visited s) as Hstart.
      { destruct as_start0 as [?|Hinit]; [done|]. congruence. }
      assert (goal ∈ AStar.visited s) as Hg.
      { destruct (decide (goal ∈ AStar.visited s)) as [|Hng]; [done|].
        destruct (route_exit m start _ q goal Hq Hstart Hng)
          as (q1 & x & y & k & _ & Hx & Hy & Hadj & Hpy & _).
        destruct (as_closed0 x Hx) as [_ Hcl].
        destruct (Hcl y Hadj Hpy) as [?|[(f & g & p & Hin & _)|(? & ? & _)]];
          [done| |done].
        rewrite Hpop in Hin. by apply elem_of_nil in Hin. }
      by destruct (as_closed0 goal Hg). }
  destruct (heappop_spec AStar.entry_lt as_key as_entry_lt_key
              as_entry_nlt_key _ _ _ Hpop) as [Hperm Hmin].
  assert (∀ e, e ∈ AStar.pq s ↔ e = (f, g, (x, y), p) ∨ e ∈ rest) as Hpq.
  { intros e. rewrite Hperm. apply elem_of_cons. }
  assert (length (AStar.pq s) = S (length rest)) as Hlen by by rewrite Hperm.
  set (u := (x, y)) in *.
  pose proof Hinv as [].
  destruct (as_entry0 f g u p) as (Hp & Hnd & Hg & Hf & Hseen);
    [apply Hpq; by left|].
  assert (start ∈ AStar.visited s ∨ u = start) as Hstart.
  { destruct as_start0 as [?|Hinit]; [by left|right].
    assert ((f, g, u, p) ∈ AStar.pq s) as Hin by (apply Hpq; by left).
    rewrite Hinit in Hin. by apply list_elem_of_singleton in Hin as [= _ _ -> _]. }
  case_bool_decide as Hvis.
  - split.
    + exists paths. split; simpl; try done.
      * intros f' g' v p' Hin. apply as_entry0, Hpq. by right.
      * left. destruct Hstart as [?| <-]; done.
      * intros u' Hu'. destruct (as_closed0 u' Hu') as [Hgo Hcl].
        split; [done|]. intros v Hadj Hv.
        destruct (Hcl v Hadj Hv) as [?|[(f' & g' & p' & Hin & Hle)|?]];
          [by left| |by right; right].
        apply Hpq in Hin as [[= -> -> -> ->]|Hin]; [by left|].
        right. left. eauto.
    + unfold as_measure. simpl. lia.
  - assert (∀ q, route m start q u → (length p ≤ length q)%nat) as Hshort.
    { eapply as_pop_shortest; eauto. }
    assert (snapshot_ok m start p) as Hok by (split; eauto).
    case_bool_decide as Hgoal.
    { rewrite Hgoal in *. done. }
    split; [done|]. split.
    { rewrite (route_last m start p u); [congruence|done]. }
    assert (∀ v, v ∈ AStar.visited s → close paths u p v = paths v) as Hold.
    { intros v Hv. unfold close. rewrite decide_False; [done|]. by intros ->. }
    assert (close paths u p u = p) as Hnew.
    { unfold close. by rewrite decide_True. }
    assert (as_inv (close paths u p)
              (Some (u, neighbours x y (Maze.w m) (Maze.h m)))
              (AStar.mk rest ({[u]} ∪ AStar.visited s))) as Hinv0.
    { split; simpl.
      - intros f' g' v p' Hin.
        destruct (as_entry0 f' g' v p') as (? & ? & ? & ? & Hs');
          [apply Hpq; by right|].
        split_and!; try done. intros x' Hx'.
        destruct (Hs' x' Hx'); [by left|right]. apply elem_of_union. by right.
      - left. apply elem_of_union.
        destruct Hstart as [?| <-]; [by right|left; by apply elem_of_singleton].
      - intros u' [->%elem_of_singleton|Hu']%elem_of_union.
        + rewrite Hnew. split_and!; try done. intros x' Hx'.
          apply elem_of_union.
          destruct (Hseen x' Hx') as [->|?];
            [left; by apply elem_of_singleton|by right].
        + rewrite Hold by done.
          destruct (as_path0 u' Hu') as (? & ? & Hs' & ?).
          split_and!; try done. intros x' Hx'. apply elem_of_union. right.
          auto.
      - intros u' [->%elem_of_singleton|Hu']%elem_of_union.
        + split; [done|]. intros v Hadj Hv. right. right.
          eexists. split; [done|].
          apply elem_of_neighbours. split; [done|]. apply Hv.
        + destruct (as_closed0 u' Hu') as [Hgo Hcl]. split; [done|].
          intros v Hadj Hv. rewrite Hold by done.
          destruct (Hcl v Hadj Hv) as [?|[(f' & g' & p' & Hin & Hle)|
                                           (? & ? & _)]]; [| |done].
          * left. apply elem_of_union. by right.
          * apply Hpq in Hin as [[= -> -> -> ->]|Hin].
            -- left. apply elem_of_union. left. by apply elem_of_singleton.
            -- right. left. eauto.
      - intros u' rem [= <- <-]. split; apply elem_of_union.
        + left. by apply elem_of_singleton.
        + destruct Hstart as [?| <-]; [by right|left; by apply elem_of_singleton]. }
    assert (∀ n, n ∈ neighbours x y (Maze.w m) (Maze.h m) →
                 adjacent u n ∧ Maze.in_bounds m n) as Hnb.
    { intros n [Hadj Hb]%elem_of_neighbours. split; [done|].
      destruct n. apply Hb. }
    destruct (as_fold u _ (close paths u p) _ Hnb Hinv0) as (H1 & H2 & H3).
    rewrite Hnew in H1, H2, H3. rewrite <- Hg in H1, H2, H3.
    split.
    + exists (close paths u p). destruct H1. split; try done.
      intros u' Hu'. destruct (as_closed1 u' Hu') as [Hgo Hcl].
      split; [done|]. intros v Hadj Hv.
      destruct (Hcl v Hadj Hv) as [?|[?|(rem & [= _ <-] & Hin)]];
        [by left|by right; left|].
      by apply elem_of_nil in Hin.
    + unfold as_measure. rewrite H2. simpl in *.
      pose proof (length_neighbours x y (Maze.w m) (Maze.h m)) as Hn4.
      assert (unseen ({[u]} ∪ AStar.visited s) (start :: cells m)
              < unseen (AStar.visited s) (start :: cells m))%nat as Hlt.
      { apply unseen_insert; [|done].
        destruct (route_end m start p u Hp) as [->|[Hb _]]; [left|right].
        by apply elem_of_cells. }
      lia.
Qed.

Lemma as_inv_init : as_inv (λ _, [start]) None (AStar.init goal start).
Proof.
  unfold AStar.init. split; simpl.
  - intros f g v p [= -> -> -> ->]%list_elem_of_singleton.
    split_and!; [constructor|apply NoDup_singleton|done|done|].
    intros x ->%list_elem_of_singleton. by left.
  - by right.
  - by intros u ?%not_elem_of_empty.
  - by intros u ?%not_elem_of_empty.
  - done.
Qed.

Lemma astar_spec :
  solver_spec m start goal
    (λ p, ∀ q, route m start q goal → (length p ≤ length q)%nat)
    (AStar.__call__ m start goal).
Proof.
  unfold AStar.__call__, solver_spec.
  apply (drain_spec (AStar.step m goal) as_Inv as_measure).
  - apply as_step_ok.
  - exists (λ _, [start]). apply as_inv_init.
  - unfold as_measure, AStar.init. simpl.
    pose proof (unseen_le ∅ (start :: cells m)) as Hle. simpl in Hle.
    rewrite length_cells in Hle. unfold solver_fuel. lia.
Qed.

End astar.

(** *** The claims about the four solvers *)

(** From a passage cell, the routes of the solvers are the links of the
    passage graph. *)
Lemma reachable_linked m start goal :
  passage_cell m start → (reachable m start goal ↔ linked m start goal).
Proof.
  intros Hs. split.
  - intros [p Hp]. induction Hp as [|p u v Hp IH Hadj Hv].
    + by constructor.
    + by apply linked_step with u.
  - induction 1 as [|b c Hab IH Hadj Hc].
    + exists [start]. constructor.
    + destruct IH as [p Hp]. exists (p ++ [c]). by apply route_step with b.
Qed.

(** A snapshot as a path: it starts at [start], repeats no cell, moves
    between adjacent cells, every cell other than [start] is a passage
    inside the grid, and so is every cell if [start] is inside the grid. *)
Definition valid_snapshot (m : Maze.t) (start : Node) (p : Path) : Prop :=
  head p = Some start
  ∧ NoDup p
  ∧ (∀ i a b, p !! i = Some a → p !! S i = Some b → adjacent a b)
  ∧ (∀ x, x ∈ p → x = start ∨ passage_cell m x)
  ∧ (Maze.in_bounds m start → Forall (Maze.in_bounds m) p).

Lemma route_chain m start p v i a b :
  route m start p v → p !! i = Some a → p !! S i = Some b → adjacent a b.
Proof.
  intros Hp. revert i a b. induction Hp as [|p u v Hp IH Hadj Hv];
    intros i a b Ha Hb.
  { by destruct i. }
  pose proof (route_last _ _ _ _ Hp) as Hlast. rewrite last_lookup in Hlast.
  pose proof (route_nonempty _ _ _ _ Hp) as Hlen.
  destruct (decide (S i < length p)%nat) as [Hlt|Hge].
  - rewrite lookup_app_l in Ha by lia. rewrite lookup_app_l in Hb by lia.
    eauto.
  - pose proof (lookup_lt_Some _ _ _ Hb) as Hb'.
    rewrite length_app in Hb'. simpl in Hb'.
    assert (S i = length p) as Hi by lia.
    rewrite lookup_app_l in Ha by lia.
    rewrite lookup_app_r in Hb by lia.
    replace (S i - length p)%nat with 0%nat in Hb by lia.
    simpl in Hb. injection Hb as <-.
    replace (pred (length p)) with i in Hlast by lia.
    by replace a with u by congruence.
Qed.

Lemma snapshot_ok_valid m start p :
  snapshot_ok m start p → valid_snapshot m start p.
Proof.
  intros [[v Hp] Hnd]. split_and!.
  - by eapply route_head.
  - done.
  - intros i a b. by eapply route_chain.
  - intros x. by eapply route_cells.
  - intros Hs. apply Forall_forall. intros x Hx.
    destruct (route_cells _ _ _ _ _ Hp Hx) as [->|[Hb _]]; done.
Qed.

Lemma solver_spec_valid m start goal Ans run :
  solver_spec m start goal Ans run → Forall (valid_snapshot m start) run.1.
Proof.
  intros [Hall _]. eapply Forall_impl; [exact Hall|].
  apply snapshot_ok_valid.
Qed.

Lemma solver_spec_dead m start goal Ans run :
  solver_spec m start goal Ans run → ¬ reachable m start goal →
  run.2 = Exhausted ∧ Forall (λ p, last p ≠ Some goal) run.1.
Proof.
  intros [_ [(? & _ & ?)|(_ & before & p & _ & [Hp _] & _)]] Hdead; [done|].
  destruct Hdead. by exists p.
Qed.

Lemma solver_spec_found m start goal Ans run :
  solver_spec m start goal Ans run → reachable m start goal →
  run.2 = Found
  ∧ ∃ p, last run.1 = Some p ∧ last p = Some goal
         ∧ route m start p goal ∧ Ans p.
Proof.
  intros [_ [(_ & Hdead & _)|(? & before & p & Heq & [Hp Ha] & _)]] Hr;
    [done|].
  split; [done|]. exists p. rewrite Heq, last_snoc.
  split_and!; try done. by eapply route_last.
Qed.

(** The number of steps of a path. *)
Definition steps (p : Path) : nat := (length p - 1)%nat.

(** C10. Every snapshot any of the four solvers yields is a non-empty
    simple path from [start]: consecutive cells are adjacent, no cell occurs
    twice, every cell other than [start] is a passage inside the grid (and
    [start] too lies inside the grid whenever it was given inside it). *)
Theorem snapshots_are_simple_paths (m : Maze.t) (start goal : Node) :
  Forall (valid_snapshot m start) (BFS.__call__ m start goal).1
  ∧ Forall (valid_snapshot m start) (DFS.__call__ m start goal).1
  ∧ Forall (valid_snapshot m start) (Dijkstra.__call__ m start goal).1
  ∧ Forall (valid_snapshot m start) (AStar.__call__ m start goal).1.
Proof.
  split_and!; eapply solver_spec_valid;
    [apply bfs_spec|apply dfs_spec|apply dijkstra_spec|apply astar_spec].
Qed.

(** C4. If no route leads from [start] to [goal], each of the four solvers
    yields finitely many snapshots, ends by exhaustion, and none of its
    snapshots ends at [goal]. *)
Theorem unreachable_goal_exhausts (m : Maze.t) (start goal : Node) :
  ¬ reachable m start goal →
  ((BFS.__call__ m start goal).2 = Exhausted
   ∧ Forall (λ p, last p ≠ Some goal) (BFS.__call__ m start goal).1)
  ∧ ((DFS.__call__ m start goal).2 = Exhausted
     ∧ Forall (λ p, last p ≠ Some goal) (DFS.__call__ m start goal).1)
  ∧ ((Dijkstra.__call__ m start goal).2 = Exhausted
     ∧ Forall (λ p, last p ≠ Some goal) (Dijkstra.__call__ m start goal).1)
  ∧ ((AStar.__call__ m start goal).2 = Exhausted
     ∧ Forall (λ p, last p ≠ Some goal) (AStar.__call__ m start goal).1).
Proof.
  intros Hdead.
  pose proof (solver_spec_dead _ _ _ _ _ (bfs_spec m start goal) Hdead).
  pose proof (solver_spec_dead _ _ _ _ _ (dfs_spec m start goal) Hdead).
  pose proof (solver_spec_dead _ _ _ _ _ (dijkstra_spec m start goal) Hdead).
  pose proof (solver_spec_dead _ _ _ _ _ (astar_spec m start goal) Hdead).
  done.
Qed.

(** C1. If a route leads from [start] to [goal], each solver returns right
    after a last snapshot that is a route ending at [goal].  The last
    snapshots of BFS, Dijkstra and A-star have the same number of steps,
    the least any route from [start] to [goal] has; the last snapshot of
    DFS has at least as many. *)
Theorem solvable_goal_found (m : Maze.t) (start goal : Node) :
  reachable m start goal →
  ∃ pb pk pa pd,
    ((BFS.__call__ m start goal).2 = Found
     ∧ last (BFS.__call__ m start goal).1 = Some pb ∧ last pb = Some goal)
    ∧ ((Dijkstra.__call__ m start goal).2 = Found
       ∧ last (Dijkstra.__call__ m start goal).1 = Some pk
       ∧ last pk = Some goal)
    ∧ ((AStar.__call__ m start goal).2 = Found
       ∧ last (AStar.__call__ m start goal).1 = Some pa
       ∧ last pa = Some goal)
    ∧ ((DFS.__call__ m start goal).2 = Found
       ∧ last (DFS.__call__ m start goal).1 = Some pd ∧ last pd = Some goal)
    ∧ steps pb = steps pk ∧ steps pk = steps pa
    ∧ route m start pb goal
    ∧ (∀ q, route m start q goal → (steps pb ≤ steps q)%nat)
    ∧ route m start pd goal
    ∧ (steps pb ≤ steps pd)%nat.
Proof.
  intros Hr.
  destruct (solver_spec_found _ _ _ _ _ (bfs_spec m start goal) Hr)
    as (Hb & pb & Hlb & Hgb & Hrb & Hsb).
  destruct (solver_spec_found _ _ _ _ _ (dijkstra_spec m start goal) Hr)
    as (Hk & pk & Hlk & Hgk & Hrk & Hsk).
  destruct (solver_spec_found _ _ _ _ _ (astar_spec m start goal) Hr)
    as (Ha & pa & Hla & Hga & Hra & Hsa).
  destruct (solver_spec_found _ _ _ _ _ (dfs_spec m start goal) Hr)
    as (Hd & pd & Hld & Hgd & Hrd & _).
  exists pb, pk, pa, pd. unfold steps.
  pose proof (Hsb pk Hrk). pose proof (Hsk pb Hrb).
  pose proof (Hsk pa Hra). pose proof (Hsa pk Hrk).
  pose proof (Hsb pd Hrd).
  split_and!; try done; try lia.
  intros q Hq. specialize (Hsb q Hq). lia.
Qed.

(** *** Two concrete mazes *)

(** A 5 by 5 maze with a loop; every passage can be reached from (0,0). *)
Definition maze_5x5 : Maze.t :=
  Maze.mk 5 5 [[1; 1; 1; 0; 1];
               [0; 0; 1; 0; 1];
               [1; 1; 1; 1; 1];
               [1; 0; 0; 0; 1];
               [1; 1; 1; 1; 1]].

(** The 2 by 2 grid Recursive Division leaves behind: (1,1) is cut off
    from (0,0). *)
Definition maze_2x2 : Maze.t := Maze.mk 2 2 [[1; 0]; [0; 1]].

Lemma found_reachable m start goal :
  (BFS.__call__ m start goal).2 = Found → reachable m start goal.
Proof.
  intros Hf.
  destruct (bfs_spec m start goal)
    as [_ [(He & _)|(_ & before & p & _ & [Hp _] & _)]]; [congruence|].
  by exists p.
Qed.

Lemma exhausted_unreachable m start goal :
  (BFS.__call__ m start goal).2 = Exhausted → ¬ reachable m start goal.
Proof.
  intros He.
  destruct (bfs_spec m start goal) as [_ [(_ & Hd & _)|(Hf & _)]];
    [done|congruence].
Qed.

Lemma solvable_goal_found_witness :
  reachable maze_5x5 (0, 0) (4, 4)
  ∧ ∃ pb pk pa pd,
      last (BFS.__call__ maze_5x5 (0, 0) (4, 4)).1 = Some pb
      ∧ last (Dijkstra.__call__ maze_5x5 (0, 0) (4, 4)).1 = Some pk
      ∧ last (AStar.__call__ maze_5x5 (0, 0) (4, 4)).1 = Some pa
      ∧ last (DFS.__call__ maze_5x5 (0, 0) (4, 4)).1 = Some pd
      ∧ steps pb = steps pk ∧ steps pk = steps pa
      ∧ (steps pb ≤ steps pd)%nat.
Proof.
  assert (reachable maze_5x5 (0, 0) (4, 4)) as Hr.
  { apply found_reachable. vm_compute. reflexivity. }
  split; [exact Hr|].
  destruct (solvable_goal_found maze_5x5 (0, 0) (4, 4) Hr)
    as (pb & pk & pa & pd & (_ & Hb & _) & (_ & Hk & _) & (_ & Ha & _)
        & (_ & Hd & _) & H1 & H2 & _ & _ & _ & H3).
  exists pb, pk, pa, pd. split_and!; assumption.
Defined.

Lemma unreachable_goal_witness :
  (BFS.__call__ maze_2x2 (0, 0) (1, 1)).2 = Exhausted
  ∧ (DFS.__call__ maze_2x2 (0, 0) (1, 1)).2 = Exhausted
  ∧ (Dijkstra.__call__ maze_2x2 (0, 0) (1, 1)).2 = Exhausted
  ∧ (AStar.__call__ maze_2x2 (0, 0) (1, 1)).2 = Exhausted.
Proof.
  assert (¬ reachable maze_2x2 (0, 0) (1, 1)) as Hd.
  { apply exhausted_unreachable. vm_compute. reflexivity. }
  destruct (unreachable_goal_exhausts maze_2x2 (0, 0) (1, 1) Hd)
    as ((H1 & _) & (H2 & _) & (H3 & _) & (H4 & _)).
  split_and!; assumption.
Defined.

(** The runs on the 5 by 5 maze, evaluated: BFS, Dijkstra and A-star end
    with a route of 8 steps, DFS with one of 12. *)
Example runs_5x5 :
  steps <$> last (BFS.__call__ maze_5x5 (0, 0) (4, 4)).1 = Some 8%nat
  ∧ steps <$> last (Dijkstra.__call__ maze_5x5 (0, 0) (4, 4)).1 = Some 8%nat
  ∧ steps <$> last (AStar.__call__ maze_5x5 (0, 0) (4, 4)).1 = Some 8%nat
  ∧ steps <$> last (DFS.__call__ maze_5x5 (0, 0) (4, 4)).1 = Some 12%nat.
Proof. by vm_compute. Qed.

End SolverProofs.


Lemma ascii_compare_trans_lt a b c :
  Ascii.compare a b = Lt → Ascii.compare b c = Lt → Ascii.compare a c = Lt.
Proof.
  unfold Ascii.compare. rewrite !N.compare_lt_iff. lia.
Qed.

Lemma ascii_compare_eq a b : Ascii.compare a b = Eq → a = b.
Proof. apply Ascii.compare_eq_iff. Qed.

Lemma string_compare_refl s : String.compare s s = Eq.
Proof.
  induction s as [|a s IH]; simpl; [done|].
  assert (Ascii.compare a a = Eq) as ->; [|done].
  unfold Ascii.compare. apply N.compare_refl.
Qed.

Lemma string_compare_trans_lt s1 s2 s3 :
  String.compare s1 s2 = Lt → String.compare s2 s3 = Lt →
  String.compare s1 s3 = Lt.
Proof.
  revert s2 s3. induction s1 as [|a s1 IH]; intros [|b s2] [|c s3]; simpl;
    try done.
  destruct (Ascii.compare a b) eqn:Hab; try done.
  - apply ascii_compare_eq in Hab as ->.
    destruct (Ascii.compare b c) eqn:Hbc; try done. apply IH.
  - intros _. destruct (Ascii.compare b c) eqn:Hbc; try done.
    + apply ascii_compare_eq in Hbc as ->. by rewrite Hab.
    + by rewrite (ascii_compare_trans_lt a b c).
Qed.

Lemma str_le_alt a b : str_le a b ↔ a = b ∨ String.compare a b = Lt.
Proof.
  unfold str_le, String.leb. split.
  - destruct (String.compare a b) eqn:Hc; try done.
    + left. by apply String.compare_eq_iff.
    + by right.
  - intros [->| ->]; [|done]. by rewrite string_compare_refl.
Qed.

#[global] Instance str_le_trans : Transitive str_le.
Proof.
  intros a b c [->|Hab]%str_le_alt [->|Hbc]%str_le_alt; apply str_le_alt; eauto.
  right. by eapply string_compare_trans_lt.
Qed.

#[global] Instance str_le_total : Total str_le.
Proof. intros a b. apply String.leb_total. Qed.

#[global] Instance str_le_antisym : AntiSymm eq str_le.
Proof. intros a b. apply String.leb_antisym. Qed.

Module RegistryListing.

(** The [@register] decorators of a package run one after the other when
    the package is imported; the first one that raises ends the import. *)
Fixpoint register_generators {I} (ps : list (Plugin I))
    (reg : gmap string (Plugin I))
    : gmap string (Plugin I) * option RegistryError :=
  match ps with
  | [] => (reg, None)
  | p :: ps' =>
      match GeneratorRegistry.register p reg with
      | (reg', None) => register_generators ps' reg'
      | (reg', Some e) => (reg', Some e)
      end
  end.

Fixpoint register_solvers {I} (ps : list (Plugin I))
    (reg : gmap string (Plugin I))
    : gmap string (Plugin I) * option RegistryError :=
  match ps with
  | [] => (reg, None)
  | p :: ps' =>
      match SolverRegistry.register p reg with
      | (reg', None) => register_solvers ps' reg'
      | (reg', Some e) => (reg', Some e)
      end
  end.

Lemma register_solvers_eq {I} (ps : list (Plugin I)) reg :
  register_solvers ps reg = register_generators ps reg.
Proof. revert reg. induction ps as [|p ps IH]; intros reg; simpl; [done|].
  unfold SolverRegistry.register, GeneratorRegistry.register.
  case_bool_decide; [done|]. apply IH.
Qed.

Lemma register_generators_ok {I} (ps : list (Plugin I)) reg :
  NoDup (name <$> ps) → (∀ p, p ∈ ps → reg !! name p = None) →
  (register_generators ps reg).2 = None
  ∧ ∀ nm, (register_generators ps reg).1 !! nm =
          match reg !! nm with
          | Some q => Some q
          | None => list_find (λ p, name p = nm) ps ≫= λ ip, Some ip.2
          end.
Proof.
  revert reg. induction ps as [|p ps IH]; intros reg Hnd Hfresh; simpl.
  { split; [done|]. intros nm. by destruct (reg !! nm). }
  apply NoDup_cons in Hnd as [Hp Hnd].
  rewrite RegistryProofs.generator_register_fresh by (apply Hfresh; left).
  destruct (IH (<[name p := p]> reg) Hnd) as [Hok Hlook].
  { intros q Hq. rewrite lookup_insert_ne.
    - apply Hfresh. by right.
    - intros Heq. apply Hp. rewrite Heq. by apply list_elem_of_fmap_2. }
  split; [done|]. intros nm. rewrite Hlook.
  destruct (decide (name p = nm)) as [<-|Hne].
  - by rewrite lookup_insert_eq, (Hfresh p) by left.
  - rewrite lookup_insert_ne by done. destruct (reg !! nm); [done|].
    by destruct (list_find _ ps) as [[i q]|].
Qed.

Lemma register_generators_dup {I} (ps : list (Plugin I)) reg :
  (register_generators ps reg).2 = None → NoDup (name <$> ps).
Proof.
  revert reg. induction ps as [|p ps IH]; intros reg; simpl; [constructor|].
  unfold GeneratorRegistry.register. case_bool_decide as Hd; [done|].
  intros Hok. apply not_elem_of_dom in Hd. apply NoDup_cons. split.
  - intros (q & Hq & Hin)%list_elem_of_fmap.
    (* a later plug-in of the same name would have been refused *)
    clear IH. revert reg Hd Hok.
    induction ps as [|r ps IHps]; intros reg Hd Hok; [by inversion Hin|].
    simpl in Hok. unfold GeneratorRegistry.register in Hok.
    case_bool_decide as Hd'; [done|].
    apply not_elem_of_dom in Hd'.
    apply elem_of_cons in Hin as [->|Hin].
    + rewrite <- Hq, lookup_insert_eq in Hd'. done.
    + destruct (decide (name r = name p)) as [Heq|Hne].
      { rewrite Heq, lookup_insert_eq in Hd'. done. }
      apply (IHps Hin (<[name r := r]> reg)).
      * by rewrite lookup_insert_ne.
      * by rewrite insert_insert_ne in Hok.
  - by apply (IH (<[name p := p]> reg)).
Qed.

(** The first plug-in of [ps] called [nm]. *)
Definition named {I} (nm : string) (ps : list (Plugin I))
    : option (Plugin I) :=
  list_find (λ p, name p = nm) ps ≫= λ ip, Some ip.2.

Lemma named_Some {I} nm (ps : list (Plugin I)) p :
  named nm ps = Some p → name p = nm ∧ p ∈ ps.
Proof.
  unfold named. destruct (list_find _ ps) as [[i q]|] eqn:E; [|done].
  intros [= <-]. apply list_find_Some in E as (Hi & Hn & _).
  split; [done|]. by eapply list_elem_of_lookup_2.
Qed.

Lemma named_None {I} nm (ps : list (Plugin I)) :
  named nm ps = None ↔ nm ∉ name <$> ps.
Proof.
  unfold named. split.
  - destruct (list_find _ ps) as [[i q]|] eqn:E; [done|]. intros _.
    rewrite list_find_None, Forall_forall in E.
    intros (p & -> & Hin)%list_elem_of_fmap. by apply (E p).
  - intros Hn. destruct (list_find _ ps) as [[i q]|] eqn:E; [|done].
    apply list_find_Some in E as (Hi & Hq & _). exfalso. apply Hn.
    rewrite <- Hq. apply list_elem_of_fmap_2. by eapply list_elem_of_lookup_2.
Qed.

Lemma sorted_spec (names : list string) :
  StronglySorted str_le (sorted names) ∧ sorted names ≡ₚ names.
Proof.
  split.
  - apply (StronglySorted_merge_sort str_le); apply _.
  - apply merge_sort_Permutation.
Qed.

(** Registration followed by lookup, in both registries.  A package whose
    plug-ins carry pairwise different names imports without an error;
    afterwards [get_*] returns, for each of these names, the very instance
    that was registered under it, and raises the [KeyError] for every other
    name.  If two plug-ins share a name the import fails. *)
Theorem get_after_register {G S : Type}
    (gs : list (Plugin G)) (ss : list (Plugin S)) :
  NoDup (name <$> gs) → NoDup (name <$> ss) →
  (register_generators gs ∅).2 = None
  ∧ (register_solvers ss ∅).2 = None
  ∧ (∀ p, p ∈ gs →
       GeneratorRegistry.get_generator (name p) (register_generators gs ∅).1
       = inl p)
  ∧ (∀ p, p ∈ ss →
       SolverRegistry.get_solver (name p) (register_solvers ss ∅).1 = inl p)
  ∧ (∀ nm, nm ∉ name <$> gs →
       GeneratorRegistry.get_generator nm (register_generators gs ∅).1
       = inr (UnknownName nm))
  ∧ (∀ nm, nm ∉ name <$> ss →
       SolverRegistry.get_solver nm (register_solvers ss ∅).1
       = inr (UnknownName nm)).
Proof.
  intros Hg Hs. rewrite (register_solvers_eq ss).
  destruct (register_generators_ok gs ∅ Hg) as [Hgok Hglook]; [done|].
  destruct (register_generators_ok ss ∅ Hs) as [Hsok Hslook]; [done|].
  assert (∀ {I} (ps : list (Plugin I)) p,
    NoDup (name <$> ps) → p ∈ ps → named (name p) ps = Some p) as Hfirst.
  { intros I ps p Hnd Hin. destruct (named (name p) ps) as [q|] eqn:E.
    - apply named_Some in E as [Hq Hqin]. f_equal.
      apply list_elem_of_lookup in Hin as [i Hi].
      apply list_elem_of_lookup in Hqin as [j Hj].
      assert (i = j) as ->; [|congruence].
      eapply NoDup_lookup; [exact Hnd| |].
      + by rewrite list_lookup_fmap, Hi.
      + rewrite list_lookup_fmap, Hj. simpl. by rewrite Hq.
    - apply named_None in E. exfalso. apply E. by apply list_elem_of_fmap_2. }
  split_and!; try done.
  - intros p Hin. unfold GeneratorRegistry.get_generator.
    rewrite Hglook, lookup_empty. fold (named (name p) gs).
    by rewrite Hfirst.
  - intros p Hin. unfold SolverRegistry.get_solver.
    rewrite Hslook, lookup_empty. fold (named (name p) ss).
    by rewrite Hfirst.
  - intros nm Hn%named_None. unfold GeneratorRegistry.get_generator.
    rewrite Hglook, lookup_empty. fold (named nm gs). by rewrite Hn.
  - intros nm Hn%named_None. unfold SolverRegistry.get_solver.
    rewrite Hslook, lookup_empty. fold (named nm ss). by rewrite Hn.
Qed.

(** A package with two plug-ins of one name does not import: some
    [register] raises the duplicate-name error. *)
Lemma register_duplicate_fails {I} (ps : list (Plugin I)) :
  ¬ NoDup (name <$> ps) →
  ∃ key, (register_generators ps ∅).2 = Some (DuplicateName key).
Proof.
  intros Hnd.
  destruct (register_generators ps ∅).2 as [e|] eqn:E.
  - revert E. generalize (∅ : gmap string (Plugin I)). clear Hnd.
    induction ps as [|p ps IH]; intros reg; simpl; [done|].
    unfold GeneratorRegistry.register. case_bool_decide.
    + intros [= <-]. by eexists.
    + apply IH.
  - exfalso. apply Hnd. by eapply register_generators_dup.
Qed.

(** [list_generators()] and [list_solvers()] return every registered name
    exactly once, in ascending order. *)
Theorem list_names_sorted {G S : Type}
    (greg : gmap string (Plugin G)) (sreg : gmap string (Plugin S)) :
  (StronglySorted str_le (GeneratorRegistry.list_generators greg)
   ∧ NoDup (GeneratorRegistry.list_generators greg)
   ∧ ∀ nm, nm ∈ GeneratorRegistry.list_generators greg ↔
           is_Some (greg !! nm))
  ∧ (StronglySorted str_le (SolverRegistry.list_solvers sreg)
     ∧ NoDup (SolverRegistry.list_solvers sreg)
     ∧ ∀ nm, nm ∈ SolverRegistry.list_solvers sreg ↔ is_Some (sreg !! nm)).
Proof.
  unfold GeneratorRegistry.list_generators, SolverRegistry.list_solvers.
  split.
  - destruct (sorted_spec (elements (dom greg))) as [Hs Hp].
    split_and!; [done| |].
    + rewrite Hp. apply NoDup_elements.
    + intros nm. by rewrite Hp, elem_of_elements, elem_of_dom.
  - destruct (sorted_spec (elements (dom sreg))) as [Hs Hp].
    split_and!; [done| |].
    + rewrite Hp. apply NoDup_elements.
    + intros nm. by rewrite Hp, elem_of_elements, elem_of_dom.
Qed.

(** The plug-ins the two packages register, in import order. *)
Definition bundled_generators : list (Plugin unit) :=
  [ {| name := "DFS Backtracker"; call := tt |};
    {| name := "Kruskal"; call := tt |};
    {| name := "Prim's Algorithm"; call := tt |};
    {| name := "Recursive Division"; call := tt |} ].

Definition bundled_solvers : list (Plugin unit) :=
  [ {| name := "A*"; call := tt |};
    {| name := "BFS"; call := tt |};
    {| name := "DFS"; call := tt |};
    {| name := "Dijkstra"; call := tt |} ].

Lemma get_after_register_witness :
  GeneratorRegistry.get_generator "Kruskal"
    (register_generators bundled_generators ∅).1
  = inl {| name := "Kruskal"; call := tt |}
  ∧ SolverRegistry.get_solver "Greedy"
      (register_solvers bundled_solvers ∅).1
    = inr (UnknownName "Greedy").
Proof.
  assert (NoDup (name <$> bundled_generators)) as Hg
    by (apply (bool_decide_unpack _); vm_compute; reflexivity).
  assert (NoDup (name <$> bundled_solvers)) as Hs
    by (apply (bool_decide_unpack _); vm_compute; reflexivity).
  destruct (get_after_register bundled_generators bundled_solvers Hg Hs)
    as (_ & _ & Hget & _ & _ & Hmiss).
  split.
  - apply (Hget {| name := "Kruskal"; call := tt |}).
    unfold bundled_generators. right. left.
  - apply Hmiss. apply (bool_decide_unpack _). vm_compute. reflexivity.
Defined.

(** The listings of the bundled plug-ins, as the package docstrings give
    them. *)
Example bundled_names :
  GeneratorRegistry.list_generators
    (register_generators bundled_generators ∅).1
  = ["DFS Backtracker"; "Kruskal"; "Prim's Algorithm"; "Recursive Division"]
  ∧ SolverRegistry.list_solvers (register_solvers bundled_solvers ∅).1
    = ["A*"; "BFS"; "DFS"; "Dijkstra"].
Proof. split; vm_compute; reflexivity. Qed.

End RegistryListing.


(** ** Sorted scans *)

Lemma StronglySorted_seqZ a n : StronglySorted Z.lt (seqZ a n).
Proof.
  destruct (decide (n ≤ 0)) as [Hn|Hn]; [rewrite seqZ_nil by done; constructor|].
  rewrite <- (Z2Nat.id n) by lia. generalize (Z.to_nat n). clear n Hn.
  intros n. revert a. induction n as [|n IH]; intros a.
  { rewrite seqZ_nil by done. constructor. }
  rewrite seqZ_cons by lia. constructor.
  - replace (Z.pred (Z.of_nat (S n))) with (Z.of_nat n) by lia. apply IH.
  - apply Forall_forall. intros k Hk%elem_of_seqZ. lia.
Qed.

Lemma StronglySorted_bind {A B} (R1 : relation A) (R : relation B)
    (f : A → list B) (l : list A) :
  StronglySorted R1 l →
  (∀ a, a ∈ l → StronglySorted R (f a)) →
  (∀ a a' b b', a ∈ l → a' ∈ l → R1 a a' → b ∈ f a → b' ∈ f a' → R b b') →
  StronglySorted R (l ≫= f).
Proof.
  intros Hl Hf HR. induction Hl as [|a l Hl IH Ha]; simpl; [constructor|].
  apply StronglySorted_app. split_and!.
  - intros b b' Hb (a' & Hb' & Ha')%list_elem_of_bind.
    rewrite Forall_forall in Ha. eapply (HR a a'); eauto; [left|by right].
  - apply Hf. left.
  - apply IH.
    + intros a' Ha'. apply Hf. by right.
    + intros a1 a2 b b' H1 H2. apply HR; by right.
Qed.

Lemma head_filter_least {A} (R : relation A) (P : A → Prop)
    `{∀ x, Decision (P x)} (l : list A) c :
  StronglySorted R l → head (filter P l) = Some c →
  c ∈ l ∧ P c ∧ ∀ c', c' ∈ l → P c' → c = c' ∨ R c c'.
Proof.
  intros Hl. induction Hl as [|a l Hl IH Ha]; [done|].
  rewrite filter_cons. destruct (decide (P a)) as [Hp|Hp]; simpl.
  - intros [= ->]. split_and!; [left|done|].
    intros c' [->|Hc']%elem_of_cons _; [by left|right].
    rewrite Forall_forall in Ha. auto.
  - intros (Hin & Hc & Hleast)%IH. split_and!; [by right|done|].
    intros c' [->|Hc']%elem_of_cons Hp'; [done|]. auto.
Qed.

Lemma head_filter_None {A} (P : A → Prop) `{∀ x, Decision (P x)}
    (l : list A) :
  head (filter P l) = None ↔ ∀ c, c ∈ l → ¬ P c.
Proof.
  rewrite head_None. split.
  - intros Hnil c Hc Hp.
    assert (c ∈ filter P l) as Hin by (by apply list_elem_of_filter).
    rewrite Hnil in Hin. by apply elem_of_nil in Hin.
  - intros Hnone. destruct (filter P l) as [|c l'] eqn:E; [done|].
    assert (c ∈ filter P l) as [Hp Hc]%list_elem_of_filter
      by (rewrite E; left).
    by destruct (Hnone c).
Qed.

Module EndpointProofs.
Import MazeApp.

(** Row-major order of cells: [before a b] when [a] lies in an earlier
    row than [b], or earlier in the same row. *)
Definition before (a b : Node) : Prop :=
  a.2 < b.2 ∨ (a.2 = b.2 ∧ a.1 < b.1).

(** The cells [first_passage] looks at, in the order it looks at them. *)
Definition scan (m : Maze.t) (search_from : Node) : list Node :=
  y ← range 0 (Maze.h m);
  x ← range 0 (Maze.w m);
  [(if bool_decide (search_from.1 = 0) then x else Maze.w m - 1 - x,
    if bool_decide (search_from.2 = 0) then y else Maze.h m - 1 - y)].

Lemma first_passage_scan m search_from :
  first_passage m search_from =
  default search_from
    (head (filter (λ c : Node, Maze.get (Maze.grid m) c.1 c.2 ≠ 0)
                  (scan m search_from))).
Proof. by destruct search_from. Qed.

Lemma elem_of_scan m search_from c :
  c ∈ scan m search_from ↔ Maze.in_bounds m c.
Proof.
  unfold scan, Maze.in_bounds. destruct c as [cx cy]. simpl. split.
  - intros (y & (x & Hc & Hx%GenProofs.elem_of_range)%list_elem_of_bind
              & Hy%GenProofs.elem_of_range)%list_elem_of_bind.
    apply list_elem_of_singleton in Hc. injection Hc as -> ->.
    repeat case_bool_decide; lia.
  - intros [Hx Hy].
    apply list_elem_of_bind.
    exists (if bool_decide (search_from.2 = 0) then cy else Maze.h m - 1 - cy).
    split; [|apply GenProofs.elem_of_range; case_bool_decide; lia].
    apply list_elem_of_bind.
    exists (if bool_decide (search_from.1 = 0) then cx else Maze.w m - 1 - cx).
    split; [|apply GenProofs.elem_of_range; case_bool_decide; lia].
    apply list_elem_of_singleton. f_equal; repeat case_bool_decide; lia.
Qed.

(** From the top-left corner the scan runs in row-major order, from the
    bottom-right corner in the reverse order. *)
Lemma scan_sorted_start m :
  StronglySorted before (scan m (0, 0)).
Proof.
  unfold scan. simpl.
  apply (StronglySorted_bind Z.lt); [apply StronglySorted_seqZ| |].
  - intros y _.
    apply (StronglySorted_bind Z.lt); [apply StronglySorted_seqZ| |].
    + intros x _. repeat constructor.
    + intros x x' b b' _ _ Hlt
        ->%list_elem_of_singleton ->%list_elem_of_singleton.
      right. simpl. lia.
  - intros y y' b b' _ _ Hlt
      (x & ->%list_elem_of_singleton & _)%list_elem_of_bind
      (x' & ->%list_elem_of_singleton & _)%list_elem_of_bind.
    left. simpl. lia.
Qed.

Lemma scan_sorted_goal m :
  StronglySorted (flip before) (scan m (Maze.w m - 1, Maze.h m - 1)).
Proof.
  unfold scan. simpl.
  apply (StronglySorted_bind Z.lt); [apply StronglySorted_seqZ| |].
  - intros y Hy%GenProofs.elem_of_range.
    apply (StronglySorted_bind Z.lt); [apply StronglySorted_seqZ| |].
    + intros x _. repeat constructor.
    + intros x x' b b' Hx%GenProofs.elem_of_range Hx'%GenProofs.elem_of_range Hlt
        ->%list_elem_of_singleton ->%list_elem_of_singleton.
      right. simpl. repeat case_bool_decide; lia.
  - intros y y' b b' Hy%GenProofs.elem_of_range Hy'%GenProofs.elem_of_range Hlt
      (x & ->%list_elem_of_singleton & _)%list_elem_of_bind
      (x' & ->%list_elem_of_singleton & _)%list_elem_of_bind.
    left. simpl. repeat case_bool_decide; lia.
Qed.

(** [_pick_endpoints]: on a maze with a passage somewhere, [start] becomes
    the first passage cell in row-major order and [goal] the last one; on a
    maze with no passage they are the corners [(0, 0)] and
    [(w - 1, h - 1)].  Nothing else of the application changes. *)
Theorem pick_endpoints_spec (app : App) (m : Maze.t) :
  maze app = Some m →
  let app' := _pick_endpoints app in
  maze app' = Some m
  ∧ ((∀ c, ¬ passage_cell m c) →
       start app' = (0, 0) ∧ goal app' = (Maze.w m - 1, Maze.h m - 1))
  ∧ ((∃ c, passage_cell m c) →
       passage_cell m (start app') ∧ passage_cell m (goal app')
       ∧ ∀ c, passage_cell m c →
           (start app' = c ∨ before (start app') c)
           ∧ (goal app' = c ∨ before c (goal app'))).
Proof.
  intros Hm. unfold _pick_endpoints. rewrite Hm.
  unfold set_goal, set_start. cbn [start goal maze].
  rewrite !first_passage_scan.
  split_and!; [done| |].
  - intros Hnone.
    assert (∀ sf, head (filter (λ c : Node, Maze.get (Maze.grid m) c.1 c.2 ≠ 0)
                               (scan m sf)) = None) as Hh.
    { intros sf. apply head_filter_None. intros c Hc%elem_of_scan Hp.
      by apply (Hnone c). }
    by rewrite !Hh.
  - intros [c0 [Hb0 Hp0]].
    destruct (head (filter _ (scan m (0, 0)))) as [s|] eqn:Es; last first.
    { pose proof (proj1 (head_filter_None _ _) Es) as Es'.
      destruct (Es' c0); [|done]. by apply elem_of_scan. }
    destruct (head (filter _ (scan m (Maze.w m - 1, Maze.h m - 1))))
      as [g|] eqn:Eg; last first.
    { pose proof (proj1 (head_filter_None _ _) Eg) as Eg'.
      destruct (Eg' c0); [|done]. by apply elem_of_scan. }
    simpl.
    apply (head_filter_least before) in Es as (Hs1%elem_of_scan & Hs2 & Hs3);
      [|apply scan_sorted_start].
    apply (head_filter_least (flip before)) in Eg
      as (Hg1%elem_of_scan & Hg2 & Hg3); [|apply scan_sorted_goal].
    split_and!; try done.
    intros c [Hc1 Hc2]. split.
    + apply Hs3; [by apply elem_of_scan|done].
    + apply Hg3; [by apply elem_of_scan|done].
Qed.

(** A 3 by 2 maze whose passages are [(1, 0)], [(2, 0)] and [(0, 1)]. *)
Definition maze_3x2 : Maze.t := Maze.mk 3 2 [[0; 1; 1]; [1; 0; 0]].

Lemma pick_endpoints_witness :
  maze (_pick_endpoints (set_maze (Some maze_3x2) init)) = Some maze_3x2
  ∧ ((∀ c, ¬ passage_cell maze_3x2 c) →
       start (_pick_endpoints (set_maze (Some maze_3x2) init)) = (0, 0)
       ∧ goal (_pick_endpoints (set_maze (Some maze_3x2) init))
         = (Maze.w maze_3x2 - 1, Maze.h maze_3x2 - 1))
  ∧ ((∃ c, passage_cell maze_3x2 c) →
       passage_cell maze_3x2
         (start (_pick_endpoints (set_maze (Some maze_3x2) init)))
       ∧ passage_cell maze_3x2
           (goal (_pick_endpoints (set_maze (Some maze_3x2) init)))
       ∧ ∀ c, passage_cell maze_3x2 c →
           (start (_pick_endpoints (set_maze (Some maze_3x2) init)) = c
            ∨ before (start (_pick_endpoints (set_maze (Some maze_3x2) init)))
                     c)
           ∧ (goal (_pick_endpoints (set_maze (Some maze_3x2) init)) = c
              ∨ before c
                  (goal (_pick_endpoints (set_maze (Some maze_3x2) init))))).
Proof.
  apply (pick_endpoints_spec (set_maze (Some maze_3x2) init) maze_3x2).
  reflexivity.
Defined.

Example pick_endpoints_3x2 :
  start (_pick_endpoints (set_maze (Some maze_3x2) init)) = (1, 0)
  ∧ goal (_pick_endpoints (set_maze (Some maze_3x2) init)) = (0, 1).
Proof. split; vm_compute; reflexivity. Qed.

End EndpointProofs.

(** ** [neighbours] *)

Module NeighbourProofs.

(** [neighbours] is boundary-safe: it returns, without repetition, exactly
    the cells of the grid one step away from [(x, y)], right, left, below,
    above in that order; inside the grid the relation is symmetric. *)
Theorem neighbours_spec (x y width height : Z) :
  neighbours x y width height
  = filter (λ n : Node, 0 ≤ n.1 < width ∧ 0 ≤ n.2 < height)
           [(x + 1, y); (x - 1, y); (x, y + 1); (x, y - 1)]
  ∧ NoDup (neighbours x y width height)
  ∧ (∀ n, n ∈ neighbours x y width height
          ↔ adjacent (x, y) n ∧ 0 ≤ n.1 < width ∧ 0 ≤ n.2 < height)
  ∧ (∀ n, 0 ≤ x < width → 0 ≤ y < height →
          n ∈ neighbours x y width height →
          (x, y) ∈ neighbours n.1 n.2 width height).
Proof.
  split_and!.
  - unfold neighbours, _FOUR_DIRS. simpl.
    replace (x + -1) with (x - 1) by lia.
    replace (y + -1) with (y - 1) by lia.
    replace (x + 0) with x by lia. replace (y + 0) with y by lia.
    rewrite !filter_cons, filter_nil. simpl.
    repeat case_bool_decide; repeat destruct (decide _); try done; lia.
  - apply SolverProofs.NoDup_neighbours.
  - intros n. apply SolverProofs.elem_of_neighbours.
  - intros n Hx Hy [Hadj Hn]%SolverProofs.elem_of_neighbours.
    apply SolverProofs.elem_of_neighbours. simpl. split; [|done].
    unfold adjacent in *. simpl in *. lia.
Qed.

End NeighbourProofs.


(** ** The playback driver: one continuation at a time *)

Module PendingProofs.
Import MazeApp.

Section pending.
Variable delay_curve : Q → Z.
Variable generators : gmap string (Plugin (Z → Z → Iter Edit)).
Variable solvers : gmap string (Plugin (Maze.t → Node → Node → Iter Path)).

Abbreviation handle := (MazeApp.handle delay_curve generators solvers).

(** Every pending callback is the one [_after_id] names; it carries the
    current epoch, the kind [_kind] records and a delay of at least 1 ms. *)
Definition single_pending (app : App) : Prop :=
  ∀ id ms j, timers app !! id = Some (ms, j) →
    _after_id app = Some id ∧ epoch j = _run_seq app
    ∧ _kind app = Some (kind_of (it j)) ∧ 1 ≤ ms.

Definition idle (app : App) : Prop := ∀ id, timers app !! id = None.

Lemma idle_single_pending app : idle app → single_pending app.
Proof. intros Hi id ms j Hin. by rewrite Hi in Hin. Qed.

Lemma cancel_idle app : single_pending app → idle (_cancel app).
Proof.
  intros Hs id. unfold _cancel.
  destruct (_after_id app) as [id'|] eqn:Ha; simpl.
  - destruct (decide (id = id')) as [->|Hne]; [by rewrite lookup_delete_eq|].
    rewrite lookup_delete_ne by done.
    destruct (timers app !! id) as [[ms j]|] eqn:Ht; [|done].
    destruct (Hs id ms j Ht) as [Hid _]. congruence.
  - destruct (timers app !! id) as [[ms j]|] eqn:Ht; [|done].
    destruct (Hs id ms j Ht) as [Hid _]. congruence.
Qed.

Lemma batch_after_id n r app : _after_id (batch n r app).1 = _after_id app.
Proof.
  revert r app. induction n as [|n IH]; intros r app; simpl; [done|].
  destruct r as [[| |[[x y] a] rest]|[| |p rest]]; simpl; try done;
    by rewrite IH.
Qed.

Lemma batch_kind n r app : _kind (batch n r app).1 = _kind app.
Proof.
  revert r app. induction n as [|n IH]; intros r app; simpl; [done|].
  destruct r as [[| |[[x y] a] rest]|[| |p rest]]; simpl; try done;
    by rewrite IH.
Qed.

Lemma batch_kind_of n r app rest :
  (batch n r app).2 = BatchFull rest → kind_of rest = kind_of r.
Proof.
  revert r app. induction n as [|n IH]; intros r app; simpl.
  { by intros [= ->]. }
  destruct r as [[| |[[x y] a] rest']|[| |p rest']]; simpl; try done;
    intros Hb; by apply IH in Hb.
Qed.

Lemma run_iterator_single_pending r delay app :
  idle app → single_pending (_run_iterator r delay app).
Proof.
  intros Hi id ms j. unfold _run_iterator. simpl.
  intros [[<- [= <- <-]]|[_ Hin]]%lookup_insert_Some; [done|].
  by rewrite Hi in Hin.
Qed.

Lemma job_single_pending j app :
  idle app →
  (epoch j = _run_seq app → _kind app = Some (kind_of (it j))) →
  single_pending (job j app).
Proof.
  intros Hi Hkind. unfold job. case_bool_decide as Hstale.
  { by apply idle_single_pending. }
  assert (epoch j = _run_seq app) as Hj.
  { destruct (decide (epoch j = _run_seq app)); [done|]. by destruct Hstale. }
  destruct (batch _ _ _) as [app' e] eqn:Hbatch.
  assert (timers app' = timers app) as Ht.
  { change app' with (app', e).1. rewrite <- Hbatch.
    apply DriverProofs.batch_timers. }
  assert (_run_seq app' = _run_seq app) as Hs.
  { change app' with (app', e).1. rewrite <- Hbatch.
    apply DriverProofs.batch_run_seq. }
  assert (_kind app' = _kind app) as Hk.
  { change app' with (app', e).1. rewrite <- Hbatch. apply batch_kind. }
  assert (idle app') as Hi' by (intros id; by rewrite Ht).
  destruct e as [rest| |exn]; simpl.
  - intros id ms j'. simpl.
    intros [[<- [= <- <-]]|[_ Hin]]%lookup_insert_Some;
      [|by rewrite Hi' in Hin].
    simpl. split_and!; [done|congruence| |lia].
    rewrite Hk, Hkind by done. f_equal. symmetry.
    eapply batch_kind_of. by rewrite Hbatch.
  - apply idle_single_pending. intros id.
    destruct (kind_of (it j)); simpl;
      rewrite ?DriverProofs.pick_endpoints_timers; apply Hi'.
  - by apply idle_single_pending.
Qed.

Lemma handle_single_pending app ev :
  single_pending app → single_pending (handle app ev).
Proof.
  intros Hs. destruct ev as [rows cols g sp|sn sp|tid]; simpl.
  - pose proof (cancel_idle app Hs) as Hc.
    unfold MazeApp.generate. destruct (Maze.new cols rows); simpl;
      [|by apply idle_single_pending].
    destruct (_calc_delay_batch _ _ _ _) as [d b].
    destruct (generators !! g); simpl; [|by apply idle_single_pending].
    by apply run_iterator_single_pending.
  - pose proof (cancel_idle app Hs) as Hc.
    unfold MazeApp.solve_. destruct (maze app); simpl; [|done].
    case_bool_decide; simpl; [done|].
    destruct (solvers !! sn); simpl; [|by apply idle_single_pending].
    destruct (_calc_delay_batch _ _ _ _) as [d b]. simpl.
    apply run_iterator_single_pending. intros id. simpl.
    rewrite DriverProofs.pick_endpoints_timers. apply Hc.
  - unfold fire. destruct (timers app !! tid) as [[ms j]|] eqn:Ht; [|done].
    destruct (Hs tid ms j Ht) as (Hid & Hep & Hk & _).
    apply job_single_pending; [|done].
    intros id. simpl.
    destruct (decide (id = tid)) as [->|Hne]; [by rewrite lookup_delete_eq|].
    rewrite lookup_delete_ne by done.
    destruct (timers app !! id) as [[ms' j']|] eqn:Ht'; [|done].
    destruct (Hs id ms' j' Ht') as [Hid' _]. congruence.
Qed.

Lemma session_single_pending evs :
  single_pending (foldl handle init evs).
Proof.
  assert (∀ app, single_pending app → single_pending (foldl handle app evs))
    as Hgen.
  { induction evs as [|ev evs IH]; intros app Hb; simpl; [done|].
    apply IH. by apply handle_single_pending. }
  apply Hgen. apply idle_single_pending. intros id. apply lookup_empty.
Qed.

Lemma session_idle evs :
  _kind (foldl handle init evs) = None → timers (foldl handle init evs) = ∅.
Proof.
  pose proof (session_single_pending evs) as Hs.
  intros Hk. apply map_empty. intros id.
  destruct (timers _ !! id) as [[ms j]|] eqn:Ht; [|done].
  destruct (Hs _ _ _ Ht) as (_ & _ & Hk' & _). congruence.
Qed.

(** Whatever the user and the timers did since start-up: at most one
    continuation is pending; it is the one [_after_id] names, it belongs to
    the current epoch and to the run [_kind] records, and it is due no
    earlier than 1 ms after it was scheduled.  So no continuation of an
    earlier run is ever left in the timer queue, and an application whose
    [_kind] is [None] has nothing pending. *)
Theorem one_pending_continuation (evs : list Event) :
  (∀ id id' e e',
      timers (foldl handle init evs) !! id = Some e →
      timers (foldl handle init evs) !! id' = Some e' → id = id')
  ∧ (∀ id ms j,
      timers (foldl handle init evs) !! id = Some (ms, j) →
      _after_id (foldl handle init evs) = Some id
      ∧ epoch j = _run_seq (foldl handle init evs)
      ∧ _kind (foldl handle init evs) = Some (kind_of (it j))
      ∧ 1 ≤ ms)
  ∧ (_kind (foldl handle init evs) = None →
     timers (foldl handle init evs) = ∅).
Proof.
  pose proof (session_single_pending evs) as Hs. split_and!.
  - intros id id' [ms j] [ms' j'] H1 H2.
    destruct (Hs _ _ _ H1) as [Ha _], (Hs _ _ _ H2) as [Ha' _]. congruence.
  - apply Hs.
  - apply session_idle.
Qed.

End pending.
End PendingProofs.

(** ** The playback driver: a run played to its end *)

Module PlaybackProofs.
Import MazeApp.

#[local] Arguments first_passage : simpl never.

(** Tk's main loop with no more input from the user: while a callback is
    pending, run one; there is at most one to choose from. *)
Definition pending (app : App) : option nat :=
  fst <$> head (map_to_list (timers app)).

Fixpoint mainloop (n : nat) (app : App) : App :=
  match n with
  | O => app
  | S n' =>
      match pending app with
      | Some id => mainloop n' (fire id app)
      | None => app
      end
  end.

(** What the renderer is told for one edit of a generator. *)
Definition cell_drawn (e : Edit) : Render :=
  match e with (x, y, action) => draw_cell x y (bool_decide (action ≠ 0)) end.

Lemma mainloop_idle n app : timers app = ∅ → mainloop n app = app.
Proof.
  intros Ht. destruct n; simpl; [done|].
  unfold pending. by rewrite Ht, map_to_list_empty.
Qed.

Lemma pending_singleton app id e :
  timers app = {[id := e]} → pending app = Some id.
Proof. intros Ht. unfold pending. by rewrite Ht, map_to_list_singleton. Qed.

(** [batch] touches the grid and the screen only. *)
Lemma batch_frame n r app :
  start (batch n r app).1 = start app
  ∧ goal (batch n r app).1 = goal app
  ∧ _after_id (batch n r app).1 = _after_id app
  ∧ _run_seq (batch n r app).1 = _run_seq app
  ∧ _kind (batch n r app).1 = _kind app
  ∧ _batch_size (batch n r app).1 = _batch_size app
  ∧ timers (batch n r app).1 = timers app
  ∧ next_timer (batch n r app).1 = next_timer app.
Proof.
  revert r app. induction n as [|n IH]; intros r app; simpl; [done|].
  destruct r as [[| |[[x y] a] rest]|[| |p rest]]; simpl; try done.
  - destruct (IH (GenRun rest)
      (render (draw_cell x y (bool_decide (a ≠ 0)))
         (set_maze ((λ m, Maze.mk (Maze.w m) (Maze.h m)
                            (Maze.set (Maze.grid m) x y a)) <$> maze app)
                   app)))
      as (-> & -> & -> & -> & -> & -> & -> & ->). done.
  - destruct (IH (SolveRun rest) (render (draw_path p) app))
      as (-> & -> & -> & -> & -> & -> & -> & ->). done.
Qed.

Lemma batch_gen n edits app m :
  maze app = Some m →
  maze (batch n (GenRun (DriverProofs.iter_of_list edits)) app).1
  = Some (Maze.mk (Maze.w m) (Maze.h m)
                  (apply_edits (Maze.grid m) (take n edits)))
  ∧ screen (batch n (GenRun (DriverProofs.iter_of_list edits)) app).1
    = screen app ++ (cell_drawn <$> take n edits)
  ∧ (batch n (GenRun (DriverProofs.iter_of_list edits)) app).2
    = if decide (n ≤ length edits)%nat
      then BatchFull (GenRun (DriverProofs.iter_of_list (drop n edits)))
      else BatchStop.
Proof.
  revert edits app m. induction n as [|n IH]; intros edits app m Hm; simpl.
  { rewrite ?take_0, ?drop_0, ?app_nil_r. destruct m. simpl.
    split_and!; try done; destruct (decide _); try done; lia. }
  destruct edits as [|[[x y] a] edits]; simpl.
  { rewrite ?app_nil_r. destruct m. simpl. split_and!; try done; destruct (decide _); try done; lia. }
  edestruct (IH edits) as (-> & -> & ->).
  { simpl. rewrite Hm. reflexivity. }
  simpl. split_and!; [done|by rewrite <- app_assoc|].
  destruct (decide (n ≤ length edits)%nat), (decide (S n ≤ S (length edits))%nat);
    try done; lia.
Qed.

Lemma batch_solve n paths app :
  maze (batch n (SolveRun (DriverProofs.iter_of_list paths)) app).1 = maze app
  ∧ screen (batch n (SolveRun (DriverProofs.iter_of_list paths)) app).1
    = screen app ++ (draw_path <$> take n paths)
  ∧ (batch n (SolveRun (DriverProofs.iter_of_list paths)) app).2
    = if decide (n ≤ length paths)%nat
      then BatchFull (SolveRun (DriverProofs.iter_of_list (drop n paths)))
      else BatchStop.
Proof.
  revert paths app. induction n as [|n IH]; intros paths app; simpl.
  { rewrite ?take_0, ?drop_0, ?app_nil_r.
    split_and!; try done; destruct (decide _); try done; lia. }
  destruct paths as [|p paths]; simpl.
  { rewrite ?app_nil_r. split_and!; try done; destruct (decide _); try done; lia. }
  edestruct (IH paths) as (-> & -> & ->).
  simpl. split_and!; [done|by rewrite <- app_assoc|].
  destruct (decide (n ≤ length paths)%nat), (decide (S n ≤ S (length paths))%nat);
    try done; lia.
Qed.

Lemma fire_current app id ms j :
  timers app = {[id := (ms, j)]} → epoch j = _run_seq app →
  fire id app
  = match batch (Z.to_nat (_batch_size app)) (it j)
                (set_timers ∅ app) with
    | (app, BatchFull rest) =>
        set_after_id (Some (next_timer app))
          (after (Z.max 1 (delay_ms j)) (mkJob (epoch j) rest (delay_ms j))
                 app).2
    | (app, BatchStop) =>
        let app := set_after_id None app in
        let app :=
          match kind_of (it j) with
          | gen =>
              let app := _pick_endpoints app in
              render (draw_markers (start app) (goal app)) app
          | solve => app
          end in
        set_kind None (render tag_raise_markers app)
    | (app, BatchRaise _) => app
    end.
Proof.
  intros Ht He. unfold fire. rewrite Ht, lookup_singleton_eq, delete_singleton_eq.
  unfold job. rewrite bool_decide_eq_false_2 by (simpl; lia).
  simpl. by destruct (batch _ _ _) as [app' [rest| |e]].
Qed.

(** A generation whose continuation is the one pending callback, played
    to its end. *)
Lemma mainloop_gen n edits app id ms j m :
  timers app = {[id := (ms, j)]} → epoch j = _run_seq app →
  it j = GenRun (DriverProofs.iter_of_list edits) →
  maze app = Some m → 1 ≤ _batch_size app → (length edits < n)%nat →
  let final :=
    Maze.mk (Maze.w m) (Maze.h m) (apply_edits (Maze.grid m) edits) in
  maze (mainloop n app) = Some final
  ∧ start (mainloop n app) = first_passage final (0, 0)
  ∧ goal (mainloop n app)
    = first_passage final (Maze.w m - 1, Maze.h m - 1)
  ∧ _kind (mainloop n app) = None
  ∧ _after_id (mainloop n app) = None
  ∧ timers (mainloop n app) = ∅
  ∧ _run_seq (mainloop n app) = _run_seq app
  ∧ screen (mainloop n app)
    = screen app ++ (cell_drawn <$> edits)
      ++ [draw_markers (first_passage final (0, 0))
                       (first_passage final (Maze.w m - 1, Maze.h m - 1));
          tag_raise_markers].
Proof.
  revert edits app id ms j m.
  induction n as [|n IH]; intros edits app id ms j m Ht He Hit Hm Hb Hn;
    [lia|].
  simpl. rewrite (pending_singleton _ _ _ Ht).
  rewrite (fire_current _ _ _ _ Ht He), Hit.
  set (b := Z.to_nat (_batch_size app)).
  assert (1 ≤ b)%nat as Hb1 by lia.
  destruct (batch_frame b (GenRun (DriverProofs.iter_of_list edits))
              (set_timers ∅ app))
    as (Hf1 & Hf2 & Hf3 & Hf4 & Hf5 & Hf6 & Hf7 & Hf8).
  destruct (batch_gen b edits (set_timers ∅ app) m Hm) as (Hg1 & Hg2 & Hg3).
  destruct (batch b _ _) as [app' e]. simpl in *. subst e.
  destruct (decide (b ≤ length edits)%nat) as [Hle|Hgt].
  - (* a full batch: the rest is played by the next callback *)
    edestruct (IH (drop b edits)
                 (set_after_id (Some (next_timer app'))
                    (after (Z.max 1 (delay_ms j))
                       (mkJob (epoch j)
                          (GenRun (DriverProofs.iter_of_list (drop b edits)))
                          (delay_ms j)) app').2))
      as (H1 & H2 & H3 & H4 & H5 & H6 & H7 & H8).
    + simpl. rewrite Hf7. apply insert_empty.
    + simpl. congruence.
    + done.
    + simpl. exact Hg1.
    + simpl. congruence.
    + rewrite length_drop. lia.
    + simpl in *.
      assert (apply_edits (apply_edits (Maze.grid m) (take b edits))
                          (drop b edits)
              = apply_edits (Maze.grid m) edits) as Happ.
      { unfold apply_edits. by rewrite <- foldl_app, take_drop. }
      rewrite Happ in *.
      split_and!; try done; [congruence|].
      rewrite H8, Hg2. simpl. rewrite <- !app_assoc. f_equal.
      rewrite app_assoc, <- fmap_app, take_drop. done.
  - (* the iterator ends inside this batch *)
    rewrite take_ge in Hg1, Hg2 by lia.
    rewrite mainloop_idle; last first.
    { simpl. unfold _pick_endpoints. simpl. rewrite Hg1. simpl. done. }
    unfold _pick_endpoints. simpl. rewrite Hg1. simpl.
    split_and!; try done. by rewrite Hg2, <- !app_assoc.
Qed.

(** A search whose continuation is the one pending callback, played to
    its end. *)
Lemma mainloop_solve n paths app id ms j :
  timers app = {[id := (ms, j)]} → epoch j = _run_seq app →
  it j = SolveRun (DriverProofs.iter_of_list paths) →
  1 ≤ _batch_size app → (length paths < n)%nat →
  maze (mainloop n app) = maze app
  ∧ start (mainloop n app) = start app
  ∧ goal (mainloop n app) = goal app
  ∧ _kind (mainloop n app) = None
  ∧ _after_id (mainloop n app) = None
  ∧ timers (mainloop n app) = ∅
  ∧ _run_seq (mainloop n app) = _run_seq app
  ∧ screen (mainloop n app)
    = screen app ++ (draw_path <$> paths) ++ [tag_raise_markers].
Proof.
  revert paths app id ms j.
  induction n as [|n IH]; intros paths app id ms j Ht He Hit Hb Hn; [lia|].
  simpl. rewrite (pending_singleton _ _ _ Ht).
  rewrite (fire_current _ _ _ _ Ht He), Hit.
  set (b := Z.to_nat (_batch_size app)).
  assert (1 ≤ b)%nat as Hb1 by lia.
  destruct (batch_frame b (SolveRun (DriverProofs.iter_of_list paths))
              (set_timers ∅ app))
    as (Hf1 & Hf2 & Hf3 & Hf4 & Hf5 & Hf6 & Hf7 & Hf8).
  destruct (batch_solve b paths (set_timers ∅ app)) as (Hg1 & Hg2 & Hg3).
  destruct (batch b _ _) as [app' e]. simpl in *. subst e.
  destruct (decide (b ≤ length paths)%nat) as [Hle|Hgt].
  - edestruct (IH (drop b paths)
                 (set_after_id (Some (next_timer app'))
                    (after (Z.max 1 (delay_ms j))
                       (mkJob (epoch j)
                          (SolveRun (DriverProofs.iter_of_list (drop b paths)))
                          (delay_ms j)) app').2))
      as (H1 & H2 & H3 & H4 & H5 & H6 & H7 & H8).
    + simpl. rewrite Hf7. apply insert_empty.
    + simpl. congruence.
    + done.
    + simpl. congruence.
    + rewrite length_drop. lia.
    + simpl in *. split_and!; try done; try congruence.
      rewrite H8, Hg2. rewrite <- !app_assoc. f_equal.
      rewrite app_assoc, <- fmap_app, take_drop. done.
  - rewrite take_ge in Hg2 by lia.
    rewrite mainloop_idle by done. simpl.
    split_and!; try done. by rewrite Hg2, <- !app_assoc.
Qed.

(** An iterator that yields [items] and then raises [e] out of [next]. *)
Definition iter_raising {A} (items : list A) (e : Exn) : Iter A :=
  foldr Next (Raises e) items.

(** The iterator of a generator run of the embedding. *)
Definition iter_of_run (run : list Edit * list nat * Res unit) : Iter Edit :=
  match run.2 with
  | Raise e => iter_raising run.1.1 e
  | _ => DriverProofs.iter_of_list run.1.1
  end.

Lemma batch_gen_raising n edits e app m :
  maze app = Some m →
  maze (batch n (GenRun (iter_raising edits e)) app).1
  = Some (Maze.mk (Maze.w m) (Maze.h m)
                  (apply_edits (Maze.grid m) (take n edits)))
  ∧ screen (batch n (GenRun (iter_raising edits e)) app).1
    = screen app ++ (cell_drawn <$> take n edits)
  ∧ (batch n (GenRun (iter_raising edits e)) app).2
    = if decide (n ≤ length edits)%nat
      then BatchFull (GenRun (iter_raising (drop n edits) e))
      else BatchRaise e.
Proof.
  revert edits app m. induction n as [|n IH]; intros edits app m Hm; simpl.
  { rewrite ?take_0, ?drop_0, ?app_nil_r. destruct m. simpl.
    split_and!; try done; destruct (decide _); try done; lia. }
  destruct edits as [|[[x y] a] edits]; simpl.
  { rewrite ?app_nil_r. destruct m. simpl.
    split_and!; try done; destruct (decide _); try done; lia. }
  edestruct (IH edits) as (-> & -> & ->).
  { simpl. rewrite Hm. reflexivity. }
  simpl. split_and!; [done|by rewrite <- app_assoc|].
  destruct (decide (n ≤ length edits)%nat), (decide (S n ≤ S (length edits))%nat);
    try done; lia.
Qed.

(** A generation whose iterator raises after [edits], played until nothing
    is pending: the callback that met the exception scheduled no successor
    and reset nothing. *)
Lemma mainloop_gen_raising n edits e app id ms j m :
  timers app = {[id := (ms, j)]} → epoch j = _run_seq app →
  it j = GenRun (iter_raising edits e) →
  maze app = Some m → 1 ≤ _batch_size app → (length edits < n)%nat →
  maze (mainloop n app)
  = Some (Maze.mk (Maze.w m) (Maze.h m) (apply_edits (Maze.grid m) edits))
  ∧ _kind (mainloop n app) = _kind app
  ∧ timers (mainloop n app) = ∅
  ∧ _run_seq (mainloop n app) = _run_seq app
  ∧ screen (mainloop n app) = screen app ++ (cell_drawn <$> edits).
Proof.
  revert edits app id ms j m.
  induction n as [|n IH]; intros edits app id ms j m Ht He Hit Hm Hb Hn;
    [lia|].
  simpl. rewrite (pending_singleton _ _ _ Ht).
  rewrite (fire_current _ _ _ _ Ht He), Hit.
  set (b := Z.to_nat (_batch_size app)).
  assert (1 ≤ b)%nat as Hb1 by lia.
  destruct (batch_frame b (GenRun (iter_raising edits e)) (set_timers ∅ app))
    as (Hf1 & Hf2 & Hf3 & Hf4 & Hf5 & Hf6 & Hf7 & Hf8).
  destruct (batch_gen_raising b edits e (set_timers ∅ app) m Hm)
    as (Hg1 & Hg2 & Hg3).
  destruct (batch b _ _) as [app' r]. simpl in *. subst r.
  destruct (decide (b ≤ length edits)%nat) as [Hle|Hgt].
  - edestruct (IH (drop b edits)
                 (set_after_id (Some (next_timer app'))
                    (after (Z.max 1 (delay_ms j))
                       (mkJob (epoch j)
                          (GenRun (iter_raising (drop b edits) e))
                          (delay_ms j)) app').2))
      as (H1 & H2 & H3 & H4 & H5).
    + simpl. rewrite Hf7. apply insert_empty.
    + simpl. congruence.
    + done.
    + simpl. exact Hg1.
    + simpl. congruence.
    + rewrite length_drop. lia.
    + simpl in *.
      assert (apply_edits (apply_edits (Maze.grid m) (take b edits))
                          (drop b edits)
              = apply_edits (Maze.grid m) edits) as Happ.
      { unfold apply_edits. by rewrite <- foldl_app, take_drop. }
      rewrite Happ in *.
      split_and!; try done; try congruence.
      rewrite H5, Hg2. rewrite <- !app_assoc. f_equal.
      by rewrite <- fmap_app, take_drop.
  - rewrite take_ge in Hg1, Hg2 by lia.
    rewrite mainloop_idle by done. done.
Qed.

Lemma cancel_screen app : screen (_cancel app) = screen app.
Proof. unfold _cancel. by destruct (_after_id app). Qed.

Lemma cancel_next_timer app : next_timer (_cancel app) = next_timer app.
Proof. unfold _cancel. by destruct (_after_id app). Qed.

Lemma cancel_endpoints app :
  start (_cancel app) = start app ∧ goal (_cancel app) = goal app.
Proof. unfold _cancel. by destruct (_after_id app). Qed.

#[local] Opaque _cancel.

Section playback.
Variable delay_curve : Q → Z.
Variable generators : gmap string (Plugin (Z → Z → Iter Edit)).
Variable solvers : gmap string (Plugin (Maze.t → Node → Node → Iter Path)).

Abbreviation handle := (MazeApp.handle delay_curve generators solvers).

Lemma calc_batch_pos speed_pct cell_count solving :
  1 ≤ (_calc_delay_batch delay_curve speed_pct cell_count solving).2.
Proof.
  unfold _calc_delay_batch, _MAX_BATCH_GEN, _MAX_BATCH_SOLVE, _MIN_BATCH.
  destruct (Qle_bool 100 speed_pct), solving; simpl; lia.
Qed.

Lemma session_cancel_idle evs :
  timers (_cancel (foldl handle init evs)) = ∅.
Proof.
  apply map_empty. apply PendingProofs.cancel_idle.
  apply PendingProofs.session_single_pending.
Qed.

(** An edit the grid can take: a cell of the [w] by [h] array and a value
    of its element type [uint8]. *)
Definition grid_edit (w h : Z) (e : Edit) : Prop :=
  0 ≤ e.1.1 < w ∧ 0 ≤ e.1.2 < h ∧ 0 ≤ e.2 ≤ 255.

(** Generation, from the button to the last callback.  In any state the
    application can be in, [generate] with positive dimensions and a
    registered generator whose run ends after the edits [edits] leads,
    once the main loop has run the callbacks, to an idle application:
    the maze is the blank grid with the edits applied in order, every edit
    was drawn once and in order after the redraw, [start] and [goal] are
    picked on the finished maze and drawn last, nothing is pending. *)
Theorem generation_playback (evs : list Event) (rows cols : Z)
    (gen_name : string) (speed_pct : Q) (g : Plugin (Z → Z → Iter Edit))
    (edits : list Edit) (n : nat) :
  0 < rows → 0 < cols →
  generators !! gen_name = Some g →
  call g cols rows = DriverProofs.iter_of_list edits →
  Forall (grid_edit cols rows) edits →
  (length edits < n)%nat →
  let app0 := foldl handle init evs in
  let app := mainloop n (handle app0 (Generate rows cols gen_name speed_pct)) in
  let final :=
    Maze.mk cols rows
      (apply_edits (replicate (Z.to_nat rows) (replicate (Z.to_nat cols) 0))
                   edits) in
  maze app = Some final
  ∧ start app = first_passage final (0, 0)
  ∧ goal app = first_passage final (cols - 1, rows - 1)
  ∧ _kind app = None ∧ _after_id app = None ∧ timers app = ∅
  ∧ _run_seq app = _run_seq app0 + 1
  ∧ screen app
    = screen app0 ++ [auto_scale; reset_path; draw_maze]
      ++ (cell_drawn <$> edits)
      ++ [draw_markers (start app) (goal app); tag_raise_markers].
Proof.
  intros Hrows Hcols Hg Hcall _ Hn app0 app final. subst app app0.
  simpl. unfold MazeApp.generate, Maze.new.
  rewrite bool_decide_eq_false_2 by lia.
  pose proof (calc_batch_pos speed_pct (rows * cols) false) as Hb.
  destruct (_calc_delay_batch _ _ _ _) as [d b]. simpl in Hb.
  rewrite Hg. simpl. rewrite Hcall.
  edestruct (mainloop_gen n edits) as (H1 & H2 & H3 & H4 & H5 & H6 & H7 & H8);
    last (rewrite H1, H2, H3, H4, H5, H6, H7, H8).
  - unfold _run_iterator. simpl. rewrite session_cancel_idle.
    apply insert_empty.
  - done.
  - done.
  - done.
  - done.
  - done.
  - simpl. rewrite DriverProofs.cancel_run_seq, cancel_screen.
    split_and!; try done. by rewrite <- !app_assoc.
Qed.

(** A search, from the button to the last callback.  With a maze on
    display and no generation running, [solve] with a registered solver
    whose run yields the snapshots [paths] and ends leads to an idle
    application: the end points are picked on the maze and drawn first,
    every snapshot is drawn once and in order, the maze is untouched and
    nothing is pending. *)
Theorem solve_playback (evs : list Event) (sol_name : string)
    (speed_pct : Q) (m : Maze.t)
    (sv : Plugin (Maze.t → Node → Node → Iter Path))
    (paths : list Path) (n : nat) :
  let app0 := foldl handle init evs in
  let app := mainloop n (handle app0 (Solve sol_name speed_pct)) in
  maze app0 = Some m → _kind app0 ≠ Some gen →
  solvers !! sol_name = Some sv →
  call sv m (first_passage m (0, 0))
       (first_passage m (Maze.w m - 1, Maze.h m - 1))
  = DriverProofs.iter_of_list paths →
  (length paths < n)%nat →
  maze app = Some m
  ∧ start app = first_passage m (0, 0)
  ∧ goal app = first_passage m (Maze.w m - 1, Maze.h m - 1)
  ∧ _kind app = None ∧ _after_id app = None ∧ timers app = ∅
  ∧ _run_seq app = _run_seq app0 + 1
  ∧ screen app
    = screen app0 ++ [draw_markers (start app) (goal app); reset_path]
      ++ (draw_path <$> paths) ++ [tag_raise_markers].
Proof.
  intros app0 app Hm Hk Hs Hcall Hn. subst app app0.
  simpl. unfold MazeApp.solve_. rewrite Hm.
  rewrite bool_decide_eq_false_2 by done. rewrite Hs.
  pose proof (calc_batch_pos speed_pct (Maze.w m * Maze.h m) true) as Hb.
  destruct (_calc_delay_batch _ _ _ _) as [d b]. simpl in Hb.
  unfold _pick_endpoints. rewrite DriverProofs.cancel_maze, Hm. simpl.
  rewrite Hcall.
  edestruct (mainloop_solve n paths) as (H1 & H2 & H3 & H4 & H5 & H6 & H7 & H8);
    last (rewrite H1, H2, H3, H4, H5, H6, H7, H8).
  - unfold _run_iterator. simpl. rewrite session_cancel_idle.
    apply insert_empty.
  - done.
  - done.
  - done.
  - done.
  - simpl. rewrite DriverProofs.cancel_maze, DriverProofs.cancel_run_seq,
      cancel_screen.
    split_and!; try done. by rewrite <- !app_assoc.
Qed.

(** [generate] that fails.  A non-positive dimension is the
    [ValueError] of the [Maze] constructor, an unknown generator name the
    [KeyError] of the registry; in both cases the animation that was
    running has already been cancelled.  After the [ValueError] the old
    maze is still there and nothing was redrawn; after the [KeyError] the
    old maze has been replaced by a blank one, which is on display. *)
Theorem generate_failure (evs : list Event) (rows cols : Z)
    (gen_name : string) (speed_pct : Q) :
  let app0 := foldl handle init evs in
  let r := MazeApp.generate delay_curve generators rows cols gen_name
                            speed_pct app0 in
  (_kind r.1 = None → timers r.1 = ∅)
  ∧ _run_seq r.1 = _run_seq app0 + 1
  ∧ (rows ≤ 0 ∨ cols ≤ 0 →
     r.2 = Some ValueError ∧ maze r.1 = maze app0
     ∧ screen r.1 = screen app0 ∧ _kind r.1 = None)
  ∧ (0 < rows → 0 < cols → generators !! gen_name = None →
     r.2 = Some KeyError
     ∧ maze r.1
       = Some (Maze.mk cols rows
                 (replicate (Z.to_nat rows) (replicate (Z.to_nat cols) 0)))
     ∧ screen r.1 = screen app0 ++ [auto_scale; reset_path; draw_maze]
     ∧ _kind r.1 = None)
  ∧ (0 < rows → 0 < cols → is_Some (generators !! gen_name) →
     r.2 = None ∧ _kind r.1 = Some gen).
Proof.
  intros app0 r. subst r.
  pose proof (PendingProofs.session_idle delay_curve generators
    solvers (evs ++ [Generate rows cols gen_name speed_pct])) as Hidle.
  rewrite foldl_app in Hidle. simpl in Hidle. fold app0 in Hidle.
  split; [exact Hidle|]. clear Hidle.
  unfold MazeApp.generate, Maze.new.
  case_bool_decide as Hdim; simpl.
  - rewrite DriverProofs.cancel_run_seq, DriverProofs.cancel_maze,
      cancel_screen, DriverProofs.cancel_kind.
    split_and!; try done; intros; lia.
  - destruct (_calc_delay_batch _ _ _ _) as [d b].
    destruct (generators !! gen_name) as [g|] eqn:Hg; simpl;
      rewrite DriverProofs.cancel_run_seq, ?cancel_screen,
        ?DriverProofs.cancel_kind.
    + split; [done|]. split; [intros; lia|].
      split; [by intros _ _ [=]|done].
    + split; [done|]. split; [intros; lia|].
      split; [|by intros _ _ [? [=]]].
      intros _ _ _. split_and!; try done. by rewrite <- !app_assoc.
Qed.

(** [solve] that does not start a run.  Without a maze it only warns; while
    a generation runs it only reports that the application is busy; in both
    cases the state is otherwise untouched and whatever was pending still
    is.  An unknown solver name is the [KeyError] of the registry, raised
    after the search that was running has been cancelled. *)
Theorem solve_failure (evs : list Event) (sol_name : string)
    (speed_pct : Q) :
  let app0 := foldl handle init evs in
  let r := MazeApp.solve_ delay_curve solvers sol_name speed_pct app0 in
  (maze app0 = None →
     r = (render (showwarning "No maze" "Generate a maze first") app0, None))
  ∧ (is_Some (maze app0) → _kind app0 = Some gen →
     r = (render (showinfo "Busy" "Wait until generation finishes") app0,
          None))
  ∧ (is_Some (maze app0) → _kind app0 ≠ Some gen →
     solvers !! sol_name = None →
     r.2 = Some KeyError ∧ timers r.1 = ∅ ∧ _kind r.1 = None
     ∧ _run_seq r.1 = _run_seq app0 + 1
     ∧ maze r.1 = maze app0 ∧ screen r.1 = screen app0
     ∧ start r.1 = start app0 ∧ goal r.1 = goal app0).
Proof.
  intros app0 r. subst r. unfold MazeApp.solve_. split_and!.
  - by intros ->.
  - intros [m ->] Hk. by rewrite bool_decide_eq_true_2.
  - intros [m Hm] Hk Hs. rewrite Hm, bool_decide_eq_false_2, Hs by done.
    simpl. unfold app0. rewrite session_cancel_idle.
    rewrite DriverProofs.cancel_kind, DriverProofs.cancel_run_seq,
      DriverProofs.cancel_maze, cancel_screen.
    destruct (cancel_endpoints (foldl handle init evs)) as [-> ->].
    done.
Qed.

(** A generator that raises in mid-run leaves the application busy.
    The callback that meets the exception neither schedules a successor
    nor resets [_kind]: nothing is pending any more, the edits made so far
    stay in the maze, and every later [solve] is turned away with the
    "Busy" notice and changes nothing, until [generate] is used again. *)
Theorem generator_exception_leaves_busy (evs : list Event) (rows cols : Z)
    (gen_name : string) (speed_pct : Q) (g : Plugin (Z → Z → Iter Edit))
    (edits : list Edit) (e : Exn) (n : nat) :
  0 < rows → 0 < cols →
  generators !! gen_name = Some g →
  call g cols rows = iter_raising edits e →
  Forall (grid_edit cols rows) edits →
  (length edits < n)%nat →
  let app0 := foldl handle init evs in
  let app := mainloop n (handle app0 (Generate rows cols gen_name speed_pct)) in
  timers app = ∅ ∧ _kind app = Some gen
  ∧ maze app
    = Some (Maze.mk cols rows
              (apply_edits
                 (replicate (Z.to_nat rows) (replicate (Z.to_nat cols) 0))
                 edits))
  ∧ ∀ sol_name speed_pct',
      MazeApp.solve_ delay_curve solvers sol_name speed_pct' app
      = (render (showinfo "Busy" "Wait until generation finishes") app, None).
Proof.
  intros Hrows Hcols Hg Hcall _ Hn app0 app. subst app app0.
  simpl. unfold MazeApp.generate, Maze.new.
  rewrite bool_decide_eq_false_2 by lia.
  pose proof (calc_batch_pos speed_pct (rows * cols) false) as Hb.
  destruct (_calc_delay_batch _ _ _ _) as [d b]. simpl in Hb.
  rewrite Hg. simpl. rewrite Hcall.
  match goal with
  | |- context [mainloop n ?a] =>
      edestruct (mainloop_gen_raising n edits e a) as (H1 & H2 & H3 & H4 & H5)
  end.
  - unfold _run_iterator. simpl. rewrite session_cancel_idle.
    apply insert_empty.
  - done.
  - done.
  - done.
  - done.
  - done.
  - split_and!; [exact H3|by rewrite H2|exact H1|].
    intros sol_name speed_pct'. unfold MazeApp.solve_.
    rewrite H1, H2. simpl. done.
Qed.

End playback.

#[global] Instance grid_edit_dec w h e : Decision (grid_edit w h e).
Proof. unfold grid_edit. apply _. Defined.

Lemma generation_playback_witness :
  maze (mainloop 20
          (DriverProofs.demo_handle init
             (Generate 2 2 "Recursive Division" 50)))
  = Some (Maze.mk 2 2
            (apply_edits (replicate 2 (replicate 2 0))
                         (RecursiveDivision.__call__ 2 2 []).1.1)).
Proof.
  refine (proj1 (generation_playback (λ _, 10) DriverProofs.demo_generators
            DriverProofs.demo_solvers [] 2 2 "Recursive Division" 50
            {| name := "Recursive Division";
               call := λ w h, DriverProofs.iter_of_list
                                (RecursiveDivision.__call__ w h []).1.1 |}
            (RecursiveDivision.__call__ 2 2 []).1.1 20 _ _ _ _ _ _)).
  - lia.
  - lia.
  - reflexivity.
  - reflexivity.
  - apply (bool_decide_unpack _). vm_compute. reflexivity.
  - apply (bool_decide_unpack _). vm_compute. reflexivity.
Defined.

(** A 2 by 2 maze has been generated and played to its end. *)
Definition demo_generated : list Event :=
  Generate 2 2 "Recursive Division" 50 :: (Timer <$> seq 0 15).

Lemma solve_playback_witness :
  _kind (mainloop 3 (DriverProofs.demo_handle
                       (foldl DriverProofs.demo_handle init demo_generated)
                       (Solve "BFS" 50))) = None
  ∧ screen (mainloop 3 (DriverProofs.demo_handle
                       (foldl DriverProofs.demo_handle init demo_generated)
                       (Solve "BFS" 50)))
    = screen (foldl DriverProofs.demo_handle init demo_generated)
      ++ [draw_markers (0, 0) (1, 1); reset_path]
      ++ (draw_path <$> [[(0, 0)]]) ++ [tag_raise_markers].
Proof.
  destruct (solve_playback (λ _, 10) DriverProofs.demo_generators
    DriverProofs.demo_solvers demo_generated
    "BFS" 50 (Maze.mk 2 2 [[1; 0]; [0; 1]])
    {| name := "BFS";
       call := λ m s g, DriverProofs.iter_of_list (BFS.__call__ m s g).1 |}
    [[(0, 0)]] 3) as (_ & Hs & Hg & Hk & _ & _ & _ & Hscr).
  - vm_compute. reflexivity.
  - vm_compute. discriminate.
  - reflexivity.
  - vm_compute. reflexivity.
  - simpl. lia.
  - split; [exact Hk|]. unfold DriverProofs.demo_handle.
    rewrite Hscr, Hs, Hg. reflexivity.
Defined.

(** Recursive Division with its draws taken from the empty stream. *)
Definition run_generators : gmap string (Plugin (Z → Z → Iter Edit)) :=
  {[ "Recursive Division" :=
       {| name := "Recursive Division";
          call := λ w h, iter_of_run (RecursiveDivision.__call__ w h []) |} ]}.

Lemma generator_exception_witness :
  timers (mainloop 40
            (MazeApp.handle (λ _, 10) run_generators DriverProofs.demo_solvers
               init (Generate 3 3 "Recursive Division" 50))) = ∅
  ∧ _kind (mainloop 40
             (MazeApp.handle (λ _, 10) run_generators DriverProofs.demo_solvers
                init (Generate 3 3 "Recursive Division" 50))) = Some gen.
Proof.
  destruct (generator_exception_leaves_busy (λ _, 10) run_generators
              DriverProofs.demo_solvers [] 3 3 "Recursive Division" 50
              {| name := "Recursive Division";
                 call := λ w h,
                   iter_of_run (RecursiveDivision.__call__ w h []) |}
              (RecursiveDivision.__call__ 3 3 []).1.1 IndexError 40)
    as (Ht & Hk & _).
  - lia.
  - lia.
  - reflexivity.
  - vm_compute. reflexivity.
  - apply (bool_decide_unpack _). vm_compute. reflexivity.
  - apply (bool_decide_unpack _). vm_compute. reflexivity.
  - split; [exact Ht|exact Hk].
Defined.

End PlaybackProofs.


(** ** Mazes carved on the lattice of even coordinates *)

Module LatticeProofs.

(** *** Paths inside a set of cells *)

Inductive joined (S : Node → Prop) (a : Node) : Node → Prop :=
| joined_here : S a → joined S a a
| joined_step b c : joined S a b → adjacent b c → S c → joined S a c.

Lemma joined_mono (S S' : Node → Prop) a b :
  (∀ c, S c → S' c) → joined S a b → joined S' a b.
Proof.
  intros HS. induction 1 as [|b c Hab IH Hadj Hc]; [by constructor; auto|].
  eapply joined_step; eauto.
Qed.

Lemma joined_start S a b : joined S a b → S a.
Proof. induction 1; auto. Qed.

Lemma joined_end S a b : joined S a b → S b.
Proof. by destruct 1. Qed.

Lemma joined_trans S a b c : joined S a b → joined S b c → joined S a c.
Proof.
  intros Hab. induction 1 as [|c d Hbc IH Hadj Hd]; [done|].
  eapply joined_step; eauto.
Qed.

Lemma adjacent_sym a b : adjacent a b → adjacent b a.
Proof. unfold adjacent. lia. Qed.

Lemma joined_sym S a b : joined S a b → joined S b a.
Proof.
  induction 1 as [Ha|b c Hab IH Hadj Hc]; [by constructor|].
  eapply joined_trans; [|exact IH].
  eapply joined_step; [by constructor|by apply adjacent_sym|].
  by eapply joined_end.
Qed.

Lemma linked_joined m a b : linked m a b ↔ joined (passage_cell m) a b.
Proof.
  split.
  - induction 1; [by constructor|eapply joined_step; eauto].
  - induction 1; [by constructor|eapply linked_step; eauto].
Qed.

(** A maze whose passages are the cells of [S], all joined to one of
    them, is one component. *)
Lemma one_component_joined m (S : Node → Prop) o :
  (∀ c, passage_cell m c ↔ S c) → S o → (∀ c, S c → joined S o c) →
  one_component m.
Proof.
  intros HS Ho Hj. split; [exists o; by apply HS|].
  intros a b Ha%HS Hb%HS. apply linked_joined.
  apply (joined_mono S); [intros c; apply HS|].
  eapply joined_trans; [apply joined_sym|]; auto.
Qed.

Section lattice.
Variables w h : Z.

(** The cells the generators work on, and the moves between them. *)
Definition cell (c : Node) : Prop :=
  0 ≤ c.1 < w ∧ 0 ≤ c.2 < h ∧ c.1 `mod` 2 = 0 ∧ c.2 `mod` 2 = 0.

Definition two_step (a b : Node) : Prop :=
  (Z.abs (b.1 - a.1) = 2 ∧ b.2 = a.2) ∨ (b.1 = a.1 ∧ Z.abs (b.2 - a.2) = 2).

(** The wall between two cells a move apart. *)
Definition mid (a b : Node) : Node :=
  ((a.1 + b.1) `div` 2, (a.2 + b.2) `div` 2).

#[global] Instance cell_dec c : Decision (cell c).
Proof. unfold cell. apply _. Defined.

Lemma mid_adjacent a b :
  two_step a b → adjacent a (mid a b) ∧ adjacent (mid a b) b.
Proof.
  unfold two_step, adjacent, mid. destruct a as [ax ay], b as [bx by']. simpl.
  intros H. Z.div_mod_to_equations. lia.
Qed.

Lemma mid_not_cell a b : cell a → two_step a b → ¬ cell (mid a b).
Proof.
  unfold two_step, cell, mid. destruct a as [ax ay], b as [bx by']. simpl.
  intros Ha H Hm. Z.div_mod_to_equations. lia.
Qed.

Lemma mid_inside a b :
  cell a → cell b → two_step a b →
  0 ≤ (mid a b).1 < w ∧ 0 ≤ (mid a b).2 < h
  ∧ ((mid a b).1 `mod` 2 = 0 ∨ (mid a b).2 `mod` 2 = 0).
Proof.
  unfold two_step, cell, mid. destruct a as [ax ay], b as [bx by']. simpl.
  intros Ha Hb H. Z.div_mod_to_equations. lia.
Qed.

(** A wall determines the two cells it separates. *)
Lemma mid_inj a b a' b' :
  cell a → cell b → two_step a b → cell a' → cell b' → two_step a' b' →
  mid a b = mid a' b' → (a = a' ∧ b = b') ∨ (a = b' ∧ b = a').
Proof.
  unfold two_step, cell, mid.
  destruct a as [ax ay], b as [bx by'], a' as [ax' ay'], b' as [bx' by''].
  simpl. intros Ha Hb H Ha' Hb' H' [= H1 H2].
  assert (ax = ax' ∧ ay = ay' ∧ bx = bx' ∧ by' = by''
          ∨ ax = bx' ∧ ay = by'' ∧ bx = ax' ∧ by' = ay') as Hc
    by (Z.div_mod_to_equations; lia).
  destruct Hc as [(-> & -> & -> & ->)|(-> & -> & -> & ->)]; auto.
Qed.

(** *** The list of cells *)

Lemma elem_of_range_step b k :
  k ∈ range_step 0 b 2 ↔ 0 ≤ k < b ∧ k `mod` 2 = 0.
Proof.
  unfold range_step. rewrite list_elem_of_fmap. split.
  - intros (j & -> & Hj%elem_of_seqZ). Z.div_mod_to_equations. lia.
  - intros [Hk Hm]. exists (k `div` 2). rewrite elem_of_seqZ.
    Z.div_mod_to_equations. lia.
Qed.

Lemma NoDup_range_step b : NoDup (range_step 0 b 2).
Proof.
  unfold range_step. apply NoDup_fmap_2; [|apply NoDup_seqZ].
  intros i j. lia.
Qed.

Lemma length_range_step b :
  0 ≤ b → Z.of_nat (length (range_step 0 b 2)) = (b + 1) `div` 2.
Proof.
  intros Hb. unfold range_step. rewrite length_fmap, length_seqZ.
  replace (b - 0 + 2 - 1) with (b + 1) by lia.
  rewrite Z2Nat.id; [done|]. Z.div_mod_to_equations. lia.
Qed.

Lemma elem_of_lattice_cells c : c ∈ Kruskal.cells w h ↔ cell c.
Proof.
  unfold Kruskal.cells, cell. destruct c as [cx cy]. simpl. split.
  - intros (y & (x & Hc%list_elem_of_singleton & Hx%elem_of_range_step)
                   %list_elem_of_bind
              & Hy%elem_of_range_step)%list_elem_of_bind.
    injection Hc as -> ->. lia.
  - intros (Hx & Hy & Hxm & Hym).
    apply list_elem_of_bind. exists cy.
    split; [|by apply elem_of_range_step].
    apply list_elem_of_bind. exists cx.
    split; [left|by apply elem_of_range_step].
Qed.

Lemma NoDup_cells : NoDup (Kruskal.cells w h).
Proof.
  unfold Kruskal.cells. apply NoDup_bind.
  - intros y1 y2 c _ _
      (x1 & ->%list_elem_of_singleton & _)%list_elem_of_bind
      (x2 & [= _ ->]%list_elem_of_singleton & _)%list_elem_of_bind. done.
  - intros y _. apply NoDup_bind.
    + intros x1 x2 c _ _ ->%list_elem_of_singleton
        [= ->]%list_elem_of_singleton. done.
    + intros x _. apply NoDup_singleton.
    + apply NoDup_range_step.
  - apply NoDup_range_step.
Qed.

(** The number of cells. *)
Definition cells_count : Z := ((w + 1) `div` 2) * ((h + 1) `div` 2).

Lemma length_lattice_cells :
  0 ≤ w → 0 ≤ h → Z.of_nat (length (Kruskal.cells w h)) = cells_count.
Proof.
  intros Hw Hh. unfold Kruskal.cells, cells_count.
  rewrite <- (length_range_step w), <- (length_range_step h) by done.
  generalize (range_step 0 h 2). intros ys.
  induction ys as [|y ys IH]; [simpl; lia|].
  rewrite bind_cons, length_app, Nat2Z.inj_add, IH.
  assert (length (range_step 0 w 2 ≫= λ x : Z, [(x, y)])
          = length (range_step 0 w 2)) as ->; [|simpl length; lia].
  generalize (range_step 0 w 2). intros xs.
  induction xs as [|x xs IHx]; [done|].
  rewrite bind_cons. simpl. by rewrite IHx.
Qed.

(** The lattice is connected by the moves: a set of cells that holds
    the origin and is closed under moves holds every cell. *)
Lemma closed_all (V : Node → Prop) :
  V (0, 0) → (∀ c n, V c → cell c → cell n → two_step c n → V n) →
  ∀ c, cell c → V c.
Proof.
  intros Ho Hstep.
  assert (∀ k : nat, ∀ c, cell c → c.1 + c.2 ≤ Z.of_nat k → V c) as Hind.
  { induction k as [|k IH]; intros [cx cy] (Hx & Hy & Hxm & Hym) Hk;
      simpl in *.
    - by replace cx with 0 by lia; replace cy with 0 by lia.
    - destruct (decide (cx = 0 ∧ cy = 0)) as [[-> ->]|Hne]; [done|].
      destruct (decide (0 < cx)) as [Hpos|Hzero].
      + apply (Hstep (cx - 2, cy)).
        * apply IH; [|simpl; lia]. unfold cell. simpl.
          Z.div_mod_to_equations. lia.
        * unfold cell. simpl. Z.div_mod_to_equations. lia.
        * done.
        * left. simpl. lia.
      + apply (Hstep (cx, cy - 2)).
        * apply IH; [|simpl; lia]. unfold cell. simpl.
          Z.div_mod_to_equations. lia.
        * unfold cell. simpl. Z.div_mod_to_equations. lia.
        * done.
        * right. simpl. lia. }
  intros c Hc. apply (Hind (Z.to_nat (c.1 + c.2))); [done|].
  destruct Hc as (? & ? & _). lia.
Qed.

(** *** A tree grown from the origin

    [V] lists the cells carved so far, [W] the walls carved between
    them. *)
Record grown (V W : list Node) : Prop := mk_grown {
  g_nodup : NoDup (V ++ W);
  g_count : length V = S (length W);
  g_cells : ∀ c, c ∈ V → cell c;
  g_walls : ∀ c, c ∈ W →
            ∃ a b, a ∈ V ∧ b ∈ V ∧ two_step a b ∧ c = mid a b;
  g_origin : (0, 0) ∈ V;
  g_joined : ∀ c, c ∈ V ++ W → joined (λ c, c ∈ V ++ W) (0, 0) c
}.

Lemma grown_init : 1 ≤ w → 1 ≤ h → grown [(0, 0)] [].
Proof.
  intros Hw Hh. split; simpl.
  - apply NoDup_singleton.
  - done.
  - intros c ->%list_elem_of_singleton. unfold cell. simpl.
    Z.div_mod_to_equations. lia.
  - by intros c ?%elem_of_nil.
  - left.
  - intros c ->%list_elem_of_singleton. constructor. left.
Qed.

Lemma grown_wall_not_cell V W c : grown V W → c ∈ W → ¬ cell c.
Proof.
  intros Hg Hc. destruct (g_walls _ _ Hg c Hc) as (a & b & Ha & Hb & Hs & ->).
  apply mid_not_cell; [|done]. by apply (g_cells _ _ Hg).
Qed.

Lemma grown_step V W v n :
  grown V W → v ∈ V → cell n → n ∉ V → two_step v n →
  grown (V ++ [n]) (W ++ [mid v n]).
Proof.
  intros Hg Hv Hn HnV Hs.
  pose proof (g_cells _ _ Hg v Hv) as Hvc.
  assert (n ∉ W) as HnW.
  { intros HnW. by apply (grown_wall_not_cell V W n). }
  assert (mid v n ∉ V) as HmV.
  { intros HmV%(g_cells _ _ Hg). by apply (mid_not_cell v n). }
  assert (mid v n ∉ W) as HmW.
  { intros (a & b & Ha & Hb & Hab & Heq)%(g_walls _ _ Hg).
    apply mid_inj in Heq as [[-> ->]|[-> ->]]; try done;
      by apply (g_cells _ _ Hg). }
  assert (n ≠ mid v n) as Hnm.
  { intros Heq. apply (mid_not_cell v n); [done..|]. by rewrite <- Heq. }
  assert (∀ c, c ∈ (V ++ [n]) ++ W ++ [mid v n]
               ↔ c ∈ V ++ W ∨ c = n ∨ c = mid v n) as Hin.
  { intros c. rewrite !elem_of_app, !list_elem_of_singleton. tauto. }
  split.
  - pose proof (g_nodup _ _ Hg) as Hnd.
    apply NoDup_app in Hnd as (HV & HVW & HW).
    apply NoDup_app. split_and!.
    + apply NoDup_app. split_and!; [done| |apply NoDup_singleton].
      by intros c Hc ->%list_elem_of_singleton.
    + intros c [Hc|Hc%list_elem_of_singleton]%elem_of_app
             [Hc'|Hc'%list_elem_of_singleton]%elem_of_app;
        [by apply (HVW c)|congruence..].
    + apply NoDup_app. split_and!; [done| |apply NoDup_singleton].
      by intros c Hc ->%list_elem_of_singleton.
  - rewrite !length_app. simpl. rewrite (g_count _ _ Hg). lia.
  - intros c [Hc| ->%list_elem_of_singleton]%elem_of_app; [|done].
    by apply (g_cells _ _ Hg).
  - intros c [Hc| ->%list_elem_of_singleton]%elem_of_app.
    + destruct (g_walls _ _ Hg c Hc) as (a & b & Ha & Hb & Hab & ->).
      exists a, b. rewrite !elem_of_app. auto.
    + exists v, n. rewrite !elem_of_app, !list_elem_of_singleton. auto.
  - apply elem_of_app. left. apply (g_origin _ _ Hg).
  - assert (joined (λ c, c ∈ (V ++ [n]) ++ W ++ [mid v n]) (0, 0) v) as Hjv.
    { eapply joined_mono; [|apply (g_joined _ _ Hg); apply elem_of_app; by left].
      intros c Hc. apply Hin. by left. }
    destruct (mid_adjacent v n Hs) as [Hadj1 Hadj2].
    assert (joined (λ c, c ∈ (V ++ [n]) ++ W ++ [mid v n]) (0, 0) (mid v n))
      as Hjm.
    { eapply joined_step; [exact Hjv|done|]. apply Hin. auto. }
    intros c [Hc|[->| ->]]%Hin.
    + eapply joined_mono; [|by apply (g_joined _ _ Hg)].
      intros c' Hc'. apply Hin. by left.
    + eapply joined_step; [exact Hjm|done|]. apply Hin. auto.
    + done.
Qed.

End lattice.

(** *** The finished maze *)

(** The passages of [m] form a spanning tree of the lattice of the
    [w] by [h] grid: every cell of the lattice is a passage, every other
    passage is a wall carved between two cells (never a cell with two odd
    coordinates), the passages are one component, and the carved walls are
    one fewer than the cells. *)
Definition spanning_tree (w h : Z) (m : Maze.t) : Prop :=
  (∀ c, cell w h c → passage_cell m c)
  ∧ (∀ c, passage_cell m c →
          0 ≤ c.1 < w ∧ 0 ≤ c.2 < h ∧ (c.1 `mod` 2 = 0 ∨ c.2 `mod` 2 = 0))
  ∧ one_component m
  ∧ ∃ walls, NoDup walls
      ∧ (∀ c, c ∈ walls ↔ passage_cell m c ∧ ¬ cell w h c)
      ∧ Z.of_nat (length walls) = cells_count w h - 1.

Lemma grown_spanning_tree w h V W m :
  0 ≤ w → 0 ≤ h →
  grown w h V W → (∀ c, cell w h c → c ∈ V) →
  (∀ c, passage_cell m c ↔ c ∈ V ++ W) →
  spanning_tree w h m.
Proof.
  intros Hw Hh Hg Hall Hp. split_and!.
  - intros c Hc. apply Hp, elem_of_app. auto.
  - intros c [Hc|Hc]%Hp%elem_of_app.
    + destruct (g_cells _ _ _ _ Hg c Hc) as (? & ? & ? & ?). auto.
    + destruct (g_walls _ _ _ _ Hg c Hc) as (a & b & Ha & Hb & Hs & ->).
      apply mid_inside; [by apply (g_cells _ _ _ _ Hg)..|done].
  - apply (one_component_joined m (λ c, c ∈ V ++ W) (0, 0)); [done| |].
    + apply elem_of_app. left. apply (g_origin _ _ _ _ Hg).
    + apply (g_joined _ _ _ _ Hg).
  - pose proof (g_nodup _ _ _ _ Hg) as (HV & HVW & HW)%NoDup_app.
    exists W. split_and!; [done| |].
    + intros c. rewrite Hp, elem_of_app. split.
      * intros Hc. split; [by right|].
        by apply (grown_wall_not_cell w h V W).
      * intros [[Hc|Hc] Hn]; [|done]. destruct Hn.
        by apply (g_cells _ _ _ _ Hg).
    + assert (V ≡ₚ Kruskal.cells w h) as Hperm.
      { apply NoDup_Permutation; [done|apply NoDup_cells|].
        intros c. rewrite elem_of_lattice_cells. split; [|by apply Hall].
        apply (g_cells _ _ _ _ Hg). }
      rewrite <- (length_lattice_cells w h) by done. rewrite <- Hperm.
      rewrite (g_count _ _ _ _ Hg). lia.
Qed.

(** *** The [visited] matrix *)

Lemma getitem_inside {A} (l : list A) (i : Z) a :
  0 ≤ i → l !! Z.to_nat i = Some a → getitem l i = Ok a.
Proof.
  intros Hi Hl. unfold getitem, py_index.
  pose proof (lookup_lt_Some _ _ _ Hl).
  rewrite bool_decide_eq_true_2 by lia. simpl. by rewrite Hl.
Qed.

Lemma setitem_inside {A} (l : list A) (i : Z) v :
  0 ≤ i < Z.of_nat (length l) → setitem l i v = Ok (<[Z.to_nat i := v]> l).
Proof.
  intros Hi. unfold setitem, py_index.
  by rewrite bool_decide_eq_true_2 by lia.
Qed.

(** [vis] is the [h] by [w] matrix that is [True] exactly at the cells
    of [V]. *)
Definition vis_ok (w h : Z) (vis : list (list bool)) (V : list Node)
  : Prop :=
  length vis = Z.to_nat h
  ∧ ∀ y row, vis !! y = Some row →
      length row = Z.to_nat w
      ∧ ∀ x v, row !! x = Some v →
               v = bool_decide ((Z.of_nat x, Z.of_nat y) ∈ V).

Lemma vis_ok_init w h :
  vis_ok w h (replicate (Z.to_nat h) (replicate (Z.to_nat w) false)) [].
Proof.
  split; [by rewrite length_replicate|].
  intros y row [-> _]%lookup_replicate. split; [by rewrite length_replicate|].
  intros x v [-> _]%lookup_replicate.
  rewrite bool_decide_eq_false_2; [done|]. by intros ?%elem_of_nil.
Qed.

Lemma is_visited_ok w h vis V x y :
  vis_ok w h vis V → 0 ≤ x < w → 0 ≤ y < h →
  is_visited vis x y = Ok (bool_decide ((x, y) ∈ V)).
Proof.
  intros [Hlen Hrows] Hx Hy. unfold is_visited.
  destruct (vis !! Z.to_nat y) as [row|] eqn:Hrow.
  2:{ apply lookup_ge_None in Hrow. lia. }
  rewrite (getitem_inside vis y row) by (done || lia). simpl.
  destruct (Hrows _ _ Hrow) as [Hw Hcol].
  destruct (row !! Z.to_nat x) as [v|] eqn:Hv.
  2:{ apply lookup_ge_None in Hv. lia. }
  rewrite (getitem_inside row x v) by (done || lia).
  rewrite (Hcol _ _ Hv), !Z2Nat.id by lia. done.
Qed.

Lemma mark_visited_ok w h vis V x y :
  vis_ok w h vis V → 0 ≤ x < w → 0 ≤ y < h →
  ∃ vis', mark_visited vis x y = Ok vis' ∧ vis_ok w h vis' (V ++ [(x, y)]).
Proof.
  intros [Hlen Hrows] Hx Hy. unfold mark_visited.
  destruct (vis !! Z.to_nat y) as [row|] eqn:Hrow.
  2:{ apply lookup_ge_None in Hrow. lia. }
  rewrite (getitem_inside vis y row) by (done || lia). simpl.
  destruct (Hrows _ _ Hrow) as [Hw Hcol].
  rewrite setitem_inside by lia. simpl.
  rewrite setitem_inside by lia.
  eexists. split; [done|]. split; [by rewrite length_insert|].
  intros y' row' Hrow'.
  destruct (decide (y' = Z.to_nat y)) as [->|Hne].
  - rewrite list_lookup_insert_eq in Hrow' by lia. injection Hrow' as <-.
    split; [by rewrite length_insert|].
    intros x' v Hv.
    destruct (decide (x' = Z.to_nat x)) as [->|Hnx].
    + rewrite list_lookup_insert_eq in Hv by lia. injection Hv as <-.
      rewrite bool_decide_eq_true_2; [done|].
      rewrite !Z2Nat.id by lia. apply elem_of_app. right. left.
    + rewrite list_lookup_insert_ne in Hv by done.
      rewrite (Hcol _ _ Hv). apply bool_decide_ext.
      rewrite elem_of_app, list_elem_of_singleton.
      split; [auto|]. intros [?|[= ? ?]]; [done|lia].
  - rewrite list_lookup_insert_ne in Hrow' by done.
    destruct (Hrows _ _ Hrow') as [Hw' Hcol']. split; [done|].
    intros x' v Hv. rewrite (Hcol' _ _ Hv). apply bool_decide_ext.
    rewrite elem_of_app, list_elem_of_singleton.
    split; [auto|]. intros [?|[= ? ?]]; [done|lia].
Qed.

(** *** From the edits to the passages *)

Import RecursiveDivisionProofs.

Lemma written_carved es c :
  Forall (λ e : Edit, e.2 = 1) es →
  written es c = if bool_decide (c ∈ es.*1) then Some 1 else None.
Proof.
  induction 1 as [|e es He Hes IH]; [done|].
  cbn [written]. rewrite fmap_cons, IH. case_bool_decide as Hin.
  - rewrite bool_decide_eq_true_2; [done|]. by right.
  - case_bool_decide as Hc.
    + rewrite bool_decide_eq_true_2; [by rewrite He|]. rewrite Hc. left.
    + rewrite bool_decide_eq_false_2; [done|].
      intros [?|?]%elem_of_cons; congruence.
Qed.

(** A run that only carves, inside the grid, leaves as passages exactly
    the cells it has carved. *)
Lemma carved_passages width height (run : list Edit * list nat * Res unit) :
  0 < width → 0 < height →
  Forall (λ e : Edit, e.2 = 1 ∧ inside width height e.1) run.1.1 →
  ∃ m, generated width height run = Some m
       ∧ Maze.w m = width ∧ Maze.h m = height
       ∧ ∀ c, passage_cell m c ↔ c ∈ run.1.1.*1.
Proof.
  intros Hw Hh Hes. unfold generated, Maze.new.
  rewrite bool_decide_eq_false_2 by lia. simpl.
  eexists. split_and!; [done..|].
  intros c. unfold passage_cell, Maze.in_bounds. simpl.
  assert (Forall (λ e : Edit, e.2 = 1) run.1.1) as H1.
  { eapply Forall_impl; [exact Hes|]. by intros e [? _]. }
  assert (Forall (λ e : Edit, inside width height e.1) run.1.1) as H2.
  { eapply Forall_impl; [exact Hes|]. by intros e [_ ?]. }
  assert (shaped_grid width height
            (replicate (Z.to_nat height) (replicate (Z.to_nat width) 0)))
    as Hshape.
  { split; [by rewrite length_replicate|].
    apply Forall_forall. intros row [-> _]%elem_of_replicate.
    by rewrite length_replicate. }
  assert (inside width height c →
          Maze.get (replicate (Z.to_nat height) (replicate (Z.to_nat width) 0))
                   c.1 c.2 = 0) as Hzero.
  { intros [? ?]. unfold Maze.get.
    rewrite lookup_replicate_2 by lia. simpl.
    by rewrite lookup_replicate_2 by lia. }
  split.
  - intros [Hc Hget].
    rewrite (apply_edits_get width height _ _ c Hshape H2 Hc) in Hget.
    rewrite written_carved in Hget by done.
    case_bool_decide; [done|]. simpl in Hget. by rewrite Hzero in Hget.
  - intros Hc.
    assert (inside width height c) as Hin.
    { apply list_elem_of_fmap in Hc as (e & -> & He).
      rewrite Forall_forall in H2. by apply H2. }
    split; [done|].
    rewrite (apply_edits_get width height _ _ c Hshape H2 Hin).
    rewrite written_carved by done.
    by rewrite bool_decide_eq_true_2.
Qed.

End LatticeProofs.


(** ** Running generator bodies *)

Module RunProofs.
Import GenProofs.

Lemma glift_bind {A B} (a : A) (k : A → G B) r :
  (glift (Ok a) ≫= k) r = k a r.
Proof. rewrite gbind_unfold. unfold glift. by destruct (k a r) as [[??]?]. Qed.

Lemma gyield_bind {B} e (k : unit → G B) r :
  (gyield e ≫= k) r
  = match k tt r with (out, r', res) => (e :: out, r', res) end.
Proof. rewrite gbind_unfold. unfold gyield. by destruct (k tt r) as [[??]?]. Qed.

Lemma gbind_ok {A B} (m : G A) (k : A → G B) r out r1 a :
  m r = (out, r1, Ok a) →
  (m ≫= k) r
  = match k a r1 with (out2, r2, res) => (out ++ out2, r2, res) end.
Proof. intros Hm. by rewrite gbind_unfold, Hm. Qed.

Lemma perm_grow {A} (V W : list A) (n m : A) (out : list A) :
  ((V ++ [n]) ++ W ++ [m]) ++ out ≡ₚ (V ++ W) ++ m :: n :: out.
Proof.
  rewrite <- !app_assoc. apply Permutation_app_head. simpl.
  rewrite (perm_swap n m). apply Permutation_middle.
Qed.

(** The forced dimensions: odd, positive, at most one below the ones
    asked for. *)
Lemma force_odd_spec (w : Z) :
  1 ≤ w →
  let w' := if bool_decide (w `mod` 2 = 0) then w - 1 else w in
  1 ≤ w' ≤ w ∧ w - 1 ≤ w' ∧ w' `mod` 2 = 1.
Proof. intros Hw. simpl. case_bool_decide; Z.div_mod_to_equations; lia. Qed.

End RunProofs.

(** ** DFS Backtracker *)

Module DFSBacktrackerProofs.
Import DFSBacktracker GenProofs RunProofs LatticeProofs.

Section carving.
Variables w h : Z.

(** The candidates: the cells a move away that are not visited yet, in
    the order of [_TWO_STEP_MOVES]. *)
Definition open_moves (V : list Node) (x y : Z) : list Node :=
  filter (λ n : Node, (0 ≤ n.1 < w ∧ 0 ≤ n.2 < h) ∧ n ∉ V)
         ((λ d : Z * Z, (x + d.1, y + d.2)) <$> _TWO_STEP_MOVES).

Lemma fold_moves vis V x y (ds : list (Z * Z)) (acc : list Node) :
  vis_ok w h vis V →
  foldl (λ (acc : Res (list Node)) (d : Z * Z),
           nbrs ← acc;
           let nx := x + d.1 in
           let ny := y + d.2 in
           if bool_decide (0 ≤ nx < w ∧ 0 ≤ ny < h)
           then
             seen ← is_visited vis nx ny;
             if seen : bool then mret nbrs else mret (nbrs ++ [(nx, ny)])
           else mret nbrs)
        (Ok acc) ds
  = Ok (acc ++ filter (λ n : Node, (0 ≤ n.1 < w ∧ 0 ≤ n.2 < h) ∧ n ∉ V)
                      ((λ d : Z * Z, (x + d.1, y + d.2)) <$> ds)).
Proof.
  intros Hvis. revert acc. induction ds as [|d ds IH]; intros acc.
  { simpl. by rewrite app_nil_r. }
  rewrite fmap_cons, filter_cons. cbn [foldl]. simpl.
  case_bool_decide as Hin.
  - rewrite (is_visited_ok w h vis V) by (done || lia). simpl.
    case_bool_decide as HV.
    + rewrite decide_False by tauto. apply IH.
    + rewrite decide_True by tauto. rewrite IH. by rewrite <- app_assoc.
  - rewrite decide_False by tauto. apply IH.
Qed.

Lemma unvisited_two_step_neighbours_ok vis V x y :
  vis_ok w h vis V →
  _unvisited_two_step_neighbours x y w h vis = Ok (open_moves V x y).
Proof.
  intros Hvis. unfold _unvisited_two_step_neighbours, open_moves.
  by rewrite (fold_moves vis V).
Qed.

Lemma elem_of_open_moves V x y n :
  cell w h (x, y) →
  n ∈ open_moves V x y ↔ cell w h n ∧ two_step (x, y) n ∧ n ∉ V.
Proof.
  intros (Hx & Hy & Hxm & Hym). simpl in *.
  unfold open_moves, _TWO_STEP_MOVES. rewrite list_elem_of_filter.
  simpl. rewrite !elem_of_cons, elem_of_nil.
  unfold cell, two_step. destruct n as [nx ny]. simpl. split.
  - intros [[Hb HV] Hn]. split_and!; try done; try lia;
      destruct Hn as [[= -> ->]|[[= -> ->]|[[= -> ->]|[[= -> ->]|[]]]]];
      Z.div_mod_to_equations; lia.
  - intros ((Hnx & Hny & _ & _) & Hs & HV). split; [split; [lia|done]|].
    assert (nx = x + 2 ∧ ny = y + 0 ∨ nx = x + -2 ∧ ny = y + 0
            ∨ nx = x + 0 ∧ ny = y + 2 ∨ nx = x + 0 ∧ ny = y + -2)
      as [[-> ->]|[[-> ->]|[[-> ->]|[-> ->]]]] by lia; auto.
Qed.

(** The number of cells of the lattice. *)
Definition N : nat := length (Kruskal.cells w h).

Lemma grown_length V W : grown w h V W → (length V ≤ N)%nat.
Proof.
  intros Hg. apply submseteq_length, NoDup_submseteq.
  - by pose proof (g_nodup _ _ _ _ Hg) as (? & _ & _)%NoDup_app.
  - intros c Hc. apply elem_of_lattice_cells. by apply (g_cells _ _ _ _ Hg).
Qed.

(** What holds at the head of the [while] loop: the carved cells and
    walls form a tree, [visited] marks its cells, the stack holds visited
    cells only, and a visited cell that is off the stack has no unvisited
    cell a move away. *)
Record dfs_inv (V W : list Node) (vis : list (list bool))
    (stack : list Node) : Prop := mk_dfs_inv {
  d_grown : grown w h V W;
  d_vis : vis_ok w h vis V;
  d_stack : ∀ c, c ∈ stack → c ∈ V;
  d_closed : ∀ c n, c ∈ V → c ∉ stack → cell w h n → two_step c n → n ∈ V
}.

Lemma carve_spec fuel V W vis stack r :
  dfs_inv V W vis stack →
  (2 * (N - length V) + length stack < fuel)%nat →
  ∃ out r' V' W',
    carve fuel w h vis stack r = (out, r', Ok tt)
    ∧ grown w h V' W' ∧ (∀ c, cell w h c → c ∈ V')
    ∧ Forall (λ e : Edit, e.2 = 1) out
    ∧ V' ++ W' ≡ₚ (V ++ W) ++ out.*1.
Proof.
  revert V W vis stack r.
  induction fuel as [|fuel IH]; intros V W vis stack r Hinv Hfuel; [lia|].
  destruct Hinv as [Hg Hvis Hstack Hclosed].
  destruct stack as [|[x y] below].
  { exists [], r, V, W. split_and!; [done|done| |done|by rewrite app_nil_r].
    apply (closed_all w h (λ c, c ∈ V)); [apply (g_origin _ _ _ _ Hg)|].
    intros c n Hc _ Hn Hs. eapply Hclosed; eauto. by intros ?%elem_of_nil. }
  assert ((x, y) ∈ V) as Hxy by (apply Hstack; left).
  pose proof (g_cells _ _ _ _ Hg _ Hxy) as Hcell.
  cbn [carve]. rewrite (unvisited_two_step_neighbours_ok vis V) by done.
  rewrite glift_bind. case_bool_decide as Hcands.
  - (* no candidate: backtrack *)
    apply (IH V W); [|simpl in Hfuel; lia].
    split; [done|done| |].
    + intros c Hc. apply Hstack. by right.
    + intros c n Hc Hnot Hn Hs.
      destruct (decide (c = (x, y))) as [->|Hne].
      * destruct (decide (n ∈ V)) as [|HnV]; [done|].
        assert (n ∈ open_moves V x y) as Hin
          by (by apply elem_of_open_moves).
        rewrite Hcands in Hin. by apply elem_of_nil in Hin.
      * eapply Hclosed; eauto.
        intros [?|?]%elem_of_cons; [done|by apply Hnot].
  - (* carve towards a drawn candidate *)
    destruct (choice_cases (open_moves V x y) r Hcands)
      as (n & r1 & Hn & Hchoice).
    rewrite (gbind_ok _ _ _ _ _ _ Hchoice).
    apply elem_of_open_moves in Hn as (Hncell & Hstep & HnV); [|done].
    destruct (mark_visited_ok w h vis V n.1 n.2 Hvis) as (vis' & Hmark & Hvis');
      [by destruct Hncell as (? & ? & _)..|].
    rewrite Hmark, glift_bind, !gyield_bind.
    assert (grown w h (V ++ [n]) (W ++ [mid (x, y) n])) as Hg'
      by (by apply grown_step).
    pose proof (grown_length _ _ Hg') as Hlen. rewrite length_app in Hlen.
    simpl in Hlen, Hfuel.
    destruct (IH (V ++ [n]) (W ++ [mid (x, y) n]) vis'
                 (n :: (x, y) :: below) r1)
      as (out & r' & V' & W' & Hrun & HgV & Hall & Hout & Hperm).
    + split; [done|by destruct n| |].
      * intros c [->|Hc]%elem_of_cons; apply elem_of_app;
          [right; left|left; by apply Hstack].
      * intros c n' [Hc|Hc%list_elem_of_singleton]%elem_of_app Hnot Hn' Hs.
        -- apply elem_of_app. left. eapply Hclosed; eauto.
           intros Hin. apply Hnot. by right.
        -- destruct Hnot. subst c. left.
    + rewrite length_app. simpl. lia.
    + rewrite Hrun. simpl.
      exists (((x + n.1) `div` 2, (y + n.2) `div` 2, 1) :: (n.1, n.2, 1) :: out),
        r', V', W'.
      split_and!; [done|done|done|by repeat constructor|].
      rewrite Hperm, perm_grow. by destruct n.
Qed.

End carving.

Lemma cells_count_le w h :
  1 ≤ w → 1 ≤ h → 1 ≤ cells_count w h ≤ w * h.
Proof.
  intros Hw Hh. unfold cells_count.
  assert (1 ≤ (w + 1) `div` 2 ≤ w) by (Z.div_mod_to_equations; lia).
  assert (1 ≤ (h + 1) `div` 2 ≤ h) by (Z.div_mod_to_equations; lia).
  nia.
Qed.

(** What a tree on the lattice of the [w] by [h] grid has carved lies
    inside every grid that is at least as large. *)
Lemma grown_inside w h width height V W c :
  grown w h V W → w ≤ width → h ≤ height → c ∈ V ++ W →
  RecursiveDivisionProofs.inside width height c.
Proof.
  intros Hg Hw Hh [Hin|Hin]%elem_of_app.
  - destruct (g_cells _ _ _ _ Hg _ Hin) as (? & ? & _). split; lia.
  - destruct (g_walls _ _ _ _ Hg _ Hin) as (a & b & Ha & Hb & Hs & ->).
    destruct (mid_inside w h a b) as (? & ? & _);
      [by apply (g_cells _ _ _ _ Hg)..|done|].
    split; lia.
Qed.

Lemma grown_cells w h V W :
  grown w h V W → (∀ c, cell w h c → c ∈ V) → V ≡ₚ Kruskal.cells w h.
Proof.
  intros Hg Hall.
  pose proof (g_nodup _ _ _ _ Hg) as (? & _ & _)%NoDup_app.
  apply NoDup_Permutation; [done|apply NoDup_cells|].
  intros c. rewrite elem_of_lattice_cells. split; [|by apply Hall].
  apply (g_cells _ _ _ _ Hg).
Qed.

(** The run of [__call__], whatever the draws: it ends normally, and what
    it has carved is a tree that reaches every cell of the lattice of the
    forced dimensions. *)
Lemma dfs_call_run width height r :
  1 ≤ width → 1 ≤ height →
  ∃ out r' V W,
    __call__ width height r = (out, r', Ok tt)
    ∧ grown (_ensure_odd width height).1 (_ensure_odd width height).2 V W
    ∧ (∀ c, cell (_ensure_odd width height).1 (_ensure_odd width height).2 c
            → c ∈ V)
    ∧ Forall (λ e : Edit, e.2 = 1) out
    ∧ V ++ W ≡ₚ out.*1.
Proof.
  intros Hw Hh.
  pose proof (force_odd_spec width Hw) as Hw'.
  pose proof (force_odd_spec height Hh) as Hh'.
  unfold __call__, _ensure_odd. simpl in *.
  set (w := if bool_decide (width `mod` 2 = 0) then width - 1 else width) in *.
  set (h := if bool_decide (height `mod` 2 = 0) then height - 1 else height)
    in *.
  destruct (mark_visited_ok w h _ [] 0 0 (vis_ok_init w h))
    as (vis & Hmark & Hvis); [lia..|].
  rewrite Hmark, glift_bind, gyield_bind. simpl in Hvis.
  destruct (carve_spec w h (Z.to_nat (2 * w * h) + 1) [(0, 0)] [] vis
              [(0, 0)] r)
    as (out & r' & V & W & Hrun & Hg & Hall & Hout & Hperm).
  - split; [apply grown_init; lia|done| |].
    + by intros c.
    + by intros c n Hc Hnot.
  - pose proof (cells_count_le w h) as Hc.
    pose proof (length_lattice_cells w h) as HN. unfold N. simpl. lia.
  - rewrite Hrun. exists ((0, 0, 1) :: out), r', V, W.
    split_and!; [done..|by constructor|by rewrite Hperm].
Qed.

(** DFS Backtracker never fails.  For every width and height of at least
    1 and every outcome of the random choices the run ends by exhaustion,
    with no exception; every edit carves (its value is 1) a cell inside
    the grid that has not been carved before, and the number of edits is
    twice the number of lattice cells of the forced dimensions, less
    one. *)
Theorem dfs_backtracker_runs (width height : Z) (rng : list nat) :
  1 ≤ width → 1 ≤ height →
  (__call__ width height rng).2 = Ok tt
  ∧ Forall (λ e : Edit, e.2 = 1 ∧ 0 ≤ e.1.1 < width ∧ 0 ≤ e.1.2 < height)
           (__call__ width height rng).1.1
  ∧ NoDup (__call__ width height rng).1.1
  ∧ Z.of_nat (length (__call__ width height rng).1.1)
    = 2 * cells_count (_ensure_odd width height).1
                      (_ensure_odd width height).2 - 1.
Proof.
  intros Hw Hh.
  destruct (dfs_call_run width height rng Hw Hh)
    as (out & r' & V & W & -> & Hg & Hall & Hout & Hperm).
  pose proof (force_odd_spec width Hw) as Hw'.
  pose proof (force_odd_spec height Hh) as Hh'.
  pose proof (grown_cells _ _ _ _ Hg Hall) as HV.
  unfold _ensure_odd in *. simpl in *.
  set (w := if bool_decide (width `mod` 2 = 0) then width - 1 else width) in *.
  set (h := if bool_decide (height `mod` 2 = 0) then height - 1 else height)
    in *.
  assert (NoDup out.*1) as Hnd by (rewrite <- Hperm; apply (g_nodup _ _ _ _ Hg)).
  split_and!; [done| | |].
  - apply Forall_forall. intros e He. rewrite Forall_forall in Hout.
    split; [by apply Hout|].
    apply (grown_inside w h width height V W); [done|lia|lia|].
    rewrite Hperm. by apply list_elem_of_fmap_2.
  - by apply NoDup_fmap_1 in Hnd.
  - rewrite <- (length_fmap fst), <- Hperm, length_app.
    pose proof (g_count _ _ _ _ Hg) as Hcount.
    rewrite <- (length_lattice_cells w h) by lia. rewrite <- HV. lia.
Qed.

(** DFS Backtracker builds a perfect maze.  For every width and height
    of at least 1 and every outcome of the random choices, the passages of
    the grid the edits leave are one connected component, and they are a
    spanning tree of the lattice of the forced dimensions. *)
Theorem dfs_backtracker_spanning_tree (width height : Z) (rng : list nat) :
  1 ≤ width → 1 ≤ height →
  ∃ m, generated width height (__call__ width height rng) = Some m
       ∧ one_component m
       ∧ spanning_tree (_ensure_odd width height).1
                       (_ensure_odd width height).2 m.
Proof.
  intros Hw Hh.
  destruct (dfs_call_run width height rng Hw Hh)
    as (out & r' & V & W & Hrun & Hg & Hall & Hout & Hperm).
  pose proof (force_odd_spec width Hw) as Hw'.
  pose proof (force_odd_spec height Hh) as Hh'.
  destruct (carved_passages width height (__call__ width height rng))
    as (m & Hgen & _ & _ & Hpass); [lia|lia| |].
  { rewrite Hrun. simpl. apply Forall_forall. intros e He.
    rewrite Forall_forall in Hout. split; [by apply Hout|].
    eapply (grown_inside _ _ width height V W); [exact Hg| | |].
    - unfold _ensure_odd. simpl in *. lia.
    - unfold _ensure_odd. simpl in *. lia.
    - rewrite Hperm. by apply list_elem_of_fmap_2. }
  rewrite Hrun in Hpass. simpl in Hpass.
  assert (spanning_tree (_ensure_odd width height).1
                        (_ensure_odd width height).2 m) as Htree.
  { apply (grown_spanning_tree _ _ V W); [| |done|done|].
    - unfold _ensure_odd. simpl in *. lia.
    - unfold _ensure_odd. simpl in *. lia.
    - intros c. by rewrite Hpass, Hperm. }
  exists m. split_and!; [done| |done]. by destruct Htree as (_ & _ & ? & _).
Qed.

End DFSBacktrackerProofs.

Module DFSBacktrackerExamples.
Import DFSBacktracker LatticeProofs.

Lemma dfs_backtracker_runs_witness :
  (__call__ 5 5 [3; 1; 4; 1; 5; 9; 2; 6]%nat).2 = Ok tt
  ∧ Forall (λ e : Edit, e.2 = 1 ∧ 0 ≤ e.1.1 < 5 ∧ 0 ≤ e.1.2 < 5)
           (__call__ 5 5 [3; 1; 4; 1; 5; 9; 2; 6]%nat).1.1
  ∧ NoDup (__call__ 5 5 [3; 1; 4; 1; 5; 9; 2; 6]%nat).1.1
  ∧ Z.of_nat (length (__call__ 5 5 [3; 1; 4; 1; 5; 9; 2; 6]%nat).1.1)
    = 2 * cells_count (_ensure_odd 5 5).1 (_ensure_odd 5 5).2 - 1.
Proof.
  apply (DFSBacktrackerProofs.dfs_backtracker_runs 5 5
           [3; 1; 4; 1; 5; 9; 2; 6]%nat); lia.
Defined.

Lemma dfs_backtracker_spanning_tree_witness :
  ∃ m, generated 6 4 (__call__ 6 4 [2; 7; 1; 8; 2; 8]%nat) = Some m
       ∧ one_component m
       ∧ spanning_tree (_ensure_odd 6 4).1 (_ensure_odd 6 4).2 m.
Proof.
  apply (DFSBacktrackerProofs.dfs_backtracker_spanning_tree 6 4
           [2; 7; 1; 8; 2; 8]%nat); lia.
Defined.

(** A run on the 5 by 5 grid: 9 cells and the 8 walls between them. *)
Example dfs_backtracker_5x5 :
  Maze.grid <$> generated 5 5 (__call__ 5 5 [3; 1; 4; 1; 5; 9; 2; 6]%nat)
  = Some [[1; 0; 1; 1; 1]; [1; 0; 1; 0; 1]; [1; 0; 1; 0; 1];
          [1; 0; 1; 0; 1]; [1; 1; 1; 0; 1]]
  ∧ length (__call__ 5 5 [3; 1; 4; 1; 5; 9; 2; 6]%nat).1.1 = 17%nat.
Proof. split; vm_compute; reflexivity. Qed.

End DFSBacktrackerExamples.


(** ** Prim's Algorithm *)

Module PrimProofs.
Import Prim GenProofs RunProofs LatticeProofs.

Lemma randrange_cases n r :
  0 < n → ∃ i r', randrange n r = ([], r', Ok i) ∧ 0 ≤ i < n.
Proof.
  intros Hn. unfold randrange. rewrite bool_decide_eq_false_2 by lia.
  destruct r as [|k r].
  - exists 0, []. split; [done|lia].
  - exists (Z.of_nat k `mod` n), r. split; [done|].
    by apply Z.mod_pos_bound.
Qed.

Lemma pop_inside {A} (l : list A) (i : Z) :
  0 ≤ i < Z.of_nat (length l) →
  ∃ a, l !! Z.to_nat i = Some a ∧ pop l i = Ok (a, delete (Z.to_nat i) l).
Proof.
  intros Hi. unfold pop, py_index.
  rewrite bool_decide_eq_true_2 by lia. simpl.
  destruct (l !! Z.to_nat i) as [a|] eqn:Hl.
  - exists a. done.
  - apply lookup_ge_None in Hl. lia.
Qed.

Lemma elem_of_delete_ne {A} (l : list A) (i : nat) (a x : A) :
  l !! i = Some a → x ∈ l → x ≠ a → x ∈ delete i l.
Proof.
  intros Hl Hx Hne.
  rewrite <- (take_drop_middle l i a Hl) in Hx.
  rewrite delete_take_drop.
  apply elem_of_app in Hx as [Hx|Hx]; apply elem_of_app; [by left|].
  apply elem_of_cons in Hx as [->|Hx]; [done|by right].
Qed.

Lemma elem_of_delete_sub {A} (l : list A) (i : nat) (x : A) :
  x ∈ delete i l → x ∈ l.
Proof.
  intros Hx. eapply elem_of_sublist; [done|apply sublist_delete].
Qed.

Section growing.
Variables w h : Z.

(** The entries [add_frontiers(x, y)] appends: one for each cell a move
    away that is inside the grid and not visited, with the wall in
    between. *)
Definition new_frontiers (V : list Node) (x y : Z) : list Frontier :=
  (λ d : Z * Z, (x + d.1 `div` 2, y + d.2 `div` 2, x + d.1, y + d.2))
  <$> filter (λ d : Z * Z,
                (0 ≤ x + d.1 < w ∧ 0 ≤ y + d.2 < h) ∧ (x + d.1, y + d.2) ∉ V)
             _MOVES.

Lemma fold_frontiers vis V x y (ds : list (Z * Z)) (acc : list Frontier) :
  vis_ok w h vis V →
  foldl (λ (acc : Res (list Frontier)) (d : Z * Z),
           frontiers ← acc;
           let nx := x + d.1 in
           let ny := y + d.2 in
           if bool_decide (0 ≤ nx < w ∧ 0 ≤ ny < h)
           then
             seen ← is_visited vis nx ny;
             if seen : bool then mret frontiers
             else mret (frontiers
                          ++ [(x + d.1 `div` 2, y + d.2 `div` 2, nx, ny)])
           else mret frontiers)
        (Ok acc) ds
  = Ok (acc
        ++ ((λ d : Z * Z, (x + d.1 `div` 2, y + d.2 `div` 2, x + d.1, y + d.2))
            <$> filter (λ d : Z * Z,
                          (0 ≤ x + d.1 < w ∧ 0 ≤ y + d.2 < h)
                          ∧ (x + d.1, y + d.2) ∉ V) ds)).
Proof.
  intros Hvis. revert acc. induction ds as [|d ds IH]; intros acc.
  { simpl. by rewrite app_nil_r. }
  rewrite filter_cons. cbn [foldl]. simpl.
  case_bool_decide as Hin.
  - rewrite (is_visited_ok w h vis V) by (done || lia). simpl.
    case_bool_decide as HV.
    + rewrite decide_False by tauto. apply IH.
    + rewrite decide_True by tauto. rewrite IH, fmap_cons.
      by rewrite <- app_assoc.
  - rewrite decide_False by tauto. apply IH.
Qed.

Lemma add_frontiers_ok vis V frontiers x y :
  vis_ok w h vis V →
  add_frontiers w h vis frontiers x y = Ok (frontiers ++ new_frontiers V x y).
Proof.
  intros Hvis. unfold add_frontiers, new_frontiers.
  by rewrite (fold_frontiers vis V).
Qed.

Lemma length_new_frontiers V x y : (length (new_frontiers V x y) ≤ 4)%nat.
Proof.
  unfold new_frontiers. rewrite length_fmap.
  etrans; [apply length_filter|]. done.
Qed.

(** A frontier entry that is as it should be: the target is a cell a
    move away from a visited cell, with the wall in between. *)
Definition frontier_ok (V : list Node) (f : Frontier) : Prop :=
  ∃ v, v ∈ V ∧ cell w h (f.1.2, f.2) ∧ two_step v (f.1.2, f.2)
       ∧ (f.1.1.1, f.1.1.2) = mid v (f.1.2, f.2).

Lemma new_frontiers_ok V x y f :
  cell w h (x, y) → (x, y) ∈ V → f ∈ new_frontiers V x y → frontier_ok V f.
Proof.
  intros (Hx & Hy & Hxm & Hym) HV. simpl in *.
  unfold new_frontiers, _MOVES.
  intros (d & -> & [[Hb Hn] Hd]%list_elem_of_filter)%list_elem_of_fmap.
  exists (x, y). unfold cell, two_step, mid. simpl.
  split; [done|].
  rewrite !elem_of_cons, elem_of_nil in Hd.
  destruct Hd as [->|[->|[->|[->|[]]]]]; cbn [fst snd] in *;
    split_and!; try lia; try (Z.div_mod_to_equations; lia);
    f_equal; Z.div_mod_to_equations; lia.
Qed.

Lemma new_frontiers_complete V x y n :
  cell w h n → two_step (x, y) n → n ∉ V →
  ∃ wx wy, (wx, wy, n.1, n.2) ∈ new_frontiers V x y.
Proof.
  intros (Hnx & Hny & _ & _) Hs HV. destruct n as [nx ny].
  unfold two_step in Hs. simpl in *.
  assert (∃ d, d ∈ _MOVES ∧ nx = x + d.1 ∧ ny = y + d.2) as (d & Hd & -> & ->).
  { unfold _MOVES.
    assert (nx = x + 2 ∧ ny = y + 0 ∨ nx = x + -2 ∧ ny = y + 0
            ∨ nx = x + 0 ∧ ny = y + 2 ∨ nx = x + 0 ∧ ny = y + -2)
      as [[-> ->]|[[-> ->]|[[-> ->]|[-> ->]]]] by lia;
      [exists (2, 0)|exists (-2, 0)|exists (0, 2)|exists (0, -2)];
      (split; [|done]); rewrite !elem_of_cons; auto. }
  exists (x + d.1 `div` 2), (y + d.2 `div` 2).
  unfold new_frontiers. apply list_elem_of_fmap.
  exists d. split; [done|]. by apply list_elem_of_filter.
Qed.

Lemma frontier_ok_mono V V' f :
  (∀ c, c ∈ V → c ∈ V') → frontier_ok V f → frontier_ok V' f.
Proof. intros HV (v & Hv & ?). exists v. auto. Qed.

(** What holds at the head of the [while] loop: the carved cells and
    walls form a tree, [visited] marks its cells, every frontier entry
    leads from a visited cell to a cell a move away, and every unvisited
    cell a move away from a visited one is the target of an entry. *)
Record prim_inv (V W : list Node) (vis : list (list bool))
    (frontiers : list Frontier) : Prop := mk_prim_inv {
  p_grown : grown w h V W;
  p_vis : vis_ok w h vis V;
  p_entries : ∀ f, f ∈ frontiers → frontier_ok V f;
  p_complete : ∀ c n, c ∈ V → cell w h n → two_step c n → n ∉ V →
               ∃ wx wy, (wx, wy, n.1, n.2) ∈ frontiers
}.

Lemma grow_spec fuel V W vis frontiers r :
  prim_inv V W vis frontiers →
  (length frontiers + 4 * (DFSBacktrackerProofs.N w h - length V) < fuel)%nat →
  ∃ out r' V' W',
    grow fuel w h vis frontiers r = (out, r', Ok tt)
    ∧ grown w h V' W' ∧ (∀ c, cell w h c → c ∈ V')
    ∧ Forall (λ e : Edit, e.2 = 1) out
    ∧ V' ++ W' ≡ₚ (V ++ W) ++ out.*1.
Proof.
  revert V W vis frontiers r.
  induction fuel as [|fuel IH]; intros V W vis frontiers r Hinv Hfuel; [lia|].
  destruct Hinv as [Hg Hvis Hentries Hcomplete].
  cbn [grow]. case_bool_decide as Hempty.
  { subst frontiers. exists [], r, V, W.
    split_and!; [done|done| |done|by rewrite app_nil_r].
    apply (closed_all w h (λ c, c ∈ V)); [apply (g_origin _ _ _ _ Hg)|].
    intros c n Hc _ Hn Hs. destruct (decide (n ∈ V)) as [|HnV]; [done|].
    destruct (Hcomplete c n Hc Hn Hs HnV) as (wx & wy & Hin).
    by apply elem_of_nil in Hin. }
  destruct (randrange_cases (Z.of_nat (length frontiers)) r)
    as (i & r1 & Hrand & Hi).
  { destruct frontiers; [done|simpl; lia]. }
  rewrite (gbind_ok _ _ _ _ _ _ Hrand).
  destruct (pop_inside frontiers i Hi) as ([[[wx wy] nx] ny] & Hf & Hpop).
  rewrite Hpop, glift_bind. cbn [app].
  assert ((wx, wy, nx, ny) ∈ frontiers) as Hfin
    by (by eapply list_elem_of_lookup_2).
  destruct (Hentries _ Hfin) as (v & Hv & Hncell & Hstep & Hwall).
  simpl in Hncell, Hstep, Hwall.
  rewrite (is_visited_ok w h vis V) by (done || by destruct Hncell as (?&?&_)).
  rewrite glift_bind.
  assert (length (delete (Z.to_nat i) frontiers) = (length frontiers - 1)%nat)
    as Hlen by (apply length_delete; eauto).
  case_bool_decide as Hseen.
  - (* the target has been reached in the meantime *)
    destruct (IH V W vis (delete (Z.to_nat i) frontiers) r1)
      as (out & r' & V' & W' & Hrun & HgV & Hall & Hout & Hperm); [|lia|].
    { split; [done|done| |].
      + intros f Hin%elem_of_delete_sub. by apply Hentries.
      + intros c n Hc Hn Hs HnV.
        destruct (Hcomplete c n Hc Hn Hs HnV) as (wx' & wy' & Hin).
        exists wx', wy'. eapply elem_of_delete_ne; [done..|].
        intros [= _ _ ? ?]. apply HnV. destruct n. simpl in *. by subst. }
    rewrite Hrun. by exists out, r', V', W'.
  - (* carve the wall and the target *)
    destruct (mark_visited_ok w h vis V nx ny Hvis) as (vis' & Hmark & Hvis');
      [by destruct Hncell as (? & ? & _)..|].
    rewrite Hmark, glift_bind, !gyield_bind.
    rewrite (add_frontiers_ok vis' (V ++ [(nx, ny)])) by done.
    rewrite glift_bind.
    assert (grown w h (V ++ [(nx, ny)]) (W ++ [mid v (nx, ny)])) as Hg'
      by (by apply grown_step).
    pose proof (DFSBacktrackerProofs.grown_length _ _ _ _ Hg') as HlenV.
    rewrite length_app in HlenV. simpl in HlenV.
    pose proof (length_new_frontiers (V ++ [(nx, ny)]) nx ny) as Hnew.
    destruct (IH (V ++ [(nx, ny)]) (W ++ [mid v (nx, ny)]) vis'
                 (delete (Z.to_nat i) frontiers
                  ++ new_frontiers (V ++ [(nx, ny)]) nx ny) r1)
      as (out & r' & V' & W' & Hrun & HgV & Hall & Hout & Hperm).
    + split; [done|done| |].
      * intros f [Hin%elem_of_delete_sub|Hin]%elem_of_app.
        -- eapply frontier_ok_mono; [|by apply Hentries].
           intros c Hc. apply elem_of_app. by left.
        -- eapply new_frontiers_ok; [done| |done].
           apply elem_of_app. right. left.
      * intros c n [Hc|Hc%list_elem_of_singleton]%elem_of_app Hn Hs HnV.
        -- destruct (Hcomplete c n Hc Hn Hs) as (wx' & wy' & Hin).
           { intros HV. apply HnV, elem_of_app. by left. }
           exists wx', wy'. apply elem_of_app. left.
           eapply elem_of_delete_ne; [done..|].
           intros [= _ _ ? ?]. apply HnV, elem_of_app. right.
           destruct n. simpl in *. subst. left.
        -- subst c.
           destruct (new_frontiers_complete (V ++ [(nx, ny)]) nx ny n)
             as (wx' & wy' & Hin); [done..|].
           exists wx', wy'. apply elem_of_app. by right.
    + rewrite !length_app. simpl. lia.
    + rewrite Hrun.
      exists ((wx, wy, 1) :: (nx, ny, 1) :: out), r', V', W'.
      split_and!; [done|done|done|by repeat constructor|].
      rewrite Hperm, perm_grow. simpl. by rewrite Hwall.
Qed.

End growing.

(** The run of [__call__], whatever the draws. *)
Lemma prim_call_run width height r :
  1 ≤ width → 1 ≤ height →
  ∃ out r' V W,
    __call__ width height r = (out, r', Ok tt)
    ∧ grown (_force_odd width height).1 (_force_odd width height).2 V W
    ∧ (∀ c, cell (_force_odd width height).1 (_force_odd width height).2 c
            → c ∈ V)
    ∧ Forall (λ e : Edit, e.2 = 1) out
    ∧ V ++ W ≡ₚ out.*1.
Proof.
  intros Hw Hh.
  pose proof (force_odd_spec width Hw) as Hw'.
  pose proof (force_odd_spec height Hh) as Hh'.
  unfold __call__, _force_odd. simpl in *.
  set (w := if bool_decide (width `mod` 2 = 0) then width - 1 else width) in *.
  set (h := if bool_decide (height `mod` 2 = 0) then height - 1 else height)
    in *.
  destruct (mark_visited_ok w h _ [] 0 0 (vis_ok_init w h))
    as (vis & Hmark & Hvis); [lia..|].
  rewrite Hmark, glift_bind, gyield_bind. simpl in Hvis.
  rewrite (add_frontiers_ok w h vis [(0, 0)]) by done.
  rewrite glift_bind. rewrite app_nil_l.
  assert (cell w h (0, 0)) as Horigin.
  { unfold cell. simpl. Z.div_mod_to_equations. lia. }
  destruct (grow_spec w h (Z.to_nat (4 * w * h) + 1) [(0, 0)] [] vis
              (new_frontiers w h [(0, 0)] 0 0) r)
    as (out & r' & V & W & Hrun & Hg & Hall & Hout & Hperm).
  - split; [apply grown_init; lia|done| |].
    + intros f Hf. eapply new_frontiers_ok; [done|left|done].
    + intros c n ->%list_elem_of_singleton Hn Hs HnV.
      by apply new_frontiers_complete.
  - pose proof (DFSBacktrackerProofs.cells_count_le w h) as Hc.
    pose proof (length_lattice_cells w h) as HN.
    pose proof (length_new_frontiers w h [(0, 0)] 0 0).
    unfold DFSBacktrackerProofs.N. simpl. lia.
  - rewrite Hrun. exists ((0, 0, 1) :: out), r', V, W.
    split_and!; [done..|by constructor|by rewrite Hperm].
Qed.

(** Prim's Algorithm never fails.  For every width and height of at
    least 1 and every outcome of the random choices the run ends by
    exhaustion, with no exception; every edit carves (its value is 1) a
    cell inside the grid that has not been carved before, and the number
    of edits is twice the number of lattice cells of the forced
    dimensions, less one. *)
Theorem prim_runs (width height : Z) (rng : list nat) :
  1 ≤ width → 1 ≤ height →
  (__call__ width height rng).2 = Ok tt
  ∧ Forall (λ e : Edit, e.2 = 1 ∧ 0 ≤ e.1.1 < width ∧ 0 ≤ e.1.2 < height)
           (__call__ width height rng).1.1
  ∧ NoDup (__call__ width height rng).1.1
  ∧ Z.of_nat (length (__call__ width height rng).1.1)
    = 2 * cells_count (_force_odd width height).1
                      (_force_odd width height).2 - 1.
Proof.
  intros Hw Hh.
  destruct (prim_call_run width height rng Hw Hh)
    as (out & r' & V & W & -> & Hg & Hall & Hout & Hperm).
  pose proof (force_odd_spec width Hw) as Hw'.
  pose proof (force_odd_spec height Hh) as Hh'.
  pose proof (DFSBacktrackerProofs.grown_cells _ _ _ _ Hg Hall) as HV.
  unfold _force_odd in *. simpl in *.
  set (w := if bool_decide (width `mod` 2 = 0) then width - 1 else width) in *.
  set (h := if bool_decide (height `mod` 2 = 0) then height - 1 else height)
    in *.
  assert (NoDup out.*1) as Hnd by (rewrite <- Hperm; apply (g_nodup _ _ _ _ Hg)).
  split_and!; [done| | |].
  - apply Forall_forall. intros e He. rewrite Forall_forall in Hout.
    split; [by apply Hout|].
    apply (DFSBacktrackerProofs.grown_inside w h width height V W);
      [done|lia|lia|].
    rewrite Hperm. by apply list_elem_of_fmap_2.
  - by apply NoDup_fmap_1 in Hnd.
  - rewrite <- (length_fmap fst), <- Hperm, length_app.
    pose proof (g_count _ _ _ _ Hg) as Hcount.
    rewrite <- (length_lattice_cells w h) by lia. rewrite <- HV. lia.
Qed.

(** Prim's Algorithm builds a perfect maze.  For every width and height
    of at least 1 and every outcome of the random choices, the passages of
    the grid the edits leave are one connected component, and they are a
    spanning tree of the lattice of the forced dimensions. *)
Theorem prim_spanning_tree (width height : Z) (rng : list nat) :
  1 ≤ width → 1 ≤ height →
  ∃ m, generated width height (__call__ width height rng) = Some m
       ∧ one_component m
       ∧ spanning_tree (_force_odd width height).1
                       (_force_odd width height).2 m.
Proof.
  intros Hw Hh.
  destruct (prim_call_run width height rng Hw Hh)
    as (out & r' & V & W & Hrun & Hg & Hall & Hout & Hperm).
  pose proof (force_odd_spec width Hw) as Hw'.
  pose proof (force_odd_spec height Hh) as Hh'.
  destruct (carved_passages width height (__call__ width height rng))
    as (m & Hgen & _ & _ & Hpass); [lia|lia| |].
  { rewrite Hrun. simpl. apply Forall_forall. intros e He.
    rewrite Forall_forall in Hout. split; [by apply Hout|].
    eapply (DFSBacktrackerProofs.grown_inside _ _ width height V W);
      [exact Hg| | |].
    - unfold _force_odd. simpl in *. lia.
    - unfold _force_odd. simpl in *. lia.
    - rewrite Hperm. by apply list_elem_of_fmap_2. }
  rewrite Hrun in Hpass. simpl in Hpass.
  assert (spanning_tree (_force_odd width height).1
                        (_force_odd width height).2 m) as Htree.
  { apply (grown_spanning_tree _ _ V W); [| |done|done|].
    - unfold _force_odd. simpl in *. lia.
    - unfold _force_odd. simpl in *. lia.
    - intros c. by rewrite Hpass, Hperm. }
  exists m. split_and!; [done| |done]. by destruct Htree as (_ & _ & ? & _).
Qed.

Lemma prim_runs_witness :
  (__call__ 5 5 [3; 1; 4; 1; 5; 9; 2; 6]%nat).2 = Ok tt
  ∧ Forall (λ e : Edit, e.2 = 1 ∧ 0 ≤ e.1.1 < 5 ∧ 0 ≤ e.1.2 < 5)
           (__call__ 5 5 [3; 1; 4; 1; 5; 9; 2; 6]%nat).1.1
  ∧ NoDup (__call__ 5 5 [3; 1; 4; 1; 5; 9; 2; 6]%nat).1.1
  ∧ Z.of_nat (length (__call__ 5 5 [3; 1; 4; 1; 5; 9; 2; 6]%nat).1.1)
    = 2 * cells_count (_force_odd 5 5).1 (_force_odd 5 5).2 - 1.
Proof. apply (prim_runs 5 5 [3; 1; 4; 1; 5; 9; 2; 6]%nat); lia. Defined.

Lemma prim_spanning_tree_witness :
  ∃ m, generated 6 4 (__call__ 6 4 [2; 7; 1; 8; 2; 8]%nat) = Some m
       ∧ one_component m
       ∧ spanning_tree (_force_odd 6 4).1 (_force_odd 6 4).2 m.
Proof. apply (prim_spanning_tree 6 4 [2; 7; 1; 8; 2; 8]%nat); lia. Defined.

(** A run on the 5 by 5 grid. *)
Example prim_5x5 :
  Maze.grid <$> generated 5 5 (__call__ 5 5 [3; 1; 4; 1; 5; 9; 2; 6]%nat)
  = Some [[1; 0; 1; 1; 1]; [1; 0; 1; 0; 0]; [1; 1; 1; 1; 1];
          [1; 0; 1; 0; 0]; [1; 0; 1; 1; 1]]
  ∧ length (__call__ 5 5 [3; 1; 4; 1; 5; 9; 2; 6]%nat).1.1 = 17%nat.
Proof. split; vm_compute; reflexivity. Qed.

End PrimProofs.


(** ** Kruskal's union-find *)

Module UnionFindProofs.
Import _UnionFind.

(** [reach parent n c r]: following the parent links from [c] leads, in
    [n] steps, to the root [r], a node that is its own parent. *)
Inductive reach (parent : gmap Node Node) : nat → Node → Node → Prop :=
| reach_root r : parent !! r = Some r → reach parent 0 r r
| reach_up n c p r :
    parent !! c = Some p → p ≠ c → reach parent n p r →
    reach parent (S n) c r.

(** [c] belongs to the set whose representative is [r]. *)
Definition root_of (parent : gmap Node Node) (c r : Node) : Prop :=
  ∃ n, reach parent n c r.

(** Two nodes of one set. *)
Definition same_set (parent : gmap Node Node) (a b : Node) : Prop :=
  ∃ r, root_of parent a r ∧ root_of parent b r.

(** Every node of the dict belongs to a set: the links are free of
    cycles and never leave the dict. *)
Definition forest (parent : gmap Node Node) : Prop :=
  ∀ c, is_Some (parent !! c) → ∃ r, root_of parent c r.

Lemma reach_fun parent n c r n' r' :
  reach parent n c r → reach parent n' c r' → n = n' ∧ r = r'.
Proof.
  intros H. revert n' r'.
  induction H as [r Hr|n c p r Hc Hne Hp IH]; intros n' r' H'.
  - inversion H' as [|? ? p' ? Hc' Hne']; subst; [done|congruence].
  - inversion H' as [? Hr'|? ? p' ? Hc' Hne' Hp']; subst; [congruence|].
    assert (p' = p) as -> by congruence.
    destruct (IH _ _ Hp') as [-> ->]. done.
Qed.

Lemma root_of_fun parent c r r' :
  root_of parent c r → root_of parent c r' → r = r'.
Proof. intros [n H] [n' H']. by destruct (reach_fun _ _ _ _ _ _ H H'). Qed.

Lemma reach_is_root parent n c r : reach parent n c r → parent !! r = Some r.
Proof. induction 1; auto. Qed.

Lemma reach_lookup parent n c r : reach parent n c r → is_Some (parent !! c).
Proof. destruct 1; eauto. Qed.

Lemma root_of_root parent r : parent !! r = Some r → root_of parent r r.
Proof. intros Hr. exists 0%nat. by constructor. Qed.

(** The nodes on the way from [c] to its root are pairwise different, so
    the way is shorter than the dict is large. *)
Lemma reach_path parent n c r :
  reach parent n c r →
  ∃ l : list Node,
    length l = S n ∧ NoDup l
    ∧ ∀ x, x ∈ l → ∃ k, (k ≤ n)%nat ∧ reach parent k x r.
Proof.
  induction 1 as [r Hr|n c p r Hc Hne Hp (l & Hlen & Hnd & Hl)].
  - exists [r]. split_and!; [done|apply NoDup_singleton|].
    intros x ->%list_elem_of_singleton. exists 0%nat. split; [done|].
    by constructor.
  - exists (c :: l). split_and!; [simpl; lia| |].
    + apply NoDup_cons. split; [|done].
      intros (k & Hk & Hreach)%Hl.
      assert (reach parent (S n) c r) as Hc' by (by econstructor).
      destruct (reach_fun _ _ _ _ _ _ Hreach Hc') as [-> _]. lia.
    + intros x [->|Hx]%elem_of_cons.
      * exists (S n). split; [done|]. by econstructor.
      * destruct (Hl x Hx) as (k & Hk & Hreach). exists k. split; [lia|done].
Qed.

Lemma reach_bound parent n c r : reach parent n c r → (n < size parent)%nat.
Proof.
  intros (l & Hlen & Hnd & Hl)%reach_path.
  assert (length l ≤ size parent)%nat; [|lia].
  rewrite <- (size_list_to_set (C := gset Node) l Hnd), <- size_dom.
  apply subseteq_size. intros x Hx%elem_of_list_to_set.
  destruct (Hl x Hx) as (k & _ & Hreach). apply elem_of_dom.
  by eapply reach_lookup.
Qed.

(** *** Path halving *)

(** Pointing a node that is not a root at its grandparent keeps every
    node's root, and makes no way to a root longer. *)
Lemma halve_reach parent c p grand :
  parent !! c = Some p → p ≠ c → parent !! p = Some grand →
  is_Some (parent !! c) →
  ∀ n x r, reach parent n x r →
           ∃ n', (n' ≤ n)%nat ∧ reach (<[c := grand]> parent) n' x r.
Proof.
  intros Hc Hne Hp _ n.
  induction (lt_wf n) as [n _ IH]. intros x r Hreach.
  destruct Hreach as [r Hr|n x q r Hx Hneq Hq].
  - exists 0%nat. split; [done|]. constructor.
    rewrite lookup_insert_ne; [done|]. intros ->. congruence.
  - destruct (decide (x = c)) as [->|Hxc].
    + assert (q = p) as -> by congruence.
      (* the way from [c] now starts at the grandparent *)
      destruct Hq as [r Hr|n p q' r Hp' Hneq' Hq'].
      * assert (grand = r) as -> by congruence.
        exists 1%nat. split; [lia|].
        eapply reach_up; [by rewrite lookup_insert_eq|done|].
        constructor. by rewrite lookup_insert_ne.
      * assert (q' = grand) as -> by congruence.
        destruct (IH n ltac:(lia) grand r Hq') as (n' & Hn' & Hreach').
        exists (S n'). split; [lia|].
        eapply reach_up; [by rewrite lookup_insert_eq| |done].
        intros ->.
        assert (reach parent (S (S n)) c r) as Hcyc.
        { eapply reach_up; [exact Hc|done|].
          eapply reach_up; [exact Hp'|done|done]. }
        destruct (reach_fun _ _ _ _ _ _ Hq' Hcyc). lia.
    + destruct (IH n ltac:(lia) q r Hq) as (n' & Hn' & Hreach').
      exists (S n'). split; [lia|].
      eapply reach_up; [by rewrite lookup_insert_ne|done|done].
Qed.

(** [find]: on a node that has a root, [find] returns that root; it
    raises nothing, keeps the keys of the dict, and keeps the root of every
    node. *)
Lemma find_spec fuel parent c n r :
  reach parent n c r → (n < fuel)%nat →
  ∃ parent',
    find fuel parent c = Ok (r, parent')
    ∧ dom parent' = dom parent
    ∧ ∀ m x rx, reach parent m x rx →
                ∃ m', (m' ≤ m)%nat ∧ reach parent' m' x rx.
Proof.
  revert parent c n r.
  induction fuel as [|fuel IH]; intros parent c n r Hreach Hfuel; [lia|].
  cbn [find]. destruct Hreach as [r Hr|n c p r Hc Hne Hp].
  - rewrite Hr, bool_decide_eq_false_2 by (by intros []).
    exists parent. split_and!; [done..|]. intros m x rx Hx. by exists m.
  - rewrite Hc, bool_decide_eq_true_2 by done.
    destruct (reach_lookup _ _ _ _ Hp) as [grand Hgrand]. rewrite Hgrand.
    pose proof (halve_reach parent c p grand Hc Hne Hgrand ltac:(eauto))
      as Hhalve.
    assert (∃ k, (k ≤ n)%nat ∧ reach parent k grand r) as (k & Hk & Hg).
    { inversion Hp as [? Hr|k ? q ? Hp' Hneq Hq]; subst.
      - assert (grand = r) as -> by congruence.
        exists 0%nat. split; [lia|]. by constructor.
      - assert (q = grand) as -> by congruence. exists k. split; [lia|done]. }
    destruct (Hhalve _ _ _ Hg) as (k' & Hk' & Hg').
    destruct (IH _ _ _ _ Hg' ltac:(lia)) as (parent' & Hfind & Hdom & Hkeep).
    exists parent'. split_and!; [done| |].
    + rewrite Hdom. apply dom_insert_lookup_L. eauto.
    + intros m x rx Hx. destruct (Hhalve _ _ _ Hx) as (m1 & Hm1 & Hx1).
      destruct (Hkeep _ _ _ Hx1) as (m2 & Hm2 & Hx2).
      exists m2. split; [lia|done].
Qed.

(** *** Linking two roots *)

Lemma link_reach parent ra rb :
  parent !! ra = Some ra → parent !! rb = Some rb → ra ≠ rb →
  ∀ n x r, reach parent n x r →
           ∃ n', reach (<[rb := ra]> parent) n' x
                       (if decide (r = rb) then ra else r).
Proof.
  intros Hra Hrb Hne n x r Hreach.
  induction Hreach as [r Hr|n x p r Hx Hneq Hp [n' IH]].
  - destruct (decide (r = rb)) as [->|Hr'].
    + exists 1%nat. eapply reach_up; [by rewrite lookup_insert_eq|done|].
      constructor. by rewrite lookup_insert_ne.
    + exists 0%nat. constructor. by rewrite lookup_insert_ne.
  - exists (S n'). eapply reach_up; [|done|done].
    rewrite lookup_insert_ne; [done|]. intros ->. congruence.
Qed.

#[local] Opaque find.

(** [union(a, b)] on two nodes of the forest: it raises nothing and keeps
    the keys; when the nodes were in one set already it returns [False]
    and every node keeps its root; otherwise it returns [True], the root
    of [b] is no root any more, and the nodes of its set now have the root
    of [a], every other node keeping its root. *)
Lemma union_spec parent a b ra rb :
  root_of parent a ra → root_of parent b rb →
  ∃ parent',
    union parent a b = Ok (bool_decide (ra ≠ rb), parent')
    ∧ dom parent' = dom parent
    ∧ (∀ x r, root_of parent x r →
              root_of parent' x
                (if decide (ra ≠ rb ∧ r = rb) then ra else r))
    ∧ (ra ≠ rb → parent' !! rb = Some ra).
Proof.
  intros [na Ha] [nb Hb]. unfold union.
  destruct (find_spec (S (size parent)) parent a na ra Ha)
    as (p1 & Hfind1 & Hdom1 & Hkeep1).
  { pose proof (reach_bound _ _ _ _ Ha). lia. }
  rewrite Hfind1. simpl.
  destruct (Hkeep1 _ _ _ Hb) as (nb' & _ & Hb1).
  destruct (find_spec (S (size parent)) p1 b nb' rb Hb1)
    as (p2 & Hfind2 & Hdom2 & Hkeep2).
  { pose proof (reach_bound _ _ _ _ Hb1).
    rewrite <- !size_dom, Hdom1 in *. lia. }
  rewrite Hfind2. simpl.
  assert (∀ x r, root_of parent x r → root_of p2 x r) as Hkeep.
  { intros x r [m Hx]. destruct (Hkeep1 _ _ _ Hx) as (m1 & _ & Hx1).
    destruct (Hkeep2 _ _ _ Hx1) as (m2 & _ & Hx2). by exists m2. }
  case_bool_decide as Heq.
  - subst rb. rewrite bool_decide_eq_false_2 by (by intros []).
    exists p2. split_and!; [done|congruence| |done].
    intros x r Hx. rewrite decide_False by (by intros [[] _]). by apply Hkeep.
  - rewrite bool_decide_eq_true_2 by done.
    destruct (Hkeep a ra) as [ma Ha2]; [by exists na|].
    destruct (Hkeep b rb) as [mb Hb2]; [by exists nb|].
    pose proof (reach_is_root _ _ _ _ Ha2) as Hra.
    pose proof (reach_is_root _ _ _ _ Hb2) as Hrb.
    exists (<[rb := ra]> p2). split_and!; [done| | |].
    + rewrite dom_insert_lookup_L by eauto. congruence.
    + intros x r [m Hx]%Hkeep.
      destruct (link_reach p2 ra rb Hra Hrb Heq _ _ _ Hx) as [m' Hx'].
      exists m'. destruct (decide (r = rb)) as [->|Hr].
      * by rewrite decide_True.
      * by rewrite decide_False by (by intros [_ ?]).
    + intros _. by rewrite lookup_insert_eq.
Qed.

Lemma find_missing fuel parent c :
  parent !! c = None → find (S fuel) parent c = Raise KeyError.
Proof.
  intros Hc. Transparent find. cbn [find]. Opaque find. by rewrite Hc.
Qed.

(** What one [union] does to the sets: [ra] and [rb] are the
    representatives of [a] and [b] before the call. *)
Lemma union_step parent a b :
  forest parent → is_Some (parent !! a) → is_Some (parent !! b) →
  ∃ ra rb parent',
    root_of parent a ra ∧ root_of parent b rb
    ∧ union parent a b = Ok (bool_decide (ra ≠ rb), parent')
    ∧ forest parent' ∧ dom parent' = dom parent
    ∧ (∀ r, root_of parent' r r ↔ root_of parent r r ∧ ¬ (ra ≠ rb ∧ r = rb))
    ∧ ∀ x y, is_Some (parent !! x) → is_Some (parent !! y) →
        (same_set parent' x y
         ↔ same_set parent x y
           ∨ (same_set parent x a ∧ same_set parent y b)
           ∨ (same_set parent x b ∧ same_set parent y a)).
Proof.
  intros Hforest Ha Hb.
  destruct (Hforest a Ha) as [ra Hra], (Hforest b Hb) as [rb Hrb].
  destruct (union_spec parent a b ra rb Hra Hrb)
    as (parent' & Hunion & Hdom & Hroots & Hlink).
  exists ra, rb, parent'.
  assert (∀ x r, same_set parent x a → root_of parent x r → r = ra) as Hwa.
  { intros x r (r' & Hx & Ha') Hr.
    rewrite (root_of_fun _ _ _ _ Hr Hx). by eapply root_of_fun. }
  assert (∀ x r, same_set parent x b → root_of parent x r → r = rb) as Hwb.
  { intros x r (r' & Hx & Hb') Hr.
    rewrite (root_of_fun _ _ _ _ Hr Hx). by eapply root_of_fun. }
  assert (root_of parent ra ra) as Hrara.
  { destruct Hra as [n Hn]. by eapply root_of_root, reach_is_root. }
  assert (root_of parent rb rb) as Hrbrb.
  { destruct Hrb as [n Hn]. by eapply root_of_root, reach_is_root. }
  split_and!; [done|done|done| |done| |].
  - intros c Hc.
    assert (is_Some (parent !! c)) as Hc'.
    { apply elem_of_dom. rewrite <- Hdom. by apply elem_of_dom. }
    destruct (Hforest c Hc') as [r Hr]. eexists. by apply Hroots.
  - intros r. split.
    + intros Hr.
      assert (is_Some (parent !! r)) as Hr'.
      { apply elem_of_dom. rewrite <- Hdom. apply elem_of_dom.
        destruct Hr as [n Hn]. by eapply reach_lookup. }
      destruct (Hforest r Hr') as [r0 Hr0].
      pose proof (root_of_fun _ _ _ _ Hr (Hroots _ _ Hr0)) as Heq.
      destruct (decide (ra ≠ rb ∧ r0 = rb)) as [[Hne ->]|Hn].
      * subst r. pose proof (root_of_fun _ _ _ _ Hr0 Hrara). by subst.
      * subst r0. split; [done|]. intros [? ->]. by apply Hn.
    + intros [Hr Hn]. pose proof (Hroots _ _ Hr) as Hr'.
      by destruct (decide (ra ≠ rb ∧ r = rb)).
  - intros x y Hx Hy.
    destruct (Hforest x Hx) as [rx Hrx], (Hforest y Hy) as [ry Hry].
    pose proof (Hroots _ _ Hrx) as Hrx'. pose proof (Hroots _ _ Hry) as Hry'.
    split.
    + intros (r & Hxr & Hyr).
      pose proof (root_of_fun _ _ _ _ Hxr Hrx') as Hr1.
      pose proof (root_of_fun _ _ _ _ Hyr Hry') as Hr2.
      destruct (decide (ra ≠ rb ∧ rx = rb)) as [[Hne ->]|Hn1],
               (decide (ra ≠ rb ∧ ry = rb)) as [[Hne' ->]|Hn2]; subst r.
      * left. by exists rb.
      * subst ry. right. right. split; [by exists rb|by exists ra].
      * subst rx. right. left. split; [by exists ra|by exists rb].
      * subst ry. left. by exists rx.
    + intros [Hsame|[[Hxa Hyb]|[Hxb Hya]]].
      * destruct Hsame as (r & Hxr & Hyr).
        rewrite (root_of_fun _ _ _ _ Hrx Hxr) in Hrx'.
        rewrite (root_of_fun _ _ _ _ Hry Hyr) in Hry'.
        eexists. split; [exact Hrx'|exact Hry'].
      * rewrite (Hwa x rx Hxa Hrx) in Hrx'. rewrite (Hwb y ry Hyb Hry) in Hry'.
        exists ra. split.
        -- destruct (decide (ra ≠ rb ∧ ra = rb)) as [[? ?]|?]; done.
        -- destruct (decide (ra ≠ rb ∧ rb = rb)) as [[? ?]|Hn]; [done|].
           destruct (decide (ra = rb)) as [->|?]; [done|]. by destruct Hn.
      * rewrite (Hwb x rx Hxb Hrx) in Hrx'. rewrite (Hwa y ry Hya Hry) in Hry'.
        exists ra. split.
        -- destruct (decide (ra ≠ rb ∧ rb = rb)) as [[? ?]|Hn]; [done|].
           destruct (decide (ra = rb)) as [->|?]; [done|]. by destruct Hn.
        -- destruct (decide (ra ≠ rb ∧ ra = rb)) as [[? ?]|?]; done.
Qed.

(** [_UnionFind.union] on a dict whose links form a forest, for two of
    its nodes: no exception, the same keys, again a forest; the result is
    [True] exactly when the two nodes were in different sets, and
    afterwards two nodes are in one set exactly when they were before or
    when one was with [a] and the other with [b]. *)
Theorem union_merges (parent : gmap Node Node) (a b : Node) :
  forest parent → is_Some (parent !! a) → is_Some (parent !! b) →
  ∃ merged parent',
    union parent a b = Ok (merged, parent')
    ∧ (merged = true ↔ ¬ same_set parent a b)
    ∧ forest parent' ∧ dom parent' = dom parent
    ∧ ∀ x y, is_Some (parent !! x) → is_Some (parent !! y) →
        (same_set parent' x y
         ↔ same_set parent x y
           ∨ (same_set parent x a ∧ same_set parent y b)
           ∨ (same_set parent x b ∧ same_set parent y a)).
Proof.
  intros Hforest Ha Hb.
  destruct (union_step parent a b Hforest Ha Hb)
    as (ra & rb & parent' & Hra & Hrb & Hunion & Hf & Hdom & _ & Hsets).
  exists (bool_decide (ra ≠ rb)), parent'.
  split_and!; [done| |done..].
  rewrite bool_decide_eq_true. split.
  - intros Hne (r & Har & Hbr). apply Hne.
    rewrite (root_of_fun _ _ _ _ Hra Har). by eapply root_of_fun.
  - intros Hns ->. apply Hns. by exists rb.
Qed.

(** [union] on a node that is no key of the dict. *)
Lemma union_missing parent a b :
  parent !! a = None → union parent a b = Raise KeyError.
Proof. intros Ha. unfold union. by rewrite find_missing. Qed.

(** Three nodes, [(2, 0)] linked below [(0, 0)]. *)
Definition small_forest : gmap Node Node :=
  {[ (0, 0) := (0, 0); (2, 0) := (0, 0); (0, 2) := (0, 2) ]}.

Lemma small_forest_forest : forest small_forest.
Proof.
  intros c [p Hc]. unfold small_forest in Hc.
  apply lookup_insert_Some in Hc as [[<- <-]|[_ Hc]].
  { exists (0, 0), 0%nat. by constructor. }
  apply lookup_insert_Some in Hc as [[<- <-]|[_ Hc]].
  { exists (0, 0), 1%nat. eapply reach_up; [done|done|by constructor]. }
  apply lookup_singleton_Some in Hc as [<- <-].
  exists (0, 2), 0%nat. by constructor.
Qed.

Lemma union_merges_witness :
  ∃ merged parent',
    union small_forest (2, 0) (0, 2) = Ok (merged, parent')
    ∧ (merged = true ↔ ¬ same_set small_forest (2, 0) (0, 2))
    ∧ forest parent' ∧ dom parent' = dom small_forest
    ∧ ∀ x y, is_Some (small_forest !! x) → is_Some (small_forest !! y) →
        (same_set parent' x y
         ↔ same_set small_forest x y
           ∨ (same_set small_forest x (2, 0) ∧ same_set small_forest y (0, 2))
           ∨ (same_set small_forest x (0, 2)
              ∧ same_set small_forest y (2, 0))).
Proof.
  apply (union_merges small_forest (2, 0) (0, 2) small_forest_forest);
    vm_compute; eauto.
Defined.

End UnionFindProofs.


(** ** Randomised Kruskal *)

Module KruskalProofs.
Import GenProofs RunProofs LatticeProofs UnionFindProofs Kruskal.

(** *** [random.shuffle] *)

Lemma swap_perm {A} (l : list A) (i j : nat) : swap l i j ≡ₚ l.
Proof.
  unfold swap.
  destruct (l !! i) as [a|] eqn:Hi; [|done].
  destruct (l !! j) as [b|] eqn:Hj; [|done].
  symmetry. apply Permutation_inj. split.
  { by rewrite !length_insert. }
  exists (λ k, if decide (k = i) then j else if decide (k = j) then i else k).
  split.
  - intros k1 k2. repeat destruct (decide _); congruence.
  - intros k.
    pose proof (lookup_lt_Some _ _ _ Hi). pose proof (lookup_lt_Some _ _ _ Hj).
    destruct (decide (k = i)) as [->|Hki].
    + destruct (decide (j = i)) as [->|Hji].
      * rewrite list_lookup_insert_eq by (by rewrite length_insert). congruence.
      * rewrite list_lookup_insert_ne by done.
        by rewrite list_lookup_insert_eq.
    + destruct (decide (k = j)) as [->|Hkj].
      * by rewrite list_lookup_insert_eq by (by rewrite length_insert).
      * by rewrite !list_lookup_insert_ne.
Qed.

Lemma shuffle_from_perm {A} (i : nat) (x : list A) r :
  ∃ x' r', shuffle_from i x r = ([], r', Ok x') ∧ x' ≡ₚ x.
Proof.
  revert x r. induction i as [|i IH]; intros x r.
  { by exists x, r. }
  cbn [shuffle_from].
  destruct (PrimProofs.randrange_cases (Z.of_nat (S i) + 1) r) as (j & r1 & Hj & _);
    [lia|].
  rewrite (gbind_ok _ _ _ _ _ _ Hj).
  destruct (IH (swap x (S i) (Z.to_nat j)) r1) as (x' & r' & -> & Hperm).
  exists x', r'. split; [done|]. by rewrite Hperm, swap_perm.
Qed.

Lemma shuffle_perm {A} (x : list A) r :
  ∃ x' r', shuffle x r = ([], r', Ok x') ∧ x' ≡ₚ x.
Proof. apply shuffle_from_perm. Qed.

(** *** The edge list *)

Section lattice.
Variables w h : Z.

Lemma elem_of_edges e :
  e ∈ edges w h ↔
  ∃ x y, cell w h (x, y)
         ∧ ((x + 2 < w ∧ e = ((x, y), (x + 2, y), (x + 1, y)))
            ∨ (y + 2 < h ∧ e = ((x, y), (x, y + 2), (x, y + 1)))).
Proof.
  unfold edges. split.
  - intros (y & (x & He & Hx%elem_of_range_step)%list_elem_of_bind
              & Hy%elem_of_range_step)%list_elem_of_bind.
    exists x, y. split; [unfold cell; simpl; lia|].
    apply elem_of_app in He as [He|He]; case_bool_decide;
      try (by apply elem_of_nil in He);
      apply list_elem_of_singleton in He; auto.
  - intros (x & y & (Hx & Hy & Hxm & Hym) & He). simpl in *.
    apply list_elem_of_bind. exists y.
    split; [|by apply elem_of_range_step].
    apply list_elem_of_bind. exists x.
    split; [|by apply elem_of_range_step].
    apply elem_of_app. destruct He as [[Hlt ->]|[Hlt ->]].
    + left. rewrite bool_decide_eq_true_2 by done. left.
    + right. rewrite bool_decide_eq_true_2 by done. left.
Qed.

(** An edge joins two cells a move apart, through the wall between
    them. *)
Definition good_edge (e : Edge) : Prop :=
  cell w h e.1.1 ∧ cell w h e.1.2 ∧ two_step e.1.1 e.1.2
  ∧ e.2 = mid e.1.1 e.1.2.

Lemma edges_good e : e ∈ edges w h → good_edge e.
Proof.
  intros (x & y & (Hx & Hy & Hxm & Hym) & He)%elem_of_edges. simpl in *.
  unfold good_edge, cell, two_step, mid.
  destruct He as [[Hlt ->]|[Hlt ->]]; simpl; split_and!; try lia;
    try (Z.div_mod_to_equations; lia).
  - f_equal; Z.div_mod_to_equations; lia.
  - f_equal; Z.div_mod_to_equations; lia.
Qed.

(** Two cells a move apart are the ends of an edge, in one order or the
    other. *)
Lemma edges_all a b :
  cell w h a → cell w h b → two_step a b →
  (a, b, mid a b) ∈ edges w h ∨ (b, a, mid a b) ∈ edges w h.
Proof.
  destruct a as [ax ay], b as [bx by']. unfold cell, two_step, mid. simpl.
  intros (? & ? & ? & ?) (? & ? & ? & ?) Hs.
  assert ((bx = ax + 2 ∧ by' = ay) ∨ (ax = bx + 2 ∧ by' = ay)
          ∨ (bx = ax ∧ by' = ay + 2) ∨ (bx = ax ∧ ay = by' + 2))
    as [[-> ->]|[[-> ->]|[[-> ->]|[-> ->]]]] by lia.
  - left. apply elem_of_edges. exists ax, ay. split; [done|]. left.
    split; [lia|]. repeat f_equal; Z.div_mod_to_equations; lia.
  - right. apply elem_of_edges. exists bx, ay. split; [done|]. left.
    split; [lia|]. repeat f_equal; Z.div_mod_to_equations; lia.
  - left. apply elem_of_edges. exists ax, ay. split; [done|]. right.
    split; [lia|]. repeat f_equal; Z.div_mod_to_equations; lia.
  - right. apply elem_of_edges. exists ax, by'. split; [done|]. right.
    split; [lia|]. repeat f_equal; Z.div_mod_to_equations; lia.
Qed.

(** *** Step 1: every cell its own set *)

Definition singletons (cs : list Node) (parent : gmap Node Node)
  : gmap Node Node :=
  foldl (λ p c, <[c := c]> p) parent cs.

Lemma init_run (cs : list Node) (parent : gmap Node Node) r :
  gfold cs (λ (parent : gmap Node Node) c,
              let parent := <[c := c]> parent in
              gyield (c.1, c.2, 1);; mret parent) parent r
  = ((λ c, (c, 1)) <$> cs, r, Ok (singletons cs parent)).
Proof.
  revert parent. induction cs as [|[cx cy] cs IH]; intros parent; [done|].
  cbn [gfold singletons foldl fmap list_fmap].
  rewrite (gbind_ok _ _ r [(cx, cy, 1)] r (<[(cx, cy) := (cx, cy)]> parent))
    by done.
  fold (singletons cs (<[(cx, cy) := (cx, cy)]> parent)).
  by rewrite IH.
Qed.

Lemma singletons_lookup cs parent c :
  singletons cs parent !! c
  = if decide (c ∈ cs) then Some c else parent !! c.
Proof.
  revert parent. induction cs as [|c' cs IH]; intros parent.
  { cbn. by destruct (decide _) as [?%elem_of_nil|]. }
  cbn [singletons foldl]. fold (singletons cs (<[c' := c']> parent)).
  rewrite IH. destruct (decide (c ∈ cs)) as [Hin|Hn].
  - rewrite decide_True; [done|by right].
  - destruct (decide (c = c')) as [->|Hne].
    + rewrite lookup_insert_eq. rewrite decide_True; [done|left].
    + rewrite lookup_insert_ne by done.
      rewrite decide_False; [done|]. by intros [?|?]%elem_of_cons.
Qed.

(** *** Step 3: the loop over the edges *)

(** What holds between two edges: the dict has exactly the cells as keys and
    its links form a forest; [W] lists the walls carved so far, each between
    two cells of one set; the cells of one set are joined by carved cells;
    [Rt] is the set of the representatives, and with every carved wall
    there is one fewer. *)
Record kinv (parent : gmap Node Node) (W : list Node) (Rt : gset Node)
  : Prop := mk_kinv {
  k_dom : ∀ c, is_Some (parent !! c) ↔ cell w h c;
  k_forest : forest parent;
  k_nodup : NoDup W;
  k_walls : ∀ c, c ∈ W →
            ∃ a b, cell w h a ∧ cell w h b ∧ two_step a b ∧ c = mid a b
                   ∧ same_set parent a b;
  k_joined : ∀ a b, same_set parent a b →
             joined (λ c, cell w h c ∨ c ∈ W) a b;
  k_roots : ∀ r, r ∈ Rt ↔ root_of parent r r;
  k_count : (size Rt + length W = length (cells w h))%nat
}.

Lemma same_set_key parent a b : same_set parent a b → is_Some (parent !! a).
Proof. intros (r & [n Hn] & _). by eapply reach_lookup. Qed.

Lemma same_set_sym parent a b : same_set parent a b → same_set parent b a.
Proof. intros (r & ? & ?). by exists r. Qed.

Lemma same_set_trans parent a b c :
  same_set parent a b → same_set parent b c → same_set parent a c.
Proof.
  intros (r & Ha & Hb) (r' & Hb' & Hc).
  rewrite <- (root_of_fun _ _ _ _ Hb Hb') in Hc. by exists r.
Qed.

Lemma kinv_init :
  kinv (singletons (cells w h) ∅) [] (list_to_set (cells w h)).
Proof.
  assert (∀ c, singletons (cells w h) ∅ !! c
               = if decide (cell w h c) then Some c else None) as Hlook.
  { intros c. rewrite singletons_lookup, lookup_empty.
    destruct (decide (c ∈ cells w h)) as [Hc|Hc];
      rewrite elem_of_lattice_cells in Hc; by destruct (decide (cell w h c)). }
  assert (∀ c r, root_of (singletons (cells w h) ∅) c r → r = c ∧ cell w h c)
    as Hroot.
  { intros c r [n Hn]. destruct Hn as [r Hr|n c p r Hc Hne _].
    - rewrite Hlook in Hr. by destruct (decide (cell w h r)).
    - rewrite Hlook in Hc. destruct (decide (cell w h c)); congruence. }
  split.
  - intros c. rewrite Hlook. destruct (decide (cell w h c)); [by eauto|].
    split; [by intros [? ?]|done].
  - intros c [p Hc]. rewrite Hlook in Hc.
    destruct (decide (cell w h c)) as [Hcell|]; [|done].
    exists c. apply root_of_root. rewrite Hlook. by rewrite decide_True.
  - constructor.
  - by intros c ?%elem_of_nil.
  - intros a b (r & [-> Ha]%Hroot & [-> Hb]%Hroot). constructor. by left.
  - intros r. rewrite elem_of_list_to_set, elem_of_lattice_cells. split.
    + intros Hr. apply root_of_root. rewrite Hlook. by rewrite decide_True.
    + by intros [_ ?]%Hroot.
  - simpl. rewrite Nat.add_0_r. apply size_list_to_set, NoDup_cells.
Qed.

(** The body of the loop. *)
Definition process (parent : gmap Node Node) (e : Edge)
  : G (gmap Node Node) :=
  let '(a, b, wall) := e in
  merged ← glift (_UnionFind.union parent a b);
  if merged.1 : bool
  then gyield (wall.1, wall.2, 1);;
       gyield (b.1, b.2, 1);;
       mret merged.2
  else mret merged.2.

Lemma process_step parent W Rt a b r :
  kinv parent W Rt → good_edge (a, b, mid a b) →
  ∃ out parent' W' Rt',
    process parent (a, b, mid a b) r = (out, r, Ok parent')
    ∧ kinv parent' W' Rt'
    ∧ (∀ x y, same_set parent x y → same_set parent' x y)
    ∧ same_set parent' a b
    ∧ ((out = [] ∧ W' = W)
       ∨ (out = [(mid a b, 1); (b, 1)] ∧ W' = mid a b :: W)).
Proof.
  intros Hk (Ha & Hb & Hs & _). simpl in Ha, Hb, Hs.
  assert (is_Some (parent !! a)) as Hka by (by apply (k_dom _ _ _ Hk)).
  assert (is_Some (parent !! b)) as Hkb by (by apply (k_dom _ _ _ Hk)).
  destruct (union_step parent a b (k_forest _ _ _ Hk) Hka Hkb)
    as (ra & rb & parent' & Hra & Hrb & Hunion & Hf & Hdom & Hroots & Hsets).
  assert (∀ c, is_Some (parent' !! c) ↔ cell w h c) as Hdom'.
  { intros c. rewrite <- (k_dom _ _ _ Hk). rewrite <- !elem_of_dom.
    by rewrite Hdom. }
  assert (∀ x y, same_set parent x y → same_set parent' x y) as Hmono.
  { intros x y Hxy. apply Hsets; [by eapply same_set_key|
      by eapply same_set_key, same_set_sym|by left]. }
  assert (same_set parent a a) as Haa by (by exists ra).
  assert (same_set parent b b) as Hbb by (by exists rb).
  assert (same_set parent' a b) as Hab'.
  { apply Hsets; [done..|]. right. by left. }
  unfold process. rewrite Hunion, glift_bind. cbn [fst snd].
  destruct (decide (ra = rb)) as [Heq|Hne].
  - rewrite bool_decide_eq_false_2 by (by intros ?).
    assert (same_set parent a b) as Hab by (exists ra; by rewrite Heq at 2).
    exists [], parent', W, Rt. split_and!; [done| |done|done|by left].
    split; [done|done|apply (k_nodup _ _ _ Hk)| | | |apply (k_count _ _ _ Hk)].
    + intros c Hc.
      destruct (k_walls _ _ _ Hk c Hc) as (a' & b' & ? & ? & ? & ? & ?).
      exists a', b'. split_and!; auto.
    + intros x y Hxy. apply (k_joined _ _ _ Hk).
      assert (is_Some (parent !! x)) as Hx
        by (by eapply (k_dom _ _ _ Hk), Hdom', same_set_key).
      assert (is_Some (parent !! y)) as Hy
        by (by eapply (k_dom _ _ _ Hk), Hdom', same_set_key, same_set_sym).
      apply Hsets in Hxy as [?|[[Hxa Hyb]|[Hxb Hya]]]; [done| | |done..].
      * eapply same_set_trans; [exact Hxa|].
        eapply same_set_trans; [exact Hab|]. by apply same_set_sym.
      * eapply same_set_trans; [exact Hxb|].
        eapply same_set_trans; [apply same_set_sym, Hab|].
        by apply same_set_sym.
    + intros r0. rewrite (k_roots _ _ _ Hk), Hroots. split; [|by intros []].
      intros ?. split; [done|]. by intros [? _].
  - rewrite bool_decide_eq_true_2 by done.
    assert (¬ same_set parent a b) as Hnab.
    { intros (r0 & Har & Hbr). apply Hne.
      rewrite (root_of_fun _ _ _ _ Hra Har). by eapply root_of_fun. }
    assert (mid a b ∉ W) as Hfresh.
    { intros Hin.
      destruct (k_walls _ _ _ Hk _ Hin) as (a' & b' & Ha' & Hb' & Hs' & Hm & Hab).
      destruct (mid_inj w h a b a' b') as [[-> ->]|[-> ->]]; try done.
      by apply Hnab, same_set_sym. }
    exists [(mid a b, 1); (b, 1)], parent', (mid a b :: W), (Rt ∖ {[rb]}).
    split_and!; [|  |done|done|by right].
    { rewrite !gyield_bind. by destruct (mid a b), b. }
    assert (∀ x y, same_set parent x y →
                   joined (λ c, cell w h c ∨ c ∈ mid a b :: W) x y) as Hj.
    { intros x y Hxy. eapply joined_mono; [|by apply (k_joined _ _ _ Hk)].
      intros c [?|?]; [by left|right; by right]. }
    assert (joined (λ c, cell w h c ∨ c ∈ mid a b :: W) a b) as Hjab.
    { destruct (mid_adjacent a b Hs) as [H1 H2].
      eapply joined_step; [|exact H2|by left].
      eapply joined_step; [|exact H1|right; left].
      constructor. by left. }
    split; [done|done| | | | |].
    + constructor; [done|apply (k_nodup _ _ _ Hk)].
    + intros c [->|Hc]%elem_of_cons.
      * exists a, b. split_and!; auto.
      * destruct (k_walls _ _ _ Hk c Hc) as (a' & b' & ? & ? & ? & ? & ?).
        exists a', b'. split_and!; auto.
    + intros x y Hxy.
      assert (is_Some (parent !! x)) as Hx
        by (by eapply (k_dom _ _ _ Hk), Hdom', same_set_key).
      assert (is_Some (parent !! y)) as Hy
        by (by eapply (k_dom _ _ _ Hk), Hdom', same_set_key, same_set_sym).
      apply Hsets in Hxy as [?|[[Hxa Hyb]|[Hxb Hya]]]; [by apply Hj| | |done..].
      * eapply joined_trans; [by apply Hj|].
        eapply joined_trans; [exact Hjab|]. by apply Hj, same_set_sym.
      * eapply joined_trans; [by apply Hj|].
        eapply joined_trans; [apply joined_sym, Hjab|].
        by apply Hj, same_set_sym.
    + intros r0. rewrite elem_of_difference, (k_roots _ _ _ Hk), Hroots.
      rewrite elem_of_singleton. split.
      * intros [? Hn]. split; [done|]. by intros [_ ?].
      * intros [? Hn]. split; [done|]. intros ->. by apply Hn.
    + pose proof (k_count _ _ _ Hk) as Hcount.
      assert (rb ∈ Rt) as Hin.
      { apply (k_roots _ _ _ Hk). destruct Hrb as [n Hn].
        by eapply root_of_root, reach_is_root. }
      assert (size (Rt ∖ {[rb]}) + 1 = size Rt)%nat as Hsize.
      { rewrite size_difference by set_solver. rewrite size_singleton.
        assert (size Rt ≠ 0)%nat; [|lia].
        intros ?%size_empty_inv. set_solver. }
      cbn [length]. lia.
Qed.

Lemma edges_run (es : list Edge) :
  ∀ parent W Rt r,
    kinv parent W Rt → (∀ e, e ∈ es → good_edge e) →
    ∃ out parent' W' Rt',
      gfold es process parent r = (out, r, Ok parent')
      ∧ kinv parent' W' Rt'
      ∧ (∀ x y, same_set parent x y → same_set parent' x y)
      ∧ (∀ e, e ∈ es → same_set parent' e.1.1 e.1.2)
      ∧ Forall (λ e : Edit, e.2 = 1 ∧ (cell w h e.1 ∨ e.1 ∈ W')) out
      ∧ (∀ c, c ∈ W' → c ∈ W ∨ c ∈ out.*1)
      ∧ (∀ c, c ∈ W → c ∈ W')
      ∧ (length out + 2 * length W = 2 * length W')%nat.
Proof.
  induction es as [|[[a b] wall] es IH]; intros parent W Rt r Hk Hgood.
  { exists [], parent, W, Rt. split_and!; try done; auto.
    by intros e ?%elem_of_nil. }
  assert (good_edge (a, b, wall)) as Hab by (apply Hgood; left).
  pose proof Hab as (_ & Hb & _ & Hwall). simpl in Hb, Hwall. subst wall.
  destruct (process_step parent W Rt a b r Hk Hab)
    as (out1 & parent1 & W1 & Rt1 & Hrun1 & Hk1 & Hmono1 & Hab1 & Hout1).
  destruct (IH parent1 W1 Rt1 r Hk1) as
    (out2 & parent2 & W2 & Rt2 & Hrun2 & Hk2 & Hmono2 & Hall2 & Hout2
     & Hnew2 & Hold2 & Hlen2).
  { intros e He. apply Hgood. by right. }
  exists (out1 ++ out2), parent2, W2, Rt2.
  cbn [gfold]. rewrite (gbind_ok _ _ _ _ _ _ Hrun1), Hrun2.
  split_and!; [done|done|by auto| | | | |].
  - intros e [->|He]%elem_of_cons; [by apply Hmono2|by apply Hall2].
  - apply Forall_app. split; [|done].
    destruct Hout1 as [[-> ->]|[-> ->]]; [done|].
    constructor; [split; [done|right; apply Hold2; left]|].
    constructor; [split; [done|by left]|constructor].
  - intros c Hc. rewrite fmap_app, elem_of_app.
    destruct (Hnew2 c Hc) as [Hc1|?]; [|by auto].
    destruct Hout1 as [[-> ->]|[-> ->]]; [by left|].
    apply elem_of_cons in Hc1 as [->|?]; [|by left].
    right. left. left.
  - intros c Hc. apply Hold2.
    destruct Hout1 as [[-> ->]|[-> ->]]; [done|by right].
  - rewrite length_app.
    destruct Hout1 as [[-> ->]|[-> ->]]; cbn [length] in *; lia.
Qed.

End lattice.

(** *** The whole run *)

Lemma call_eq width height :
  __call__ width height
  = (parent ←
       gfold (cells width height)
             (λ (parent : gmap Node Node) c,
                let parent := <[c := c]> parent in
                gyield (c.1, c.2, 1);; mret parent)
             ∅;
     edges ← shuffle (edges width height);
     gfold edges process parent;;
     mret tt).
Proof. reflexivity. Qed.

Lemma kruskal_call_run width height rng :
  1 ≤ width → 1 ≤ height →
  ∃ out r' W,
    __call__ width height rng
    = (((λ c, (c, 1)) <$> cells width height) ++ out, r', Ok tt)
    ∧ grown width height (cells width height) W
    ∧ Forall (λ e : Edit, e.2 = 1 ∧ (cell width height e.1 ∨ e.1 ∈ W)) out
    ∧ (∀ c, c ∈ W → c ∈ out.*1)
    ∧ (length out = 2 * length W)%nat.
Proof.
  intros Hw Hh. rewrite call_eq.
  rewrite (gbind_ok _ _ _ _ _ _ (init_run _ _ _)).
  destruct (shuffle_perm (edges width height) rng) as (es & r' & Hsh & Hperm).
  rewrite (gbind_ok _ _ _ _ _ _ Hsh).
  destruct (edges_run width height es _ [] _ r' (kinv_init width height))
    as (out & parent & W & Rt & Hrun & Hk & _ & Hall & Hout & Hnew & _ & Hlen).
  { intros e He. apply edges_good. by rewrite <- Hperm. }
  rewrite (gbind_ok _ _ _ _ _ _ Hrun).
  change ((mret () : G ()) r') with (([] : list Edit), r', Ok ()).
  cbv beta iota.
  rewrite app_nil_r.
  exists out, r', W. split_and!; [done| |done| |simpl in Hlen; lia].
  2:{ intros c Hc. destruct (Hnew c Hc) as [?%elem_of_nil|?]; done. }
  assert (cell width height (0, 0)) as Ho.
  { unfold cell. simpl. Z.div_mod_to_equations. lia. }
  assert (∀ c, cell width height c → same_set parent (0, 0) c) as Hone.
  { apply (closed_all width height (λ c, same_set parent (0, 0) c)).
    - destruct (k_forest _ _ _ _ _ Hk (0, 0)) as [r Hr];
        [by apply (k_dom _ _ _ _ _ Hk)|]. by exists r.
    - intros c n Hc Hcc Hcn Hs. eapply same_set_trans; [exact Hc|].
      destruct (edges_all width height c n Hcc Hcn Hs) as [He|He];
        rewrite <- Hperm in He; apply Hall in He; [done|].
      by apply same_set_sym. }
  assert (size Rt = 1%nat) as Hsize.
  { destruct (Hone (0, 0) Ho) as (r0 & Hr0 & _).
    assert (Rt = {[r0]}) as ->; [|by rewrite size_singleton].
    apply set_eq. intros r. rewrite elem_of_singleton, (k_roots _ _ _ _ _ Hk).
    split.
    - intros Hr.
      assert (cell width height r) as Hcr.
      { apply (k_dom _ _ _ _ _ Hk). destruct Hr as [n Hn].
        by eapply reach_lookup. }
      destruct (Hone r Hcr) as (r1 & Ho1 & Hr1).
      rewrite (root_of_fun _ _ _ _ Hr Hr1).
      exact (root_of_fun _ _ _ _ Ho1 Hr0).
    - intros ->. destruct Hr0 as [n Hn].
      by eapply root_of_root, reach_is_root. }
  assert (∀ c, cell width height c →
               joined (λ c, c ∈ cells width height ++ W) (0, 0) c) as Hjoin.
  { intros c Hc. eapply joined_mono; [|apply (k_joined _ _ _ _ _ Hk), Hone, Hc].
    intros c' [?|?]; apply elem_of_app; [left; by apply elem_of_lattice_cells|by right]. }
  split.
  - apply NoDup_app. split_and!; [apply NoDup_cells| |apply (k_nodup _ _ _ _ _ Hk)].
    intros c Hc%elem_of_lattice_cells Hin.
    destruct (k_walls _ _ _ _ _ Hk c Hin) as (a & b & Ha & _ & Hs & -> & _).
    by apply (mid_not_cell width height a b).
  - pose proof (k_count _ _ _ _ _ Hk). lia.
  - intros c. by rewrite elem_of_lattice_cells.
  - intros c Hc.
    destruct (k_walls _ _ _ _ _ Hk c Hc) as (a & b & Ha & Hb & Hs & -> & _).
    exists a, b. rewrite !elem_of_lattice_cells. done.
  - by apply elem_of_lattice_cells.
  - intros c [Hc%elem_of_lattice_cells|Hc]%elem_of_app; [by apply Hjoin|].
    destruct (k_walls _ _ _ _ _ Hk c Hc) as (a & b & Ha & Hb & Hs & -> & _).
    destruct (mid_adjacent a b Hs) as [H1 _].
    eapply joined_step; [apply (Hjoin a Ha)|exact H1|].
    apply elem_of_app. by right.
Qed.

(** Randomised Kruskal never fails.  For every width and height of at
    least 1 and every outcome of the shuffle the run ends by exhaustion,
    with no exception; every edit carves (its value is 1) a cell inside the
    grid; the run starts with one edit for every cell with two even
    coordinates, row by row, and has three edits for every such cell, less
    two: a cell that an edge joins to the tree is carved a second time. *)
Theorem kruskal_runs (width height : Z) (rng : list nat) :
  1 ≤ width → 1 ≤ height →
  (__call__ width height rng).2 = Ok tt
  ∧ Forall (λ e : Edit, e.2 = 1 ∧ 0 ≤ e.1.1 < width ∧ 0 ≤ e.1.2 < height)
           (__call__ width height rng).1.1
  ∧ take (length (cells width height)) (__call__ width height rng).1.1
    = (λ c, (c, 1)) <$> cells width height
  ∧ Z.of_nat (length (__call__ width height rng).1.1)
    = 3 * cells_count width height - 2.
Proof.
  intros Hw Hh.
  destruct (kruskal_call_run width height rng Hw Hh)
    as (out & r' & W & -> & Hg & Hout & Hnew & Hlen).
  cbn [fst snd]. split_and!; [done| | |].
  - apply Forall_app. split.
    + apply Forall_fmap, Forall_forall. intros c Hc%elem_of_lattice_cells. simpl.
      destruct Hc as (? & ? & _). done.
    + eapply Forall_impl; [exact Hout|]. intros e [He Hin]. split; [done|].
      apply (DFSBacktrackerProofs.grown_inside width height width height
               (cells width height) W); [done|lia|lia|].
      apply elem_of_app. destruct Hin as [?%elem_of_lattice_cells|?]; auto.
  - rewrite take_app_length'; [done|by rewrite length_fmap].
  - rewrite length_app, length_fmap, Hlen.
    pose proof (g_count _ _ _ _ Hg) as Hcount.
    pose proof (length_lattice_cells width height ltac:(lia) ltac:(lia)). lia.
Qed.

(** Randomised Kruskal builds a perfect maze.  For every width and height
    of at least 1 and every outcome of the shuffle, the passages of the
    grid the edits leave are one connected component, and they are a
    spanning tree of the lattice of the cells with two even coordinates:
    the dimensions are used as given, so with an even width the last column
    stays wall, and with an even height the last row. *)
Theorem kruskal_spanning_tree (width height : Z) (rng : list nat) :
  1 ≤ width → 1 ≤ height →
  ∃ m, generated width height (__call__ width height rng) = Some m
       ∧ one_component m
       ∧ spanning_tree width height m.
Proof.
  intros Hw Hh.
  destruct (kruskal_call_run width height rng Hw Hh)
    as (out & r' & W & Hrun & Hg & Hout & Hnew & Hlen).
  destruct (carved_passages width height (__call__ width height rng))
    as (m & Hgen & _ & _ & Hpass); [lia|lia| |].
  { rewrite Hrun. cbn [fst snd]. apply Forall_app. split.
    - apply Forall_fmap, Forall_forall. intros c Hc%elem_of_lattice_cells. simpl.
      split; [done|]. destruct Hc as (? & ? & _). by split.
    - eapply Forall_impl; [exact Hout|]. intros e [He Hin]. split; [done|].
      apply (DFSBacktrackerProofs.grown_inside width height width height
               (cells width height) W); [done|lia|lia|].
      apply elem_of_app. destruct Hin as [?%elem_of_lattice_cells|?]; auto. }
  rewrite Hrun in Hpass. cbn [fst snd] in Hpass.
  assert (spanning_tree width height m) as Htree.
  { apply (grown_spanning_tree _ _ (cells width height) W); [lia|lia|done| |].
    - intros c. by rewrite elem_of_lattice_cells.
    - intros c. rewrite Hpass, fmap_app, !elem_of_app.
      rewrite <- list_fmap_compose.
      assert ((fst ∘ (λ c : Node, (c, 1))) <$> cells width height
              = cells width height) as -> by apply list_fmap_id.
      split; [|intros [?|?]; auto].
      intros [?|(e & -> & He)%list_elem_of_fmap]; [by left|].
      rewrite Forall_forall in Hout. destruct (Hout e He) as [_ [?|?]]; [|by right].
      left. by apply elem_of_lattice_cells. }
  exists m. split_and!; [done| |done]. by destruct Htree as (_ & _ & ? & _).
Qed.

Lemma kruskal_runs_witness :
  (__call__ 4 5 [3; 1; 4; 1; 5; 9; 2; 6]%nat).2 = Ok tt
  ∧ Forall (λ e : Edit, e.2 = 1 ∧ 0 ≤ e.1.1 < 4 ∧ 0 ≤ e.1.2 < 5)
           (__call__ 4 5 [3; 1; 4; 1; 5; 9; 2; 6]%nat).1.1
  ∧ take (length (cells 4 5)) (__call__ 4 5 [3; 1; 4; 1; 5; 9; 2; 6]%nat).1.1
    = (λ c, (c, 1)) <$> cells 4 5
  ∧ Z.of_nat (length (__call__ 4 5 [3; 1; 4; 1; 5; 9; 2; 6]%nat).1.1)
    = 3 * cells_count 4 5 - 2.
Proof. apply (kruskal_runs 4 5 [3; 1; 4; 1; 5; 9; 2; 6]%nat); lia. Defined.

Lemma kruskal_spanning_tree_witness :
  ∃ m, generated 4 5 (__call__ 4 5 [3; 1; 4; 1; 5; 9; 2; 6]%nat) = Some m
       ∧ one_component m
       ∧ spanning_tree 4 5 m.
Proof.
  apply (kruskal_spanning_tree 4 5 [3; 1; 4; 1; 5; 9; 2; 6]%nat); lia.
Defined.

End KruskalProofs.


(** ** Recursive Division: the sizes that are safe *)

Module RecursiveDivisionSafety.
Import RecursiveDivision GenProofs RecursiveDivisionProofs.

(** A span [o .. o + s - 1] of the grid's columns (or rows) that a split can
    always cut when it is three wide: it starts at an odd coordinate, or its
    size is even, or it is the whole side of a grid whose side [S] is not
    three. *)
Definition safe_span (S o s : Z) : Prop :=
  1 ≤ s ∧ (o `mod` 2 = 1 ∨ s `mod` 2 = 0 ∨ (s = S ∧ S ≠ 3)).

Lemma safe_span_walls S o s :
  safe_span S o s → 3 ≤ s →
  filter (λ k, k `mod` 2 = 0) (range (o + 1) (o + s - 1)) ≠ [].
Proof.
  intros [_ Hs] H3 Hnil.
  assert (∃ k, o + 1 ≤ k < o + s - 1 ∧ k `mod` 2 = 0) as (k & Hk & Hm).
  { destruct (decide (o `mod` 2 = 1)).
    - exists (o + 1). Z.div_mod_to_equations. lia.
    - exists (o + 2). Z.div_mod_to_equations. lia. }
  assert (k ∈ filter (λ k, k `mod` 2 = 0) (range (o + 1) (o + s - 1))) as Hin.
  { apply list_elem_of_filter. split; [done|]. by apply elem_of_range. }
  rewrite Hnil in Hin. by apply elem_of_nil in Hin.
Qed.

Lemma span_gaps o s :
  3 ≤ s → filter (λ k, k `mod` 2 = 1) (range o (o + s)) ≠ [].
Proof.
  intros H3 Hnil.
  assert (∃ k, o ≤ k < o + s ∧ k `mod` 2 = 1) as (k & Hk & Hm).
  { destruct (decide (o `mod` 2 = 1)).
    - exists o. lia.
    - exists (o + 1). Z.div_mod_to_equations. lia. }
  assert (k ∈ filter (λ k, k `mod` 2 = 1) (range o (o + s))) as Hin.
  { apply list_elem_of_filter. split; [done|]. by apply elem_of_range. }
  rewrite Hnil in Hin. by apply elem_of_nil in Hin.
Qed.

(** The two parts a wall at an even coordinate leaves are safe again. *)
Lemma safe_span_parts S o s k :
  safe_span S o s →
  k ∈ filter (λ k, k `mod` 2 = 0) (range (o + 1) (o + s - 1)) →
  safe_span S o (k - o) ∧ safe_span S (k + 1) (o + s - (k + 1)).
Proof.
  intros [Hs Hp] [Hm Hk%elem_of_range]%list_elem_of_filter.
  unfold safe_span. split.
  - split; [lia|]. destruct (decide (o `mod` 2 = 1)); [by left|].
    right. left. Z.div_mod_to_equations. lia.
  - split; [lia|]. left. Z.div_mod_to_equations. lia.
Qed.

Lemma divide_total fuel W H x y w h :
  safe_span W x w → safe_span H y h → (Z.to_nat (w + h) ≤ fuel)%nat →
  gtotal (_divide fuel x y w h).
Proof.
  revert x y w h. induction fuel as [|fuel IH]; intros x y w h Hx Hy Hf.
  { destruct Hx, Hy. lia. }
  simpl. case_bool_decide as Hsmall; [apply gtotal_ret|].
  assert (3 ≤ w ∧ 3 ≤ h) as [Hw3 Hh3] by lia.
  eapply (gtotal_bind (λ _, True) (λ _, True));
    [apply pick_orientation_total|apply gspec_True|].
  intros [] _.
  - unfold _split_horizontal.
    eapply gtotal_bind with (P := λ _, True);
      [by eapply gtotal_choice, safe_span_walls|apply gspec_choice|].
    intros wall_y Hwy.
    destruct (safe_span_parts H y h wall_y Hy Hwy) as [H1 H2].
    apply list_elem_of_filter in Hwy as [_ Hr%elem_of_range].
    eapply gtotal_bind with (P := λ _, True);
      [by apply gtotal_choice, span_gaps|apply gspec_choice|].
    intros gap_x _.
    eapply (gtotal_bind (λ _, True) (λ _, True));
      [apply for_wall_total|apply gspec_True|].
    intros _ _.
    eapply (gtotal_bind (λ _, True) (λ _, True));
      [|apply gspec_True|intros _ _]; (apply IH; [done..|lia]).
  - unfold _split_vertical.
    eapply gtotal_bind with (P := λ _, True);
      [by eapply gtotal_choice, safe_span_walls|apply gspec_choice|].
    intros wall_x Hwx.
    destruct (safe_span_parts W x w wall_x Hx Hwx) as [H1 H2].
    apply list_elem_of_filter in Hwx as [_ Hr%elem_of_range].
    eapply gtotal_bind with (P := λ _, True);
      [by apply gtotal_choice, span_gaps|apply gspec_choice|].
    intros gap_y _.
    eapply (gtotal_bind (λ _, True) (λ _, True));
      [apply for_wall_total|apply gspec_True|].
    intros _ _.
    eapply (gtotal_bind (λ _, True) (λ _, True));
      [|apply gspec_True|intros _ _]; (apply IH; [done..|lia]).
Qed.

(** Recursive Division on a grid with no side of three cells.  For every
    width and height of at least 1, neither of them 3, and every outcome of
    the random choices, the run ends by exhaustion, with no exception: no
    split ever has an empty list of wall positions to choose from.  The
    edits are the open space, the outer border, the walls of the
    subdivision, which lie inside the grid, and the entrance and the
    exit. *)
Theorem recursive_division_safe (width height : Z) (rng : list nat) :
  1 ≤ width → 1 ≤ height → width ≠ 3 → height ≠ 3 →
  ∃ walls r',
    __call__ width height rng
    = (open_space width height ++ outer_border width height ++ walls
       ++ entrance_exit width height, r', Ok ())
    ∧ Forall (λ e : Edit, e.2 = 0 ∧ inside width height e.1) walls
    ∧ Forall (λ e : Edit, inside width height e.1)
             (__call__ width height rng).1.1.
Proof.
  intros Hw Hh Hw3 Hh3.
  assert (∃ walls r',
             _divide (Z.to_nat (width + height)) 0 0 width height rng
             = (walls, r', Ok ())
             ∧ Forall (wall_in 0 0 width height) walls)
    as (walls & r' & Hdiv & Hwalls).
  { destruct (divide_total (Z.to_nat (width + height)) width height
                0 0 width height) with (r := rng) as [[] Hok];
      [split; [lia|auto]..|done|].
    destruct (divide_builds_walls (Z.to_nat (width + height))
                0 0 width height rng) as [Hin _].
    destruct (_divide _ 0 0 width height rng) as [[walls r'] res].
    simpl in *. subst res. by exists walls, r'. }
  assert (Forall (λ e : Edit, e.2 = 0 ∧ inside width height e.1) walls)
    as Hwalls'.
  { eapply Forall_impl; [exact Hwalls|].
    intros e (? & ? & ?). unfold inside. split; [done|lia]. }
  exists walls, r'. rewrite call_shape, Hdiv. split_and!; [done..|].
  cbn [fst snd]. rewrite !Forall_app. split_and!.
  - apply Forall_forall. unfold open_space.
    intros e (y & (x & ->%list_elem_of_singleton & Hx%elem_of_range)
                     %list_elem_of_bind
                & Hy%elem_of_range)%list_elem_of_bind.
    unfold inside. simpl. lia.
  - apply Forall_forall. unfold outer_border.
    intros e [(x & He & Hx%elem_of_range)%list_elem_of_bind
             |(y & He & Hy%elem_of_range)%list_elem_of_bind]%elem_of_app;
      list_cases He; unfold inside; simpl; lia.
  - eapply Forall_impl; [exact Hwalls'|]. by intros e [_ ?].
  - unfold entrance_exit, inside.
    repeat constructor; simpl; repeat case_bool_decide; lia.
Qed.

Lemma recursive_division_safe_witness :
  ∃ walls r',
    __call__ 5 4 [3; 1; 4; 1; 5; 9; 2; 6]%nat
    = (open_space 5 4 ++ outer_border 5 4 ++ walls
       ++ entrance_exit 5 4, r', Ok ())
    ∧ Forall (λ e : Edit, e.2 = 0 ∧ inside 5 4 e.1) walls
    ∧ Forall (λ e : Edit, inside 5 4 e.1)
             (__call__ 5 4 [3; 1; 4; 1; 5; 9; 2; 6]%nat).1.1.
Proof.
  apply (recursive_division_safe 5 4 [3; 1; 4; 1; 5; 9; 2; 6]%nat); lia.
Defined.

(** With a side of three cells the run can fail: six by three, when the
    right half is cut across. *)
Example recursive_division_6x3_raises :
  (__call__ 6 3 [0; 0; 0]%nat).2 = Raise IndexError.
Proof. vm_compute. reflexivity. Qed.

End RecursiveDivisionSafety.


(** ** Generate, pick the endpoints, solve *)

Module GenerateThenSolve.
Import GenProofs RunProofs LatticeProofs.
Import MazeApp EndpointProofs.

(** *** The endpoints of a maze whose extreme passages are known *)

Lemma before_asym a b : before a b → before b a → False.
Proof. unfold before. lia. Qed.

Lemma first_passage_least (m : Maze.t) (c : Node) :
  passage_cell m c → (∀ c', passage_cell m c' → c = c' ∨ before c c') →
  first_passage m (0, 0) = c.
Proof.
  intros [Hb Hp] Hleast. rewrite first_passage_scan.
  destruct (head (filter _ (scan m (0, 0)))) as [s|] eqn:Es; last first.
  { pose proof (proj1 (head_filter_None _ _) Es) as Es'.
    destruct (Es' c); [|done]. by apply elem_of_scan. }
  simpl.
  apply (head_filter_least before) in Es as (Hs1%elem_of_scan & Hs2 & Hs3);
    [|apply scan_sorted_start].
  destruct (Hleast s) as [?|H1]; [done|done|].
  destruct (Hs3 c) as [?|H2]; [by apply elem_of_scan|done|done|].
  destruct (before_asym _ _ H1 H2).
Qed.

Lemma first_passage_greatest (m : Maze.t) (c : Node) :
  passage_cell m c → (∀ c', passage_cell m c' → c = c' ∨ before c' c) →
  first_passage m (Maze.w m - 1, Maze.h m - 1) = c.
Proof.
  intros [Hb Hp] Hmost. rewrite first_passage_scan.
  destruct (head (filter _ (scan m (Maze.w m - 1, Maze.h m - 1))))
    as [g|] eqn:Eg; last first.
  { pose proof (proj1 (head_filter_None _ _) Eg) as Eg'.
    destruct (Eg' c); [|done]. by apply elem_of_scan. }
  simpl.
  apply (head_filter_least (flip before)) in Eg
    as (Hg1%elem_of_scan & Hg2 & Hg3); [|apply scan_sorted_goal].
  destruct (Hmost g) as [?|H1]; [done|done|].
  destruct (Hg3 c) as [?|H2]; [by apply elem_of_scan|done|done|].
  destruct (before_asym _ _ H1 H2).
Qed.

(** *** What the three tree-growing generators have in common *)

(** The last cell of the lattice, in row-major order. *)
Definition corner (w h : Z) : Node :=
  (2 * ((w - 1) `div` 2), 2 * ((h - 1) `div` 2)).

(** The run ends normally and its edits carve, inside the grid, the cells
    and walls of a tree that spans the lattice. *)
Definition carves_tree (width height : Z)
    (run : list Edit * list nat * Res unit) : Prop :=
  ∃ w h V W,
    1 ≤ w ≤ width ∧ 1 ≤ h ≤ height ∧ corner w h = corner width height
    ∧ grown w h V W ∧ (∀ c, cell w h c → c ∈ V)
    ∧ Forall (λ e : Edit, e.2 = 1) run.1.1
    ∧ ∀ c, c ∈ run.1.1.*1 ↔ c ∈ V ++ W.

Lemma corner_force_odd (width height : Z) :
  1 ≤ width → 1 ≤ height →
  corner (if bool_decide (width `mod` 2 = 0) then width - 1 else width)
         (if bool_decide (height `mod` 2 = 0) then height - 1 else height)
  = corner width height.
Proof.
  intros Hw Hh. unfold corner.
  f_equal; case_bool_decide; Z.div_mod_to_equations; lia.
Qed.

Lemma dfs_backtracker_carves_tree width height rng :
  1 ≤ width → 1 ≤ height →
  carves_tree width height (DFSBacktracker.__call__ width height rng).
Proof.
  intros Hw Hh.
  destruct (DFSBacktrackerProofs.dfs_call_run width height rng Hw Hh)
    as (out & r' & V & W & -> & Hg & Hall & Hout & Hperm).
  pose proof (force_odd_spec width Hw) as Hw'.
  pose proof (force_odd_spec height Hh) as Hh'.
  exists (DFSBacktracker._ensure_odd width height).1, (DFSBacktracker._ensure_odd width height).2, V, W.
  split_and!; [| | | | |exact Hg|exact Hall|done|].
  - unfold DFSBacktracker._ensure_odd. simpl in *. lia.
  - unfold DFSBacktracker._ensure_odd. simpl in *. lia.
  - unfold DFSBacktracker._ensure_odd. simpl in *. lia.
  - unfold DFSBacktracker._ensure_odd. simpl in *. lia.
  - by apply corner_force_odd.
  - intros c. cbn [fst snd]. by rewrite Hperm.
Qed.

Lemma prim_carves_tree width height rng :
  1 ≤ width → 1 ≤ height →
  carves_tree width height (Prim.__call__ width height rng).
Proof.
  intros Hw Hh.
  destruct (PrimProofs.prim_call_run width height rng Hw Hh)
    as (out & r' & V & W & -> & Hg & Hall & Hout & Hperm).
  pose proof (force_odd_spec width Hw) as Hw'.
  pose proof (force_odd_spec height Hh) as Hh'.
  exists (Prim._force_odd width height).1, (Prim._force_odd width height).2, V, W.
  split_and!; [| | | | |exact Hg|exact Hall|done|].
  - unfold Prim._force_odd. simpl in *. lia.
  - unfold Prim._force_odd. simpl in *. lia.
  - unfold Prim._force_odd. simpl in *. lia.
  - unfold Prim._force_odd. simpl in *. lia.
  - by apply corner_force_odd.
  - intros c. cbn [fst snd]. by rewrite Hperm.
Qed.

Lemma kruskal_carves_tree width height rng :
  1 ≤ width → 1 ≤ height →
  carves_tree width height (Kruskal.__call__ width height rng).
Proof.
  intros Hw Hh.
  destruct (KruskalProofs.kruskal_call_run width height rng Hw Hh)
    as (out & r' & W & -> & Hg & Hout & Hnew & Hlen).
  exists width, height, (Kruskal.cells width height), W.
  split_and!; [lia..|done|done| | |].
  - intros c. by rewrite elem_of_lattice_cells.
  - cbn [fst snd]. apply Forall_app. split.
    + by apply Forall_fmap, Forall_forall.
    + eapply Forall_impl; [exact Hout|]. by intros e [? _].
  - intros c. cbn [fst snd]. rewrite fmap_app, !elem_of_app.
    rewrite <- list_fmap_compose.
    assert ((fst ∘ (λ c : Node, (c, 1))) <$> Kruskal.cells width height
            = Kruskal.cells width height) as -> by apply list_fmap_id.
    split; [|intros [?|?]; auto].
    intros [?|(e & -> & He)%list_elem_of_fmap]; [by left|].
    rewrite Forall_forall in Hout. destruct (Hout e He) as [_ [?|?]]; [|by right].
    left. by apply elem_of_lattice_cells.
Qed.

(** The maze such a run leaves: one component, with the top-left corner as
    its first passage and the last cell of the lattice as its last one. *)
Lemma carved_tree_endpoints width height run :
  1 ≤ width → 1 ≤ height → carves_tree width height run →
  ∃ m, generated width height run = Some m
       ∧ one_component m
       ∧ passage_cell m (0, 0) ∧ passage_cell m (corner width height)
       ∧ first_passage m (0, 0) = (0, 0)
       ∧ first_passage m (Maze.w m - 1, Maze.h m - 1) = corner width height.
Proof.
  intros Hw Hh (w & h & V & W & Hw' & Hh' & Hcorner & Hg & Hall & Hout & Hin).
  destruct (carved_passages width height run)
    as (m & Hgen & Hmw & Hmh & Hpass); [lia|lia| |].
  { apply Forall_forall. intros e He. rewrite Forall_forall in Hout.
    split; [by apply Hout|].
    apply (DFSBacktrackerProofs.grown_inside w h width height V W);
      [done|lia|lia|].
    apply Hin. by apply list_elem_of_fmap_2. }
  assert (∀ c, passage_cell m c ↔ c ∈ V ++ W) as Hp.
  { intros c. by rewrite Hpass. }
  assert (spanning_tree w h m) as (_ & _ & Hone & _).
  { apply (grown_spanning_tree _ _ V W); [lia|lia|done|done|done]. }
  assert (∀ c, c ∈ V ++ W →
               0 ≤ c.1 ≤ (corner w h).1 ∧ 0 ≤ c.2 ≤ (corner w h).2) as Hbox.
  { assert (∀ c, cell w h c →
                 0 ≤ c.1 ≤ (corner w h).1 ∧ 0 ≤ c.2 ≤ (corner w h).2) as Hc.
    { intros [cx cy] (? & ? & ? & ?). unfold corner. simpl in *.
      Z.div_mod_to_equations. lia. }
    intros c [Hv|Hwall]%elem_of_app.
    - by apply Hc, (g_cells _ _ _ _ Hg).
    - destruct (g_walls _ _ _ _ Hg c Hwall) as (a & b & Ha & Hb & Hs & ->).
      apply (g_cells _ _ _ _ Hg), Hc in Ha.
      apply (g_cells _ _ _ _ Hg), Hc in Hb.
      destruct a as [ax ay], b as [bx by'], (corner w h) as [gx gy].
      unfold mid. cbn [fst snd] in *. Z.div_mod_to_equations. lia. }
  assert (passage_cell m (0, 0)) as Hps.
  { apply Hp, elem_of_app. left. apply (g_origin _ _ _ _ Hg). }
  assert (passage_cell m (corner w h)) as Hpg.
  { apply Hp, elem_of_app. left. apply Hall.
    unfold cell, corner. simpl. Z.div_mod_to_equations. lia. }
  exists m. split_and!; [done|done|done|by rewrite <- Hcorner| |].
  - apply first_passage_least; [done|].
    intros [cx cy] Hc%Hp%Hbox. simpl in Hc. unfold before. simpl.
    destruct (decide (cx = 0 ∧ cy = 0)) as [[-> ->]|?]; [by left|].
    right. lia.
  - rewrite <- Hcorner. apply first_passage_greatest; [done|].
    intros [cx cy] Hc%Hp%Hbox. unfold before.
    destruct (corner w h) as [gx gy]. cbn [fst snd] in *.
    destruct (decide (cx = gx ∧ cy = gy)) as [[-> ->]|?]; [by left|].
    right. lia.
Qed.

(** *** The theorem *)

(** [finds m start goal P run]: a solver's run returns right after a last
    snapshot that is a route from [start] to [goal] with property [P]. *)
Definition finds (m : Maze.t) (start goal : Node) (P : Path → Prop)
    (run : list Path * Stop) : Prop :=
  run.2 = Found
  ∧ ∃ p, last run.1 = Some p ∧ SolverProofs.route m start p goal ∧ P p.

(** Generate, then Solve.  The maze that DFS Backtracker, Prim's
    Algorithm or Randomised Kruskal leaves, for any width and height of at
    least 1 and any random draws, gets the top-left corner as its start and
    the last cell with two even coordinates as its goal, and on it every
    solver returns after a snapshot that is a route from the start to the
    goal; for BFS, Dijkstra and A-star no route between them is shorter. *)
Theorem generate_then_solve (width height : Z) (rng : list nat)
    (run : list Edit * list nat * Res unit) :
  1 ≤ width → 1 ≤ height →
  run ∈ [DFSBacktracker.__call__ width height rng;
         Prim.__call__ width height rng;
         Kruskal.__call__ width height rng] →
  ∃ m start goal,
    generated width height run = Some m
    ∧ start = first_passage m (0, 0) ∧ start = (0, 0)
    ∧ goal = first_passage m (Maze.w m - 1, Maze.h m - 1)
    ∧ goal = corner width height
    ∧ finds m start goal
        (λ p, ∀ q, SolverProofs.route m start q goal →
                   (length p ≤ length q)%nat)
        (BFS.__call__ m start goal)
    ∧ finds m start goal
        (λ p, ∀ q, SolverProofs.route m start q goal →
                   (length p ≤ length q)%nat)
        (Dijkstra.__call__ m start goal)
    ∧ finds m start goal
        (λ p, ∀ q, SolverProofs.route m start q goal →
                   (length p ≤ length q)%nat)
        (AStar.__call__ m start goal)
    ∧ finds m start goal (λ _, True) (DFS.__call__ m start goal).
Proof.
  intros Hw Hh Hrun.
  assert (carves_tree width height run) as Htree.
  { repeat (apply elem_of_cons in Hrun as [->|Hrun]);
      [by apply dfs_backtracker_carves_tree|by apply prim_carves_tree
      |by apply kruskal_carves_tree|by apply elem_of_nil in Hrun]. }
  destruct (carved_tree_endpoints width height run Hw Hh Htree)
    as (m & Hgen & [_ Hone] & Hps & Hpg & Hstart & Hgoal).
  exists m, (0, 0), (corner width height).
  assert (SolverProofs.reachable m (0, 0) (corner width height)) as Hreach.
  { apply SolverProofs.reachable_linked; [done|]. by apply Hone. }
  split_and!; try done.
  - destruct (SolverProofs.solver_spec_found _ _ _ _ _
                (SolverProofs.bfs_spec m (0, 0) (corner width height)) Hreach)
      as (? & p & ? & _ & ? & ?). split; [done|]. by exists p.
  - destruct (SolverProofs.solver_spec_found _ _ _ _ _
                (SolverProofs.dijkstra_spec m (0, 0) (corner width height))
                Hreach)
      as (? & p & ? & _ & ? & ?). split; [done|]. by exists p.
  - destruct (SolverProofs.solver_spec_found _ _ _ _ _
                (SolverProofs.astar_spec m (0, 0) (corner width height))
                Hreach)
      as (? & p & ? & _ & ? & ?). split; [done|]. by exists p.
  - destruct (SolverProofs.solver_spec_found _ _ _ _ _
                (SolverProofs.dfs_spec m (0, 0) (corner width height)) Hreach)
      as (? & p & ? & _ & ? & ?). split; [done|]. by exists p.
Qed.

Lemma generate_then_solve_witness :
  ∃ m start goal,
    generated 6 5 (Kruskal.__call__ 6 5 [3; 1; 4; 1; 5; 9; 2; 6]%nat) = Some m
    ∧ start = first_passage m (0, 0) ∧ start = (0, 0)
    ∧ goal = first_passage m (Maze.w m - 1, Maze.h m - 1)
    ∧ goal = corner 6 5
    ∧ finds m start goal
        (λ p, ∀ q, SolverProofs.route m start q goal →
                   (length p ≤ length q)%nat)
        (BFS.__call__ m start goal)
    ∧ finds m start goal
        (λ p, ∀ q, SolverProofs.route m start q goal →
                   (length p ≤ length q)%nat)
        (Dijkstra.__call__ m start goal)
    ∧ finds m start goal
        (λ p, ∀ q, SolverProofs.route m start q goal →
                   (length p ≤ length q)%nat)
        (AStar.__call__ m start goal)
    ∧ finds m start goal (λ _, True) (DFS.__call__ m start goal).
Proof.
  apply (generate_then_solve 6 5 [3; 1; 4; 1; 5; 9; 2; 6]%nat
           (Kruskal.__call__ 6 5 [3; 1; 4; 1; 5; 9; 2; 6]%nat)); [lia|lia|].
  right. right. left.
Defined.

End GenerateThenSolve.

(** ** The canvas *)

Module CanvasProofs.
Import GridCanvas.

(** The box of the circle [_draw_oval] puts into cell [xy]. *)
Definition oval_box (px pad : Z) (xy : Node) : Z * Z * Z * Z :=
  ((xy.1 + 1) * px + pad, (xy.2 + 1) * px + pad,
   (xy.1 + 2) * px - pad, (xy.2 + 2) * px - pad).

(** The box of the rectangle [_draw_rect] puts over cell [xy]. *)
Definition rect_box (px : Z) (xy : Node) : Z * Z * Z * Z :=
  ((xy.1 + 1) * px, (xy.2 + 1) * px, (xy.1 + 2) * px, (xy.2 + 2) * px).

Definition path_oval (px : Z) (xy : Node) : Item :=
  mkItem Oval (oval_box px 1 xy) PALETTE.path "path".

Definition visited_oval (px : Z) (xy : Node) : Item :=
  mkItem Oval (oval_box px 1 xy) PALETTE.visited "visited".

Lemma oval_box_inj px pad xy xy' :
  px ≠ 0 → oval_box px pad xy = oval_box px pad xy' → xy = xy'.
Proof.
  destruct xy as [x y], xy' as [x' y']. unfold oval_box. simpl.
  intros Hpx [= H1 H2 _ _]. f_equal; nia.
Qed.


(** An id names one item. *)
Lemma NoDup_fst_agree {A B} (l : list (A * B)) a b b' :
  NoDup l.*1 → (a, b) ∈ l → (a, b') ∈ l → b = b'.
Proof.
  induction l as [|[a0 b0] l IH]; simpl; [by intros _ ?%elem_of_nil|].
  intros [Hn Hl]%NoDup_cons H1%elem_of_cons H2%elem_of_cons.
  destruct H1 as [H1|H1], H2 as [H2|H2].
  - congruence.
  - injection H1 as -> ->. destruct Hn.
    by apply (list_elem_of_fmap_2 fst _ (a0, b')).
  - injection H2 as -> ->. destruct Hn.
    by apply (list_elem_of_fmap_2 fst _ (a0, b)).
  - by apply IH.
Qed.

(** *** What every call keeps *)

(** The ids on the display are pairwise different and older than the next
    one; each entry of the two dicts names the circle of its cell, and every
    circle with the tag is named by an entry. *)
Record cinv (c : t) : Prop := mk_cinv {
  i_px : 4 ≤ cell_px c ≤ 40;
  i_ids : NoDup (display c).*1;
  i_fresh : ∀ e, e ∈ display c → (e.1 < next_id c)%nat;
  i_path : ∀ xy i, _path_objects c !! xy = Some i →
                   (i, path_oval (cell_px c) xy) ∈ display c;
  i_path_only : ∀ e, e ∈ display c → tags e.2 = "path" →
                     ∃ xy, _path_objects c !! xy = Some e.1;
  i_visited : ∀ xy i, _visited_objects c !! xy = Some i →
                      (i, visited_oval (cell_px c) xy) ∈ display c;
  i_visited_only : ∀ e, e ∈ display c → tags e.2 = "visited" →
                        ∃ xy, _visited_objects c !! xy = Some e.1
}.

(** In addition the path circles are those of the current path, and every
    cell of the current path has its visited circle. *)
Definition Inv (c : t) : Prop :=
  cinv c
  ∧ dom (_path_objects c) = list_to_set (_current_path c)
  ∧ list_to_set (_current_path c) ⊆ dom (_visited_objects c).

Lemma cinv_init : cinv init.
Proof.
  split; simpl; try done; try (by intros e ?%elem_of_nil);
    try (unfold DEFAULT_CELL_PX; lia); constructor.
Qed.

Lemma cinv_create (it : Item) (c : t) :
  tags it ≠ "path" → tags it ≠ "visited" → cinv c → cinv (create it c).2.
Proof.
  intros Hp Hv [Hpx Hids Hfresh Hpath Hponly Hvis Hvonly].
  split; simpl; try done.
  - rewrite fmap_app. apply NoDup_app. split_and!; [done| |].
    + intros i (e & Hi & He)%list_elem_of_fmap Hin. simpl in Hin.
      apply list_elem_of_singleton in Hin. specialize (Hfresh e He). lia.
    + apply NoDup_singleton.
  - intros e [He| ->%list_elem_of_singleton]%elem_of_app; simpl; [|lia].
    specialize (Hfresh e He). lia.
  - intros xy i Hi. apply elem_of_app. left. by apply Hpath.
  - intros e [He| ->%list_elem_of_singleton]%elem_of_app Ht; [by apply Hponly|].
    done.
  - intros xy i Hi. apply elem_of_app. left. by apply Hvis.
  - intros e [He| ->%list_elem_of_singleton]%elem_of_app Ht; [by apply Hvonly|].
    done.
Qed.

(** Rearranging the display or removing items that are neither path nor
    visited circles. *)
Lemma cinv_display (c : t) (d : list (nat * Item)) :
  cinv c → NoDup d.*1 → (∀ e, e ∈ d → e ∈ display c) →
  (∀ e, e ∈ display c → tags e.2 = "path" ∨ tags e.2 = "visited" → e ∈ d) →
  cinv (set_display d c).
Proof.
  intros [Hpx Hids Hfresh Hpath Hponly Hvis Hvonly] Hd Hsub Hkeep.
  split; simpl; try done; auto.
Qed.

Lemma NoDup_fst_filter {A B} (P : A * B → Prop) `{∀ e, Decision (P e)}
    (l : list (A * B)) :
  NoDup l.*1 → NoDup (filter P l).*1.
Proof.
  induction l as [|e l IH]; [done|]. simpl. intros [Hn Hl]%NoDup_cons.
  rewrite filter_cons. destruct (decide (P e)); [|by apply IH].
  simpl. apply NoDup_cons. split; [|by apply IH].
  intros (e' & He & [_ Hin]%list_elem_of_filter)%list_elem_of_fmap.
  apply Hn. rewrite He. by apply list_elem_of_fmap_2.
Qed.

Lemma cinv_tag_raise (tag : string) (c : t) : cinv c → cinv (tag_raise tag c).
Proof.
  intros Hc. unfold tag_raise. apply cinv_display; [done| | |].
  - rewrite fmap_app. apply NoDup_app. split_and!.
    + apply NoDup_fst_filter, (i_ids _ Hc).
    + intros i (e & Hi & [Hn He]%list_elem_of_filter)%list_elem_of_fmap
               (e' & Heq & [Hm He']%list_elem_of_filter)%list_elem_of_fmap.
      destruct e as [j a], e' as [j' a']. simpl in Hi, Heq. subst j j'.
      rewrite (NoDup_fst_agree _ _ _ _ (i_ids _ Hc) He He') in Hn. done.
    + apply NoDup_fst_filter, (i_ids _ Hc).
  - by intros e [[_ ?]%list_elem_of_filter|[_ ?]%list_elem_of_filter]%elem_of_app.
  - intros e He _. apply elem_of_app.
    destruct (decide (matches (Tag tag) e));
      [right|left]; by apply list_elem_of_filter.
Qed.

Lemma cinv_delete_markers (c : t) : cinv c → cinv (delete [Tag "markers"] c).
Proof.
  intros Hc. unfold delete. apply cinv_display; [done| | |].
  - apply NoDup_fst_filter, (i_ids _ Hc).
  - by intros e [_ ?]%list_elem_of_filter.
  - intros e He Ht. apply list_elem_of_filter. split; [|done].
    constructor; [|constructor]. simpl. intros [?|Hm]; [done|].
    rewrite Hm in Ht. by destruct Ht.
Qed.

(** With the two dicts emptied nothing refers to the display any more. *)
Lemma cinv_cleared (c : t) (px : Z) (m : option Maze.t) (d : list (nat * Item)) :
  4 ≤ px ≤ 40 → NoDup d.*1 → (∀ e, e ∈ d → (e.1 < next_id c)%nat) →
  (∀ e, e ∈ d → tags e.2 ≠ "path" ∧ tags e.2 ≠ "visited") →
  cinv (mk px m ∅ ∅ [] d (next_id c)).
Proof.
  intros Hpx Hd Hfresh Htags. split; simpl; try done.
  - intros e He Ht. by destruct (Htags e He).
  - intros e He Ht. by destruct (Htags e He).
Qed.

Lemma reset_path_cinv (c : t) :
  4 ≤ cell_px c ≤ 40 → NoDup (display c).*1 →
  (∀ e, e ∈ display c → (e.1 < next_id c)%nat) →
  cinv (reset_path c)
  ∧ _path_objects (reset_path c) = ∅ ∧ _visited_objects (reset_path c) = ∅
  ∧ _current_path (reset_path c) = [] ∧ cell_px (reset_path c) = cell_px c.
Proof.
  intros Hpx Hids Hfresh. split; [|done].
  apply (cinv_cleared c); [done| | |].
  - by apply NoDup_fst_filter.
  - intros e [_ He]%list_elem_of_filter. by apply Hfresh.
  - intros e [Hk _]%list_elem_of_filter.
    apply Forall_cons in Hk as [H1 Hk]. apply Forall_cons in Hk as [H2 _].
    simpl in H1, H2. split; intros Ht; [apply H1|apply H2]; by right.
Qed.

(** A canvas whose overlays are empty. *)
Definition blank (px : Z) (c : t) : Prop :=
  cinv c ∧ _path_objects c = ∅ ∧ _visited_objects c = ∅
  ∧ _current_path c = [] ∧ cell_px c = px.

Lemma blank_create px it c :
  tags it ≠ "path" → tags it ≠ "visited" → blank px c →
  blank px (create it c).2.
Proof.
  intros Hp Hv (Hc & ? & ? & ? & ?). split; [by apply cinv_create|done].
Qed.

Lemma blank_foldl {A} px (f : t → A → t) (l : list A) (c : t) :
  (∀ c a, blank px c → blank px (f c a)) → blank px c →
  blank px (foldl f c l).
Proof.
  intros Hf. revert c. induction l as [|a l IH]; intros c Hc; [done|].
  simpl. apply IH. by apply Hf.
Qed.

Lemma draw_maze_blank (m : Maze.t) (c : t) :
  4 ≤ cell_px c ≤ 40 → NoDup (display c).*1 →
  (∀ e, e ∈ display c → (e.1 < next_id c)%nat) →
  blank (cell_px c) (draw_maze m c).
Proof.
  intros Hpx Hids Hfresh. unfold draw_maze.
  apply blank_foldl.
  { intros c1 y Hc1. apply blank_foldl; [|done].
    intros c2 x Hc2. destruct Hc2 as (? & ? & ? & ? & Hpx2).
    unfold _draw_rect. by apply blank_create. }
  apply blank_create; [done..|].
  split; [|done].
  apply (cinv_cleared c); [done| | |].
  - by apply NoDup_fst_filter, NoDup_fst_filter.
  - intros e [_ [_ He]%list_elem_of_filter]%list_elem_of_filter.
    by apply Hfresh.
  - intros e [Hk _]%list_elem_of_filter.
    apply Forall_cons in Hk as [H1 _]. destruct H1. by left.
Qed.

Lemma blank_Inv px c : blank px c → Inv c.
Proof.
  intros (Hc & Hp & Hv & Hcur & _). split; [done|].
  rewrite Hp, Hv, Hcur. set_solver.
Qed.

Lemma draw_cell_cinv x y tag colour c :
  tag ≠ "path" → tag ≠ "visited" → cinv c →
  ∃ c', draw_cell x y tag (Some colour) c = Ok c'
        ∧ cinv c'
        ∧ _path_objects c' = _path_objects c
        ∧ _visited_objects c' = _visited_objects c
        ∧ _current_path c' = _current_path c
        ∧ cell_px c' = cell_px c.
Proof.
  intros Hp Hv Hc. eexists. split; [reflexivity|].
  split; [|done]. by apply cinv_create.
Qed.

Lemma draw_markers_cinv start goal c :
  cinv c →
  cinv (draw_markers start goal c)
  ∧ _path_objects (draw_markers start goal c) = _path_objects c
  ∧ _visited_objects (draw_markers start goal c) = _visited_objects c
  ∧ _current_path (draw_markers start goal c) = _current_path c
  ∧ cell_px (draw_markers start goal c) = cell_px c.
Proof.
  intros Hc. destruct start as [sx sy], goal as [gx gy].
  split; [|done]. unfold draw_markers. cbn [foldl].
  apply cinv_tag_raise. unfold _draw_oval.
  apply cinv_create; [done..|]. apply cinv_create; [done..|].
  by apply cinv_delete_markers.
Qed.

(** *** [draw_path] *)

Lemma add_visited_cinv xy c :
  cinv c →
  cinv (add_visited_cell xy.1 xy.2 None c)
  ∧ dom (_visited_objects (add_visited_cell xy.1 xy.2 None c))
    = dom (_visited_objects c) ∪ {[xy]}
  ∧ _path_objects (add_visited_cell xy.1 xy.2 None c) = _path_objects c
  ∧ _current_path (add_visited_cell xy.1 xy.2 None c) = _current_path c
  ∧ cell_px (add_visited_cell xy.1 xy.2 None c) = cell_px c.
Proof.
  intros Hc. destruct xy as [x y]. unfold add_visited_cell. cbn [fst snd].
  case_bool_decide as Hseen.
  { split; [done|]. split; [|done].
    apply elem_of_dom in Hseen. set_solver. }
  assert (_visited_objects c !! (x, y) = None) as Hnone.
  { destruct (_visited_objects c !! (x, y)) eqn:E; [|done].
    destruct Hseen. eauto. }
  cbn. split; [|split; [by rewrite dom_insert_L, (comm_L (∪))|done]].
  destruct Hc as [Hpx Hids Hfresh Hpath Hponly Hvis Hvonly].
  split; cbn.
  - done.
  - rewrite fmap_app. apply NoDup_app. split_and!; [done| |].
    + intros i (e & Hi & He)%list_elem_of_fmap Hin. simpl in Hin.
      apply list_elem_of_singleton in Hin. specialize (Hfresh e He). lia.
    + apply NoDup_singleton.
  - intros e [He| ->%list_elem_of_singleton]%elem_of_app; simpl; [|lia].
    specialize (Hfresh e He). lia.
  - intros xy i Hi. apply elem_of_app. left. by apply Hpath.
  - intros e [He| ->%list_elem_of_singleton]%elem_of_app Ht; [by apply Hponly|].
    done.
  - intros xy i. destruct (decide (xy = (x, y))) as [->|Hne].
    + rewrite lookup_insert_eq. intros [= <-]. apply elem_of_app. right. left.
    + rewrite lookup_insert_ne by done. intros Hi.
      apply elem_of_app. left. by apply Hvis.
  - intros e [He| ->%list_elem_of_singleton]%elem_of_app Ht.
    + destruct (Hvonly e He Ht) as [xy Hxy]. exists xy.
      rewrite lookup_insert_ne; [done|]. intros <-. congruence.
    + exists (x, y). by rewrite lookup_insert_eq.
Qed.

(** The bodies of the three loops of [draw_path]. *)
Definition visit_step (c : t) (xy : Node) : t :=
  add_visited_cell xy.1 xy.2 None c.

Definition drop_step (c : t) (xy : Node) : t :=
  match _path_objects c !! xy with
  | Some obj_id =>
      delete [Id obj_id]
             (set_path_objects (base.delete xy (_path_objects c)) c)
  | None => c
  end.

Definition add_step (c : t) (xy : Node) : t :=
  let '(obj_id, c) := _draw_oval xy.1 xy.2 PALETTE.path 1 "path" c in
  set_path_objects (<[xy := obj_id]> (_path_objects c)) c.

Lemma add_path_cinv xy c :
  cinv c → _path_objects c !! xy = None →
  cinv (add_step c xy)
  ∧ _path_objects (add_step c xy) = <[xy := next_id c]> (_path_objects c)
  ∧ _visited_objects (add_step c xy) = _visited_objects c
  ∧ _current_path (add_step c xy) = _current_path c
  ∧ cell_px (add_step c xy) = cell_px c.
Proof.
  intros Hc Hnone. unfold add_step. cbn. split; [|done].
  destruct Hc as [Hpx Hids Hfresh Hpath Hponly Hvis Hvonly].
  split; cbn.
  - done.
  - rewrite fmap_app. apply NoDup_app. split_and!; [done| |].
    + intros i (e & Hi & He)%list_elem_of_fmap Hin. simpl in Hin.
      apply list_elem_of_singleton in Hin. specialize (Hfresh e He). lia.
    + apply NoDup_singleton.
  - intros e [He| ->%list_elem_of_singleton]%elem_of_app; simpl; [|lia].
    specialize (Hfresh e He). lia.
  - intros xy' i. destruct (decide (xy' = xy)) as [->|Hne].
    + rewrite lookup_insert_eq. intros [= <-]. apply elem_of_app. right.
      destruct xy. left.
    + rewrite lookup_insert_ne by done. intros Hi.
      apply elem_of_app. left. by apply Hpath.
  - intros e [He| ->%list_elem_of_singleton]%elem_of_app Ht.
    + destruct (Hponly e He Ht) as [xy' Hxy]. exists xy'.
      rewrite lookup_insert_ne; [done|]. intros <-. congruence.
    + exists xy. by rewrite lookup_insert_eq.
  - intros xy' i Hi. apply elem_of_app. left. by apply Hvis.
  - intros e [He| ->%list_elem_of_singleton]%elem_of_app Ht; [by apply Hvonly|].
    done.
Qed.

Lemma drop_path_cinv xy i c :
  cinv c → _path_objects c !! xy = Some i →
  cinv (delete [Id i] (set_path_objects (base.delete xy (_path_objects c)) c)).
Proof.
  intros Hc Hi. pose proof Hc as [Hpx Hids Hfresh Hpath Hponly Hvis Hvonly].
  assert (∀ e, e ∈ filter (λ e, Forall (λ k, ¬ matches k e) [Id i]) (display c)
               ↔ e ∈ display c ∧ e.1 ≠ i) as Hin.
  { intros e. rewrite list_elem_of_filter, Forall_cons, Forall_nil. simpl.
    tauto. }
  split; cbn.
  - done.
  - by apply NoDup_fst_filter.
  - intros e [He _]%Hin. by apply Hfresh.
  - intros xy' i' Hi'. apply lookup_delete_Some in Hi' as [Hne Hi'].
    apply Hin. split; [by apply Hpath|]. simpl. intros ->.
    pose proof (NoDup_fst_agree _ _ _ _ Hids (Hpath _ _ Hi) (Hpath _ _ Hi'))
      as Heq. apply (f_equal coords) in Heq. cbn [coords path_oval] in Heq.
    apply oval_box_inj in Heq; [by apply Hne|lia].
  - intros e [He Hne]%Hin Ht. destruct (Hponly e He Ht) as [xy' Hxy'].
    exists xy'. apply lookup_delete_Some. split; [|done].
    intros <-. congruence.
  - intros xy' i' Hi'. apply Hin. split; [by apply Hvis|]. simpl. intros ->.
    pose proof (NoDup_fst_agree _ _ _ _ Hids (Hpath _ _ Hi) (Hvis _ _ Hi')).
    done.
  - intros e [He Hne]%Hin Ht. by apply Hvonly.
Qed.

Section iteration.
Variable iter_set : gset Node → list Node.
Hypothesis iter_set_elem : ∀ (X : gset Node) xy, xy ∈ iter_set X ↔ xy ∈ X.
Hypothesis iter_set_NoDup : ∀ X : gset Node, NoDup (iter_set X).

Lemma visit_loop (l : list Node) (c : t) :
  cinv c →
  cinv (foldl visit_step c l)
  ∧ dom (_visited_objects (foldl visit_step c l))
    = dom (_visited_objects c) ∪ list_to_set l
  ∧ _path_objects (foldl visit_step c l) = _path_objects c
  ∧ _current_path (foldl visit_step c l) = _current_path c
  ∧ cell_px (foldl visit_step c l) = cell_px c.
Proof.
  revert c. induction l as [|xy l IH]; intros c Hc.
  { simpl. split; [done|]. split; [set_solver|done]. }
  cbn [foldl].
  destruct (add_visited_cinv xy c Hc) as (Hc1 & Hd1 & Hp1 & Hcur1 & Hpx1).
  fold (visit_step c xy) in *.
  destruct (IH _ Hc1) as (Hc2 & Hd2 & Hp2 & Hcur2 & Hpx2).
  split; [done|].
  rewrite Hd2, Hd1, Hp2, Hp1, Hcur2, Hcur1, Hpx2, Hpx1.
  split; [set_solver|done].
Qed.

Lemma drop_loop (l : list Node) (c : t) :
  cinv c →
  cinv (foldl drop_step c l)
  ∧ dom (_path_objects (foldl drop_step c l))
    = dom (_path_objects c) ∖ list_to_set l
  ∧ _visited_objects (foldl drop_step c l) = _visited_objects c
  ∧ _current_path (foldl drop_step c l) = _current_path c
  ∧ cell_px (foldl drop_step c l) = cell_px c.
Proof.
  revert c. induction l as [|xy l IH]; intros c Hc.
  { simpl. split; [done|]. split; [set_solver|done]. }
  cbn [foldl].
  assert (cinv (drop_step c xy)
          ∧ dom (_path_objects (drop_step c xy))
            = dom (_path_objects c) ∖ {[xy]}
          ∧ _visited_objects (drop_step c xy) = _visited_objects c
          ∧ _current_path (drop_step c xy) = _current_path c
          ∧ cell_px (drop_step c xy) = cell_px c)
    as (Hc1 & Hd1 & Hv1 & Hcur1 & Hpx1).
  { unfold drop_step. destruct (_path_objects c !! xy) as [i|] eqn:Hi.
    - split; [by apply drop_path_cinv|]. cbn.
      split; [by rewrite dom_delete_L|done].
    - split; [done|]. split; [|done].
      apply not_elem_of_dom in Hi. set_solver. }
  destruct (IH _ Hc1) as (Hc2 & Hd2 & Hv2 & Hcur2 & Hpx2).
  split; [done|].
  rewrite Hd2, Hv2, Hcur2, Hpx2, Hd1, Hv1, Hcur1, Hpx1.
  split; [set_solver|done].
Qed.

Lemma add_loop (l : list Node) (c : t) :
  cinv c → NoDup l → (∀ xy, xy ∈ l → _path_objects c !! xy = None) →
  cinv (foldl add_step c l)
  ∧ dom (_path_objects (foldl add_step c l))
    = dom (_path_objects c) ∪ list_to_set l
  ∧ _visited_objects (foldl add_step c l) = _visited_objects c
  ∧ _current_path (foldl add_step c l) = _current_path c
  ∧ cell_px (foldl add_step c l) = cell_px c.
Proof.
  revert c. induction l as [|xy l IH]; intros c Hc Hl Hnew.
  { simpl. split; [done|]. split; [set_solver|done]. }
  apply NoDup_cons in Hl as [Hxy Hl]. cbn [foldl].
  destruct (add_path_cinv xy c Hc) as (Hc1 & Hp1 & Hv1 & Hcur1 & Hpx1).
  { apply Hnew. left. }
  destruct (IH _ Hc1 Hl) as (Hc2 & Hd2 & Hv2 & Hcur2 & Hpx2).
  { intros xy' Hxy'. rewrite Hp1, lookup_insert_ne; [|by intros <-].
    apply Hnew. by right. }
  split; [done|].
  rewrite Hd2, Hv2, Hcur2, Hpx2, Hp1, Hv1, Hcur1, Hpx1.
  split; [|done]. rewrite dom_insert_L. set_solver.
Qed.

Lemma draw_path_eq (cells : list Node) (c : t) :
  draw_path iter_set cells c
  = let prev : gset Node := list_to_set (_current_path c) in
    let curr : gset Node := list_to_set cells in
    tag_raise "markers"
      (set_current_path cells
         (foldl add_step
            (foldl drop_step
               (foldl visit_step c (iter_set (curr ∖ prev)))
               (iter_set (prev ∖ curr)))
            (iter_set (curr ∖ prev)))).
Proof. reflexivity. Qed.

(** [draw_path] keeps the overlays in step with the path it is given. *)
Lemma draw_path_Inv (cells : list Node) (c : t) :
  Inv c →
  Inv (draw_path iter_set cells c)
  ∧ _current_path (draw_path iter_set cells c) = cells
  ∧ dom (_visited_objects (draw_path iter_set cells c))
    = dom (_visited_objects c) ∪ list_to_set cells
  ∧ cell_px (draw_path iter_set cells c) = cell_px c.
Proof.
  intros (Hc & Hcur & Hseen). rewrite draw_path_eq. cbn zeta.
  set (prev := list_to_set (_current_path c) : gset Node) in *.
  set (curr := list_to_set cells : gset Node).
  destruct (visit_loop (iter_set (curr ∖ prev)) c Hc)
    as (Hc1 & Hd1 & Hp1 & Hcur1 & Hpx1).
  set (c1 := foldl visit_step c (iter_set (curr ∖ prev))) in *.
  destruct (drop_loop (iter_set (prev ∖ curr)) c1 Hc1)
    as (Hc2 & Hd2 & Hv2 & Hcur2 & Hpx2).
  set (c2 := foldl drop_step c1 (iter_set (prev ∖ curr))) in *.
  assert (dom (_path_objects c2) = prev ∩ curr) as Hdom2.
  { rewrite Hd2, Hp1, Hcur. apply set_eq. intros xy.
    rewrite elem_of_difference, elem_of_list_to_set, iter_set_elem.
    destruct (decide (xy ∈ curr)); set_solver. }
  destruct (add_loop (iter_set (curr ∖ prev)) c2 Hc2)
    as (Hc3 & Hd3 & Hv3 & Hcur3 & Hpx3); [apply iter_set_NoDup| |].
  { intros xy Hxy%iter_set_elem. apply not_elem_of_dom. rewrite Hdom2.
    set_solver. }
  set (c3 := foldl add_step c2 (iter_set (curr ∖ prev))) in *.
  assert (dom (_path_objects c3) = curr) as Hdom3.
  { rewrite Hd3, Hdom2. apply set_eq. intros xy.
    rewrite elem_of_union, elem_of_list_to_set, iter_set_elem.
    destruct (decide (xy ∈ prev)); set_solver. }
  assert (dom (_visited_objects c3) = dom (_visited_objects c) ∪ curr)
    as Hvis3.
  { rewrite Hv3, Hv2, Hd1. apply set_eq. intros xy.
    rewrite !elem_of_union, elem_of_list_to_set, iter_set_elem.
    destruct (decide (xy ∈ prev)); set_solver. }
  split_and!.
  - split; [|split].
    + apply cinv_tag_raise.
      destruct Hc3 as [? ? ? ? ? ? ?]. by split.
    + done.
    + cbn. rewrite Hvis3. set_solver.
  - done.
  - done.
  - cbn. by rewrite Hpx3, Hpx2, Hpx1.
Qed.

(** *** Any session *)

(** The calls [MazeApp] makes to its canvas: from [generate], [solve] and
    [job], and, through [_auto_scale], whenever the window is resized. *)
Inductive Call :=
| reset_path_call
| draw_maze_call (m : Maze.t)
| draw_cell_call (x y : Z) (colour : string)
| draw_path_call (cells : list Node)
| draw_markers_call (start goal : Node)
| tag_raise_markers_call
| auto_scale_call (maze : option Maze.t) (start goal : Node)
                  (winfo_width winfo_height : Z).

Definition perform (c : t) (k : Call) : t :=
  match k with
  | reset_path_call => reset_path c
  | draw_maze_call m => draw_maze m c
  | draw_cell_call x y colour =>
      match draw_cell x y "gen" (Some colour) c with
      | Ok c' => c'
      | _ => c
      end
  | draw_path_call cells => draw_path iter_set cells c
  | draw_markers_call start goal => draw_markers start goal c
  | tag_raise_markers_call => tag_raise "markers" c
  | auto_scale_call maze start goal winfo_width winfo_height =>
      Resizing._auto_scale maze start goal winfo_width winfo_height c
  end.

Lemma Inv_same (c c' : t) :
  Inv c → cinv c' → _path_objects c' = _path_objects c →
  _visited_objects c' = _visited_objects c →
  _current_path c' = _current_path c → Inv c'.
Proof.
  intros (_ & ? & ?) Hc' Hp Hv Hcur. unfold Inv. by rewrite Hp, Hv, Hcur.
Qed.

Lemma auto_scale_Inv maze start goal winfo_width winfo_height c :
  Inv c →
  Inv (Resizing._auto_scale maze start goal winfo_width winfo_height c).
Proof.
  intros Hc. unfold Resizing._auto_scale. destruct maze as [m|]; [|done].
  case_bool_decide; [done|]. case_bool_decide; [|done].
  set (optimal := Z.max 4 _).
  destruct Hc as (Hc & _ & _).
  destruct (draw_maze_blank m (set_cell_px optimal c))
    as (Hc1 & Hp1 & Hv1 & Hcur1 & Hpx1).
  { cbn. subst optimal. lia. }
  { apply (i_ids _ Hc). }
  { apply (i_fresh _ Hc). }
  destruct (draw_markers_cinv start goal _ Hc1) as (Hc2 & Hp2 & Hv2 & Hcur2 & _).
  split; [done|]. rewrite Hp2, Hv2, Hcur2, Hp1, Hv1, Hcur1. set_solver.
Qed.

Lemma perform_Inv (c : t) (k : Call) : Inv c → Inv (perform c k).
Proof.
  intros Hc. pose proof Hc as (Hcinv & _ & _). destruct k; simpl.
  - destruct (reset_path_cinv c)
      as (Hc1 & Hp1 & Hv1 & Hcur1 & _);
      [apply (i_px _ Hcinv)|apply (i_ids _ Hcinv)|apply (i_fresh _ Hcinv)|].
    split; [done|]. rewrite Hp1, Hv1, Hcur1. set_solver.
  - eapply blank_Inv, draw_maze_blank;
      [apply (i_px _ Hcinv)|apply (i_ids _ Hcinv)|apply (i_fresh _ Hcinv)].
  - eapply (Inv_same c); [done| |done..]. by apply cinv_create.
  - by apply draw_path_Inv.
  - destruct (draw_markers_cinv start goal c Hcinv) as (? & ? & ? & ? & _).
    by eapply (Inv_same c).
  - eapply (Inv_same c); [done| |done..]. by apply cinv_tag_raise.
  - by apply auto_scale_Inv.
Qed.

Lemma session_Inv (calls : list Call) : Inv (foldl perform init calls).
Proof.
  induction calls as [|k calls IH] using rev_ind.
  - split; [apply cinv_init|]. simpl. set_solver.
  - rewrite foldl_app. simpl. by apply perform_Inv.
Qed.

End iteration.

(** The circles of an overlay, as their boxes. *)
Definition circles (tag : string) (c : t) : list (Z * Z * Z * Z) :=
  (λ e, coords e.2) <$> filter (λ e, tags e.2 = tag) (display c).

Lemma cinv_overlay (c : t) (tag : string) (objects : gmap Node nat)
    (oval : Node → Item) :
  cell_px c ≠ 0 → NoDup (display c).*1 →
  (∀ xy, coords (oval xy) = oval_box (cell_px c) 1 xy) →
  (∀ xy i, objects !! xy = Some i → (i, oval xy) ∈ display c) →
  (∀ xy, tags (oval xy) = tag) →
  (∀ e, e ∈ display c → tags e.2 = tag → ∃ xy, objects !! xy = Some e.1) →
  circles tag c ≡ₚ oval_box (cell_px c) 1 <$> elements (dom objects).
Proof.
  intros Hpx Hids Hcoords Hobj Htag Honly.
  assert (∀ e, e ∈ display c → tags e.2 = tag →
               ∃ xy, objects !! xy = Some e.1 ∧ e.2 = oval xy) as Hitem.
  { intros [i it] He Ht. destruct (Honly _ He Ht) as [xy Hxy].
    exists xy. split; [done|]. simpl in *.
    exact (NoDup_fst_agree _ _ _ _ Hids He (Hobj _ _ Hxy)). }
  apply NoDup_Permutation.
  - apply NoDup_fmap_2_strong.
    + intros [i it] [i' it'] [Ht He]%list_elem_of_filter
             [Ht' He']%list_elem_of_filter Heq. simpl in *.
      destruct (Hitem _ He Ht) as (xy & Hxy & Hit).
      destruct (Hitem _ He' Ht') as (xy' & Hxy' & Hit'). simpl in *.
      subst it it'.
      rewrite !Hcoords in Heq. apply oval_box_inj in Heq; [|done].
      subst xy'. congruence.
    + apply NoDup_filter. by apply NoDup_fmap_1 in Hids.
  - apply NoDup_fmap_2_strong; [|apply NoDup_elements].
    intros xy xy' _ _ Heq. by apply oval_box_inj in Heq.
  - intros box. unfold circles. rewrite !list_elem_of_fmap. split.
    + intros (e & -> & [Ht He]%list_elem_of_filter).
      destruct (Hitem _ He Ht) as (xy & Hxy & Hit).
      exists xy. split; [by rewrite Hit, Hcoords|].
      apply elem_of_elements, elem_of_dom. eauto.
    + intros (xy & -> & [i Hi]%elem_of_elements%elem_of_dom).
      exists (i, oval xy). split; [simpl; by rewrite Hcoords|].
      apply list_elem_of_filter. split; [apply Htag|by apply Hobj].
Qed.

(** The overlays always match the bookkeeping.  Whatever calls the
    application has made to its canvas, in whatever order Python iterates
    over its sets: the circles tagged "path" are one for every distinct
    cell of the path drawn last, the circles tagged "visited" one for
    every key of [_visited_objects], which include the cells of the current
    path; no two items share an id, and the cell size stays between 4 and
    40 pixels. *)
Theorem canvas_overlays (iter_set : gset Node → list Node)
    (calls : list Call) :
  (∀ (X : gset Node) xy, xy ∈ iter_set X ↔ xy ∈ X) →
  (∀ X : gset Node, NoDup (iter_set X)) →
  let c := foldl (perform iter_set) init calls in
  circles "path" c
    ≡ₚ oval_box (cell_px c) 1
         <$> elements (list_to_set (_current_path c) : gset Node)
  ∧ circles "visited" c
    ≡ₚ oval_box (cell_px c) 1 <$> elements (dom (_visited_objects c))
  ∧ (∀ xy, xy ∈ _current_path c → xy ∈ dom (_visited_objects c))
  ∧ NoDup (display c).*1
  ∧ 4 ≤ cell_px c ≤ 40.
Proof.
  intros Helem Hnodup c.
  destruct (session_Inv iter_set Helem Hnodup calls) as (Hc & Hcur & Hseen).
  fold c in Hc, Hcur, Hseen.
  pose proof (i_px _ Hc) as Hpx.
  split_and!; [| | |apply (i_ids _ Hc)|lia|lia].
  - rewrite <- Hcur.
    apply (cinv_overlay c "path" _ (path_oval (cell_px c)));
      [lia|apply (i_ids _ Hc)|done|apply (i_path _ Hc)|done
      |apply (i_path_only _ Hc)].
  - apply (cinv_overlay c "visited" _ (visited_oval (cell_px c)));
      [lia|apply (i_ids _ Hc)|done|apply (i_visited _ Hc)|done
      |apply (i_visited_only _ Hc)].
  - intros xy Hxy. apply Hseen. by apply elem_of_list_to_set.
Qed.

Lemma canvas_overlays_witness :
  let c :=
    foldl (perform elements) init
          [draw_maze_call (Maze.mk 3 2 [[0; 1; 1]; [1; 0; 0]]);
           draw_markers_call (1, 0) (0, 1); reset_path_call;
           draw_path_call [(1, 0)]; draw_path_call [(1, 0); (2, 0)];
           auto_scale_call (Some (Maze.mk 3 2 [[0; 1; 1]; [1; 0; 0]]))
                           (1, 0) (0, 1) 300 200;
           draw_path_call [(1, 0); (2, 0)]] in
  circles "path" c
    ≡ₚ oval_box (cell_px c) 1
         <$> elements (list_to_set (_current_path c) : gset Node)
  ∧ circles "visited" c
    ≡ₚ oval_box (cell_px c) 1 <$> elements (dom (_visited_objects c))
  ∧ (∀ xy, xy ∈ _current_path c → xy ∈ dom (_visited_objects c))
  ∧ NoDup (display c).*1
  ∧ 4 ≤ cell_px c ≤ 40.
Proof.
  apply (canvas_overlays elements).
  - intros X xy. apply elem_of_elements.
  - intros X. apply NoDup_elements.
Defined.

(** *** A solve run *)

Section solve_run.
Variable iter_set : gset Node → list Node.
Hypothesis iter_set_elem : ∀ (X : gset Node) xy, xy ∈ iter_set X ↔ xy ∈ X.
Hypothesis iter_set_NoDup : ∀ X : gset Node, NoDup (iter_set X).

Lemma draw_paths_Inv (paths : list (list Node)) (c : t) :
  Inv c →
  let c' := foldl (λ c p, draw_path iter_set p c) c paths in
  Inv c'
  ∧ _current_path c' = default (_current_path c) (last paths)
  ∧ dom (_visited_objects c')
    = dom (_visited_objects c) ∪ ⋃ (list_to_set <$> paths)
  ∧ cell_px c' = cell_px c.
Proof.
  revert c. induction paths as [|p paths IH] using rev_ind; intros c Hc.
  { simpl. split_and!; try done. set_solver. }
  cbn zeta. rewrite foldl_app. cbn [foldl].
  destruct (IH c Hc) as (Hc1 & Hcur1 & Hv1 & Hpx1). cbn zeta in *.
  destruct (draw_path_Inv iter_set iter_set_elem iter_set_NoDup p _ Hc1)
    as (Hc2 & Hcur2 & Hv2 & Hpx2).
  split_and!; [done| | |congruence].
  - by rewrite Hcur2, last_snoc.
  - rewrite Hv2, Hv1, fmap_app, union_list_app_L. simpl. set_solver.
Qed.

End solve_run.

(** The overlays after a solve run.  [solve] resets the overlays and [job]
    hands every snapshot to [draw_path]: afterwards the canvas shows one
    path circle for every cell of the last snapshot and one visited circle
    for every cell that has been on some snapshot, whatever was on the
    canvas before. *)
Theorem solve_run_overlays (iter_set : gset Node → list Node)
    (calls : list Call) (paths : list (list Node)) :
  (∀ (X : gset Node) xy, xy ∈ iter_set X ↔ xy ∈ X) →
  (∀ X : gset Node, NoDup (iter_set X)) →
  let c0 := foldl (perform iter_set) init calls in
  let c := foldl (λ c p, draw_path iter_set p c) (reset_path c0) paths in
  circles "path" c
    ≡ₚ oval_box (cell_px c0) 1
         <$> elements (list_to_set (default [] (last paths)) : gset Node)
  ∧ circles "visited" c
    ≡ₚ oval_box (cell_px c0) 1
         <$> elements (⋃ (list_to_set <$> paths) : gset Node).
Proof.
  intros Helem Hnodup c0 c.
  pose proof (session_Inv iter_set Helem Hnodup (calls ++ [reset_path_call]))
    as Hreset.
  rewrite foldl_app in Hreset. cbn [foldl perform] in Hreset. fold c0 in Hreset.
  destruct (draw_paths_Inv iter_set Helem Hnodup paths _ Hreset)
    as ((Hc & Hdom & _) & Hcur & Hv & Hpx).
  cbn zeta in *. fold c in Hc, Hdom, Hcur, Hv, Hpx.
  change (cell_px (reset_path c0)) with (cell_px c0) in Hpx.
  change (_current_path (reset_path c0)) with (@nil Node) in Hcur.
  change (_visited_objects (reset_path c0)) with (∅ : gmap Node nat) in Hv.
  pose proof (i_px _ Hc) as Hbounds.
  rewrite <- Hpx, <- Hcur. split.
  - rewrite <- Hdom.
    apply (cinv_overlay c "path" _ (path_oval (cell_px c)));
      [lia|apply (i_ids _ Hc)|done|apply (i_path _ Hc)|done
      |apply (i_path_only _ Hc)].
  - replace (⋃ (list_to_set <$> paths) : gset Node)
      with (dom (_visited_objects c)) by (rewrite Hv; set_solver).
    apply (cinv_overlay c "visited" _ (visited_oval (cell_px c)));
      [lia|apply (i_ids _ Hc)|done|apply (i_visited _ Hc)|done
      |apply (i_visited_only _ Hc)].
Qed.

Lemma solve_run_overlays_witness :
  let c0 :=
    foldl (perform elements) init
          [draw_maze_call (Maze.mk 3 2 [[0; 1; 1]; [1; 0; 0]]);
           draw_markers_call (1, 0) (2, 0)] in
  let c :=
    foldl (λ c p, draw_path elements p c) (reset_path c0)
          [[(1, 0)]; [(1, 0); (2, 0)]] in
  circles "path" c
    ≡ₚ oval_box (cell_px c0) 1
         <$> elements (list_to_set
                         (default [] (last [[(1, 0)]; [(1, 0); (2, 0)]]))
                       : gset Node)
  ∧ circles "visited" c
    ≡ₚ oval_box (cell_px c0) 1
         <$> elements (⋃ (list_to_set <$> [[(1, 0)]; [(1, 0); (2, 0)]])
                       : gset Node).
Proof.
  apply (solve_run_overlays elements).
  - intros X xy. apply elem_of_elements.
  - intros X. apply NoDup_elements.
Defined.

(** *** What the canvas shows while a maze is generated *)


Definition cell_colour (v : Z) : string :=
  if bool_decide (v ≠ 0) then PALETTE.passage else PALETTE.wall.

Definition cell_rect (px : Z) (m : Maze.t) (xy : Node) : Item :=
  mkItem Rectangle (rect_box px xy)
         (cell_colour (Maze.get (Maze.grid m) xy.1 xy.2)) "".


Lemma row_display (m : Maze.t) (y : Z) (xs : list Z) (c : t) :
  let c' :=
    foldl (λ c x,
             let colour :=
               if bool_decide (Maze.get (Maze.grid m) x y ≠ 0)
               then PALETTE.passage else PALETTE.wall in
             (_draw_rect x y colour "" c).2) c xs in
  (display c').*2
  = (display c).*2 ++ ((λ x, cell_rect (cell_px c) m (x, y)) <$> xs)
  ∧ cell_px c' = cell_px c.
Proof.
  revert c. induction xs as [|x xs IH]; intros c.
  { simpl. by rewrite app_nil_r. }
  cbn zeta. cbn [foldl]. destruct (IH (_draw_rect x y
      (if bool_decide (Maze.get (Maze.grid m) x y ≠ 0)
       then PALETTE.passage else PALETTE.wall) "" c).2) as [Hd Hpx].
  cbn zeta in Hd, Hpx. rewrite Hd, Hpx. cbn.
  split; [|done]. by rewrite fmap_app, <- app_assoc.
Qed.

Lemma rows_display (m : Maze.t) (xs ys : list Z) (c : t) :
  let c' :=
    foldl (λ c y,
             foldl (λ c x,
                      let colour :=
                        if bool_decide (Maze.get (Maze.grid m) x y ≠ 0)
                        then PALETTE.passage else PALETTE.wall in
                      (_draw_rect x y colour "" c).2) c xs) c ys in
  (display c').*2
  = (display c).*2
    ++ (ys ≫= λ y, (λ x, cell_rect (cell_px c) m (x, y)) <$> xs)
  ∧ cell_px c' = cell_px c.
Proof.
  revert c. induction ys as [|y ys IH]; intros c.
  { simpl. by rewrite app_nil_r. }
  cbn zeta. cbn [foldl].
  destruct (row_display m y xs c) as [Hd1 Hpx1]. cbn zeta in Hd1, Hpx1.
  destruct (IH (foldl (λ c x,
                         let colour :=
                           if bool_decide (Maze.get (Maze.grid m) x y ≠ 0)
                           then PALETTE.passage else PALETTE.wall in
                         (_draw_rect x y colour "" c).2) c xs)) as [Hd Hpx].
  cbn zeta in Hd, Hpx. rewrite Hd, Hpx, Hd1, Hpx1.
  split; [|done]. by rewrite bind_cons, <- app_assoc.
Qed.

Lemma delete_all (c : t) : display (delete [Tag "all"] c) = [].
Proof.
  unfold delete. cbn. induction (display c) as [|e d IH]; [done|].
  rewrite filter_cons. destruct (decide _) as [Hk|_]; [|done].
  apply Forall_cons in Hk as [Hk _]. destruct Hk. by left.
Qed.

Lemma draw_maze_display (m : Maze.t) (c : t) :
  (display (draw_maze m c)).*2
  = mkItem Rectangle
           (0, 0, (Maze.w m + 2) * cell_px c, (Maze.h m + 2) * cell_px c)
           "black" ""
    :: (range 0 (Maze.h m)
          ≫= λ y, (λ x, cell_rect (cell_px c) m (x, y))
                    <$> range 0 (Maze.w m))
  ∧ cell_px (draw_maze m c) = cell_px c.
Proof.
  unfold draw_maze.
  set (c1 := delete [Tag "all"] (reset_path (set_maze (Some m) c))).
  set (c2 := (create _ c1).2).
  destruct (rows_display m (range 0 (Maze.w m)) (range 0 (Maze.h m)) c2)
    as [Hd Hpx].
  cbn zeta in *. rewrite Hd, Hpx. split; [|done].
  assert (cell_px c2 = cell_px c) as -> by done.
  assert ((display c2).*2
          = [mkItem Rectangle
               (0, 0, (Maze.w m + 2) * cell_px c, (Maze.h m + 2) * cell_px c)
               "black" ""]) as ->; [|done].
  unfold c2. cbn [create snd display].
  change (display c1) with
    (display (delete [Tag "all"] (reset_path (set_maze (Some m) c)))).
  by rewrite delete_all.
Qed.







(** *** Resizing *)

Lemma draw_rects_fields {A} (f : t → A → Item) (l : list A) (c : t) :
  let c' := foldl (λ c a, (create (f c a) c).2) c l in
  _path_objects c' = _path_objects c
  ∧ _visited_objects c' = _visited_objects c
  ∧ _current_path c' = _current_path c
  ∧ maze c' = maze c.
Proof.
  revert c. induction l as [|a l IH]; intros c; [done|].
  cbn zeta. cbn [foldl].
  destruct (IH (create (f c a) c).2) as (-> & -> & -> & ->). done.
Qed.

Lemma draw_maze_fields (m : Maze.t) (c : t) :
  _path_objects (draw_maze m c) = ∅
  ∧ _visited_objects (draw_maze m c) = ∅
  ∧ _current_path (draw_maze m c) = []
  ∧ maze (draw_maze m c) = Some m.
Proof.
  unfold draw_maze.
  set (c2 := (create _ _).2).
  assert (_path_objects c2 = ∅ ∧ _visited_objects c2 = ∅
          ∧ _current_path c2 = [] ∧ maze c2 = Some m) as Hc2 by done.
  revert Hc2. generalize c2. clear c2.
  induction (range 0 (Maze.h m)) as [|y ys IH]; intros c2 Hc2; [done|].
  cbn [foldl]. apply IH.
  destruct (draw_rects_fields
              (λ c x, mkItem Rectangle
                        ((x + 1) * cell_px c, (y + 1) * cell_px c,
                         (x + 2) * cell_px c, (y + 2) * cell_px c)
                        (if bool_decide (Maze.get (Maze.grid m) x y ≠ 0)
                         then PALETTE.passage else PALETTE.wall) "")
              (range 0 (Maze.w m)) c2) as (H1 & H2 & H3 & H4).
  cbn zeta in *. unfold _draw_rect. by rewrite H1, H2, H3, H4.
Qed.

(** [_auto_scale] on a window larger than its margin.  The cell size it
    leaves is within one pixel of the size it computes, which lies between
    4 and 40; the frame of a maze drawn at the computed size fits into the
    window less the margin unless the size is the minimum of 4; when the
    cell size changes it is the computed one, and the maze has been redrawn
    with empty overlays; and a second call with the same window changes
    nothing. *)
Theorem auto_scale_fits (m : Maze.t) (start goal : Node)
    (winfo_width winfo_height : Z) (c : t) :
  1 ≤ Maze.w m → 1 ≤ Maze.h m → 20 < winfo_width → 20 < winfo_height →
  let optimal :=
    Z.max 4 (Z.min (Z.min ((winfo_width - 20) `div` (Maze.w m + 2))
                          ((winfo_height - 20) `div` (Maze.h m + 2))) 40) in
  let c' :=
    Resizing._auto_scale (Some m) start goal winfo_width winfo_height c in
  4 ≤ optimal ≤ 40
  ∧ Z.abs (cell_px c' - optimal) ≤ 1
  ∧ (optimal ≠ 4 →
       (Maze.w m + 2) * optimal ≤ winfo_width - 20
       ∧ (Maze.h m + 2) * optimal ≤ winfo_height - 20)
  ∧ (cell_px c' ≠ cell_px c →
       cell_px c' = optimal ∧ _current_path c' = []
       ∧ _path_objects c' = ∅ ∧ _visited_objects c' = ∅
       ∧ maze c' = Some m)
  ∧ Resizing._auto_scale (Some m) start goal winfo_width winfo_height c' = c'.
Proof.
  intros Hw Hh Hww Hwh optimal c'.
  assert (4 ≤ optimal ≤ 40) as Hopt by (subst optimal; lia).
  assert (cell_px (draw_markers start goal
                     (draw_maze m (set_cell_px optimal c))) = optimal)
    as Hpx.
  { destruct (draw_maze_display m (set_cell_px optimal c)) as [_ Hpx].
    destruct start, goal. exact Hpx. }
  assert (c' = if bool_decide (Z.abs (cell_px c - optimal) > 1)
               then draw_markers start goal
                      (draw_maze m (set_cell_px optimal c))
               else c) as Hc'.
  { subst c'. unfold Resizing._auto_scale.
    by rewrite bool_decide_eq_false_2 by lia. }
  split_and!; [lia|lia| | | |].
  - rewrite Hc'. case_bool_decide; [rewrite Hpx|]; lia.
  - intros Hne.
    assert (0 < Maze.w m + 2) as Hw2 by lia.
    assert (0 < Maze.h m + 2) as Hh2 by lia.
    pose proof (Z.mul_div_le (winfo_width - 20) _ Hw2) as Ha.
    pose proof (Z.mul_div_le (winfo_height - 20) _ Hh2) as Hb.
    assert (optimal ≤ (winfo_width - 20) `div` (Maze.w m + 2)
            ∧ optimal ≤ (winfo_height - 20) `div` (Maze.h m + 2)) as [? ?]
      by (subst optimal; lia).
    split; nia.
  - rewrite Hc'. case_bool_decide; [|done]. intros _.
    split; [done|].
    destruct (draw_maze_fields m (set_cell_px optimal c)) as (? & ? & ? & ?).
    by destruct start, goal.
  - unfold Resizing._auto_scale.
    rewrite bool_decide_eq_false_2 by lia. fold optimal.
    rewrite Hc'. case_bool_decide as Hfar.
    + rewrite Hpx. rewrite bool_decide_eq_false_2; [done|lia].
    + by rewrite bool_decide_eq_false_2.
Qed.

Lemma auto_scale_fits_witness :
  let m := Maze.mk 25 25 (replicate 25 (replicate 25 0)) in
  let optimal :=
    Z.max 4 (Z.min (Z.min ((700 - 20) `div` (Maze.w m + 2))
                          ((600 - 20) `div` (Maze.h m + 2))) 40) in
  let c' := Resizing._auto_scale (Some m) (0, 0) (24, 24) 700 600 init in
  4 ≤ optimal ≤ 40
  ∧ Z.abs (cell_px c' - optimal) ≤ 1
  ∧ (optimal ≠ 4 →
       (Maze.w m + 2) * optimal ≤ 700 - 20
       ∧ (Maze.h m + 2) * optimal ≤ 600 - 20)
  ∧ (cell_px c' ≠ cell_px init →
       cell_px c' = optimal ∧ _current_path c' = []
       ∧ _path_objects c' = ∅ ∧ _visited_objects c' = ∅
       ∧ maze c' = Some m)
  ∧ Resizing._auto_scale (Some m) (0, 0) (24, 24) 700 600 c' = c'.
Proof.
  apply (auto_scale_fits (Maze.mk 25 25 (replicate 25 (replicate 25 0)))
           (0, 0) (24, 24) 700 600 init); simpl; lia.
Defined.

End CanvasProofs.

(** ** The speed label *)

Module ControlsProofs.
Import Controls MazeApp.

Lemma int_ge_100 (value : Q) : 100 ≤ int value ↔ Qle_bool 100 value = true.
Proof.
  unfold int. destruct value as [n d]. rewrite Qle_bool_iff.
  unfold Qle. simpl. rewrite Z.mul_1_r. split.
  - intros H.
    assert (0 ≤ n).
    { destruct (decide (0 ≤ n)); [done|].
      assert (n `quot` Z.pos d ≤ 0); [|lia].
      apply Z.quot_le_upper_bound; lia. }
    pose proof (Z.mul_quot_le n (Z.pos d)). nia.
  - intros H. apply Z.quot_le_lower_bound; lia.
Qed.

Lemma string_length_app (a b : string) :
  String.length (a +:+ b) = (String.length a + String.length b)%nat.
Proof. induction a as [|x a IH]; simpl; [done|]. by rewrite IH. Qed.

(** The label and the playback agree on full speed.  Whatever value the
    slider reports, the label reads "Speed: Max" exactly when
    [_calc_delay_batch] returns the instant delay of zero for that value;
    below, the label shows the percentage with its fraction cut off. *)
Theorem speed_label_max (delay_curve : Q → Z) (value : Q) (cell_count : Z)
    (solving : bool) :
  (_update_speed_label value = "Speed: Max"
   ↔ (_calc_delay_batch delay_curve value cell_count solving).1 = 0)
  ∧ (int value < 100 →
       ∃ band, band ∈ ["Very Fast"; "Fast"; "Medium"; "Slow"; "Very Slow"]
         ∧ _update_speed_label value
           = "Speed: " +:+ pretty (int value) +:+ "% (" +:+ band +:+ ")").
Proof.
  assert (int value < 100 →
          ∃ band, band ∈ ["Very Fast"; "Fast"; "Medium"; "Slow"; "Very Slow"]
            ∧ _update_speed_label value
              = "Speed: " +:+ pretty (int value) +:+ "% (" +:+ band +:+ ")")
    as Hbelow.
  { intros Hlt. unfold _update_speed_label, _SPEED_LABELS. cbn [omap list_omap].
    rewrite (bool_decide_eq_false_2 (int value >= 100)) by lia.
    destruct (decide (int value >= 90)).
    { rewrite (bool_decide_eq_true_2 (int value >= 90)) by done.
      exists "Very Fast". split; [set_solver|]. cbn.
      reflexivity. }
    rewrite (bool_decide_eq_false_2 (int value >= 90)) by done.
    destruct (decide (int value >= 70)).
    { rewrite (bool_decide_eq_true_2 (int value >= 70)) by done.
      exists "Fast". split; [set_solver|]. cbn.
      reflexivity. }
    rewrite (bool_decide_eq_false_2 (int value >= 70)) by done.
    destruct (decide (int value >= 30)).
    { rewrite (bool_decide_eq_true_2 (int value >= 30)) by done.
      exists "Medium". split; [set_solver|]. cbn.
      reflexivity. }
    rewrite (bool_decide_eq_false_2 (int value >= 30)) by done.
    destruct (decide (int value >= 10)).
    { rewrite (bool_decide_eq_true_2 (int value >= 10)) by done.
      exists "Slow". split; [set_solver|]. cbn.
      reflexivity. }
    rewrite (bool_decide_eq_false_2 (int value >= 10)) by done.
    exists "Very Slow". split; [set_solver|]. cbn.
    reflexivity. }
  split; [|done].
  unfold _calc_delay_batch.
  destruct (Qle_bool 100 value) eqn:Hfull.
  - apply int_ge_100 in Hfull. split; [done|]. intros _.
    unfold _update_speed_label, _SPEED_LABELS. cbn [omap list_omap].
    by rewrite (bool_decide_eq_true_2 (int value >= 100)) by lia.
  - assert (int value < 100) as Hlt.
    { destruct (decide (100 ≤ int value)) as [H%int_ge_100|]; [|lia].
      congruence. }
    destruct (Hbelow Hlt) as (band & _ & ->). cbn [fst]. split; [|lia].
    intros Heq. apply (f_equal String.length) in Heq.
    rewrite !string_length_app in Heq. simpl in Heq. lia.
Qed.

End ControlsProofs.
